(** * object-diff: a shallow embedding of the schema-driven diff engine

    The development follows
    [packages/object-diff/src/app/services/object-diff-service.ts],
    [packages/object-diff/src/app/helpers/property-descriptors.ts],
    [packages/object-diff/src/app/helpers/car-type-descriptor-registry.ts]
    and [packages/object-diff/src/app/object-diff-example.ts].

    Modelling conventions.
    - A JavaScript value is a [value]: [undefined], [null], booleans,
      integer-valued numbers ([Z], printed in plain decimal), strings,
      arrays and plain records.  A record is an association list in
      insertion order, which is what [JSON.stringify] and [for .. in]
      observe.  Only own data properties are modelled: property names are
      taken to differ from the members inherited from [Object.prototype],
      from the index and [length] properties of strings and arrays, and
      from canonical array indices.  Strings are compared and lower-cased
      as ASCII.
    - The lodash functions the service imports are modelled by what they
      compute on these values ([sortBy] on strings, [intersection], [find],
      [isEqual], [isNil], [size]); [sortBy] on the items of a primitive
      array is a parameter of the walk.
    - A [throw] is the [Throw] outcome; the logger is a list of the messages
      passed to its [error] method, most recent last.
    - The objects the service mutates ([changeResult], the snapshot under
      construction) are passed in and returned.
    - The recursion on nested descriptors is indexed by fuel; [diff] and
      [snapshot] start it with the depth of the descriptor, which is always
      enough. *)

From Stdlib Require Import List String Ascii ZArith Bool Lia Permutation.
From Stdlib Require Import DecimalString.
Import ListNotations.
Open Scope string_scope.
Open Scope Z_scope.

(* ================================================================= *)
(** ** JavaScript values *)

Unset Elimination Schemes.
Inductive value : Type :=
| VUndefined
| VNull
| VBool (b : bool)
| VNum (n : Z)
| VStr (s : string)
| VArr (items : list value)
| VObj (fields : list (string * value)).
Set Elimination Schemes.

(** Induction over values that reaches inside arrays and records. *)
Section ValueInd.
Variable P : value -> Prop.
Hypothesis Hundef : P VUndefined.
Hypothesis Hnull : P VNull.
Hypothesis Hbool : forall b, P (VBool b).
Hypothesis Hnum : forall n, P (VNum n).
Hypothesis Hstr : forall s, P (VStr s).
Hypothesis Harr : forall l, Forall P l -> P (VArr l).
Hypothesis Hobj : forall fs, Forall (fun kv => P (snd kv)) fs -> P (VObj fs).

Fixpoint value_ind (v : value) : P v :=
  match v with
  | VUndefined => Hundef
  | VNull => Hnull
  | VBool b => Hbool b
  | VNum n => Hnum n
  | VStr s => Hstr s
  | VArr l =>
      Harr l ((fix go (l : list value) : Forall P l :=
               match l with
               | [] => Forall_nil _
               | x :: r => Forall_cons x (value_ind x) (go r)
               end) l)
  | VObj fs =>
      Hobj fs ((fix go (fs : list (string * value))
               : Forall (fun kv => P (snd kv)) fs :=
               match fs with
               | [] => Forall_nil _
               | kv :: r => Forall_cons kv (value_ind (snd kv)) (go r)
               end) fs)
  end.
End ValueInd.

(** Errors a JavaScript caller can observe: [Error(msg)] raised by the
    service, and the [TypeError] of reading a property of [null] or
    [undefined]. *)
Inductive exn : Type :=
| Error (msg : string)
| TypeError.

(** Outcome of a computation that may throw.  [OutOfFuel] only arises in the
    fuel-indexed walks below; [diff] supplies enough fuel (see
    [diff_never_out_of_fuel]). *)
Inductive result (A : Type) : Type :=
| Ok (a : A)
| Throw (e : exn)
| OutOfFuel.
Arguments Ok {A} a.
Arguments Throw {A} e.
Arguments OutOfFuel {A}.

Definition rbind {A B} (r : result A) (k : A -> result B) : result B :=
  match r with
  | Ok a => k a
  | Throw e => Throw e
  | OutOfFuel => OutOfFuel
  end.

(** Association-list view of a record. *)
Fixpoint assoc {A} (k : string) (fs : list (string * A)) : option A :=
  match fs with
  | [] => None
  | (k', v) :: r => if String.eqb k k' then Some v else assoc k r
  end.

(** [obj[k] = v]: overwrite in place when the key exists (the key keeps its
    position), append otherwise.  The list is in insertion order; the order
    in which JavaScript lists the keys is [own_keys] below. *)
Fixpoint assoc_set {A} (k : string) (v : A) (fs : list (string * A))
  : list (string * A) :=
  match fs with
  | [] => [(k, v)]
  | (k', v') :: r =>
      if String.eqb k k' then (k', v) :: r else (k', v') :: assoc_set k v r
  end.

(** [Object.keys(o)]. *)
Definition Object_keys {A} (fs : list (string * A)) : list string :=
  map fst fs.

(** lodash [isNil]. *)
Definition isNil (v : value) : bool :=
  match v with
  | VUndefined | VNull => true
  | _ => false
  end.

(** The value read by [v[k]] when [v] is neither [null] nor [undefined]:
    the own property of a record, [undefined] when there is none. *)
Definition field (v : value) (k : string) : value :=
  match v with
  | VObj fs => match assoc k fs with Some x => x | None => VUndefined end
  | _ => VUndefined
  end.

(** [v[k]]: a [TypeError] on [null] and [undefined]. *)
Definition prop_get (v : value) (k : string) : result value :=
  if isNil v then Throw TypeError else Ok (field v k).

(** JavaScript truthiness ([!v] is [negb (truthy v)]). *)
Definition truthy (v : value) : bool :=
  match v with
  | VUndefined | VNull => false
  | VBool b => b
  | VNum n => negb (n =? 0)
  | VStr s => negb (String.eqb s EmptyString)
  | VArr _ | VObj _ => true
  end.

(** [Array.isArray]. *)
Definition Array_isArray (v : value) : bool :=
  match v with
  | VArr _ => true
  | _ => false
  end.

(** lodash [size] of a record: the number of own keys. *)
Definition size {A} (fs : list (string * A)) : nat := List.length fs.

(* ================================================================= *)
(** ** Strings: coercion, lower-casing, ordering *)

Definition lower_ascii (c : ascii) : ascii :=
  let n := nat_of_ascii c in
  if (Nat.leb 65 n && Nat.leb n 90)%bool then ascii_of_nat (n + 32) else c.

(** [s.toLowerCase()] on ASCII text: the letters [A-Z] are folded, every
    other character is kept. *)
Fixpoint toLowerCase (s : string) : string :=
  match s with
  | EmptyString => EmptyString
  | String c r => String (lower_ascii c) (toLowerCase r)
  end.

(** Decimal rendering of an integer-valued number: what
    [Number.prototype.toString] gives for the integers a number holds
    exactly ([safe_integer] below). *)
Definition number_to_string (n : Z) : string :=
  NilZero.string_of_int (Z.to_int n).

(** [String(v)]: the coercion that never throws.  Array elements that are
    [null] or [undefined] render as the empty string inside [join]. *)
Fixpoint js_String (v : value) : string :=
  match v with
  | VUndefined => "undefined"
  | VNull => "null"
  | VBool true => "true"
  | VBool false => "false"
  | VNum n => number_to_string n
  | VStr s => s
  | VArr l =>
      String.concat ","
        (map (fun x => if isNil x then EmptyString else js_String x) l)
  | VObj _ => "[object Object]"
  end.

(** [v.toString()]: as [String(v)], except that it throws on [null] and
    [undefined]. *)
Definition toString (v : value) : result string :=
  if isNil v then Throw TypeError else Ok (js_String v).

(** [v || ''] *)
Definition or_empty (v : value) : value :=
  if truthy v then v else VStr EmptyString.

(** lodash [sortBy] on an array of strings (identity iteratee): ascending
    code-unit order; a stable insertion sort gives the same array as any
    other stable sort. *)
Fixpoint insert_sorted (s : string) (l : list string) : list string :=
  match l with
  | [] => [s]
  | x :: r => if String.leb s x then s :: l else x :: insert_sorted s r
  end.

Definition sortBy (l : list string) : list string :=
  fold_right insert_sorted [] l.

(** Ascending order of adjacent elements. *)
Inductive ascending : list string -> Prop :=
| asc_nil : ascending []
| asc_one : forall x, ascending [x]
| asc_cons : forall x y l,
    String.leb x y = true -> ascending (y :: l) -> ascending (x :: y :: l).

(** Every element precedes all later ones. *)
Inductive ordered : list string -> Prop :=
| ordered_nil : ordered []
| ordered_cons : forall x l,
    (forall y, In y l -> String.leb x y = true) -> ordered l -> ordered (x :: l).

(** [arr.includes(x)] and lodash [intersection(a, b)], both of which compare
    with SameValueZero; [eqb] is that comparison on the element type.
    [intersection] keeps the unique values of [a] that occur in [b], in the
    order of their first occurrence in [a]. *)
Section SameValueZero.
Variable A : Type.
Variable eqb : A -> A -> bool.

Definition includes (l : list A) (x : A) : bool :=
  existsb (eqb x) l.

Fixpoint intersection_acc (seen a b : list A) : list A :=
  match a with
  | [] => []
  | x :: r =>
      if (includes b x && negb (includes seen x))%bool
      then x :: intersection_acc (x :: seen) r b
      else intersection_acc seen r b
  end.

Definition intersection (a b : list A) : list A :=
  intersection_acc [] a b.
End SameValueZero.
Arguments includes {A} eqb l x.
Arguments intersection_acc {A} eqb seen a b.
Arguments intersection {A} eqb a b.

(* ================================================================= *)
(** ** [JSON.stringify] and lodash [isEqual] *)

Definition dquote : string := String "034"%char EmptyString.
Definition backslash : string := String "092"%char EmptyString.

Definition hex_digit (n : nat) : ascii :=
  if Nat.ltb n 10 then ascii_of_nat (48 + n) else ascii_of_nat (87 + n).

(** One character inside a JSON string literal. *)
Definition json_escape_char (c : ascii) : string :=
  let n := nat_of_ascii c in
  if Nat.eqb n 34 then backslash ++ dquote
  else if Nat.eqb n 92 then backslash ++ backslash
  else if Nat.eqb n 8 then backslash ++ "b"
  else if Nat.eqb n 9 then backslash ++ "t"
  else if Nat.eqb n 10 then backslash ++ "n"
  else if Nat.eqb n 12 then backslash ++ "f"
  else if Nat.eqb n 13 then backslash ++ "r"
  else if Nat.ltb n 32 then
    backslash ++ "u00" ++
    String (hex_digit (Nat.div n 16)) (String (hex_digit (Nat.modulo n 16)) EmptyString)
  else String c EmptyString.

Fixpoint json_escape (s : string) : string :=
  match s with
  | EmptyString => EmptyString
  | String c r => json_escape_char c ++ json_escape r
  end.

Definition json_quote (s : string) : string :=
  dquote ++ json_escape s ++ dquote.

(** [JSON.stringify(v)]; [None] is the [undefined] it returns for
    [undefined].  Inside an array [undefined] prints as [null]; inside a
    record a key whose value is [undefined] is left out. *)
Fixpoint JSON_stringify (v : value) : option string :=
  match v with
  | VUndefined => None
  | VNull => Some "null"
  | VBool true => Some "true"
  | VBool false => Some "false"
  | VNum n => Some (number_to_string n)
  | VStr s => Some (json_quote s)
  | VArr l =>
      Some ("[" ++
            String.concat ","
              (map (fun x => match JSON_stringify x with
                             | Some t => t
                             | None => "null"
                             end) l)
            ++ "]")
  | VObj fs =>
      Some ("{" ++
            String.concat ","
              ((fix members (fs : list (string * value)) : list string :=
                  match fs with
                  | [] => []
                  | (k, x) :: r =>
                      match JSON_stringify x with
                      | Some t => (json_quote k ++ ":" ++ t) :: members r
                      | None => members r
                      end
                  end) fs)
            ++ "}")
  end.

(** SameValueZero on the results of [JSON.stringify]. *)
Definition opt_string_eqb (a b : option string) : bool :=
  match a, b with
  | Some x, Some y => String.eqb x y
  | None, None => true
  | _, _ => false
  end.

(** lodash [isEqual]: deep equality; records are compared by their key sets,
    whatever the order of the keys. *)
Fixpoint isEqual (a b : value) : bool :=
  match a, b with
  | VUndefined, VUndefined => true
  | VNull, VNull => true
  | VBool x, VBool y => Bool.eqb x y
  | VNum x, VNum y => (x =? y)%Z
  | VStr x, VStr y => String.eqb x y
  | VArr l, VArr m =>
      (fix all2 (l m : list value) : bool :=
         match l, m with
         | [], [] => true
         | x :: l', y :: m' => (isEqual x y && all2 l' m')%bool
         | _, _ => false
         end) l m
  | VObj f, VObj g =>
      (Nat.eqb (List.length f) (List.length g) &&
       (fix each (f : list (string * value)) : bool :=
          match f with
          | [] => true
          | (k, x) :: f' =>
              (match assoc k g with
               | Some y => isEqual x y
               | None => false
               end && each f')%bool
          end) f)%bool
  | _, _ => false
  end.

(* ================================================================= *)
(** ** Descriptors ([property-descriptors.ts]) *)

Inductive PropertyType : Type :=
| TBoolean
| TNumber
| TString
| TComplex.

(** [primaryKey?: keyof T | (keyof T)[]] *)
Inductive PrimaryKey : Type :=
| PkOne (k : string)
| PkMany (ks : list string).

Inductive TypeDescriptor : Type :=
| MkTypeDescriptor
    (name : string)
    (properties : list (string * PropertyDescriptor))
    (primaryKey : option PrimaryKey)
with PropertyDescriptor : Type :=
| MkPropertyDescriptor
    (type : PropertyType)
    (descriptor : option TypeDescriptor)
    (name : option string).

Definition td_name (d : TypeDescriptor) : string :=
  let (n, _, _) := d in n.
Definition td_properties (d : TypeDescriptor) : list (string * PropertyDescriptor) :=
  let (_, ps, _) := d in ps.
Definition td_primaryKey (d : TypeDescriptor) : option PrimaryKey :=
  let (_, _, pk) := d in pk.
Definition pd_type (p : PropertyDescriptor) : PropertyType :=
  let (t, _, _) := p in t.
Definition pd_descriptor (p : PropertyDescriptor) : option TypeDescriptor :=
  let (_, d, _) := p in d.
Definition pd_name (p : PropertyDescriptor) : option string :=
  let (_, _, n) := p in n.

Module PropertyDescriptors.
Definition boolean : PropertyDescriptor := MkPropertyDescriptor TBoolean None None.
Definition complex (descriptor : TypeDescriptor) : PropertyDescriptor :=
  MkPropertyDescriptor TComplex (Some descriptor) None.
Definition number : PropertyDescriptor := MkPropertyDescriptor TNumber None None.
Definition string : PropertyDescriptor := MkPropertyDescriptor TString None None.
End PropertyDescriptors.

Module TypeDescriptors.
(** [create] binds every property descriptor's [name] to its key.
    Descriptors are values here, which is the outcome of the assignment
    [property.name = key] when no property descriptor object is referred to
    by two keys; the assignment itself is [InPlace.create] below. *)
Definition create (config : TypeDescriptor) : TypeDescriptor :=
  MkTypeDescriptor (td_name config)
    (map (fun kp => (fst kp,
                     MkPropertyDescriptor (pd_type (snd kp))
                       (pd_descriptor (snd kp)) (Some (fst kp))))
         (td_properties config))
    (td_primaryKey config).
End TypeDescriptors.

(** Nesting depth of a descriptor; the fuel [diff] hands to the walk. *)
Fixpoint td_depth (d : TypeDescriptor) : nat :=
  match d with
  | MkTypeDescriptor _ ps _ =>
      fold_right Nat.max O
        (map (fun kp : string * PropertyDescriptor =>
                match kp with
                | (_, MkPropertyDescriptor _ (Some d') _) => S (td_depth d')
                | _ => O
                end) ps)
  end.

(* ================================================================= *)
(** ** The logger side channel and the walk monad *)

(** A computation of the service: it reads and extends the list of messages
    handed to [AbstractLogger.error], and returns or throws. *)
Definition M (A : Type) : Type := list string -> result A * list string.

Definition ret {A} (a : A) : M A := fun log => (Ok a, log).

Definition bind {A B} (m : M A) (k : A -> M B) : M B :=
  fun log =>
    match m log with
    | (Ok a, log') => k a log'
    | (Throw e, log') => (Throw e, log')
    | (OutOfFuel, log') => (OutOfFuel, log')
    end.

Definition lift {A} (r : result A) : M A := fun log => (r, log).

Definition throw {A} (e : exn) : M A := lift (Throw e).

(** [this._logger.error(msg)] *)
Definition logger_error (msg : string) : M unit :=
  fun log => (Ok tt, (log ++ [msg])%list).

Declare Scope walk_scope.
Delimit Scope walk_scope with walk.
Notation "x <- m ;; k" := (bind m (fun x => k))
  (at level 100, m at next level, right associativity) : walk_scope.
Notation "m ;;; k" := (bind m (fun _ => k))
  (at level 100, right associativity) : walk_scope.
Notation "x <~ r ;; k" := (rbind r (fun x => k))
  (at level 100, r at next level, right associativity) : walk_scope.
Open Scope walk_scope.

Fixpoint mapM {A B} (f : A -> M B) (l : list A) : M (list B) :=
  match l with
  | [] => ret []
  | x :: r => y <- f x ;; ys <- mapM f r ;; ret (y :: ys)
  end.

Fixpoint rmap {A B} (f : A -> result B) (l : list A) : result (list B) :=
  match l with
  | [] => Ok []
  | x :: r => y <~ f x ;; ys <~ rmap f r ;; Ok (y :: ys)
  end.

Fixpoint rfilter {A} (p : A -> result bool) (l : list A) : result (list A) :=
  match l with
  | [] => Ok []
  | x :: r =>
      b <~ p x ;; ys <~ rfilter p r ;; Ok (if b then x :: ys else ys)
  end.

Fixpoint rfind {A} (p : A -> result bool) (l : list A) : result (option A) :=
  match l with
  | [] => Ok None
  | x :: r => b <~ p x ;; if b then Ok (Some x) else rfind p r
  end.

(* ================================================================= *)
(** ** [ObjectDiffService]: the array reconciler *)

(** [_toArray]: [undefined] for a missing (or empty-string) primary key. *)
Definition _toArray (value : option PrimaryKey) : option (list string) :=
  match value with
  | None => None
  | Some (PkOne k) => if String.eqb k EmptyString then None else Some [k]
  | Some (PkMany ks) => Some ks
  end.

(** The [for] loop of [_getPrimaryKeyValue]; [acc] is its [result]
    variable. *)
Fixpoint primaryKey_loop (item : value) (keys : list string) (acc : string)
  : result string :=
  match keys with
  | [] => Ok acc
  | primaryKey :: rest =>
      v <~ prop_get item primaryKey ;;
      s <~ toString (or_empty v) ;;
      primaryKey_loop item rest (acc ++ primaryKey ++ ":" ++ toLowerCase s ++ ";")
  end.

(** [_getPrimaryKeyValue] *)
Definition _getPrimaryKeyValue (item : value) (primaryKeys : list string)
  : result string :=
  primaryKey_loop item (sortBy primaryKeys) EmptyString.

(** [_getPrimaryKeyValues] *)
Definition _getPrimaryKeyValues (items : list value) (primaryKeys : list string)
  : result (list string) :=
  keyValues <~ rmap (fun item => _getPrimaryKeyValue item primaryKeys) items ;;
  Ok (sortBy keyValues).

Record InBoth : Type := MkInBoth {
  primaryKey : string;
  from : value;
  to : value
}.

Record Changes : Type := MkChanges {
  removed : list value;
  added : list value;
  inBoth : list InBoth
}.

Definition uh_oh : string := "Uh oh...something didn't go right".

(** [_getChanges] *)
Definition _getChanges (fromArray toArray : list value) (primaryKeys : list string)
  : result Changes :=
  fromKeyValues <~ _getPrimaryKeyValues fromArray primaryKeys ;;
  toKeyValues <~ _getPrimaryKeyValues toArray primaryKeys ;;
  let matched := intersection String.eqb fromKeyValues toKeyValues in
  let unmatched item :=
    k <~ _getPrimaryKeyValue item primaryKeys ;;
    Ok (negb (includes String.eqb matched k)) in
  let has_key keyValue item :=
    k <~ _getPrimaryKeyValue item primaryKeys ;;
    Ok (String.eqb k keyValue) in
  removed <~ rfilter unmatched fromArray ;;
  added <~ rfilter unmatched toArray ;;
  inBoth <~ rmap (fun keyValue =>
                    from <~ rfind (has_key keyValue) fromArray ;;
                    to <~ rfind (has_key keyValue) toArray ;;
                    match from, to with
                    | Some f, Some t =>
                        if (truthy f && truthy t)%bool
                        then Ok (MkInBoth keyValue f t)
                        else Throw (Error uh_oh)
                    | _, _ => Throw (Error uh_oh)
                    end) matched ;;
  Ok (MkChanges removed added inBoth).

(** The canonical key as a closed expression: for each primary-key name in
    sorted order, the name, a colon, the lower-cased text of the element's
    value (a falsy value first replaced by the empty string) and a
    semicolon. *)
Definition key_part (item : value) (primaryKey : string) : string :=
  primaryKey ++ ":" ++ toLowerCase (js_String (or_empty (field item primaryKey))) ++ ";".

Definition canonical_key (item : value) (primaryKeys : list string) : string :=
  fold_right String.append EmptyString (map (key_part item) (sortBy primaryKeys)).

(** The canonical key as the specification words it: the name, a colon, the
    element's value string-coerced and lower-cased, a semicolon. *)
Definition spec_key_part (item : value) (primaryKey : string) : string :=
  primaryKey ++ ":" ++ toLowerCase (js_String (field item primaryKey)) ++ ";".

Definition spec_canonical_key (item : value) (primaryKeys : list string) : string :=
  fold_right String.append EmptyString (map (spec_key_part item) (sortBy primaryKeys)).

(** The pieces of [_getChanges] on elements whose key computation does not
    throw: the matched keys, the elements left unmatched, and the pair
    retrieved for a matched key. *)
Definition matched_keys (primaryKeys : list string) (fromArray toArray : list value)
  : list string :=
  intersection String.eqb
    (sortBy (map (fun item => canonical_key item primaryKeys) fromArray))
    (sortBy (map (fun item => canonical_key item primaryKeys) toArray)).

Definition unmatched_items (primaryKeys matched : list string) (items : list value)
  : list value :=
  filter (fun item =>
            negb (includes String.eqb matched (canonical_key item primaryKeys)))
    items.

Definition first_with_key (primaryKeys : list string) (keyValue : string)
    (items : list value) : option value :=
  List.find (fun item => String.eqb (canonical_key item primaryKeys) keyValue) items.

Definition pair_for (primaryKeys : list string) (fromArray toArray : list value)
    (keyValue : string) : result InBoth :=
  match first_with_key primaryKeys keyValue fromArray,
        first_with_key primaryKeys keyValue toArray with
  | Some f, Some t =>
      if (truthy f && truthy t)%bool
      then Ok (MkInBoth keyValue f t)
      else Throw (Error uh_oh)
  | _, _ => Throw (Error uh_oh)
  end.

(** Input conditions used by the statements below. *)
Definition not_nil (v : value) : bool := negb (isNil v).

(** Two characters that are the same letter of [A-Z]/[a-z] in either case,
    or the same character. *)
Definition is_upper (c : ascii) : bool :=
  let n := nat_of_ascii c in (Nat.leb 65 n && Nat.leb n 90)%bool.

Definition is_lower (c : ascii) : bool :=
  let n := nat_of_ascii c in (Nat.leb 97 n && Nat.leb n 122)%bool.

Definition same_letter (c d : ascii) : bool :=
  (Ascii.eqb c d
   || (is_upper c && is_lower d && Nat.eqb (nat_of_ascii d) (nat_of_ascii c + 32))
   || (is_lower c && is_upper d && Nat.eqb (nat_of_ascii c) (nat_of_ascii d + 32)))%bool.

(** Two strings that differ only in letter case: the same length, and at
    every position the same letter in either case or the same character. *)
Fixpoint differ_only_in_case (a b : string) : bool :=
  match a, b with
  | EmptyString, EmptyString => true
  | String c a', String d b' => (same_letter c d && differ_only_in_case a' b')%bool
  | _, _ => false
  end.

(** Two primary-key values that are strings differing only in letter
    case. *)
Definition case_variants (v w : value) : bool :=
  match v, w with
  | VStr a, VStr b => differ_only_in_case a b
  | _, _ => false
  end.

(* ================================================================= *)
(** ** [ObjectDiffService]: snapshot projector and recursive walk *)

Definition ChangeResult : Type := list (string * value).

Definition msg_need_name (descriptor : TypeDescriptor) : string :=
  "Property descriptors need a property name (property: '" ++
  td_name descriptor ++ "').".

Definition msg_need_descriptor (descriptor : TypeDescriptor) (name : string) : string :=
  "Property descriptors for complex properties need a type descriptor (property: '" ++
  td_name descriptor ++ "." ++ name ++ "').".

Definition msg_need_primaryKey (descriptor : TypeDescriptor) (name : string) : string :=
  "Property descriptors for complex arrays need a primaryKey (property: '" ++
  td_name descriptor ++ "." ++ name ++ "').".

Definition msg_non_array (name : string) : string :=
  "Unexpected non-array complex type: '" ++ name ++ "'".

(** [!propertyDescriptorName]: the bound name, unless it is missing or
    empty. *)
Definition bound_name (p : PropertyDescriptor) : option string :=
  match pd_name p with
  | Some n => if String.eqb n EmptyString then None else Some n
  | None => None
  end.

(** [descriptor.properties[key]] for a key taken from [Object.keys]. *)
Definition property_of (descriptor : TypeDescriptor) (key : string)
  : PropertyDescriptor :=
  match assoc key (td_properties descriptor) with
  | Some p => p
  | None => MkPropertyDescriptor TString None None
  end.

(** [!changeResult[name]], for a name that is not inherited from
    [Object.prototype] ([inherited] below). *)
Definition entry_missing (changeResult : ChangeResult) (name : string) : bool :=
  match assoc name changeResult with
  | Some v => negb (truthy v)
  | None => true
  end.

(** The body of [_processComplexTypeTransformations], with the recursive
    call on an array element abstracted as [self].  [result] is the record
    being filled; the returned record is its final state.  [root] is
    threaded through as in the source. *)
Section Projector.
Variable self :
  list (string * value) -> value -> value -> TypeDescriptor ->
  M (list (string * value)).

Fixpoint transform_keys (root property : value) (descriptor : TypeDescriptor)
    (keys : list string) (result : list (string * value))
  : M (list (string * value)) :=
  match keys with
  | [] => ret result
  | key :: rest =>
      let propertyDescriptor := property_of descriptor key in
      match bound_name propertyDescriptor with
      | None =>
          logger_error (msg_need_name descriptor) ;;;
          ret result
      | Some propertyDescriptorName =>
          propertyValue <- lift (prop_get property key) ;;
          match pd_type propertyDescriptor with
          | TComplex =>
              match pd_descriptor propertyDescriptor with
              | None =>
                  logger_error
                    (msg_need_descriptor descriptor propertyDescriptorName) ;;;
                  ret result
              | Some propertyTypeDescriptor =>
                  match propertyValue with
                  | VArr items =>
                      itemResults <-
                        mapM (fun propertyValueItem =>
                                self [] root propertyValueItem
                                  propertyTypeDescriptor) items ;;
                      transform_keys root property descriptor rest
                        (match itemResults with
                         | [] => result
                         | _ => assoc_set propertyDescriptorName
                                  (VArr (map VObj itemResults)) result
                         end)
                  | _ =>
                      if negb (isNil propertyValue)
                      then throw (Error (msg_non_array propertyDescriptorName))
                      else transform_keys root property descriptor rest result
                  end
              end
          | _ =>
              propertyValue <- lift (prop_get property propertyDescriptorName) ;;
              transform_keys root property descriptor rest
                (if negb (isNil propertyValue)
                 then assoc_set propertyDescriptorName propertyValue result
                 else result)
          end
      end
  end.
End Projector.

(** [_processComplexTypeTransformations] *)
Fixpoint _processComplexTypeTransformations (fuel : nat)
    (result : list (string * value)) (root property : value)
    (descriptor : TypeDescriptor) {struct fuel} : M (list (string * value)) :=
  match fuel with
  | O => lift OutOfFuel
  | S fuel' =>
      transform_keys (_processComplexTypeTransformations fuel') root property
        descriptor (sortBy (Object_keys (td_properties descriptor))) result
  end.

Definition removed_marker : string := "-".
Definition added_marker : string := "+".

Section Service.

(** lodash [sortBy] on the items of a primitive array (identity iteratee).
    Its ordering of arbitrary mixed values is library behaviour that the
    service does not constrain; the walk is parameterised by it. *)
Variable sortByItems : list value -> list value.

(** The projector started on a fresh record with enough fuel for
    [descriptor]. *)
Definition snapshot (root item : value) (descriptor : TypeDescriptor)
  : M (list (string * value)) :=
  _processComplexTypeTransformations (S (td_depth descriptor)) [] root item
    descriptor.

(** The entries [{'-': snapshot}] / [{'+': snapshot}] of lines 112-127. *)
Definition snapshot_entries (marker : string) (root : value)
    (descriptor : TypeDescriptor) (items : list value) : M (list value) :=
  mapM (fun item =>
          transformedItem <- snapshot root item descriptor ;;
          ret (VObj [(marker, VObj transformedItem)])) items.

(** Lines 140-142: the primary-key fields read from [change.from]. *)
Fixpoint primaryKey_fields (item : value) (primaryKeys : list string)
    (acc : ChangeResult) : result ChangeResult :=
  match primaryKeys with
  | [] => Ok acc
  | primaryKey :: more =>
      v <~ prop_get item primaryKey ;;
      primaryKey_fields item more (assoc_set primaryKey v acc)
  end.

(** Lines 138-146: the primary-key fields, then the changed
    sub-properties. *)
Definition itemChangeResultFinal (primaryKeys : list string) (change : InBoth)
    (itemChangeResult : ChangeResult) : result ChangeResult :=
  keyed <~ primaryKey_fields (from change) primaryKeys [] ;;
  Ok (fold_left (fun acc kv => assoc_set (fst kv) (snd kv) acc)
        itemChangeResult keyed).

(** Lines 148-156: create the array on first use, then push when the entry
    is an array. *)
Definition push_item (changeResult : ChangeResult) (name : string)
    (item : value) : ChangeResult :=
  let changeResult :=
    if entry_missing changeResult name
    then assoc_set name (VArr []) changeResult
    else changeResult in
  match assoc name changeResult with
  | Some (VArr l) => assoc_set name (VArr (l ++ [item])) changeResult
  | _ => changeResult
  end.

(** Lines 172-197: a primitive property whose two values are arrays. *)
Definition primitive_arrays (changeResult : ChangeResult) (name : string)
    (fromItems toItems : list value) : ChangeResult :=
  let matched :=
    intersection opt_string_eqb
      (map JSON_stringify fromItems) (map JSON_stringify toItems) in
  let unmatched item :=
    negb (includes opt_string_eqb matched (JSON_stringify item)) in
  let removedItems := filter unmatched fromItems in
  let addedItems := filter unmatched toItems in
  match removedItems, addedItems with
  | [], [] => changeResult
  | _, _ =>
      assoc_set name
        (VArr
           ((match removedItems with
             | [] => []
             | _ => [VObj [(removed_marker, VArr (sortByItems removedItems))]]
             end) ++
            (match addedItems with
             | [] => []
             | _ => [VObj [(added_marker, VArr (sortByItems addedItems))]]
             end)))
        changeResult
  end.

(** The body of [_processChanges], with the recursive call on a matched
    pair abstracted as [self]. *)
Section Walk.
Variable self :
  ChangeResult -> value -> value -> value -> value -> TypeDescriptor ->
  M ChangeResult.
Variables fromRoot toRoot : value.

(** Lines 132-158. *)
Fixpoint matched_pairs (name : string) (primaryKeys : list string)
    (propertyTypeDescriptor : TypeDescriptor) (changes : list InBoth)
    (changeResult : ChangeResult) : M ChangeResult :=
  match changes with
  | [] => ret changeResult
  | change :: more =>
      itemChangeResult <-
        self [] fromRoot toRoot (from change) (to change)
          propertyTypeDescriptor ;;
      if Nat.ltb 0 (size itemChangeResult)
      then
        final <- lift (itemChangeResultFinal primaryKeys change itemChangeResult) ;;
        matched_pairs name primaryKeys propertyTypeDescriptor more
          (push_item changeResult name (VObj final))
      else
        matched_pairs name primaryKeys propertyTypeDescriptor more changeResult
  end.

(** Lines 109-130: the entries of the elements without a counterpart, the
    removed ones first, written when the property has no entry yet. *)
Definition emit_unmatched (changeResult : ChangeResult) (name : string)
    (propertyTypeDescriptor : TypeDescriptor)
    (removedItems addedItems : list value) : M ChangeResult :=
  match removedItems, addedItems with
  | [], [] => ret changeResult
  | _, _ =>
      if entry_missing changeResult name
      then
        removedEntries <-
          snapshot_entries removed_marker fromRoot propertyTypeDescriptor
            removedItems ;;
        addedEntries <-
          snapshot_entries added_marker toRoot propertyTypeDescriptor
            addedItems ;;
        ret (assoc_set name (VArr (removedEntries ++ addedEntries))
               changeResult)
      else ret changeResult
  end.

(** Lines 106-158: a complex property whose two values are arrays. *)
Definition complex_arrays (changeResult : ChangeResult) (name : string)
    (primaryKeys : list string) (propertyTypeDescriptor : TypeDescriptor)
    (fromItems toItems : list value) : M ChangeResult :=
  changes <- lift (_getChanges fromItems toItems primaryKeys) ;;
  changeResult <-
    emit_unmatched changeResult name propertyTypeDescriptor
      (removed changes) (added changes) ;;
  matched_pairs name primaryKeys propertyTypeDescriptor (inBoth changes)
    changeResult.

(** One iteration of the [for] loop of [_processChanges]: [inl] is an
    early [return] from the whole method, [inr] goes on to the next
    key. *)
Definition process_property (descriptor : TypeDescriptor) (from to : value)
    (key : string) (changeResult : ChangeResult)
  : M (ChangeResult + ChangeResult) :=
  let propertyDescriptor := property_of descriptor key in
  let primaryKeys :=
    _toArray (match pd_descriptor propertyDescriptor with
              | Some d => td_primaryKey d
              | None => None
              end) in
  fromPropertyValue <- lift (prop_get from key) ;;
  toPropertyValue <- lift (prop_get to key) ;;
  match bound_name propertyDescriptor with
  | None =>
      logger_error (msg_need_name descriptor) ;;;
      ret (inl changeResult)
  | Some propertyDescriptorName =>
      match pd_type propertyDescriptor with
      | TComplex =>
          match pd_descriptor propertyDescriptor with
          | None =>
              logger_error
                (msg_need_descriptor descriptor propertyDescriptorName) ;;;
              ret (inl changeResult)
          | Some propertyTypeDescriptor =>
              match primaryKeys with
              | None =>
                  logger_error
                    (msg_need_primaryKey descriptor propertyDescriptorName) ;;;
                  ret (inl changeResult)
              | Some primaryKeys =>
                  match fromPropertyValue, toPropertyValue with
                  | VArr fromItems, VArr toItems =>
                      changeResult <-
                        complex_arrays changeResult propertyDescriptorName
                          primaryKeys propertyTypeDescriptor fromItems toItems ;;
                      ret (inr changeResult)
                  | _, _ =>
                      if (negb (isNil fromPropertyValue)
                          || negb (isNil toPropertyValue))%bool
                      then throw (Error (msg_non_array propertyDescriptorName))
                      else ret (inr changeResult)
                  end
              end
          end
      | _ =>
          fromPropertyValue <- lift (prop_get from propertyDescriptorName) ;;
          toPropertyValue <- lift (prop_get to propertyDescriptorName) ;;
          match fromPropertyValue, toPropertyValue with
          | VArr fromItems, VArr toItems =>
              ret (inr (primitive_arrays changeResult propertyDescriptorName
                          fromItems toItems))
          | _, _ =>
              if negb (isEqual fromPropertyValue toPropertyValue)
              then ret (inr (assoc_set propertyDescriptorName
                               (VObj [(removed_marker, fromPropertyValue);
                                      (added_marker, toPropertyValue)])
                               changeResult))
              else ret (inr changeResult)
          end
      end
  end.

(** The [for (const key of sortBy(Object.keys(...)))] loop. *)
Fixpoint process_keys (descriptor : TypeDescriptor) (from to : value)
    (keys : list string) (changeResult : ChangeResult) : M ChangeResult :=
  match keys with
  | [] => ret changeResult
  | key :: rest =>
      step <- process_property descriptor from to key changeResult ;;
      match step with
      | inl changeResult => ret changeResult
      | inr changeResult => process_keys descriptor from to rest changeResult
      end
  end.
End Walk.

(** [_processChanges]; the returned record is the final state of
    [changeResult]. *)
Fixpoint _processChanges (fuel : nat) (changeResult : ChangeResult)
    (fromRoot toRoot from to : value) (descriptor : TypeDescriptor)
    {struct fuel} : M ChangeResult :=
  match fuel with
  | O => lift OutOfFuel
  | S fuel' =>
      process_keys (_processChanges fuel') fromRoot toRoot descriptor from to
        (sortBy (Object_keys (td_properties descriptor))) changeResult
  end.

(** [diff] *)
Definition diff (from to : value) (descriptor : TypeDescriptor)
  : M ChangeResult :=
  _processChanges (S (td_depth descriptor)) [] from to from to descriptor.

End Service.

(* ================================================================= *)
(** ** The example schema and data ([car-type-descriptor-registry.ts],
       [object-diff-example.ts]) *)

Module CarTypeDescriptorRegistry.
Definition automobileFeature : TypeDescriptor :=
  TypeDescriptors.create
    (MkTypeDescriptor "AutomobileFeature"
       [("id", PropertyDescriptors.string);
        ("name", PropertyDescriptors.string);
        ("optional", PropertyDescriptors.boolean);
        ("cost", PropertyDescriptors.number);
        ("tags", PropertyDescriptors.string)]
       (Some (PkOne "id"))).

Definition automobile : TypeDescriptor :=
  TypeDescriptors.create
    (MkTypeDescriptor "Automobile"
       [("id", PropertyDescriptors.string);
        ("make", PropertyDescriptors.string);
        ("model", PropertyDescriptors.string);
        ("year", PropertyDescriptors.number);
        ("msrp", PropertyDescriptors.number);
        ("features", PropertyDescriptors.complex automobileFeature);
        ("salePrice", PropertyDescriptors.number)]
       (Some (PkOne "id"))).

Definition automobileCollection : TypeDescriptor :=
  TypeDescriptors.create
    (MkTypeDescriptor "AutomobileCollection"
       [("cars", PropertyDescriptors.complex automobile);
        ("trucks", PropertyDescriptors.complex automobile)]
       None).
End CarTypeDescriptorRegistry.

Module ObjectDiffExample.
Definition feature_1 : value :=
  VObj [("id", VStr "feature_1");
        ("name", VStr "Power Windows");
        ("optional", VBool true);
        ("cost", VNum 2000);
        ("tags", VArr [VStr "tag_1"])].

Definition addedCar : value :=
  VObj [("id", VStr "added_car"); ("make", VStr "ford");
        ("model", VStr "fiesta"); ("year", VNum 2022); ("msrp", VNum 15000);
        ("features", VArr [feature_1])].

Definition removedCar : value :=
  VObj [("id", VStr "removed_car"); ("make", VStr "honda");
        ("model", VStr "civic"); ("year", VNum 2022); ("msrp", VNum 15000);
        ("features", VArr [feature_1])].

Definition modifiedCar : value :=
  VObj [("id", VStr "modified_car"); ("make", VStr "toyota");
        ("model", VStr "corolla"); ("year", VNum 2022); ("msrp", VNum 15000);
        ("features", VArr [feature_1])].

Definition truck : value :=
  VObj [("id", VStr "truck_1"); ("make", VStr "toyota");
        ("model", VStr "tacoma"); ("year", VNum 2022); ("msrp", VNum 15000);
        ("features", VArr [feature_1])].

(** [{...modifiedCar, msrp: 16000, salePrice: 14000}] *)
Definition modifiedCar_to : value :=
  match modifiedCar with
  | VObj fs => VObj (assoc_set "salePrice" (VNum 14000)
                       (assoc_set "msrp" (VNum 16000) fs))
  | v => v
  end.

Definition from : value :=
  VObj [("cars", VArr [removedCar; modifiedCar]); ("trucks", VArr [truck])].

Definition to : value :=
  VObj [("cars", VArr [addedCar; modifiedCar_to]); ("trucks", VArr [])].

(** [ObjectDiffExample.diff()] *)
Definition diff (sortByItems : list value -> list value) : M ChangeResult :=
  diff sortByItems from to CarTypeDescriptorRegistry.automobileCollection.
End ObjectDiffExample.

(** lodash [sortBy] (identity iteratee) on an array whose items are all
    booleans ([false] first), all numbers (ascending) or all strings
    (ascending code units); it is stable.  Items of any other shape, which
    the property kinds do not allow, are left where they are. *)
Definition item_leb (a b : value) : bool :=
  match a, b with
  | VBool x, VBool y => implb x y
  | VNum x, VNum y => (x <=? y)%Z
  | VStr x, VStr y => String.leb x y
  | _, _ => true
  end.

Fixpoint insert_item (v : value) (l : list value) : list value :=
  match l with
  | [] => [v]
  | x :: r => if item_leb v x then v :: l else x :: insert_item v r
  end.

Definition sortBy_primitives (l : list value) : list value :=
  fold_right insert_item [] l.

(** An array as the primitive property kinds type it: all its items are
    booleans, or all numbers, or all strings. *)
Definition is_boolean (v : value) : bool :=
  match v with
  | VBool _ => true
  | _ => false
  end.

Definition is_number (v : value) : bool :=
  match v with
  | VNum _ => true
  | _ => false
  end.

Definition is_string (v : value) : bool :=
  match v with
  | VStr _ => true
  | _ => false
  end.

Definition one_kind (l : list value) : bool :=
  (forallb is_boolean l || forallb is_number l || forallb is_string l)%bool.

(** JavaScript's [<=] between two items of one kind: [false] before [true],
    numbers by value, strings by code units. *)
Definition item_le (a b : value) : Prop :=
  match a, b with
  | VBool x, VBool y => Bool.le x y
  | VNum x, VNum y => (x <= y)%Z
  | VStr x, VStr y => String.leb x y = true
  | _, _ => False
  end.

(** An array in ascending order: no item is followed by a smaller one. *)
Inductive ascending_items : list value -> Prop :=
| asc_items_nil : ascending_items []
| asc_items_one : forall x, ascending_items [x]
| asc_items_cons : forall x y l,
    item_le x y -> ascending_items (y :: l) -> ascending_items (x :: y :: l).

(* ================================================================= *)
(** ** Input conditions *)

Definition is_record (v : value) : bool :=
  match v with
  | VObj _ => true
  | _ => false
  end.

Fixpoint nodup_keys (keys : list string) : bool :=
  match keys with
  | [] => true
  | k :: r => (negb (existsb (String.eqb k) r) && nodup_keys r)%bool
  end.

(** A value that a JavaScript program can build: no record has two entries
    for one key. *)
Fixpoint wf_value (v : value) : bool :=
  match v with
  | VArr l => forallb wf_value l
  | VObj fs =>
      (nodup_keys (map fst fs) &&
       forallb (fun kv : string * value => wf_value (snd kv)) fs)%bool
  | _ => true
  end.

(** A descriptor as [TypeDescriptors.create] and [PropertyDescriptors]
    produce it: the property keys are distinct, every property is bound to
    its own key and every complex property has a nested descriptor, at all
    levels. *)
Fixpoint well_bound (d : TypeDescriptor) : bool :=
  match d with
  | MkTypeDescriptor _ ps _ =>
      nodup_keys (map fst ps) &&
      forallb (fun kp : string * PropertyDescriptor =>
                 match kp with
                 | (key, MkPropertyDescriptor type nested name) =>
                     (match name with
                      | Some n => (String.eqb n key && negb (String.eqb n EmptyString))%bool
                      | None => false
                      end &&
                      match type, nested with
                      | TComplex, Some d' => well_bound d'
                      | TComplex, None => false
                      | _, _ => true
                      end)%bool
                 end) ps
  end.

(** A value structurally compatible with a descriptor: it is a record, and
    each of its complex properties is [null], [undefined] or an array of
    records compatible with the nested descriptor. *)
Fixpoint compatible (d : TypeDescriptor) (x : value) : bool :=
  match d with
  | MkTypeDescriptor _ ps _ =>
      (is_record x &&
       forallb (fun kp : string * PropertyDescriptor =>
                  match kp with
                  | (key, MkPropertyDescriptor TComplex (Some d') _) =>
                      match field x key with
                      | VArr items => forallb (compatible d') items
                      | v => isNil v
                      end
                  | _ => true
                  end) ps)%bool
  end.

(** What one property contributes to the snapshot of [element] under
    [descriptor], when [render] projects the items of a complex property:
    a primitive value that is not nil, verbatim; the rendered items of a
    complex array, when there are any; nothing otherwise. *)
Definition snapshot_contribution
    (render : value -> TypeDescriptor -> M (list (string * value)))
    (descriptor : TypeDescriptor) (element : value) (log : list string)
    (key : string) (contribution : option value) : Prop :=
  let propertyDescriptor := property_of descriptor key in
  match pd_type propertyDescriptor, pd_descriptor propertyDescriptor with
  | TComplex, Some td =>
      match field element key with
      | VArr items =>
          exists rendered,
            mapM (fun item => render item td) items log = (Ok rendered, log) /\
            List.length rendered = List.length items /\
            contribution = match rendered with
                           | [] => None
                           | _ => Some (VArr (map VObj rendered))
                           end
      | _ => contribution = None
      end
  | TComplex, None => False
  | _, _ =>
      contribution = if isNil (field element key) then None
                     else Some (field element key)
  end.

(** [self] finds no change between the two elements of a matched pair. *)
Definition quiet_pair
    (self : ChangeResult -> value -> value -> value -> value -> TypeDescriptor ->
            M ChangeResult)
    (fromRoot toRoot : value) (td : TypeDescriptor) (p : InBoth) : Prop :=
  forall log, exists log',
    self [] fromRoot toRoot (from p) (to p) td log = (Ok [], log').

(** The items of [items] whose [JSON.stringify] text is the text of no item
    of [others]. *)
Definition only_in (items others : list value) : list value :=
  filter (fun x =>
            negb (existsb (fun y => opt_string_eqb (JSON_stringify x)
                                      (JSON_stringify y)) others)) items.

(** The values of one property on the two sides give rise to no entry:
    a complex property holds nil on both sides, or two arrays that reconcile
    into pairs without a change; a primitive property holds the same
    well-formed value on both sides, or two arrays with the same items. *)
Definition quiet_property
    (self : ChangeResult -> value -> value -> value -> value -> TypeDescriptor ->
            M ChangeResult)
    (fromRoot toRoot : value) (descriptor : TypeDescriptor) (x y : value)
    (key : string) : Prop :=
  let pd := property_of descriptor key in
  forall name, bound_name pd = Some name ->
    match pd_type pd with
    | TComplex =>
        forall td pks,
          pd_descriptor pd = Some td -> _toArray (td_primaryKey td) = Some pks ->
          (isNil (field x key) = true /\ isNil (field y key) = true)
          \/ exists xs ys pairs,
               field x key = VArr xs /\ field y key = VArr ys /\
               _getChanges xs ys pks = Ok (MkChanges [] [] pairs) /\
               Forall (quiet_pair self fromRoot toRoot td) pairs
    | _ =>
        (field x name = field y name /\ wf_value (field x name) = true)
        \/ exists xs ys,
             field x name = VArr xs /\ field y name = VArr ys /\
             only_in xs ys = [] /\ only_in ys xs = []
    end.

(** The entries emitted for a primitive array property: a removed marker
    holding the sorted removed items and an added marker holding the sorted
    added items, each only when its items are not empty. *)
Definition set_markers (sortByItems : list value -> list value)
    (removedItems addedItems : list value) : list value :=
  ((match removedItems with
    | [] => []
    | _ => [VObj [(removed_marker, VArr (sortByItems removedItems))]]
    end) ++
   (match addedItems with
    | [] => []
    | _ => [VObj [(added_marker, VArr (sortByItems addedItems))]]
    end))%list.

(** A computation that does not run out of fuel. *)
Definition fueled {A} (m : M A) : Prop :=
  forall log, fst (m log) <> OutOfFuel.

(** Whether a computation threw. *)
Definition threw {A} (r : result A * list string) : bool :=
  match fst r with
  | Throw _ => true
  | _ => false
  end.

(** The record the projector returns for an element; it depends neither on
    the root nor on the log (see [snapshot_result_run]). *)
Definition snapshot_result (td : TypeDescriptor) (item : value)
  : result (list (string * value)) :=
  fst (snapshot VUndefined item td []).

(* ================================================================= *)
(** ** Results with the two sides exchanged *)

(** The entry of an element that has no counterpart. *)
Definition removed_entry (snapshot : list (string * value)) : value :=
  VObj [(removed_marker, VObj snapshot)].

Definition added_entry (snapshot : list (string * value)) : value :=
  VObj [(added_marker, VObj snapshot)].

(** The record of a matched pair: the primary-key fields, then the changed
    sub-properties written over them. *)
Definition merge_record (keyed changes : ChangeResult) : ChangeResult :=
  fold_left (fun acc kv => assoc_set (fst kv) (snd kv) acc) changes keyed.

(** [cr] with the array [entries] appended under [name], when there are
    any. *)
Definition append_entry (cr : ChangeResult) (name : string) (entries : list value)
  : ChangeResult :=
  match entries with
  | [] => cr
  | _ => (cr ++ [(name, VArr entries)])%list
  end.

(** [mirrored d cr1 cr2]: the two change results list the same properties in
    the same order, and under each property the removed and added sides are
    exchanged.  A scalar marker has its two values exchanged; the removed
    items of a primitive array are the added items of the other result and
    conversely; the removed snapshots of a complex array are the added
    snapshots of the other result and conversely, each result listing its
    removed entries first; the records of matched elements follow in the
    same order, with the same primary-key field names and mirrored
    changes. *)
Inductive mirrored (sortByItems : list value -> list value)
  : TypeDescriptor -> ChangeResult -> ChangeResult -> Prop :=
| mirrored_nil : forall d, mirrored sortByItems d [] []
| mirrored_cons : forall d name v1 v2 cr1 cr2,
    mirrored_value sortByItems d name v1 v2 ->
    mirrored sortByItems d cr1 cr2 ->
    mirrored sortByItems d ((name, v1) :: cr1) ((name, v2) :: cr2)
with mirrored_value (sortByItems : list value -> list value)
  : TypeDescriptor -> string -> value -> value -> Prop :=
| mirrored_scalar : forall d name a b,
    pd_type (property_of d name) <> TComplex ->
    mirrored_value sortByItems d name
      (VObj [(removed_marker, a); (added_marker, b)])
      (VObj [(removed_marker, b); (added_marker, a)])
| mirrored_set : forall d name removedItems addedItems,
    pd_type (property_of d name) <> TComplex ->
    mirrored_value sortByItems d name
      (VArr (set_markers sortByItems removedItems addedItems))
      (VArr (set_markers sortByItems addedItems removedItems))
| mirrored_complex : forall d name td removedSnapshots addedSnapshots records1 records2,
    pd_type (property_of d name) = TComplex ->
    pd_descriptor (property_of d name) = Some td ->
    Forall2 (mirrored_record sortByItems td) records1 records2 ->
    mirrored_value sortByItems d name
      (VArr (map removed_entry removedSnapshots ++
             map added_entry addedSnapshots ++ records1))
      (VArr (map removed_entry addedSnapshots ++
             map added_entry removedSnapshots ++ records2))
with mirrored_record (sortByItems : list value -> list value)
  : TypeDescriptor -> value -> value -> Prop :=
| mirrored_pair : forall td keyed1 keyed2 changes1 changes2,
    Object_keys keyed1 = Object_keys keyed2 ->
    changes1 <> [] ->
    mirrored sortByItems td changes1 changes2 ->
    mirrored_record sortByItems td
      (VObj (merge_record keyed1 changes1))
      (VObj (merge_record keyed2 changes2)).

(** Exchanging the two marker names everywhere in a value: the literal
    reading of swapping every removed marker with the added marker in
    place. *)
Definition swap_key (k : string) : string :=
  if String.eqb k removed_marker then added_marker
  else if String.eqb k added_marker then removed_marker
  else k.

Fixpoint swap_markers (v : value) : value :=
  match v with
  | VArr l => VArr (map swap_markers l)
  | VObj fs =>
      VObj (map (fun kv : string * value =>
                   (swap_key (fst kv), swap_markers (snd kv))) fs)
  | _ => v
  end.

(* ================================================================= *)
(** ** Further example inputs *)

(** A schema whose nested type declares no primary key, between two
    primitive siblings. *)
Module MissingKeyExample.
Definition feature : TypeDescriptor :=
  TypeDescriptors.create
    (MkTypeDescriptor "Feature" [("id", PropertyDescriptors.string)] None).

Definition car : TypeDescriptor :=
  TypeDescriptors.create
    (MkTypeDescriptor "Car"
       [("cost", PropertyDescriptors.number);
        ("features", PropertyDescriptors.complex feature);
        ("msrp", PropertyDescriptors.number)]
       None).

Definition from : value :=
  VObj [("cost", VNum 100); ("features", VArr []); ("msrp", VNum 15000)].

Definition to : value :=
  VObj [("cost", VNum 200); ("features", VArr []); ("msrp", VNum 16000)].
End MissingKeyExample.

(** A primitive array holding the same record written with its keys in two
    orders. *)
Module KeyOrderExample.
Definition tagged : TypeDescriptor :=
  TypeDescriptors.create
    (MkTypeDescriptor "Tagged" [("tags", PropertyDescriptors.string)] None).

Definition ab : value := VObj [("a", VNum 1); ("b", VNum 2)].
Definition ba : value := VObj [("b", VNum 2); ("a", VNum 1)].

Definition from : value := VObj [("tags", VArr [ab])].
Definition to : value := VObj [("tags", VArr [ba])].
End KeyOrderExample.

(** What the example is documented to return, as the record held in
    memory. *)
Module ExpectedExample.
Import ObjectDiffExample.

Definition feature_1_snapshot : value :=
  VObj [("cost", VNum 2000); ("id", VStr "feature_1");
        ("name", VStr "Power Windows"); ("optional", VBool true);
        ("tags", VArr [VStr "tag_1"])].

Definition car_snapshot (id make model : string) : value :=
  VObj [("features", VArr [feature_1_snapshot]);
        ("id", VStr id); ("make", VStr make); ("model", VStr model);
        ("msrp", VNum 15000); ("year", VNum 2022)].

Definition salePrice_marker : value :=
  VObj [(removed_marker, VUndefined); (added_marker, VNum 14000)].

Definition modified_entry : value :=
  VObj [("id", VStr "modified_car");
        ("msrp", VObj [(removed_marker, VNum 15000); (added_marker, VNum 16000)]);
        ("salePrice", salePrice_marker)].

Definition changes : ChangeResult :=
  [("cars",
    VArr [VObj [(removed_marker, car_snapshot "removed_car" "honda" "civic")];
          VObj [(added_marker, car_snapshot "added_car" "ford" "fiesta")];
          modified_entry]);
   ("trucks",
    VArr [VObj [(removed_marker, car_snapshot "truck_1" "toyota" "tacoma")]])].

(** The same record with the [salePrice] marker written without a removed
    side, as the serialised result shows it. *)
Definition changes_as_printed : ChangeResult :=
  [("cars",
    VArr [VObj [(removed_marker, car_snapshot "removed_car" "honda" "civic")];
          VObj [(added_marker, car_snapshot "added_car" "ford" "fiesta")];
          VObj [("id", VStr "modified_car");
                ("msrp", VObj [(removed_marker, VNum 15000);
                               (added_marker, VNum 16000)]);
                ("salePrice", VObj [(added_marker, VNum 14000)])]]);
   ("trucks",
    VArr [VObj [(removed_marker, car_snapshot "truck_1" "toyota" "tacoma")]])].
End ExpectedExample.

(** One car on each side, with different identities. *)
Module SwapExample.
Definition from : value :=
  VObj [("cars", VArr [ObjectDiffExample.removedCar]); ("trucks", VArr [])].

Definition to : value :=
  VObj [("cars", VArr [ObjectDiffExample.addedCar]); ("trucks", VArr [])].

Definition removed_snapshot : list (string * value) :=
  match ExpectedExample.car_snapshot "removed_car" "honda" "civic" with
  | VObj fs => fs
  | _ => []
  end.

Definition added_snapshot : list (string * value) :=
  match ExpectedExample.car_snapshot "added_car" "ford" "fiesta" with
  | VObj fs => fs
  | _ => []
  end.

(** [diff(from, to)] and [diff(to, from)]. *)
Definition forward : ChangeResult :=
  [("cars", VArr [removed_entry removed_snapshot; added_entry added_snapshot])].

Definition backward : ChangeResult :=
  [("cars", VArr [removed_entry added_snapshot; added_entry removed_snapshot])].
End SwapExample.

(* ================================================================= *)
(** ** Further notions for the reconciler and the walk *)

(** [item] has a counterpart among [others]: an element with the same
    canonical key. *)
Definition has_counterpart (primaryKeys : list string) (others : list value)
    (item : value) : bool :=
  existsb (fun other =>
             String.eqb (canonical_key other primaryKeys)
               (canonical_key item primaryKeys)) others.

(** A matched pair and a reconciliation read from the other side. *)
Definition flip_pair (p : InBoth) : InBoth :=
  MkInBoth (primaryKey p) (to p) (from p).

Definition flip_changes (c : Changes) : Changes :=
  MkChanges (added c) (removed c) (map flip_pair (inBoth c)).

(** The lower-cased text a primary-key value contributes to the canonical
    key. *)
Definition key_text (item : value) (primaryKey : string) : string :=
  toLowerCase (js_String (or_empty (field item primaryKey))).

(** The text holds no semicolon, the separator of the canonical key. *)
Fixpoint no_semicolon (s : string) : bool :=
  match s with
  | EmptyString => true
  | String c r => (negb (Ascii.eqb c ";"%char) && no_semicolon r)%bool
  end.

(** An integer that a JavaScript number holds exactly and prints in plain
    decimal; a string of ASCII characters; and a value all of whose
    numbers and strings are such. *)
Definition safe_integer (n : Z) : bool :=
  (Z.abs n <=? 9007199254740991)%Z.

Fixpoint ascii_text (s : string) : bool :=
  match s with
  | EmptyString => true
  | String c r => (Nat.ltb (nat_of_ascii c) 128 && ascii_text r)%bool
  end.

Fixpoint plain_value (v : value) : bool :=
  match v with
  | VNum n => safe_integer n
  | VStr s => ascii_text s
  | VArr l => forallb plain_value l
  | VObj fs =>
      forallb (fun kv : string * value =>
                 (ascii_text (fst kv) && plain_value (snd kv))%bool) fs
  | _ => true
  end.

(** Elements used to illustrate the reconciler. *)
Module ReconcileExample.
Definition a1 : value := VObj [("id", VStr "a"); ("n", VNum 1)].
Definition a2 : value := VObj [("id", VStr "A"); ("n", VNum 2)].
Definition b : value := VObj [("id", VStr "b")].
Definition changes : Changes :=
  MkChanges [] [] [MkInBoth "id:a;" a1 a2; MkInBoth "id:b;" b b].
End ReconcileExample.

(** Every complex property, at all levels, refers to a nested descriptor
    that declares a primary key. *)
Fixpoint keyed (d : TypeDescriptor) : bool :=
  match d with
  | MkTypeDescriptor _ ps _ =>
      forallb (fun kp : string * PropertyDescriptor =>
                 match kp with
                 | (_, MkPropertyDescriptor TComplex (Some d') _) =>
                     (match _toArray (td_primaryKey d') with
                      | Some _ => true
                      | None => false
                      end && keyed d')%bool
                 | _ => true
                 end) ps
  end.

(** A computation that hands nothing to the logger. *)
Definition silent {A} (m : M A) : Prop :=
  forall log, snd (m log) = log.

(** The entry [diff] writes for a primitive property, from its two values:
    for two arrays, the markers of [primitive_arrays], when there are any;
    otherwise a marker with the two values, unless they are deeply equal. *)
Definition primitive_entry (sortByItems : list value -> list value)
    (a b : value) : option value :=
  match a, b with
  | VArr fs, VArr ts =>
      match set_markers sortByItems (only_in fs ts) (only_in ts fs) with
      | [] => None
      | markers => Some (VArr markers)
      end
  | _, _ =>
      if isEqual a b then None
      else Some (VObj [(removed_marker, a); (added_marker, b)])
  end.

(** The keys of a record after [obj[k] = v]. *)
Definition add_key (k : string) (keys : list string) : list string :=
  if existsb (String.eqb k) keys then keys else (keys ++ [k])%list.

(** [touches name cr cr']: [cr'] is [cr] except possibly for the entry
    [name], which may have been written or created. *)
Definition touches (name : string) (cr cr' : ChangeResult) : Prop :=
  (forall k, k <> name -> assoc k cr' = assoc k cr) /\
  (Object_keys cr' = Object_keys cr \/
   Object_keys cr' = add_key name (Object_keys cr)).

(** [subseq s l]: [s] is [l] with some elements left out. *)
Inductive subseq : list string -> list string -> Prop :=
| subseq_nil : subseq [] []
| subseq_skip : forall x s l, subseq s l -> subseq s (x :: l)
| subseq_take : forall x s l, subseq s l -> subseq (x :: s) (x :: l).

(* ================================================================= *)
(** ** The order in which JavaScript lists the keys of a record *)

Definition digit_of (c : ascii) : option N :=
  let n := N_of_ascii c in
  if ((48 <=? n) && (n <=? 57))%N then Some (n - 48)%N else None.

Fixpoint digits_value (s : string) (acc : N) : option N :=
  match s with
  | EmptyString => Some acc
  | String c r =>
      match digit_of c with
      | Some d => digits_value r (10 * acc + d)%N
      | None => None
      end
  end.

(** The number a key stands for when it is an array index: the decimal
    text, without a leading zero, of an integer below [2^32 - 1]. *)
Definition array_index (s : string) : option N :=
  match s with
  | EmptyString => None
  | String c r =>
      if (Ascii.eqb c "0" && negb (String.eqb r EmptyString))%bool then None
      else match digits_value s 0 with
           | Some n => if (n <? 4294967295)%N then Some n else None
           | None => None
           end
  end.

Fixpoint insert_index (n : N) (k : string) (l : list (N * string))
  : list (N * string) :=
  match l with
  | [] => [(n, k)]
  | (m, k') :: r =>
      if (n <=? m)%N then (n, k) :: l else (m, k') :: insert_index n k r
  end.

(** The own keys of a record as [Object.keys], [for .. in] and
    [JSON.stringify] list them: the array indices in ascending numeric
    order, then the other keys in insertion order. *)
Definition own_keys {A} (fs : list (string * A)) : list string :=
  (map snd
     (fold_right (fun k acc => match array_index k with
                               | Some n => insert_index n k acc
                               | None => acc
                               end) [] (map fst fs))
   ++ filter (fun k => match array_index k with
                       | Some _ => false
                       | None => true
                       end) (map fst fs))%list.

(** The names a record inherits from [Object.prototype]: reading one of
    them from a record that has no such entry of its own does not give
    [undefined]. *)
Definition Object_prototype_names : list string :=
  ["constructor"; "__defineGetter__"; "__defineSetter__"; "hasOwnProperty";
   "__lookupGetter__"; "__lookupSetter__"; "isPrototypeOf";
   "propertyIsEnumerable"; "toString"; "valueOf"; "__proto__";
   "toLocaleString"].

Definition inherited (name : string) : bool :=
  existsb (String.eqb name) Object_prototype_names.

(** No property key and no primary key of the descriptor, at any level, is
    an inherited name. *)
Fixpoint own_names (d : TypeDescriptor) : bool :=
  match d with
  | MkTypeDescriptor _ ps pk =>
      (forallb (fun k => negb (inherited k))
         (match _toArray pk with Some pks => pks | None => [] end) &&
       forallb (fun kp : string * PropertyDescriptor =>
                  match kp with
                  | (key, MkPropertyDescriptor _ nested _) =>
                      (negb (inherited key) &&
                       match nested with
                       | Some d' => own_names d'
                       | None => true
                       end)%bool
                  end) ps)%bool
  end.

(* ================================================================= *)
(** ** [TypeDescriptors.create] as the assignment it performs

    [create] does not build new property descriptors: it assigns
    [property.name = key] to the objects the property map refers to.  Here
    those objects live in a heap and the property map holds references
    into it, so that two keys may refer to one object. *)
Module InPlace.
Definition Heap : Type := list PropertyDescriptor.

(** The object [pd] after [pd.name = key]. *)
Definition rename (pd : PropertyDescriptor) (key : string) : PropertyDescriptor :=
  MkPropertyDescriptor (pd_type pd) (pd_descriptor pd) (Some key).

(** [property.name = key], [property] being the object at [ref]. *)
Fixpoint set_name (heap : Heap) (ref : nat) (key : string) : Heap :=
  match heap, ref with
  | [], _ => []
  | pd :: rest, O => rename pd key :: rest
  | pd :: rest, S ref' => pd :: set_name rest ref' key
  end.

(** The loop of [create] over [Object.keys(config.properties)]. *)
Definition create (properties : list (string * nat)) (heap : Heap) : Heap :=
  fold_left (fun h kp => set_name h (snd kp) (fst kp)) properties heap.

Definition deref (heap : Heap) (ref : nat) : PropertyDescriptor :=
  nth ref heap (MkPropertyDescriptor TString None None).

(** The property map with every reference replaced by the object it
    refers to. *)
Definition read (heap : Heap) (properties : list (string * nat))
  : list (string * PropertyDescriptor) :=
  map (fun kp => (fst kp, deref heap (snd kp))) properties.

(** The last key of the property map that refers to [ref]. *)
Definition last_key (ref : nat) (properties : list (string * nat))
  : option string :=
  fold_left (fun acc kp => if Nat.eqb (snd kp) ref then Some (fst kp) else acc)
    properties None.
End InPlace.

(** Every property descriptor of the map carries its own key as name. *)
Definition bound_to_keys (properties : list (string * PropertyDescriptor)) : bool :=
  forallb (fun kp : string * PropertyDescriptor =>
             match pd_name (snd kp) with
             | Some n => String.eqb n (fst kp)
             | None => false
             end) properties.

(** The record after the projector has written, or not, the entry [key]. *)
Definition write_entry (key : string) (c : option value)
    (result : list (string * value)) : list (string * value) :=
  match c with
  | Some v => assoc_set key v result
  | None => result
  end.

(** A value typed as the models are: a record whose complex properties all
    hold arrays of such records. *)
Fixpoint shaped (d : TypeDescriptor) (x : value) : bool :=
  match d with
  | MkTypeDescriptor _ ps _ =>
      (is_record x &&
       forallb (fun kp : string * PropertyDescriptor =>
                  match kp with
                  | (key, MkPropertyDescriptor TComplex (Some d') _) =>
                      match field x key with
                      | VArr items => forallb (shaped d') items
                      | _ => false
                      end
                  | _ => true
                  end) ps)%bool
  end.

(** The record emitted for a matched pair, given what the walk of the pair
    reported: none when it reported nothing. *)
Definition pair_record (primaryKeys : list string) (walked : InBoth * ChangeResult)
  : result (list value) :=
  if Nat.ltb 0 (size (snd walked))
  then final <~ itemChangeResultFinal primaryKeys (fst walked) (snd walked) ;;
       Ok [VObj final]
  else Ok [].

(** The two shapes an entry of a change result can take: a marker holding
    the two values of a primitive property, or an array that is not
    empty. *)
Definition entry_shape (v : value) : Prop :=
  (exists a b, v = VObj [(removed_marker, a); (added_marker, b)]) \/
  (exists e l, v = VArr (e :: l)).

(* ================================================================= *)
(** ** Values that a descriptor cannot tell apart *)

(** [agree d x x']: the records [x] and [x'] hold the same values for
    everything [d] mentions, that is for the primary keys [d] declares and
    for its primitive properties, and arrays of pairwise agreeing elements
    (or the same value, when it is not an array) for its complex
    properties.  Properties that [d] does not mention are unconstrained. *)
Fixpoint agree (d : TypeDescriptor) (x x' : value) : Prop :=
  match d with
  | MkTypeDescriptor _ ps pk =>
      is_record x = true /\ is_record x' = true /\
      (forall k,
         In k (match _toArray pk with Some pks => pks | None => [] end) ->
         field x k = field x' k) /\
      (fix each (ps : list (string * PropertyDescriptor)) : Prop :=
         match ps with
         | [] => True
         | (key, MkPropertyDescriptor TComplex (Some d') _) :: r =>
             match field x key, field x' key with
             | VArr l, VArr l' => Forall2 (agree d') l l'
             | v, v' => v = v'
             end /\ each r
         | (key, _) :: r => field x key = field x' key /\ each r
         end) ps
  end.

(** Matched pairs and reconciliations of agreeing elements. *)
Definition pair_agree (td : TypeDescriptor) (p p' : InBoth) : Prop :=
  primaryKey p = primaryKey p' /\
  agree td (from p) (from p') /\ agree td (to p) (to p').

Definition changes_agree (td : TypeDescriptor) (c c' : Changes) : Prop :=
  Forall2 (agree td) (removed c) (removed c') /\
  Forall2 (agree td) (added c) (added c') /\
  Forall2 (pair_agree td) (inBoth c) (inBoth c').

(** Two outcomes of the same kind, related by [R] when they are results. *)
Definition result_rel {A} (R : A -> A -> Prop) (r r' : result A) : Prop :=
  match r, r' with
  | Ok a, Ok a' => R a a'
  | Throw e, Throw e' => e = e'
  | OutOfFuel, OutOfFuel => True
  | _, _ => False
  end.

(** The truck of the example with properties the descriptors do not
    mention. *)
Module UndeclaredExample.
Definition feature_noted : value :=
  VObj [("note", VStr "dealer option");
        ("id", VStr "feature_1");
        ("name", VStr "Power Windows");
        ("optional", VBool true);
        ("cost", VNum 2000);
        ("tags", VArr [VStr "tag_1"])].

Definition truck_noted : value :=
  VObj [("id", VStr "truck_1"); ("make", VStr "toyota");
        ("model", VStr "tacoma"); ("year", VNum 2022); ("msrp", VNum 15000);
        ("features", VArr [feature_noted]);
        ("color", VStr "red")].
End UndeclaredExample.

(** The values the snapshot projector accepts: a value other than [null]
    and [undefined] (unless the descriptor has no property at all), each of
    whose complex properties holds [null], [undefined] or an array of
    values the projector accepts for the nested descriptor. *)
Fixpoint projectable (d : TypeDescriptor) (x : value) : bool :=
  match d with
  | MkTypeDescriptor _ ps _ =>
      ((negb (isNil x) || match ps with [] => true | _ => false end) &&
       forallb (fun kp : string * PropertyDescriptor =>
                  match kp with
                  | (key, MkPropertyDescriptor TComplex (Some d') _) =>
                      match field x key with
                      | VArr items => forallb (projectable d') items
                      | v => isNil v
                      end
                  | _ => true
                  end) ps)%bool
  end.

(* ================================================================= *)
(** * Properties *)

(** ** Basic facts about the helpers *)

Lemma append_assoc (a b c : string) : (a ++ b) ++ c = a ++ (b ++ c).
Proof.
  induction a as [|ch a IH]; simpl; [reflexivity | now rewrite IH].
Qed.

Lemma append_empty_r (a : string) : a ++ EmptyString = a.
Proof.
  induction a as [|ch a IH]; simpl; [reflexivity | now rewrite IH].
Qed.

Section SameValueZeroFacts.
Context {A : Type} (eqb : A -> A -> bool).
Hypothesis eqb_eq : forall x y, eqb x y = true <-> x = y.

Lemma includes_In_gen (l : list A) (x : A) :
  includes eqb l x = true <-> In x l.
Proof.
  unfold includes. rewrite existsb_exists. split.
  - intros [y [Hy E]]. apply eqb_eq in E. now subst.
  - intros H. exists x. split; [assumption | now apply eqb_eq].
Qed.

Lemma includes_not_In_gen (l : list A) (x : A) :
  includes eqb l x = false <-> ~ In x l.
Proof.
  rewrite <- includes_In_gen. destruct (includes eqb l x); split; congruence.
Qed.

Lemma intersection_acc_In_gen (a b seen : list A) (x : A) :
  In x (intersection_acc eqb seen a b) <->
  In x a /\ In x b /\ ~ In x seen.
Proof.
  revert seen. induction a as [|y a IH]; intros seen; simpl.
  - tauto.
  - assert (D : y = x \/ y <> x).
    { destruct (eqb y x) eqn:E; [left; now apply eqb_eq|].
      right. intros ->. assert (T : eqb x x = true) by now apply eqb_eq.
      congruence. }
    destruct (includes eqb b y) eqn:Hb;
      destruct (includes eqb seen y) eqn:Hs; simpl;
      rewrite ?IH; simpl;
      rewrite ?includes_In_gen, ?includes_not_In_gen in *;
      destruct D as [-> | Hne]; tauto.
Qed.

Lemma intersection_In_gen (a b : list A) (x : A) :
  In x (intersection eqb a b) <-> In x a /\ In x b.
Proof.
  unfold intersection. rewrite intersection_acc_In_gen. simpl. tauto.
Qed.
End SameValueZeroFacts.

Lemma opt_string_eqb_eq (a b : option string) :
  opt_string_eqb a b = true <-> a = b.
Proof.
  destruct a as [x|], b as [y|]; simpl; try (split; congruence).
  rewrite String.eqb_eq. split; congruence.
Qed.

Lemma includes_In (l : list string) (x : string) :
  includes String.eqb l x = true <-> In x l.
Proof. apply includes_In_gen, String.eqb_eq. Qed.

Lemma includes_not_In (l : list string) (x : string) :
  includes String.eqb l x = false <-> ~ In x l.
Proof. apply includes_not_In_gen, String.eqb_eq. Qed.

Lemma intersection_In (a b : list string) (x : string) :
  In x (intersection String.eqb a b) <-> In x a /\ In x b.
Proof. apply intersection_In_gen, String.eqb_eq. Qed.

Lemma insert_sorted_perm (s : string) (l : list string) :
  Permutation (s :: l) (insert_sorted s l).
Proof.
  induction l as [|x l IH]; simpl.
  - apply Permutation_refl.
  - destruct (String.leb s x).
    + apply Permutation_refl.
    + eapply perm_trans; [apply perm_swap | apply perm_skip, IH].
Qed.

(** [sortBy] returns the same strings, rearranged. *)
Lemma sortBy_perm (l : list string) : Permutation l (sortBy l).
Proof.
  induction l as [|x l IH]; simpl.
  - apply perm_nil.
  - eapply perm_trans; [apply perm_skip, IH | apply insert_sorted_perm].
Qed.

Lemma sortBy_In (l : list string) (x : string) : In x (sortBy l) <-> In x l.
Proof.
  split; apply Permutation_in;
    [apply Permutation_sym|]; apply sortBy_perm.
Qed.

Lemma insert_sorted_ascending (s : string) (l : list string) :
  ascending l -> ascending (insert_sorted s l).
Proof.
  induction 1 as [|x|x y l Hxy Hyl IH]; simpl.
  - constructor.
  - destruct (String.leb s x) eqn:E.
    + now repeat constructor.
    + destruct (String.leb_total s x) as [T|T]; [congruence|].
      now repeat constructor.
  - simpl in IH. destruct (String.leb s x) eqn:E.
    + constructor; [assumption|]. now constructor.
    + destruct (String.leb_total s x) as [T|T]; [congruence|].
      destruct (String.leb s y) eqn:E'.
      * constructor; [assumption|]. now constructor.
      * now constructor.
Qed.

(** [sortBy] returns an ascending array. *)
Lemma sortBy_ascending (l : list string) : ascending (sortBy l).
Proof.
  induction l as [|x l IH]; simpl.
  - constructor.
  - now apply insert_sorted_ascending.
Qed.

Lemma toString_or_empty (v : value) :
  toString (or_empty v) = Ok (js_String (or_empty v)).
Proof.
  unfold toString, or_empty. destruct v; simpl; try reflexivity.
  - destruct b; reflexivity.
  - destruct (n =? 0); reflexivity.
  - destruct (String.eqb s EmptyString); reflexivity.
Qed.

Lemma prop_get_nonnil (v : value) (k : string) :
  isNil v = false -> prop_get v k = Ok (field v k).
Proof.
  unfold prop_get. now intros ->.
Qed.

(** [TypeDescriptors.create] binds every property to its own key and
    changes nothing else. *)
Lemma create_binds_names (config : TypeDescriptor) (key : string)
    (pd : PropertyDescriptor) :
  In (key, pd) (td_properties (TypeDescriptors.create config)) ->
  pd_name pd = Some key /\
  exists pd0, In (key, pd0) (td_properties config) /\
              pd_type pd = pd_type pd0 /\ pd_descriptor pd = pd_descriptor pd0.
Proof.
  unfold TypeDescriptors.create. simpl. rewrite in_map_iff.
  intros [[k pd0] [E Hin]]. simpl in E. injection E as <- <-.
  split; [reflexivity|]. exists pd0. repeat split. exact Hin.
Qed.

(** ** The walk monad *)

Lemma bind_ret {A B} (a : A) (k : A -> M B) : bind (ret a) k = k a.
Proof. reflexivity. Qed.

Lemma bind_lift_ok {A B} (a : A) (k : A -> M B) : bind (lift (Ok a)) k = k a.
Proof. reflexivity. Qed.

Lemma bind_run_ok {A B} (m : M A) (k : A -> M B) (a : A) (log log' : list string) :
  m log = (Ok a, log') -> bind m k log = k a log'.
Proof. unfold bind. now intros ->. Qed.

Ltac walk_simpl :=
  repeat (rewrite ?bind_lift_ok, ?bind_ret; cbv beta).

(** ** The canonical key *)

Lemma primaryKey_loop_ok (item : value) (keys : list string) (acc : string) :
  isNil item = false ->
  primaryKey_loop item keys acc
  = Ok (acc ++ fold_right String.append EmptyString (map (key_part item) keys)).
Proof.
  intros Hnil. revert acc.
  induction keys as [|pk keys IH]; intros acc; simpl.
  - now rewrite append_empty_r.
  - rewrite (prop_get_nonnil _ _ Hnil). simpl.
    rewrite toString_or_empty. simpl.
    rewrite IH. f_equal. unfold key_part.
    rewrite (append_assoc acc). reflexivity.
Qed.

(** On any element that is neither [null] nor [undefined],
    [_getPrimaryKeyValue] returns [canonical_key]. *)
Lemma _getPrimaryKeyValue_canonical (item : value) (primaryKeys : list string) :
  isNil item = false ->
  _getPrimaryKeyValue item primaryKeys = Ok (canonical_key item primaryKeys).
Proof.
  intros Hnil. unfold _getPrimaryKeyValue, canonical_key.
  now rewrite primaryKey_loop_ok.
Qed.

(** ** The array reconciler on well-formed elements *)

Lemma rmap_ok {A B} (f : A -> result B) (g : A -> B) (l : list A) :
  (forall x, In x l -> f x = Ok (g x)) -> rmap f l = Ok (map g l).
Proof.
  induction l as [|x l IH]; intros H; simpl; [reflexivity|].
  rewrite (H x (or_introl eq_refl)). simpl.
  rewrite IH; [reflexivity|]. intros y Hy. apply H. now right.
Qed.

Lemma rfilter_ok {A} (p : A -> result bool) (q : A -> bool) (l : list A) :
  (forall x, In x l -> p x = Ok (q x)) -> rfilter p l = Ok (filter q l).
Proof.
  induction l as [|x l IH]; intros H; simpl; [reflexivity|].
  rewrite (H x (or_introl eq_refl)). simpl.
  rewrite IH; [reflexivity|]. intros y Hy. apply H. now right.
Qed.

Lemma rfind_ok {A} (p : A -> result bool) (q : A -> bool) (l : list A) :
  (forall x, In x l -> p x = Ok (q x)) -> rfind p l = Ok (List.find q l).
Proof.
  induction l as [|x l IH]; intros H; simpl; [reflexivity|].
  rewrite (H x (or_introl eq_refl)). simpl.
  destruct (q x); [reflexivity|].
  apply IH. intros y Hy. apply H. now right.
Qed.

Lemma rmap_ext {A B} (f g : A -> result B) (l : list A) :
  (forall x, In x l -> f x = g x) -> rmap f l = rmap g l.
Proof.
  induction l as [|x l IH]; intros H; simpl; [reflexivity|].
  rewrite (H x (or_introl eq_refl)).
  rewrite IH; [reflexivity|]. intros y Hy. apply H. now right.
Qed.

Lemma forallb_In {A} (p : A -> bool) (l : list A) (x : A) :
  forallb p l = true -> In x l -> p x = true.
Proof.
  intros H Hx. rewrite forallb_forall in H. now apply H.
Qed.

Lemma not_nil_isNil (v : value) : not_nil v = true -> isNil v = false.
Proof.
  unfold not_nil. now destruct (isNil v).
Qed.

Lemma is_record_not_nil (x : value) : is_record x = true -> isNil x = false.
Proof.
  destruct x; simpl; congruence.
Qed.

Lemma records_not_nil (items : list value) :
  forallb is_record items = true -> forallb not_nil items = true.
Proof.
  intros H. apply forallb_forall. intros x Hx.
  unfold not_nil. now rewrite (is_record_not_nil _ (forallb_In _ _ _ H Hx)).
Qed.

(** When no element is [null] or [undefined], [_getChanges] is the
    composition of [matched_keys], [unmatched_items] and [pair_for]. *)
Lemma _getChanges_not_nil (fromArray toArray : list value) (primaryKeys : list string) :
  forallb not_nil fromArray = true ->
  forallb not_nil toArray = true ->
  _getChanges fromArray toArray primaryKeys
  = (let matched := matched_keys primaryKeys fromArray toArray in
     pairs <~ rmap (pair_for primaryKeys fromArray toArray) matched ;;
     Ok (MkChanges (unmatched_items primaryKeys matched fromArray)
           (unmatched_items primaryKeys matched toArray) pairs)).
Proof.
  intros Hf Ht.
  assert (Kf : forall x, In x fromArray ->
               _getPrimaryKeyValue x primaryKeys = Ok (canonical_key x primaryKeys)).
  { intros x Hx. apply _getPrimaryKeyValue_canonical, not_nil_isNil.
    exact (forallb_In _ _ _ Hf Hx). }
  assert (Kt : forall x, In x toArray ->
               _getPrimaryKeyValue x primaryKeys = Ok (canonical_key x primaryKeys)).
  { intros x Hx. apply _getPrimaryKeyValue_canonical, not_nil_isNil.
    exact (forallb_In _ _ _ Ht Hx). }
  unfold _getChanges, _getPrimaryKeyValues.
  rewrite (rmap_ok _ (fun item => canonical_key item primaryKeys) fromArray Kf).
  rewrite (rmap_ok _ (fun item => canonical_key item primaryKeys) toArray Kt).
  simpl. fold (matched_keys primaryKeys fromArray toArray).
  set (matched := matched_keys primaryKeys fromArray toArray).
  rewrite (rfilter_ok _
             (fun item => negb (includes String.eqb matched
                                  (canonical_key item primaryKeys))) fromArray)
    by (intros x Hx; now rewrite (Kf x Hx)).
  rewrite (rfilter_ok _
             (fun item => negb (includes String.eqb matched
                                  (canonical_key item primaryKeys))) toArray)
    by (intros x Hx; now rewrite (Kt x Hx)).
  simpl. fold (unmatched_items primaryKeys matched fromArray).
  fold (unmatched_items primaryKeys matched toArray).
  erewrite rmap_ext; [reflexivity|].
  intros k _. unfold pair_for, first_with_key.
  rewrite (rfind_ok _
             (fun item => String.eqb (canonical_key item primaryKeys) k) fromArray)
    by (intros x Hx; now rewrite (Kf x Hx)).
  rewrite (rfind_ok _
             (fun item => String.eqb (canonical_key item primaryKeys) k) toArray)
    by (intros x Hx; now rewrite (Kt x Hx)).
  reflexivity.
Qed.

Lemma matched_keys_In (primaryKeys : list string) (fs ts : list value) (k : string) :
  In k (matched_keys primaryKeys fs ts) <->
  (exists f, In f fs /\ canonical_key f primaryKeys = k) /\
  (exists t, In t ts /\ canonical_key t primaryKeys = k).
Proof.
  unfold matched_keys. rewrite intersection_In, !sortBy_In, !in_map_iff.
  split; intros [[f [A B]] [t [C D]]]; split; eauto.
Qed.

Lemma unmatched_items_In (primaryKeys matched : list string) (items : list value)
    (x : value) :
  In x (unmatched_items primaryKeys matched items) <->
  In x items /\ ~ In (canonical_key x primaryKeys) matched.
Proof.
  unfold unmatched_items. rewrite filter_In, negb_true_iff, includes_not_In.
  tauto.
Qed.

Lemma first_with_key_Some (primaryKeys : list string) (k : string)
    (items : list value) (x : value) :
  first_with_key primaryKeys k items = Some x ->
  In x items /\ canonical_key x primaryKeys = k.
Proof.
  unfold first_with_key. intros H. apply find_some in H.
  destruct H as [H E]. apply String.eqb_eq in E. tauto.
Qed.

Lemma first_with_key_exists (primaryKeys : list string) (k : string)
    (items : list value) (x : value) :
  In x items -> canonical_key x primaryKeys = k ->
  exists y, first_with_key primaryKeys k items = Some y.
Proof.
  unfold first_with_key. intros Hx E.
  destruct (List.find _ items) as [y|] eqn:F; [now exists y|].
  apply (find_none _ _ F) in Hx. rewrite E, String.eqb_refl in Hx. discriminate.
Qed.

(** The pairs retrieved for the matched keys carry those keys, in order, and
    their two elements come from the two arrays. *)
Lemma rmap_pair_for (primaryKeys : list string) (fs ts : list value)
    (keys : list string) (pairs : list InBoth) :
  rmap (pair_for primaryKeys fs ts) keys = Ok pairs ->
  map primaryKey pairs = keys /\
  Forall (fun p =>
            first_with_key primaryKeys (primaryKey p) fs = Some (from p) /\
            first_with_key primaryKeys (primaryKey p) ts = Some (to p) /\
            truthy (from p) = true /\ truthy (to p) = true) pairs.
Proof.
  revert pairs. induction keys as [|k keys IH]; intros pairs; simpl.
  - intros [= <-]. split; [reflexivity | constructor].
  - unfold pair_for at 1.
    destruct (first_with_key primaryKeys k fs) as [f|] eqn:Ff; [|discriminate].
    destruct (first_with_key primaryKeys k ts) as [t|] eqn:Ft; [|discriminate].
    destruct (truthy f) eqn:Tf; [|discriminate].
    destruct (truthy t) eqn:Tt; [|discriminate].
    simpl.
    destruct (rmap (pair_for primaryKeys fs ts) keys) as [ps| |] eqn:R;
      try discriminate.
    simpl. intros [= <-].
    destruct (IH ps eq_refl) as [E F]. simpl. split.
    + now rewrite E.
    + constructor; [simpl; tauto | assumption].
Qed.

(** Two elements with the same canonical key are one identity for the
    reconciler: neither is reported as removed or added, and their key is
    among the matched pairs. *)
Lemma same_key_same_identity (primaryKeys : list string) (fs ts : list value)
    (f t : value) (c : Changes) :
  forallb not_nil fs = true ->
  forallb not_nil ts = true ->
  In f fs -> In t ts ->
  canonical_key f primaryKeys = canonical_key t primaryKeys ->
  _getChanges fs ts primaryKeys = Ok c ->
  ~ In f (removed c) /\ ~ In t (added c) /\
  In (canonical_key f primaryKeys) (map primaryKey (inBoth c)).
Proof.
  intros Hf Ht If It E G.
  rewrite (_getChanges_not_nil _ _ _ Hf Ht) in G. cbv zeta in G.
  destruct (rmap _ (matched_keys primaryKeys fs ts)) as [pairs| |] eqn:R;
    try discriminate.
  simpl in G. injection G as G. subst c. simpl.
  assert (Hm : In (canonical_key f primaryKeys) (matched_keys primaryKeys fs ts)).
  { apply matched_keys_In. split; [now exists f | now exists t]. }
  rewrite !unmatched_items_In. rewrite <- E.
  destruct (rmap_pair_for _ _ _ _ _ R) as [Ek _]. rewrite Ek. tauto.
Qed.

Lemma js_String_or_empty_str (s : string) : js_String (or_empty (VStr s)) = s.
Proof.
  unfold or_empty. simpl. destruct (String.eqb_spec s EmptyString) as [-> | ]; reflexivity.
Qed.

Lemma canonical_key_ext (primaryKeys : list string) (a b : value) :
  (forall pk, In pk primaryKeys -> key_part a pk = key_part b pk) ->
  canonical_key a primaryKeys = canonical_key b primaryKeys.
Proof.
  intros H. unfold canonical_key. f_equal. apply map_ext_in.
  intros pk Hpk. apply H. now apply sortBy_In.
Qed.

Lemma same_letter_lower (c d : ascii) :
  same_letter c d = true -> lower_ascii c = lower_ascii d.
Proof.
  unfold same_letter, is_upper, is_lower, lower_ascii. cbv zeta.
  intros H. apply orb_true_iff in H. destruct H as [H | H];
    [apply orb_true_iff in H; destruct H as [H | H]|].
  - apply Ascii.eqb_eq in H. now subst.
  - apply andb_true_iff in H. destruct H as [H E].
    apply andb_true_iff in H. destruct H as [U L].
    apply Nat.eqb_eq in E. rewrite U.
    apply andb_true_iff in L. destruct L as [L1 L2].
    apply Nat.leb_le in L1.
    assert (N : (Nat.leb 65 (nat_of_ascii d) && Nat.leb (nat_of_ascii d) 90)%bool
                = false).
    { apply andb_false_iff. right. apply Nat.leb_gt. lia. }
    rewrite N, <- E. apply ascii_nat_embedding.
  - apply andb_true_iff in H. destruct H as [H E].
    apply andb_true_iff in H. destruct H as [L U].
    apply Nat.eqb_eq in E. rewrite U.
    apply andb_true_iff in L. destruct L as [L1 L2].
    apply Nat.leb_le in L1.
    assert (N : (Nat.leb 65 (nat_of_ascii c) && Nat.leb (nat_of_ascii c) 90)%bool
                = false).
    { apply andb_false_iff. right. apply Nat.leb_gt. lia. }
    rewrite N, <- E. symmetry. apply ascii_nat_embedding.
Qed.

Lemma differ_only_in_case_lower (a b : string) :
  differ_only_in_case a b = true -> toLowerCase a = toLowerCase b.
Proof.
  revert b. induction a as [|c a IH]; intros [|d b]; simpl;
    try discriminate; [reflexivity|].
  intros H. apply andb_true_iff in H. destruct H as [L R].
  now rewrite (same_letter_lower _ _ L), (IH _ R).
Qed.

Lemma case_variants_key_part (a b : value) (pk : string) :
  case_variants (field a pk) (field b pk) = true ->
  key_part a pk = key_part b pk.
Proof.
  unfold key_part, case_variants.
  destruct (field a pk); try discriminate. destruct (field b pk); try discriminate.
  rewrite !js_String_or_empty_str. intros E.
  now rewrite (differ_only_in_case_lower _ _ E).
Qed.

(** The values JavaScript treats as false. *)
Lemma falsy_values (v : value) :
  truthy v = false <->
  v = VUndefined \/ v = VNull \/ v = VBool false \/ v = VNum 0 \/ v = VStr EmptyString.
Proof.
  split.
  - destruct v; simpl; try discriminate; auto.
    + destruct b; [discriminate | auto].
    + rewrite negb_false_iff, Z.eqb_eq. intros ->. auto.
    + rewrite negb_false_iff. intros E. apply String.eqb_eq in E. subst. auto 6.
  - intros [-> | [-> | [-> | [-> | ->]]]]; reflexivity.
Qed.

Lemma falsy_key_part (a : value) (pk : string) :
  truthy (field a pk) = false -> key_part a pk = pk ++ ":;".
Proof.
  unfold key_part, or_empty. now intros ->.
Qed.

Lemma key_part_spec_str (a : value) (pk s : string) :
  field a pk = VStr s -> key_part a pk = spec_key_part a pk.
Proof.
  unfold key_part, spec_key_part. intros ->.
  now rewrite js_String_or_empty_str.
Qed.




(** C10.  A falsy primary-key value ([null], [undefined], [0], [false] or the
    empty string) is replaced by the empty string before coercion, so two
    elements all of whose primary-key values are falsy -- whichever falsy
    values they are -- get the same canonical key [name:;...] and are one
    identity for the reconciler: neither is reported as removed or added,
    and they form a matched pair. *)
Theorem falsy_keys_same_identity
    (primaryKeys : list string) (fs ts : list value) (f t : value) (c : Changes) :
  forallb is_record fs = true ->
  forallb is_record ts = true ->
  In f fs -> In t ts ->
  forallb (fun pk => negb (truthy (field f pk)) && negb (truthy (field t pk)))%bool
    primaryKeys = true ->
  _getChanges fs ts primaryKeys = Ok c ->
  (forall v, truthy v = false <->
             v = VUndefined \/ v = VNull \/ v = VBool false \/ v = VNum 0 \/
             v = VStr EmptyString)
  /\ (forall pk, In pk primaryKeys ->
        or_empty (field f pk) = VStr EmptyString /\
        or_empty (field t pk) = VStr EmptyString)
  /\ _getPrimaryKeyValue f primaryKeys
     = Ok (fold_right String.append EmptyString
             (map (fun pk => pk ++ ":;") (sortBy primaryKeys)))
  /\ _getPrimaryKeyValue t primaryKeys = _getPrimaryKeyValue f primaryKeys
  /\ ~ In f (removed c) /\ ~ In t (added c)
  /\ In (canonical_key f primaryKeys) (map primaryKey (inBoth c)).
Proof.
  intros Rf Rt If It Hfalsy G.
  pose proof (records_not_nil _ Rf) as Hf. pose proof (records_not_nil _ Rt) as Ht.
  assert (Nf : isNil f = false)
    by (apply not_nil_isNil; exact (forallb_In _ _ _ Hf If)).
  assert (Nt : isNil t = false)
    by (apply not_nil_isNil; exact (forallb_In _ _ _ Ht It)).
  assert (F : forall pk, In pk primaryKeys ->
              truthy (field f pk) = false /\ truthy (field t pk) = false).
  { intros pk Hpk. pose proof (forallb_In _ _ _ Hfalsy Hpk) as S. simpl in S.
    apply andb_true_iff in S. now rewrite !negb_true_iff in S. }
  assert (E : canonical_key f primaryKeys = canonical_key t primaryKeys).
  { apply canonical_key_ext. intros pk Hpk. destruct (F pk Hpk) as [A B].
    now rewrite !falsy_key_part. }
  split; [exact falsy_values|].
  split.
  { intros pk Hpk. destruct (F pk Hpk) as [A B]. unfold or_empty.
    now rewrite A, B. }
  split.
  { rewrite (_getPrimaryKeyValue_canonical _ _ Nf). unfold canonical_key.
    do 2 f_equal. apply map_ext_in. intros pk Hpk. apply (proj1 (sortBy_In _ _)) in Hpk.
    apply falsy_key_part. now destruct (F pk Hpk). }
  split; [now rewrite !_getPrimaryKeyValue_canonical, E by assumption|].
  exact (same_key_same_identity _ _ _ _ _ _ Hf Ht If It E G).
Qed.

Lemma falsy_keys_same_identity_witness :
  let f := VObj [("id", VNum 0); ("msrp", VNum 1)] in
  let t := VObj [("id", VStr EmptyString); ("msrp", VNum 2)] in
  _getPrimaryKeyValue f ["id"] = Ok "id:;"
  /\ _getPrimaryKeyValue t ["id"] = _getPrimaryKeyValue f ["id"]
  /\ _getChanges [f] [t] ["id"] = Ok (MkChanges [] [] [MkInBoth "id:;" f t]).
Proof.
  intros f t.
  destruct (falsy_keys_same_identity ["id"] [f] [t] f t
              (MkChanges [] [] [MkInBoth "id:;" f t])
              eq_refl eq_refl (or_introl eq_refl) (or_introl eq_refl)
              eq_refl eq_refl)
    as (_ & _ & K & E & _).
  exact (conj K (conj E eq_refl)).
Defined.

(** ** The motivating example *)

(** C1.  On the example inputs, [diff] returns, without logging or throwing,
    exactly two properties.  Under [cars]: a removed snapshot of
    [removed_car], an added snapshot of [added_car], and one entry keyed by
    [modified_car]'s id with [msrp] removed 15000 / added 16000 and
    [salePrice] added 14000, whose removed side reads [undefined] because
    [salePrice] is absent in [from] (so the serialised result has no removed
    side there).  Under [trucks]: a removed snapshot of [truck_1]. *)
Theorem example_diff_result :
  forall (sortByItems : list value -> list value) (log : list string),
    ObjectDiffExample.diff sortByItems log = (Ok ExpectedExample.changes, log)
    /\ Object_keys ExpectedExample.changes = ["cars"; "trucks"]
    /\ prop_get ExpectedExample.salePrice_marker added_marker = Ok (VNum 14000)
    /\ prop_get ExpectedExample.salePrice_marker removed_marker = Ok VUndefined
    /\ prop_get ObjectDiffExample.modifiedCar "salePrice" = Ok VUndefined
    /\ JSON_stringify (VObj ExpectedExample.changes)
       = JSON_stringify (VObj ExpectedExample.changes_as_printed).
Proof.
  intros sortByItems log.
  repeat split; vm_compute; reflexivity.
Qed.

(** ** Configuration errors *)

(** C4 (the service departs from the specification).  In [MissingKeyExample] the
    complex property [features] has a nested descriptor without a primary
    key.  The fault is logged, but the walk of the enclosing object stops
    there: the change of [cost], visited before [features], is reported,
    while the change of the sibling [msrp], visited after it, is lost --
    although [msrp] on its own is diffed as changed. *)
Theorem config_error_aborts_siblings :
  forall sortByItems : list value -> list value,
    diff sortByItems MissingKeyExample.from MissingKeyExample.to
      MissingKeyExample.car []
    = (Ok [("cost", VObj [(removed_marker, VNum 100); (added_marker, VNum 200)])],
       [msg_need_primaryKey MissingKeyExample.car "features"])
    /\ sortBy (Object_keys (td_properties MissingKeyExample.car))
       = ["cost"; "features"; "msrp"]
    /\ forall self fromRoot toRoot,
        process_property sortByItems self fromRoot toRoot MissingKeyExample.car
          MissingKeyExample.from MissingKeyExample.to "msrp" [] []
        = (Ok (inr [("msrp", VObj [(removed_marker, VNum 15000);
                                   (added_marker, VNum 16000)])]), []).
Proof.
  intros sortByItems. repeat split.
Qed.

(** ** Primitive properties holding arrays *)

Lemma existsb_map {A B} (p : B -> bool) (f : A -> B) (l : list A) :
  existsb p (map f l) = existsb (fun x => p (f x)) l.
Proof.
  induction l as [|x l IH]; simpl; [reflexivity | now rewrite IH].
Qed.

Lemma unmatched_text_from (fs ts : list value) :
  filter (fun item =>
            negb (includes opt_string_eqb
                    (intersection opt_string_eqb (map JSON_stringify fs)
                       (map JSON_stringify ts))
                    (JSON_stringify item))) fs
  = only_in fs ts.
Proof.
  unfold only_in. apply filter_ext_in. intros x Hx. f_equal.
  apply eq_true_iff_eq.
  rewrite (includes_In_gen _ opt_string_eqb_eq),
          (intersection_In_gen _ opt_string_eqb_eq).
  rewrite <- (existsb_map (opt_string_eqb (JSON_stringify x)) JSON_stringify).
  change (existsb (opt_string_eqb (JSON_stringify x)) (map JSON_stringify ts))
    with (includes opt_string_eqb (map JSON_stringify ts) (JSON_stringify x)).
  rewrite (includes_In_gen _ opt_string_eqb_eq).
  split; [tauto|]. intros H. split; [|assumption]. now apply in_map.
Qed.

Lemma unmatched_text_to (fs ts : list value) :
  filter (fun item =>
            negb (includes opt_string_eqb
                    (intersection opt_string_eqb (map JSON_stringify fs)
                       (map JSON_stringify ts))
                    (JSON_stringify item))) ts
  = only_in ts fs.
Proof.
  unfold only_in. apply filter_ext_in. intros x Hx. f_equal.
  apply eq_true_iff_eq.
  rewrite (includes_In_gen _ opt_string_eqb_eq),
          (intersection_In_gen _ opt_string_eqb_eq).
  rewrite <- (existsb_map (opt_string_eqb (JSON_stringify x)) JSON_stringify).
  change (existsb (opt_string_eqb (JSON_stringify x)) (map JSON_stringify fs))
    with (includes opt_string_eqb (map JSON_stringify fs) (JSON_stringify x)).
  rewrite (includes_In_gen _ opt_string_eqb_eq).
  split; [tauto|]. intros H. split; [assumption|]. now apply in_map.
Qed.

Lemma only_in_In (items others : list value) (x : value) :
  In x (only_in items others) <->
  In x items /\ forall y, In y others -> JSON_stringify x <> JSON_stringify y.
Proof.
  unfold only_in. rewrite filter_In, negb_true_iff.
  split; intros [Hx H]; split; try assumption.
  - intros y Hy E.
    assert (T : existsb (fun y => opt_string_eqb (JSON_stringify x) (JSON_stringify y))
                  others = true).
    { apply existsb_exists. exists y. split; [assumption|].
      now apply opt_string_eqb_eq. }
    congruence.
  - destruct (existsb _ others) eqn:T; [|reflexivity].
    apply existsb_exists in T. destruct T as [y [Hy E]].
    apply opt_string_eqb_eq in E. now destruct (H y Hy).
Qed.

Lemma primitive_arrays_only_in (sortByItems : list value -> list value)
    (cr : ChangeResult) (name : string) (fs ts : list value) :
  primitive_arrays sortByItems cr name fs ts
  = match set_markers sortByItems (only_in fs ts) (only_in ts fs) with
    | [] => cr
    | markers => assoc_set name (VArr markers) cr
    end.
Proof.
  unfold primitive_arrays, set_markers.
  rewrite unmatched_text_from, unmatched_text_to.
  destruct (only_in fs ts), (only_in ts fs); reflexivity.
Qed.

Lemma insert_item_perm (v : value) (l : list value) :
  Permutation (v :: l) (insert_item v l).
Proof.
  induction l as [|x l IH]; simpl.
  - apply Permutation_refl.
  - destruct (item_leb v x).
    + apply Permutation_refl.
    + eapply perm_trans; [apply perm_swap | apply perm_skip, IH].
Qed.

(** The sort returns the same items, rearranged. *)
Lemma sortBy_primitives_perm (l : list value) :
  Permutation l (sortBy_primitives l).
Proof.
  induction l as [|x l IH]; simpl.
  - apply perm_nil.
  - eapply perm_trans; [apply perm_skip, IH | apply insert_item_perm].
Qed.

(** On items of one kind the comparison of the sort is JavaScript's [<=],
    which is total there. *)
Section SortOneKind.
Variable kind : value -> bool.
Hypothesis item_leb_sound :
  forall a b, kind a = true -> kind b = true ->
              item_leb a b = true -> item_le a b.
Hypothesis item_leb_total :
  forall a b, kind a = true -> kind b = true ->
              item_leb a b = false -> item_le b a.

Lemma insert_item_ascending (v : value) (l : list value) :
  kind v = true -> forallb kind l = true ->
  ascending_items l -> ascending_items (insert_item v l).
Proof.
  intros Kv Kl A. induction A as [|x|x y l Hxy Hyl IH]; simpl.
  - constructor.
  - simpl in Kl. apply andb_true_iff in Kl. destruct Kl as [Kx _].
    destruct (item_leb v x) eqn:E.
    + constructor; [now apply item_leb_sound | constructor].
    + constructor; [now apply item_leb_total | constructor].
  - simpl in Kl. apply andb_true_iff in Kl. destruct Kl as [Kx Kl].
    pose proof Kl as Kyl. simpl in Kl. apply andb_true_iff in Kl.
    destruct Kl as [Ky _].
    specialize (IH Kyl). simpl in IH.
    destruct (item_leb v x) eqn:E.
    + constructor; [now apply item_leb_sound|]. now constructor.
    + destruct (item_leb v y) eqn:E'.
      * constructor; [now apply item_leb_total|]. assumption.
      * now constructor.
Qed.

Lemma insert_item_kind (v : value) (l : list value) :
  kind v = true -> forallb kind l = true ->
  forallb kind (insert_item v l) = true.
Proof.
  intros Kv Kl. apply forallb_forall. intros x Hx.
  apply (Permutation_in _ (Permutation_sym (insert_item_perm v l))) in Hx.
  destruct Hx as [<- | Hx]; [assumption|]. exact (forallb_In _ _ _ Kl Hx).
Qed.

Lemma sortBy_primitives_kind (l : list value) :
  forallb kind l = true ->
  forallb kind (sortBy_primitives l) = true
  /\ ascending_items (sortBy_primitives l).
Proof.
  induction l as [|x l IH]; simpl; intros K.
  - split; [reflexivity | constructor].
  - apply andb_true_iff in K. destruct K as [Kx Kl].
    destruct (IH Kl) as [K A]. split.
    + now apply insert_item_kind.
    + now apply insert_item_ascending.
Qed.
End SortOneKind.

(** The sort puts an array of booleans, of numbers or of strings in
    ascending order. *)
Lemma sortBy_primitives_ascending (l : list value) :
  one_kind l = true -> ascending_items (sortBy_primitives l).
Proof.
  unfold one_kind. intros K.
  apply orb_true_iff in K. destruct K as [K | K];
    [apply orb_true_iff in K; destruct K as [K | K]|].
  - apply (sortBy_primitives_kind is_boolean); try assumption.
    + intros [| |x| | | |] [| |y| | | |]; simpl; try discriminate.
      intros _ _. destruct x, y; simpl; intros; congruence || exact I.
    + intros [| |x| | | |] [| |y| | | |]; simpl; try discriminate.
      intros _ _. destruct x, y; simpl; intros; congruence || exact I.
  - apply (sortBy_primitives_kind is_number); try assumption.
    + intros [| | |x| | |] [| | |y| | |]; simpl; try discriminate.
      intros _ _ H. now apply Z.leb_le.
    + intros [| | |x| | |] [| | |y| | |]; simpl; try discriminate.
      intros _ _ H. apply Z.leb_gt in H. lia.
  - apply (sortBy_primitives_kind is_string); try assumption.
    + intros [| | | |x| |] [| | | |y| |]; simpl; try discriminate.
      now intros _ _ H.
    + intros [| | | |x| |] [| | | |y| |]; simpl; try discriminate.
      intros _ _ H. destruct (String.leb_total x y) as [T | T];
        [congruence | assumption].
Qed.

Lemma only_in_one_kind (items others : list value) :
  one_kind items = true -> one_kind (only_in items others) = true.
Proof.
  assert (F : forall (kind : value -> bool) (q : value -> bool) (l : list value),
            forallb kind l = true -> forallb kind (filter q l) = true).
  { intros kind q l K. apply forallb_forall. intros x Hx.
    apply filter_In in Hx. exact (forallb_In _ _ _ K (proj1 Hx)). }
  unfold one_kind, only_in. intros K.
  apply orb_true_iff in K. destruct K as [K | K];
    [apply orb_true_iff in K; destruct K as [K | K]|].
  - now rewrite (F _ _ _ K).
  - rewrite (F _ _ _ K). now rewrite orb_true_r.
  - rewrite (F _ _ _ K). now rewrite orb_true_r.
Qed.

(** C6, as amended.  For a primitive-kind property whose two values are
    arrays, the items are compared by the text [JSON.stringify] gives them
    (which depends on the order of a record's keys): the removed items are
    the items of [from] whose text is the text of no item of [to], the added
    items the items of [to] whose text is the text of no item of [from].
    The property's entry is the array made of a removed marker holding the
    sorted removed items and an added marker holding the sorted added items,
    each only if its items are not empty; nothing is emitted when both are
    empty.  Nothing is logged or thrown.  Sorting is lodash's [sortBy]: for
    an array of booleans, of numbers or of strings, as the property kinds
    type it, each marker holds exactly its items, in ascending order. *)
Theorem primitive_array_property
    (sortByItems : list value -> list value)
    (self : ChangeResult -> value -> value -> value -> value -> TypeDescriptor ->
            M ChangeResult)
    (fromRoot toRoot : value) (descriptor : TypeDescriptor) (from to : value)
    (key name : string) (fs ts : list value) (cr : ChangeResult)
    (log : list string) :
  (forall l, one_kind l = true -> sortByItems l = sortBy_primitives l) ->
  is_record from = true -> is_record to = true ->
  bound_name (property_of descriptor key) = Some name ->
  pd_type (property_of descriptor key) <> TComplex ->
  field from name = VArr fs ->
  field to name = VArr ts ->
  process_property sortByItems self fromRoot toRoot descriptor from to key cr log
  = (Ok (inr (match set_markers sortByItems (only_in fs ts) (only_in ts fs) with
              | [] => cr
              | markers => assoc_set name (VArr markers) cr
              end)), log)
  /\ (forall x, In x (only_in fs ts) <->
        In x fs /\ forall y, In y ts -> JSON_stringify x <> JSON_stringify y)
  /\ (forall x, In x (only_in ts fs) <->
        In x ts /\ forall y, In y fs -> JSON_stringify x <> JSON_stringify y)
  /\ (set_markers sortByItems (only_in fs ts) (only_in ts fs) = [] <->
        only_in fs ts = [] /\ only_in ts fs = [])
  /\ (one_kind fs = true ->
        ascending_items (sortByItems (only_in fs ts)) /\
        Permutation (only_in fs ts) (sortByItems (only_in fs ts)))
  /\ (one_kind ts = true ->
        ascending_items (sortByItems (only_in ts fs)) /\
        Permutation (only_in ts fs) (sortByItems (only_in ts fs))).
Proof.
  intros Hsort Rf Rt Hname Hty Ff Ft.
  pose proof (is_record_not_nil _ Rf) as Nf.
  pose proof (is_record_not_nil _ Rt) as Nt.
  assert (Sorted : forall items others,
            one_kind items = true ->
            ascending_items (sortByItems (only_in items others)) /\
            Permutation (only_in items others)
              (sortByItems (only_in items others))).
  { intros items others K.
    pose proof (only_in_one_kind items others K) as K'.
    rewrite (Hsort _ K'). split.
    - now apply sortBy_primitives_ascending.
    - apply sortBy_primitives_perm. }
  split; [|split; [|split; [|split; [|split]]]];
    try (intros x; apply only_in_In); try (apply Sorted).
  - unfold process_property.
    rewrite (prop_get_nonnil _ _ Nf). walk_simpl.
    rewrite (prop_get_nonnil _ _ Nt). walk_simpl.
    rewrite Hname.
    destruct (pd_type (property_of descriptor key)); try congruence;
      rewrite (prop_get_nonnil _ _ Nf); walk_simpl;
      rewrite (prop_get_nonnil _ _ Nt); walk_simpl;
      rewrite Ff, Ft; now rewrite primitive_arrays_only_in.
  - unfold set_markers.
    destruct (only_in fs ts), (only_in ts fs); simpl; split;
      try discriminate; try tauto; intros [? ?]; discriminate.
Qed.

(** C6: equality of items is sensitive to key order.  The records [{a: 1,
    b: 2}] and [{b: 2, a: 1}] are deeply equal, yet a primitive array holding
    the one on the [from] side and the other on the [to] side is reported as
    one removal and one addition. *)
Lemma primitive_array_key_order_sensitive :
  isEqual KeyOrderExample.ab KeyOrderExample.ba = true
  /\ diff sortBy_primitives KeyOrderExample.from KeyOrderExample.to
       KeyOrderExample.tagged []
     = (Ok [("tags",
             VArr [VObj [(removed_marker, VArr [KeyOrderExample.ab])];
                   VObj [(added_marker, VArr [KeyOrderExample.ba])]])], []).
Proof.
  split; reflexivity.
Qed.

Lemma primitive_array_property_witness :
  process_property sortBy_primitives (fun _ _ _ _ _ _ => ret [])
    VNull VNull CarTypeDescriptorRegistry.automobileFeature
    (VObj [("tags", VArr [VStr "b"; VStr "a"; VStr "c"])])
    (VObj [("tags", VArr [VStr "c"; VStr "d"])]) "tags" [] []
  = (Ok (inr [("tags",
               VArr [VObj [(removed_marker, VArr [VStr "a"; VStr "b"])];
                     VObj [(added_marker, VArr [VStr "d"])]])]), [])
  /\ ascending_items [VStr "a"; VStr "b"]
  /\ Permutation [VStr "b"; VStr "a"] [VStr "a"; VStr "b"].
Proof.
  destruct (primitive_array_property sortBy_primitives
              (fun _ _ _ _ _ _ => ret []) VNull VNull
              CarTypeDescriptorRegistry.automobileFeature
              (VObj [("tags", VArr [VStr "b"; VStr "a"; VStr "c"])])
              (VObj [("tags", VArr [VStr "c"; VStr "d"])])
              "tags" "tags" [VStr "b"; VStr "a"; VStr "c"] [VStr "c"; VStr "d"]
              [] [] (fun l _ => eq_refl) eq_refl eq_refl eq_refl
              (fun E => match E in (_ = t) return
                              match t with TComplex => False | _ => True end
                        with eq_refl => I end)
              eq_refl eq_refl)
    as (P & _ & _ & _ & S & _).
  exact (conj P (S eq_refl)).
Defined.

(** ** Complex properties and the shape of their values *)

Lemma process_property_complex
    (sortByItems : list value -> list value)
    (self : ChangeResult -> value -> value -> value -> value -> TypeDescriptor ->
            M ChangeResult)
    (fromRoot toRoot : value) (descriptor : TypeDescriptor) (from to : value)
    (key name : string) (td : TypeDescriptor) (pks : list string)
    (cr : ChangeResult) :
  isNil from = false -> isNil to = false ->
  bound_name (property_of descriptor key) = Some name ->
  pd_type (property_of descriptor key) = TComplex ->
  pd_descriptor (property_of descriptor key) = Some td ->
  _toArray (td_primaryKey td) = Some pks ->
  process_property sortByItems self fromRoot toRoot descriptor from to key cr
  = match field from key, field to key with
    | VArr fromItems, VArr toItems =>
        c <- complex_arrays self fromRoot toRoot cr name pks td
               fromItems toItems ;;
        ret (inr c)
    | fv, tv =>
        if (negb (isNil fv) || negb (isNil tv))%bool
        then throw (Error (msg_non_array name))
        else ret (inr cr)
    end.
Proof.
  intros Nf Nt Hname Hty Htd Hpks. unfold process_property.
  rewrite (prop_get_nonnil _ _ Nf). walk_simpl.
  rewrite (prop_get_nonnil _ _ Nt). walk_simpl.
  rewrite Hname, Hty, Htd, Hpks.
  destruct (field from key), (field to key); reflexivity.
Qed.

(** C5, as amended.  For a complex-kind property of two records.  When the
    property is configured (bound name, nested descriptor, primary key):
    if its two values are not both arrays and not both nil, the walk throws
    [Unexpected non-array complex type], which ends the loop over the
    properties and reaches the caller; if both are nil, the property
    contributes nothing and nothing is logged or thrown; if both are
    arrays, the outcome is that of reconciling them, which may itself
    throw.  Hence an error raised while this property is processed means
    that the shape rule is violated here, or that it was raised from
    inside the reconciliation of two arrays.  When the configuration is
    incomplete, the values are not examined: the fault is logged, the walk
    of the object ends and nothing is thrown. *)
Theorem complex_shape_check
    (sortByItems : list value -> list value)
    (self : ChangeResult -> value -> value -> value -> value -> TypeDescriptor ->
            M ChangeResult)
    (fromRoot toRoot : value) (descriptor : TypeDescriptor) (from to : value)
    (key : string) (cr : ChangeResult) (log : list string) :
  is_record from = true -> is_record to = true ->
  pd_type (property_of descriptor key) = TComplex ->
  let pd := property_of descriptor key in
  let fv := field from key in
  let tv := field to key in
  let outcome :=
    process_property sortByItems self fromRoot toRoot descriptor from to key
      cr log in
  (forall name td pks,
     bound_name pd = Some name ->
     pd_descriptor pd = Some td ->
     _toArray (td_primaryKey td) = Some pks ->
     ((Array_isArray fv && Array_isArray tv)%bool = false ->
      (isNil fv && isNil tv)%bool = false ->
      outcome = (Throw (Error (msg_non_array name)), log)
      /\ forall rest,
           process_keys sortByItems self fromRoot toRoot descriptor from to
             (key :: rest) cr log
           = (Throw (Error (msg_non_array name)), log))
     /\ (isNil fv = true -> isNil tv = true -> outcome = (Ok (inr cr), log))
     /\ (forall fi ti, fv = VArr fi -> tv = VArr ti ->
           outcome
           = (c <- complex_arrays self fromRoot toRoot cr name pks td
                     fi ti ;;
              ret (inr c)) log)
     /\ (threw outcome = true ->
           ((Array_isArray fv && Array_isArray tv)%bool = false /\
            (isNil fv && isNil tv)%bool = false)
           \/ exists fi ti,
                fv = VArr fi /\ tv = VArr ti /\
                threw (complex_arrays self fromRoot toRoot cr name pks
                         td fi ti log) = true))
  /\ ((bound_name pd = None \/ pd_descriptor pd = None \/
       exists td, pd_descriptor pd = Some td /\
                  _toArray (td_primaryKey td) = None) ->
      exists msg, outcome = (Ok (inl cr), (log ++ [msg])%list)).
Proof.
  intros Rf Rt Hty pd fv tv outcome.
  pose proof (is_record_not_nil _ Rf) as Nf.
  pose proof (is_record_not_nil _ Rt) as Nt.
  subst outcome. split.
  - intros name td pks Hname Htd Hpks.
    pose proof (process_property_complex sortByItems self fromRoot toRoot descriptor
                  from to key name td pks cr Nf Nt Hname Hty Htd Hpks) as PP.
    assert (Bad : (Array_isArray fv && Array_isArray tv)%bool = false ->
                  (isNil fv && isNil tv)%bool = false ->
                  process_property sortByItems self fromRoot toRoot descriptor
                    from to key cr log
                  = (Throw (Error (msg_non_array name)), log)).
    { rewrite PP. fold fv tv. clearbody fv tv.
      destruct fv, tv; simpl; intros A B; try discriminate; reflexivity. }
    split.
    { intros A B. split; [exact (Bad A B)|].
      intros rest. simpl. unfold bind. now rewrite (Bad A B). }
    clear Bad. rewrite PP. clear PP. fold fv tv. clearbody fv tv.
    split; [|split].
    + destruct fv, tv; simpl; intros A B; try discriminate; reflexivity.
    + intros fi ti -> ->. reflexivity.
    + destruct fv, tv; simpl; try discriminate; intros T;
        try (left; split; reflexivity).
      right. exists items, items0. repeat split.
      unfold threw, bind in *.
      destruct (complex_arrays _ _ _ _ _ _ _ _ _ log) as [[c|e|] log'];
        simpl in *; congruence.
  - intros Hconf. unfold process_property.
    rewrite (prop_get_nonnil _ _ Nf). walk_simpl.
    rewrite (prop_get_nonnil _ _ Nt). walk_simpl.
    unfold pd in Hconf. clear pd. rewrite Hty.
    destruct (bound_name (property_of descriptor key)) as [name|] eqn:Hname;
      [|eexists; reflexivity].
    destruct (pd_descriptor (property_of descriptor key)) as [td|] eqn:Htd;
      [|eexists; reflexivity].
    destruct (_toArray (td_primaryKey td)) as [pks|] eqn:Hpks;
      [|eexists; reflexivity].
    exfalso. destruct Hconf as [H | [H | [td' [H H']]]]; try discriminate.
    injection H as <-. congruence.
Qed.

(** C5: the shape rule is neither the only source of an error nor always
    enforced.  With two arrays on both sides the walk still throws: a
    [TypeError] when an element is [null], and [Uh oh...] when a matched
    element is falsy.  With a value that is not an array under a complex
    property whose nested descriptor has no primary key, nothing is thrown:
    the fault is logged and the result returned. *)
Lemma complex_arrays_still_throw :
  diff sortBy_primitives
    (VObj [("cars", VArr [VNull]); ("trucks", VArr [])])
    (VObj [("cars", VArr []); ("trucks", VArr [])])
    CarTypeDescriptorRegistry.automobileCollection []
  = (Throw TypeError, [])
  /\ diff sortBy_primitives
       (VObj [("cars", VArr [VNum 0]); ("trucks", VArr [])])
       (VObj [("cars", VArr [VObj [("id", VStr EmptyString)]]); ("trucks", VArr [])])
       CarTypeDescriptorRegistry.automobileCollection []
     = (Throw (Error uh_oh), [])
  /\ diff sortBy_primitives
       (VObj [("cost", VNum 100); ("features", VStr "none"); ("msrp", VNum 1)])
       (VObj [("cost", VNum 200); ("features", VArr []); ("msrp", VNum 2)])
       MissingKeyExample.car []
     = (Ok [("cost", VObj [(removed_marker, VNum 100); (added_marker, VNum 200)])],
        [msg_need_primaryKey MissingKeyExample.car "features"]).
Proof.
  repeat split.
Qed.

Lemma complex_shape_check_witness :
  process_property sortBy_primitives (fun _ _ _ _ _ _ => ret [])
    VNull VNull CarTypeDescriptorRegistry.automobileCollection
    (VObj [("cars", VArr []); ("trucks", VArr [])])
    (VObj [("cars", VArr []); ("trucks", VStr "none")]) "trucks" [] []
  = (Throw (Error "Unexpected non-array complex type: 'trucks'"), []).
Proof.
  exact (proj1 (proj1 (proj1 (complex_shape_check sortBy_primitives
                  (fun _ _ _ _ _ _ => ret []) VNull VNull
                  CarTypeDescriptorRegistry.automobileCollection
                  (VObj [("cars", VArr []); ("trucks", VArr [])])
                  (VObj [("cars", VArr []); ("trucks", VStr "none")])
                  "trucks" [] [] eq_refl eq_refl eq_refl)
                  "trucks" CarTypeDescriptorRegistry.automobile ["id"]
                  eq_refl eq_refl eq_refl)
               eq_refl eq_refl)).
Defined.

(** ** Descriptors and fuel *)

Lemma assoc_In {A} (k : string) (l : list (string * A)) (v : A) :
  assoc k l = Some v -> In (k, v) l.
Proof.
  induction l as [|[k' v'] l IH]; simpl; [discriminate|].
  destruct (String.eqb_spec k k') as [-> | Hne].
  - intros [= ->]. now left.
  - intros H. right. now apply IH.
Qed.

Lemma assoc_None_keys {A} (k : string) (l : list (string * A)) :
  assoc k l = None <-> ~ In k (Object_keys l).
Proof.
  unfold Object_keys.
  induction l as [|[k' v'] l IH]; simpl; [tauto|].
  destruct (String.eqb_spec k k') as [-> | Hne].
  - split; [discriminate | tauto].
  - rewrite IH. split; [intros H [E|E]; [congruence | tauto] | tauto].
Qed.

Lemma fold_max_le (l : list nat) (n : nat) :
  In n l -> (n <= fold_right Nat.max O l)%nat.
Proof.
  induction l as [|m l IH]; simpl; [tauto|].
  intros [-> | H]; [lia|]. specialize (IH H). lia.
Qed.

Lemma nested_depth (d td : TypeDescriptor) (key : string) (pd : PropertyDescriptor) :
  In (key, pd) (td_properties d) -> pd_descriptor pd = Some td ->
  (td_depth td < td_depth d)%nat.
Proof.
  destruct d as [n ps pk]. simpl. intros Hin Hd.
  apply Nat.lt_le_trans with (m := S (td_depth td)); [lia|].
  apply fold_max_le. apply in_map_iff. exists (key, pd). split; [|assumption].
  destruct pd as [ty nested nm]. simpl in Hd. now subst nested.
Qed.

(** The nested descriptor of any property the walk looks up is strictly
    shallower than the descriptor being walked. *)
Lemma property_of_depth (d td : TypeDescriptor) (key : string) :
  pd_descriptor (property_of d key) = Some td -> (td_depth td < td_depth d)%nat.
Proof.
  unfold property_of. destruct (assoc key (td_properties d)) as [pd|] eqn:E.
  - intros H. apply assoc_In in E. exact (nested_depth _ _ _ _ E H).
  - discriminate.
Qed.

Lemma bind_ext {A B} (m1 m2 : M A) (k1 k2 : A -> M B) (log : list string) :
  m1 log = m2 log ->
  (forall a log', k1 a log' = k2 a log') ->
  bind m1 k1 log = bind m2 k2 log.
Proof.
  unfold bind. intros -> H. destruct (m2 log) as [[a|e|] log']; auto.
Qed.

Lemma mapM_ext {A B} (f g : A -> M B) (l : list A) :
  (forall x log, In x l -> f x log = g x log) ->
  forall log, mapM f l log = mapM g l log.
Proof.
  induction l as [|x l IH]; intros H log; simpl; [reflexivity|].
  apply bind_ext; [apply H; now left|].
  intros y log'. apply bind_ext; [|reflexivity].
  apply IH. intros z log'' Hz. apply H. now right.
Qed.

Section ProjectorFuel.
Variables self1 self2 :
  list (string * value) -> value -> value -> TypeDescriptor ->
  M (list (string * value)).
Variable descriptor : TypeDescriptor.
Hypothesis agree :
  forall td, (td_depth td < td_depth descriptor)%nat ->
  forall r root item log, self1 r root item td log = self2 r root item td log.

Lemma transform_keys_ext (root property : value) (keys : list string) :
  forall result log,
    transform_keys self1 root property descriptor keys result log
    = transform_keys self2 root property descriptor keys result log.
Proof.
  induction keys as [|key rest IH]; intros result log; simpl; [reflexivity|].
  destruct (bound_name (property_of descriptor key)) as [name|]; [|reflexivity].
  apply bind_ext; [reflexivity|]. intros v log1.
  destruct (pd_type (property_of descriptor key)); try reflexivity;
    try (apply bind_ext; [reflexivity|]; intros; apply IH).
  destruct (pd_descriptor (property_of descriptor key)) as [td|] eqn:Htd;
    [|reflexivity].
  destruct v; try (destruct (negb _); [reflexivity | apply IH]).
  apply bind_ext.
  - apply mapM_ext. intros x log2 _. apply agree.
    now apply property_of_depth with (key := key).
  - intros rendered log2. apply IH.
Qed.
End ProjectorFuel.

(** With more fuel than the descriptor is deep, the projector does not
    depend on the fuel. *)
Lemma _processComplexTypeTransformations_fuel (n m : nat) :
  forall descriptor,
    (td_depth descriptor < n)%nat -> (td_depth descriptor < m)%nat ->
    forall result root property log,
      _processComplexTypeTransformations n result root property descriptor log
      = _processComplexTypeTransformations m result root property descriptor log.
Proof.
  revert m. induction n as [|n IH]; intros m descriptor Hn Hm; [lia|].
  destruct m as [|m]; [lia|]. intros result root property log. simpl.
  apply transform_keys_ext. intros td Htd r root' item log'.
  apply IH; lia.
Qed.

(** ** The snapshot projector *)

Lemma assoc_set_lookup {A} (k k' : string) (v : A) (r : list (string * A)) :
  assoc k' (assoc_set k v r) = if String.eqb k' k then Some v else assoc k' r.
Proof.
  induction r as [|[k0 v0] r IH]; simpl.
  - reflexivity.
  - destruct (String.eqb_spec k k0) as [-> | Hne]; simpl.
    + destruct (String.eqb k' k0); reflexivity.
    + rewrite IH. destruct (String.eqb_spec k' k0) as [-> | Hne'].
      * destruct (String.eqb_spec k0 k) as [-> | _]; [congruence | reflexivity].
      * reflexivity.
Qed.

Lemma nodup_keys_NoDup (keys : list string) :
  nodup_keys keys = true <-> NoDup keys.
Proof.
  induction keys as [|k r IH]; simpl.
  - split; [constructor | reflexivity].
  - rewrite andb_true_iff, negb_true_iff, IH. split.
    + intros [H1 H2]. constructor; [|assumption].
      intros Hin. assert (T : existsb (String.eqb k) r = true).
      { apply existsb_exists. exists k. split; [assumption | apply String.eqb_refl]. }
      congruence.
    + intros H. inversion H as [|? ? Hn Hr]; subst. split; [|assumption].
      destruct (existsb (String.eqb k) r) eqn:T; [|reflexivity].
      apply existsb_exists in T. destruct T as [y [Hy E]].
      apply String.eqb_eq in E. subst. contradiction.
Qed.

Lemma keys_assoc {A} (k : string) (l : list (string * A)) :
  In k (Object_keys l) -> exists v, assoc k l = Some v.
Proof.
  intros H. destruct (assoc k l) as [v|] eqn:E; [now exists v|].
  apply assoc_None_keys in E. contradiction.
Qed.

Lemma well_bound_keys (d : TypeDescriptor) :
  well_bound d = true -> NoDup (Object_keys (td_properties d)).
Proof.
  destruct d as [n ps pk]. simpl. rewrite andb_true_iff. intros [H _].
  now apply nodup_keys_NoDup.
Qed.

Lemma well_bound_property (d : TypeDescriptor) (key : string) (pd : PropertyDescriptor) :
  well_bound d = true -> In (key, pd) (td_properties d) ->
  bound_name pd = Some key /\
  (pd_type pd = TComplex ->
   exists td, pd_descriptor pd = Some td /\ well_bound td = true).
Proof.
  destruct d as [n ps pk]. simpl. rewrite andb_true_iff. intros [_ H] Hin.
  pose proof (forallb_In _ _ _ H Hin) as P. simpl in P.
  destruct pd as [ty nested nm]. apply andb_true_iff in P. destruct P as [P1 P2].
  split.
  - unfold bound_name. simpl. destruct nm as [nm|]; [|discriminate].
    apply andb_true_iff in P1. destruct P1 as [E NE].
    apply String.eqb_eq in E. subst nm.
    apply negb_true_iff in NE. now rewrite NE.
  - simpl. intros ->. destruct nested as [td|]; [|discriminate]. now exists td.
Qed.

Lemma compatible_record (d : TypeDescriptor) (x : value) :
  compatible d x = true -> is_record x = true.
Proof.
  destruct d as [n ps pk]. simpl. rewrite andb_true_iff. tauto.
Qed.

Lemma compatible_property (d td : TypeDescriptor) (x : value) (key : string)
    (pd : PropertyDescriptor) :
  compatible d x = true -> In (key, pd) (td_properties d) ->
  pd_type pd = TComplex -> pd_descriptor pd = Some td ->
  match field x key with
  | VArr items => forallb (compatible td) items = true
  | v => isNil v = true
  end.
Proof.
  destruct d as [n ps pk]. simpl. rewrite andb_true_iff. intros [_ H] Hin Hty Hd.
  pose proof (forallb_In _ _ _ H Hin) as P. simpl in P.
  destruct pd as [ty nested nm]. simpl in Hty, Hd. subst ty nested.
  destruct (field x key); assumption.
Qed.


Lemma mapM_ok {A B} (f : A -> M B) (l : list A) (log : list string) :
  (forall x, In x l -> exists y, f x log = (Ok y, log)) ->
  exists ys, mapM f l log = (Ok ys, log) /\ List.length ys = List.length l.
Proof.
  induction l as [|x l IH]; intros H; simpl.
  - exists []. split; reflexivity.
  - destruct (H x (or_introl eq_refl)) as [y Hy].
    destruct IH as [ys [Hys Hlen]]; [intros z Hz; apply H; now right|].
    exists (y :: ys). split; [|simpl; now rewrite Hlen].
    rewrite (bind_run_ok _ _ _ _ _ Hy). rewrite (bind_run_ok _ _ _ _ _ Hys).
    reflexivity.
Qed.

Section ProjectorSpec.
Variable self :
  list (string * value) -> value -> value -> TypeDescriptor ->
  M (list (string * value)).
Variables (root element : value) (descriptor : TypeDescriptor) (log : list string).
Hypothesis WB : well_bound descriptor = true.
Hypothesis CO : compatible descriptor element = true.
Hypothesis self_ok :
  forall td item,
    (td_depth td < td_depth descriptor)%nat ->
    well_bound td = true -> compatible td item = true ->
    exists s, self [] root item td log = (Ok s, log).

Lemma transform_keys_spec (keys : list string) :
  NoDup keys ->
  (forall k, In k keys -> In k (Object_keys (td_properties descriptor))) ->
  forall result,
  exists result',
    transform_keys self root element descriptor keys result log = (Ok result', log)
    /\ (forall k, ~ In k keys -> assoc k result' = assoc k result)
    /\ (forall k, In k keys ->
          exists c,
            snapshot_contribution (fun item td => self [] root item td)
              descriptor element log k c /\
            assoc k result' = match c with
                              | Some v => Some v
                              | None => assoc k result
                              end).
Proof.
  induction keys as [|key rest IH]; intros ND Hkeys result.
  - exists result. simpl. split; [reflexivity|]. split; [tauto|]. intros k [].
  - inversion ND as [|? ? Hnotin ND']; subst.
    assert (Hrest : forall k, In k rest ->
                      In k (Object_keys (td_properties descriptor)))
      by (intros k Hk; apply Hkeys; now right).
    destruct (keys_assoc _ _ (Hkeys key (or_introl eq_refl))) as [pd Hpd].
    assert (Hprop : property_of descriptor key = pd)
      by (unfold property_of; now rewrite Hpd).
    pose proof (assoc_In _ _ _ Hpd) as Hin.
    destruct (well_bound_property _ _ _ WB Hin) as [Hname Hcomplex].
    pose proof (is_record_not_nil _ (compatible_record _ _ CO)) as Nn.
    (* the state after this key, and what the key contributes *)
    assert (Step : exists c,
               snapshot_contribution (fun item td => self [] root item td)
                 descriptor element log key c /\
               forall r,
                 transform_keys self root element descriptor (key :: rest) r log
                 = transform_keys self root element descriptor rest
                     (match c with
                      | Some v => assoc_set key v r
                      | None => r
                      end) log).
    { destruct (pd_type pd) eqn:Hty.
      1-3: (exists (if isNil (field element key) then None
                    else Some (field element key));
            split;
            [ unfold snapshot_contribution; rewrite Hprop, Hty; reflexivity
            | intros r; cbn [transform_keys]; rewrite Hprop, Hname;
              rewrite (prop_get_nonnil _ _ Nn); walk_simpl; rewrite Hty;
              walk_simpl; destruct (isNil (field element key)); reflexivity ]).
      destruct (Hcomplex eq_refl) as [td [Htd WBtd]].
      pose proof (compatible_property _ _ _ _ _ CO Hin Hty Htd) as Shape.
      assert (Dtd : (td_depth td < td_depth descriptor)%nat)
        by exact (nested_depth _ _ _ _ Hin Htd).
      destruct (field element key) as [| | | | |items|] eqn:Fv;
        try discriminate.
      1-2: (exists None; split;
            [ unfold snapshot_contribution; rewrite Hprop, Hty, Htd, Fv;
              reflexivity
            | intros r; cbn [transform_keys]; rewrite Hprop, Hname;
              rewrite (prop_get_nonnil _ _ Nn); walk_simpl;
              rewrite Hty, Htd, Fv; reflexivity ]).
      destruct (mapM_ok (fun item => self [] root item td) items log)
        as [rendered [Hr Hlen]].
      { intros x Hx. apply self_ok; try assumption.
        exact (forallb_In _ _ _ Shape Hx). }
      exists (match rendered with
              | [] => None
              | _ => Some (VArr (map VObj rendered))
              end).
      split.
      - unfold snapshot_contribution. rewrite Hprop, Hty, Htd, Fv.
        exists rendered. repeat split; [exact Hr | exact Hlen].
      - intros r. cbn [transform_keys]. rewrite Hprop, Hname.
        rewrite (prop_get_nonnil _ _ Nn). walk_simpl.
        rewrite Hty, Htd, Fv.
        rewrite (bind_run_ok _ _ _ _ _ Hr).
        destruct rendered; reflexivity. }
    destruct Step as [c [Hc Hstep]].
    destruct (IH ND' Hrest (match c with
                            | Some v => assoc_set key v result
                            | None => result
                            end)) as [result' [Hrun [Hout Hin']]].
    exists result'. split; [now rewrite Hstep|]. split.
    + intros k Hk. rewrite Hout by (simpl in Hk; tauto).
      destruct c as [v|]; [|reflexivity].
      rewrite assoc_set_lookup.
      destruct (String.eqb_spec k key) as [-> | _]; [|reflexivity].
      simpl in Hk. tauto.
    + intros k [<- | Hk].
      * exists c. split; [assumption|]. rewrite (Hout key Hnotin).
        destruct c as [v|]; [|reflexivity].
        now rewrite assoc_set_lookup, String.eqb_refl.
      * destruct (Hin' k Hk) as [c' [Hc' Hl]]. exists c'. split; [assumption|].
        rewrite Hl. destruct c' as [v'|]; [reflexivity|].
        destruct c as [v|]; [|reflexivity].
        rewrite assoc_set_lookup.
        destruct (String.eqb_spec k key) as [-> | _]; [contradiction | reflexivity].
Qed.
End ProjectorSpec.

(** On a well-bound descriptor and a compatible element the projector
    returns a record, logs nothing and does not throw. *)
Lemma _processComplexTypeTransformations_ok (n : nat) :
  forall descriptor element root log,
    (td_depth descriptor < n)%nat ->
    well_bound descriptor = true -> compatible descriptor element = true ->
    exists snap,
      _processComplexTypeTransformations n [] root element descriptor log
      = (Ok snap, log).
Proof.
  induction n as [|n IH]; intros descriptor element root log Hn WB CO; [lia|].
  simpl.
  destruct (transform_keys_spec (_processComplexTypeTransformations n)
              root element descriptor log WB CO) with
    (keys := sortBy (Object_keys (td_properties descriptor))) (result := @nil (string * value))
    as [snap [Hrun _]].
  - intros td item Htd WBtd COtd. apply IH; [lia | assumption | assumption].
  - eapply Permutation_NoDup; [apply sortBy_perm | now apply well_bound_keys].
  - intros k Hk. now apply sortBy_In.
  - now exists snap.
Qed.

Lemma snapshot_contribution_ext
    (render1 render2 : value -> TypeDescriptor -> M (list (string * value)))
    (descriptor : TypeDescriptor) (element : value) (log : list string)
    (key : string) (c : option value) :
  (forall td, (td_depth td < td_depth descriptor)%nat ->
     forall item log', render1 item td log' = render2 item td log') ->
  snapshot_contribution render1 descriptor element log key c ->
  snapshot_contribution render2 descriptor element log key c.
Proof.
  unfold snapshot_contribution. intros Hagree.
  destruct (pd_type (property_of descriptor key)); try tauto.
  destruct (pd_descriptor (property_of descriptor key)) as [td|] eqn:Htd;
    [|tauto].
  destruct (field element key); try tauto.
  intros [rendered [Hr H]]. exists rendered. split; [|assumption].
  rewrite <- Hr. symmetry. apply mapM_ext. intros x log' _.
  apply Hagree. now apply property_of_depth with (key := key).
Qed.

(** C9.  For an element compatible with a well-bound descriptor, the
    snapshot is produced without logging or throwing, and for every key:
    a key that is not a property of the descriptor is absent; a property
    contributes exactly [snapshot_contribution] -- a primitive value that
    is not nil is included verbatim, a complex property is included as the
    sequence of its items' own snapshots and only when that sequence is not
    empty; and no key is present for a property whose value on the element
    is nil or absent. *)
Theorem snapshot_sparse
    (root element : value) (descriptor : TypeDescriptor) (log : list string) :
  well_bound descriptor = true ->
  compatible descriptor element = true ->
  exists snap,
    snapshot root element descriptor log = (Ok snap, log)
    /\ (forall key, ~ In key (Object_keys (td_properties descriptor)) ->
          assoc key snap = None)
    /\ (forall key, In key (Object_keys (td_properties descriptor)) ->
          exists c,
            snapshot_contribution (snapshot root) descriptor element log key c /\
            assoc key snap = c)
    /\ (forall key, pd_type (property_of descriptor key) <> TComplex ->
          In key (Object_keys (td_properties descriptor)) ->
          isNil (field element key) = false ->
          assoc key snap = Some (field element key))
    /\ (forall key, isNil (field element key) = true -> assoc key snap = None).
Proof.
  intros WB CO. unfold snapshot at 1. simpl.
  destruct (transform_keys_spec
              (_processComplexTypeTransformations (td_depth descriptor))
              root element descriptor log WB CO) with
    (keys := sortBy (Object_keys (td_properties descriptor)))
    (result := @nil (string * value))
    as [snap [Hrun [Hout Hin]]].
  - intros td item Htd WBtd COtd.
    apply _processComplexTypeTransformations_ok; assumption.
  - eapply Permutation_NoDup; [apply sortBy_perm | now apply well_bound_keys].
  - intros k Hk. now apply sortBy_In.
  - assert (Hcontrib :
      forall key, In key (Object_keys (td_properties descriptor)) ->
        exists c,
          snapshot_contribution (snapshot root) descriptor element log key c /\
          assoc key snap = c).
    { intros key Hkey. destruct (Hin key) as [c [Hc Hl]]; [now apply sortBy_In|].
      exists c. split.
      - revert Hc. apply snapshot_contribution_ext.
        intros td Htd item log'. unfold snapshot.
        apply _processComplexTypeTransformations_fuel; lia.
      - rewrite Hl. now destruct c. }
    assert (Habsent :
      forall key, ~ In key (Object_keys (td_properties descriptor)) ->
        assoc key snap = None).
    { intros key Hkey. rewrite Hout; [reflexivity|].
      intros Hk. apply Hkey. now apply sortBy_In. }
    exists snap. split; [exact Hrun|]. split; [exact Habsent|].
    split; [exact Hcontrib|]. split.
    + intros key Hty Hkey Hnn. destruct (Hcontrib key Hkey) as [c [Hc ->]].
      unfold snapshot_contribution in Hc. rewrite Hnn in Hc.
      destruct (pd_type (property_of descriptor key)); congruence.
    + intros key Hnil.
      destruct (in_dec string_dec key (Object_keys (td_properties descriptor)))
        as [Hkey | Hkey]; [|now apply Habsent].
      destruct (Hcontrib key Hkey) as [c [Hc ->]].
      unfold snapshot_contribution in Hc. rewrite Hnil in Hc.
      destruct (pd_type (property_of descriptor key)); try assumption.
      destruct (pd_descriptor (property_of descriptor key)); [|contradiction].
      destruct (field element key); try assumption; discriminate.
Qed.

Lemma snapshot_sparse_witness :
  exists snap,
    snapshot VNull
      (VObj [("id", VStr "car_1"); ("make", VStr "ford"); ("model", VNull);
             ("features", VArr []); ("salePrice", VUndefined)])
      CarTypeDescriptorRegistry.automobile []
    = (Ok snap, [])
    /\ assoc "id" snap = Some (VStr "car_1")
    /\ assoc "model" snap = None
    /\ assoc "salePrice" snap = None
    /\ assoc "msrp" snap = None.
Proof.
  destruct (snapshot_sparse VNull
              (VObj [("id", VStr "car_1"); ("make", VStr "ford"); ("model", VNull);
                     ("features", VArr []); ("salePrice", VUndefined)])
              CarTypeDescriptorRegistry.automobile [] eq_refl eq_refl)
    as [snap [Hrun [_ [_ [Hprim Hnil]]]]].
  exists snap. split; [exact Hrun|].
  split.
  - apply (Hprim "id"); [discriminate | simpl; tauto | reflexivity].
  - split; [|split]; apply Hnil; reflexivity.
Defined.

(** ** Deep equality and well-formed values *)

Lemma assoc_NoDup {A} (k : string) (v : A) (l : list (string * A)) :
  NoDup (map fst l) -> In (k, v) l -> assoc k l = Some v.
Proof.
  induction l as [|[k' v'] l IH]; simpl; [tauto|].
  intros ND [E | Hin].
  - injection E as -> ->. now rewrite String.eqb_refl.
  - inversion ND as [|? ? Hn ND']; subst.
    destruct (String.eqb_spec k k') as [-> | _]; [|now apply IH].
    exfalso. apply Hn. apply in_map_iff. now exists (k', v).
Qed.

(** [isEqual] is reflexive on well-formed values. *)
Lemma isEqual_refl (v : value) : wf_value v = true -> isEqual v v = true.
Proof.
  induction v as [| | b | n | s | l IH | fs IH] using value_ind; simpl;
    try reflexivity.
  - intros _. now destruct b.
  - intros _. apply Z.eqb_refl.
  - intros _. apply String.eqb_refl.
  - intros Hwf. induction l as [|x l IHl]; [reflexivity|].
    simpl in Hwf. apply andb_true_iff in Hwf. destruct Hwf as [Hx Hl].
    inversion IH as [|? ? Px Pl]; subst.
    rewrite (Px Hx). simpl. now apply IHl.
  - rewrite andb_true_iff. intros [ND Hwf].
    apply nodup_keys_NoDup in ND. rewrite Nat.eqb_refl. simpl.
    assert (G : forall f', (forall kv, In kv f' -> In kv fs) ->
              (fix each (f : list (string * value)) : bool :=
                 match f with
                 | [] => true
                 | (k, x) :: f'0 =>
                     (match assoc k fs with
                      | Some y => isEqual x y
                      | None => false
                      end && each f'0)%bool
                 end) f' = true).
    { induction f' as [|[k x] f' IHf]; intros Hsub; [reflexivity|].
      assert (Hin : In (k, x) fs) by (apply Hsub; now left).
      rewrite (assoc_NoDup _ _ _ ND Hin).
      rewrite Forall_forall in IH.
      pose proof (IH (k, x) Hin (forallb_In _ _ _ Hwf Hin)) as Ex.
      simpl in Ex. rewrite Ex. simpl.
      apply IHf. intros kv Hkv. apply Hsub. now right. }
    apply G. auto.
Qed.

Lemma wf_value_field (x : value) (k : string) :
  wf_value x = true -> wf_value (field x k) = true.
Proof.
  destruct x; simpl; try reflexivity.
  rewrite andb_true_iff. intros [_ H].
  destruct (assoc k fields) as [v|] eqn:E; [|reflexivity].
  apply assoc_In in E. exact (forallb_In _ _ _ H E).
Qed.

Lemma filter_nil {A} (p : A -> bool) (l : list A) :
  (forall x, In x l -> p x = false) -> filter p l = [].
Proof.
  induction l as [|x l IH]; intros H; simpl; [reflexivity|].
  rewrite (H x (or_introl eq_refl)). apply IH. intros y Hy. apply H. now right.
Qed.

Lemma only_in_subset (items others : list value) :
  (forall x, In x items -> In x others) -> only_in items others = [].
Proof.
  intros H. unfold only_in. apply filter_nil. intros x Hx.
  apply negb_false_iff, existsb_exists. exists x. split; [now apply H|].
  now apply opt_string_eqb_eq.
Qed.

(** ** Reconciling arrays that hold the same identities *)

Lemma is_record_truthy (x : value) : is_record x = true -> truthy x = true.
Proof.
  destruct x; simpl; congruence.
Qed.


Lemma rmap_pair_for_ok (pks : list string) (xs ys : list value) (keys : list string) :
  forallb is_record xs = true -> forallb is_record ys = true ->
  (forall k, In k keys ->
     (exists x, In x xs /\ canonical_key x pks = k) /\
     (exists y, In y ys /\ canonical_key y pks = k)) ->
  exists pairs, rmap (pair_for pks xs ys) keys = Ok pairs.
Proof.
  intros Rx Ry. induction keys as [|k keys IH]; intros H; simpl.
  - now exists [].
  - destruct (H k (or_introl eq_refl)) as [[x [Hx Kx]] [y [Hy Ky]]].
    destruct (first_with_key_exists _ _ _ _ Hx Kx) as [f Ff].
    destruct (first_with_key_exists _ _ _ _ Hy Ky) as [t Ft].
    unfold pair_for at 1. rewrite Ff, Ft.
    destruct (first_with_key_Some _ _ _ _ Ff) as [Hf _].
    destruct (first_with_key_Some _ _ _ _ Ft) as [Ht _].
    rewrite (is_record_truthy _ (forallb_In _ _ _ Rx Hf)).
    rewrite (is_record_truthy _ (forallb_In _ _ _ Ry Ht)). simpl.
    destruct IH as [pairs Hp]; [intros k' Hk'; apply H; now right|].
    rewrite Hp. simpl. now eexists.
Qed.

(** Two arrays of records carrying the same set of canonical keys have no
    removed and no added element; every matched pair is made of the first
    element with its key on either side. *)
Lemma _getChanges_same_keys (pks : list string) (xs ys : list value) :
  forallb is_record xs = true -> forallb is_record ys = true ->
  (forall x, In x xs -> exists y, In y ys /\ canonical_key y pks = canonical_key x pks) ->
  (forall y, In y ys -> exists x, In x xs /\ canonical_key x pks = canonical_key y pks) ->
  exists pairs,
    _getChanges xs ys pks = Ok (MkChanges [] [] pairs) /\
    Forall (fun p =>
              first_with_key pks (primaryKey p) xs = Some (from p) /\
              first_with_key pks (primaryKey p) ys = Some (to p) /\
              truthy (from p) = true /\ truthy (to p) = true) pairs.
Proof.
  intros Rx Ry Hxy Hyx.
  rewrite (_getChanges_not_nil _ _ _ (records_not_nil _ Rx) (records_not_nil _ Ry)).
  cbv zeta.
  destruct (rmap_pair_for_ok pks xs ys (matched_keys pks xs ys) Rx Ry)
    as [pairs Hp].
  { intros k Hk. now apply matched_keys_In. }
  rewrite Hp. simpl. exists pairs. split.
  - f_equal. f_equal.
    + apply filter_nil. intros x Hx. apply negb_false_iff, includes_In.
      apply matched_keys_In. split; [now exists x|].
      destruct (Hxy x Hx) as [y [Hy E]]. now exists y.
    + apply filter_nil. intros y Hy. apply negb_false_iff, includes_In.
      apply matched_keys_In. split; [|now exists y].
      destruct (Hyx y Hy) as [x [Hx E]]. now exists x.
  - exact (proj2 (rmap_pair_for _ _ _ _ _ Hp)).
Qed.

Lemma NoDup_map_inj {A B} (f : A -> B) (l : list A) (a b : A) :
  NoDup (map f l) -> In a l -> In b l -> f a = f b -> a = b.
Proof.
  induction l as [|x l IH]; simpl; [tauto|].
  intros ND Ha Hb E. inversion ND as [|? ? Hn ND']; subst.
  destruct Ha as [-> | Ha], Hb as [-> | Hb]; try reflexivity.
  - exfalso. apply Hn. rewrite E. now apply in_map.
  - exfalso. apply Hn. rewrite <- E. now apply in_map.
  - now apply IH.
Qed.

(** Reordering an array whose canonical keys are distinct pairs every
    element with itself. *)
Lemma _getChanges_permuted (pks : list string) (xs ys : list value) :
  forallb is_record xs = true ->
  Permutation xs ys ->
  NoDup (map (fun x => canonical_key x pks) xs) ->
  exists pairs,
    _getChanges xs ys pks = Ok (MkChanges [] [] pairs) /\
    Forall (fun p => from p = to p /\ In (from p) xs) pairs.
Proof.
  intros Rx Hperm ND.
  assert (Ry : forallb is_record ys = true).
  { apply forallb_forall. intros y Hy. apply (forallb_In _ _ _ Rx).
    exact (Permutation_in _ (Permutation_sym Hperm) Hy). }
  destruct (_getChanges_same_keys pks xs ys Rx Ry) as [pairs [Hg Hp]].
  { intros x Hx. exists x. split; [exact (Permutation_in _ Hperm Hx) | reflexivity]. }
  { intros y Hy. exists y.
    split; [exact (Permutation_in _ (Permutation_sym Hperm) Hy) | reflexivity]. }
  exists pairs. split; [assumption|].
  rewrite Forall_forall in *. intros p Hpin.
  destruct (Hp p Hpin) as [Ff [Ft _]].
  destruct (first_with_key_Some _ _ _ _ Ff) as [Hf Kf].
  destruct (first_with_key_Some _ _ _ _ Ft) as [Ht Kt].
  split; [|assumption].
  apply (NoDup_map_inj (fun x => canonical_key x pks) xs); try assumption.
  - exact (Permutation_in _ (Permutation_sym Hperm) Ht).
  - now rewrite Kf, Kt.
Qed.

(** ** Walks that report nothing *)

Section QuietWalk.
Variable sortByItems : list value -> list value.
Variable self :
  ChangeResult -> value -> value -> value -> value -> TypeDescriptor ->
  M ChangeResult.
Variables fromRoot toRoot : value.

Lemma matched_pairs_quiet (name : string) (pks : list string)
    (td : TypeDescriptor) (pairs : list InBoth) (cr : ChangeResult) :
  Forall (quiet_pair self fromRoot toRoot td) pairs ->
  forall log, exists log',
    matched_pairs self fromRoot toRoot name pks td pairs cr log = (Ok cr, log').
Proof.
  induction 1 as [|p pairs Hp _ IH]; intros log; simpl.
  - now exists log.
  - destruct (Hp log) as [log1 H1]. rewrite (bind_run_ok _ _ _ _ _ H1).
    simpl. apply IH.
Qed.

Lemma complex_arrays_quiet (name : string) (pks : list string)
    (td : TypeDescriptor) (xs ys : list value) (pairs : list InBoth)
    (cr : ChangeResult) :
  _getChanges xs ys pks = Ok (MkChanges [] [] pairs) ->
  Forall (quiet_pair self fromRoot toRoot td) pairs ->
  forall log, exists log',
    complex_arrays self fromRoot toRoot cr name pks td xs ys log = (Ok cr, log').
Proof.
  intros Hg Hq log. unfold complex_arrays. rewrite Hg. walk_simpl.
  cbn [removed added inBoth]. walk_simpl.
  now apply matched_pairs_quiet.
Qed.

Lemma only_in_self (l : list value) : only_in l l = [].
Proof. apply only_in_subset. auto. Qed.

Lemma primitive_arrays_quiet (cr : ChangeResult) (name : string)
    (xs ys : list value) :
  only_in xs ys = [] -> only_in ys xs = [] ->
  primitive_arrays sortByItems cr name xs ys = cr.
Proof.
  intros A B. rewrite primitive_arrays_only_in, A, B. reflexivity.
Qed.

Lemma primitive_same_value (cr : ChangeResult) (name : string) (v w : value) :
  v = w -> wf_value v = true ->
  match v, w with
  | VArr fromItems, VArr toItems =>
      ret (inr (primitive_arrays sortByItems cr name fromItems toItems))
  | _, _ =>
      if negb (isEqual v w)
      then ret (inr (assoc_set name
                       (VObj [(removed_marker, v); (added_marker, w)]) cr))
      else ret (inr cr)
  end = (ret (inr cr) : M (ChangeResult + ChangeResult)).
Proof.
  intros <- W. pose proof (isEqual_refl _ W) as E.
  destruct v; try (rewrite E; reflexivity).
  now rewrite (primitive_arrays_quiet _ _ _ _ (only_in_self _) (only_in_self _)).
Qed.

Lemma process_property_quiet (descriptor : TypeDescriptor) (x y : value)
    (key : string) (cr : ChangeResult) :
  isNil x = false -> isNil y = false ->
  quiet_property self fromRoot toRoot descriptor x y key ->
  forall log, exists log' step,
    process_property sortByItems self fromRoot toRoot descriptor x y key cr log
    = (Ok step, log') /\ (step = inl cr \/ step = inr cr).
Proof.
  intros Nx Ny Q log. unfold quiet_property in Q. cbv zeta in Q.
  unfold process_property.
  rewrite (prop_get_nonnil _ _ Nx). walk_simpl.
  rewrite (prop_get_nonnil _ _ Ny). walk_simpl.
  destruct (bound_name (property_of descriptor key)) as [name|];
    [|eexists; eexists; split; [reflexivity | now left]].
  specialize (Q name eq_refl).
  destruct (pd_type (property_of descriptor key)).
  1-3: (rewrite (prop_get_nonnil _ _ Nx); walk_simpl;
        rewrite (prop_get_nonnil _ _ Ny); walk_simpl;
        destruct Q as [[E W] | [xs [ys [Ex [Ey [A B]]]]]];
        [ rewrite (primitive_same_value cr name _ _ E W);
          eexists; eexists; split; [reflexivity | now right]
        | rewrite Ex, Ey, (primitive_arrays_quiet _ _ _ _ A B);
          eexists; eexists; split; [reflexivity | now right] ]).
  destruct (pd_descriptor (property_of descriptor key)) as [td|];
    [|eexists; eexists; split; [reflexivity | now left]].
  destruct (_toArray (td_primaryKey td)) as [pks|] eqn:Hpks;
    [|eexists; eexists; split; [reflexivity | now left]].
  destruct (Q td pks eq_refl Hpks)
    as [[A B] | [xs [ys [pairs [Ex [Ey [Hg Hq]]]]]]].
  - destruct (field x key), (field y key); try discriminate;
      eexists; eexists; (split; [reflexivity | now right]).
  - rewrite Ex, Ey.
    destruct (complex_arrays_quiet name pks td xs ys pairs cr Hg Hq log)
      as [log' Hc].
    rewrite (bind_run_ok _ _ _ _ _ Hc).
    eexists; eexists; split; [reflexivity | now right].
Qed.

Lemma process_keys_quiet (descriptor : TypeDescriptor) (x y : value)
    (keys : list string) (cr : ChangeResult) :
  isNil x = false -> isNil y = false ->
  (forall key, In key keys -> quiet_property self fromRoot toRoot descriptor x y key) ->
  forall log, exists log',
    process_keys sortByItems self fromRoot toRoot descriptor x y keys cr log
    = (Ok cr, log').
Proof.
  intros Nx Ny. induction keys as [|key rest IH]; intros Q log; simpl.
  - now exists log.
  - destruct (process_property_quiet descriptor x y key cr Nx Ny
                (Q key (or_introl eq_refl)) log) as [log1 [step [H1 Hs]]].
    rewrite (bind_run_ok _ _ _ _ _ H1).
    destruct Hs as [-> | ->].
    + now exists log1.
    + apply IH. intros k Hk. apply Q. now right.
Qed.
End QuietWalk.

(** ** Identity and order independence *)

Lemma property_of_In (d td : TypeDescriptor) (key : string) :
  pd_descriptor (property_of d key) = Some td ->
  In (key, property_of d key) (td_properties d).
Proof.
  unfold property_of. destruct (assoc key (td_properties d)) as [pd|] eqn:E.
  - intros _. now apply assoc_In.
  - discriminate.
Qed.

Lemma wf_value_items (items : list value) (x : value) :
  wf_value (VArr items) = true -> In x items -> wf_value x = true.
Proof.
  simpl. intros H Hx. exact (forallb_In _ _ _ H Hx).
Qed.

Lemma compatible_items_records (td : TypeDescriptor) (items : list value) :
  forallb (compatible td) items = true -> forallb is_record items = true.
Proof.
  intros H. apply forallb_forall. intros x Hx.
  exact (compatible_record _ _ (forallb_In _ _ _ H Hx)).
Qed.

(** The walk of a value against itself reports nothing, at any depth. *)
Lemma _processChanges_same (sortByItems : list value -> list value) (n : nat) :
  forall descriptor x fromRoot toRoot,
    (td_depth descriptor < n)%nat ->
    wf_value x = true -> compatible descriptor x = true ->
    forall log, exists log',
      _processChanges sortByItems n [] fromRoot toRoot x x descriptor log
      = (Ok [], log').
Proof.
  induction n as [|n IH]; intros descriptor x fromRoot toRoot Hn W C; [lia|].
  simpl.
  pose proof (is_record_not_nil _ (compatible_record _ _ C)) as Nx.
  apply process_keys_quiet; try assumption.
  intros key _. unfold quiet_property. cbv zeta. intros name Hname.
  destruct (pd_type (property_of descriptor key)) eqn:Hty;
    try (left; split; [reflexivity | now apply wf_value_field]).
  intros td pks Htd Hpks.
  pose proof (property_of_In _ _ _ Htd) as Hin.
  pose proof (compatible_property _ _ _ _ _ C Hin Hty Htd) as Shape.
  pose proof (wf_value_field x key W) as Wf.
  destruct (field x key) as [| | | | |items|] eqn:Fv; try discriminate;
    try (left; split; reflexivity).
  right.
  pose proof (compatible_items_records _ _ Shape) as Rec.
  destruct (_getChanges_same_keys pks items items Rec Rec) as [pairs [Hg Hp]];
    try (intros y Hy; now exists y).
  exists items, items, pairs. repeat split; try assumption.
  rewrite Forall_forall in *. intros p Hpin log.
  destruct (Hp p Hpin) as [Ff [Ft _]].
  assert (E : from p = to p) by congruence.
  destruct (first_with_key_Some _ _ _ _ Ff) as [Hf _].
  rewrite <- E. apply IH.
  - pose proof (nested_depth _ _ _ _ Hin Htd). lia.
  - exact (wf_value_items _ _ Wf Hf).
  - exact (forallb_In _ _ _ Shape Hf).
Qed.

(** C2.  For every well-formed value [x] structurally compatible with the
    descriptor, [diff x x] returns the empty change result: the top-level
    mapping has no keys, so there is no nested entry at any level. *)
Theorem diff_identity
    (sortByItems : list value -> list value) (descriptor : TypeDescriptor)
    (x : value) (log : list string) :
  wf_value x = true ->
  compatible descriptor x = true ->
  exists log', diff sortByItems x x descriptor log = (Ok [], log').
Proof.
  intros W C. unfold diff. apply _processChanges_same; [lia | assumption | assumption].
Qed.

Lemma diff_identity_witness :
  exists log',
    diff sortBy_primitives ObjectDiffExample.from ObjectDiffExample.from
      CarTypeDescriptorRegistry.automobileCollection []
    = (Ok [], log').
Proof.
  exact (diff_identity sortBy_primitives
           CarTypeDescriptorRegistry.automobileCollection
           ObjectDiffExample.from [] eq_refl eq_refl).
Defined.

Lemma field_assoc_set_same (fs : list (string * value)) (key : string) (v : value) :
  field (VObj (assoc_set key v fs)) key = v.
Proof.
  simpl. now rewrite assoc_set_lookup, String.eqb_refl.
Qed.

Lemma field_assoc_set_other (fs : list (string * value)) (key k : string) (v : value) :
  k <> key -> field (VObj (assoc_set key v fs)) k = field (VObj fs) k.
Proof.
  intros Hne. simpl. rewrite assoc_set_lookup.
  destruct (String.eqb_spec k key); [contradiction | reflexivity].
Qed.

(** C3.  Let [to] be [from] with the array of one complex property
    reordered, the canonical keys of its elements being pairwise distinct
    (that is, distinct as identities for the reconciler).  Then [diff]
    returns without throwing, and its result has no entry for that property:
    it is empty. *)
Theorem diff_order_independent
    (sortByItems : list value -> list value) (descriptor td : TypeDescriptor)
    (fs : list (string * value)) (key : string) (pks : list string)
    (xs ys : list value) (log : list string) :
  wf_value (VObj fs) = true ->
  compatible descriptor (VObj fs) = true ->
  pd_type (property_of descriptor key) = TComplex ->
  pd_descriptor (property_of descriptor key) = Some td ->
  _toArray (td_primaryKey td) = Some pks ->
  assoc key fs = Some (VArr xs) ->
  Permutation xs ys ->
  NoDup (map (fun x => canonical_key x pks) xs) ->
  exists cr log',
    diff sortByItems (VObj fs) (VObj (assoc_set key (VArr ys) fs)) descriptor log
    = (Ok cr, log')
    /\ assoc key cr = None /\ cr = [].
Proof.
  intros W C Hty Htd Hpks Hxs Hperm ND.
  assert (Fx : field (VObj fs) key = VArr xs) by (simpl; now rewrite Hxs).
  enough (H : exists log',
            diff sortByItems (VObj fs) (VObj (assoc_set key (VArr ys) fs))
              descriptor log = (Ok [], log')).
  { destruct H as [log' H]. exists [], log'. repeat split. exact H. }
  unfold diff. simpl.
  apply process_keys_quiet; try reflexivity.
  intros k _. unfold quiet_property. cbv zeta. intros name Hname.
  destruct (String.eqb_spec k key) as [-> | Hk].
  - (* the reordered property *)
    rewrite Hty. intros td' pks' Htd' Hpks'.
    assert (td' = td) by congruence. subst td'.
    assert (pks' = pks) by congruence. subst pks'.
    pose proof (property_of_In _ _ _ Htd) as Hin.
    pose proof (compatible_property _ _ _ _ _ C Hin Hty Htd) as Shape.
    rewrite Fx in Shape.
    pose proof (compatible_items_records _ _ Shape) as Rec.
    destruct (_getChanges_permuted pks xs ys Rec Hperm ND) as [pairs [Hg Hp]].
    right. exists xs, ys, pairs.
    rewrite field_assoc_set_same. repeat split; try assumption.
    rewrite Forall_forall in *. intros p Hpin log0.
    destruct (Hp p Hpin) as [E Hf]. rewrite <- E.
    apply _processChanges_same.
    + pose proof (nested_depth _ _ _ _ Hin Htd). lia.
    + apply (wf_value_items xs); [|assumption].
      rewrite <- Fx. now apply wf_value_field.
    + exact (forallb_In _ _ _ Shape Hf).
  - (* any other property *)
    destruct (pd_type (property_of descriptor k)) eqn:Htyk.
    1-3: (destruct (String.eqb_spec name key) as [-> | Hn];
          [ right; exists xs, ys; rewrite field_assoc_set_same;
            repeat split; try assumption;
            apply only_in_subset; intros x Hx;
            [ exact (Permutation_in _ Hperm Hx)
            | exact (Permutation_in _ (Permutation_sym Hperm) Hx) ]
          | left; rewrite (field_assoc_set_other _ _ _ _ Hn);
            split; [reflexivity | now apply wf_value_field] ]).
    intros tdk pksk Htdk Hpksk.
    rewrite (field_assoc_set_other _ _ _ _ Hk).
    pose proof (property_of_In _ _ _ Htdk) as Hin.
    pose proof (compatible_property _ _ _ _ _ C Hin Htyk Htdk) as Shape.
    pose proof (wf_value_field (VObj fs) k W) as Wf.
    destruct (field (VObj fs) k) as [| | | | |items|] eqn:Fv; try discriminate;
      try (left; split; reflexivity).
    right.
    pose proof (compatible_items_records _ _ Shape) as Rec.
    destruct (_getChanges_same_keys pksk items items Rec Rec)
      as [pairs [Hg Hp]]; try (intros y Hy; now exists y).
    exists items, items, pairs. repeat split; try assumption.
    rewrite Forall_forall in *. intros p Hpin log0.
    destruct (Hp p Hpin) as [Ff [Ft _]].
    assert (E : from p = to p) by congruence.
    destruct (first_with_key_Some _ _ _ _ Ff) as [Hf _].
    rewrite <- E. apply _processChanges_same.
    + pose proof (nested_depth _ _ _ _ Hin Htdk). lia.
    + exact (wf_value_items _ _ Wf Hf).
    + exact (forallb_In _ _ _ Shape Hf).
Qed.

Lemma diff_order_independent_witness :
  exists cr log',
    diff sortBy_primitives ObjectDiffExample.from
      (VObj [("cars", VArr [ObjectDiffExample.modifiedCar;
                            ObjectDiffExample.removedCar]);
             ("trucks", VArr [ObjectDiffExample.truck])])
      CarTypeDescriptorRegistry.automobileCollection []
    = (Ok cr, log')
    /\ assoc "cars" cr = None /\ cr = [].
Proof.
  refine (diff_order_independent sortBy_primitives
            CarTypeDescriptorRegistry.automobileCollection
            CarTypeDescriptorRegistry.automobile
            [("cars", VArr [ObjectDiffExample.removedCar;
                            ObjectDiffExample.modifiedCar]);
             ("trucks", VArr [ObjectDiffExample.truck])]
            "cars" ["id"]
            [ObjectDiffExample.removedCar; ObjectDiffExample.modifiedCar]
            [ObjectDiffExample.modifiedCar; ObjectDiffExample.removedCar]
            [] eq_refl eq_refl eq_refl eq_refl eq_refl eq_refl
            (perm_swap _ _ _) _).
  vm_compute. constructor.
  - simpl. intros [E | []]. discriminate E.
  - constructor; [simpl; tauto | constructor].
Defined.

(** ** The projector ignores [root] and the log *)

Lemma bind_fst_congr {A B} (m1 m2 : M A) (k1 k2 : A -> M B)
    (log1 log2 : list string) :
  fst (m1 log1) = fst (m2 log2) ->
  (forall a l1 l2, fst (k1 a l1) = fst (k2 a l2)) ->
  fst (bind m1 k1 log1) = fst (bind m2 k2 log2).
Proof.
  unfold bind. intros Hm Hk.
  destruct (m1 log1) as [[a1|e1|] l1], (m2 log2) as [[a2|e2|] l2];
    simpl in Hm; try discriminate; try reflexivity.
  - injection Hm as ->. apply Hk.
  - injection Hm as ->. reflexivity.
Qed.

Lemma mapM_fst_congr {A B} (f g : A -> M B) (l : list A) :
  (forall x l1 l2, In x l -> fst (f x l1) = fst (g x l2)) ->
  forall log1 log2, fst (mapM f l log1) = fst (mapM g l log2).
Proof.
  induction l as [|x l IH]; intros H log1 log2; simpl; [reflexivity|].
  apply bind_fst_congr; [apply H; now left|].
  intros y l1 l2. apply bind_fst_congr; [|reflexivity].
  apply IH. intros z l1' l2' Hz. apply H. now right.
Qed.

Lemma transform_keys_fst
    (self1 self2 : list (string * value) -> value -> value -> TypeDescriptor ->
                   M (list (string * value)))
    (descriptor : TypeDescriptor) (root1 root2 property : value) :
  (forall td r item l1 l2,
     fst (self1 r root1 item td l1) = fst (self2 r root2 item td l2)) ->
  forall keys result log1 log2,
    fst (transform_keys self1 root1 property descriptor keys result log1)
    = fst (transform_keys self2 root2 property descriptor keys result log2).
Proof.
  intros Hself. induction keys as [|key rest IH]; intros result log1 log2; simpl;
    [reflexivity|].
  destruct (bound_name (property_of descriptor key)) as [name|]; [|reflexivity].
  apply bind_fst_congr; [reflexivity|]. intros v l1 l2.
  destruct (pd_type (property_of descriptor key)); try reflexivity;
    try (apply bind_fst_congr; [reflexivity|]; intros; apply IH).
  destruct (pd_descriptor (property_of descriptor key)) as [td|]; [|reflexivity].
  destruct v; try (destruct (negb _); [reflexivity | apply IH]).
  apply bind_fst_congr.
  - apply mapM_fst_congr. intros x l1' l2' _. apply Hself.
  - intros rendered l1' l2'. apply IH.
Qed.

(** The record produced by the projector depends neither on [root] nor on
    what has been logged before. *)
Lemma _processComplexTypeTransformations_fst (n : nat) :
  forall descriptor result root1 root2 property log1 log2,
    fst (_processComplexTypeTransformations n result root1 property descriptor log1)
    = fst (_processComplexTypeTransformations n result root2 property descriptor log2).
Proof.
  induction n as [|n IH]; intros; simpl; [reflexivity|].
  apply transform_keys_fst. intros. apply IH.
Qed.


(** ** The order on strings, and the matched keys of swapped arrays *)

Lemma ascii_compare_refl (a : ascii) : Ascii.compare a a = Eq.
Proof. unfold Ascii.compare. apply N.compare_refl. Qed.

Lemma ascii_compare_lt_trans (a b c : ascii) :
  Ascii.compare a b = Lt -> Ascii.compare b c = Lt -> Ascii.compare a c = Lt.
Proof.
  unfold Ascii.compare. rewrite !N.compare_lt_iff. apply N.lt_trans.
Qed.

Lemma string_leb_trans (a b c : string) :
  String.leb a b = true -> String.leb b c = true -> String.leb a c = true.
Proof.
  unfold String.leb. revert b c.
  induction a as [|x a IH]; intros [|y b] [|z c]; simpl; try congruence.
  destruct (Ascii.compare x y) eqn:Exy; try congruence;
    destruct (Ascii.compare y z) eqn:Eyz; try congruence.
  - apply Ascii.compare_eq_iff in Exy, Eyz. subst. rewrite ascii_compare_refl.
    apply IH.
  - apply Ascii.compare_eq_iff in Exy. subst. now rewrite Eyz.
  - apply Ascii.compare_eq_iff in Eyz. subst. now rewrite Exy.
  - now rewrite (ascii_compare_lt_trans _ _ _ Exy Eyz).
Qed.

Lemma ascending_ordered (l : list string) : ascending l -> ordered l.
Proof.
  induction 1 as [|x|x y l Hxy Hyl IH].
  - constructor.
  - constructor; [intros y []|constructor].
  - constructor; [|assumption].
    inversion IH as [|? ? Hy Hl]; subst.
    intros z [<- | Hz]; [assumption|].
    apply string_leb_trans with (b := y); [assumption | now apply Hy].
Qed.

Lemma intersection_acc_ordered (seen a b : list string) :
  ordered a -> ordered (intersection_acc String.eqb seen a b).
Proof.
  intros H. revert seen. induction H as [|x a Hx Ha IH]; intros seen; simpl.
  - constructor.
  - destruct (includes String.eqb b x && negb (includes String.eqb seen x))%bool.
    + constructor; [|apply IH]. intros y Hy. apply Hx.
      now apply intersection_acc_In_gen in Hy; [|exact String.eqb_eq].
    + apply IH.
Qed.

Lemma intersection_acc_NoDup (seen a b : list string) :
  NoDup (intersection_acc String.eqb seen a b).
Proof.
  revert seen. induction a as [|x a IH]; intros seen; simpl; [constructor|].
  destruct (includes String.eqb b x && negb (includes String.eqb seen x))%bool;
    [|apply IH].
  constructor; [|apply IH]. intros Hin.
  apply (intersection_acc_In_gen _ String.eqb_eq) in Hin.
  destruct Hin as [_ [_ Hn]]. apply Hn. now left.
Qed.

Lemma ordered_unique (l1 l2 : list string) :
  ordered l1 -> ordered l2 -> NoDup l1 -> NoDup l2 ->
  (forall x, In x l1 <-> In x l2) -> l1 = l2.
Proof.
  intros O1. revert l2. induction O1 as [|x l1 Hx O1 IH]; intros l2 O2 N1 N2 Hsame.
  - destruct l2 as [|y l2]; [reflexivity|].
    destruct (proj2 (Hsame y) (or_introl eq_refl)).
  - destruct O2 as [|y l2 Hy O2].
    + destruct (proj1 (Hsame x) (or_introl eq_refl)).
    + inversion N1 as [|? ? Nx N1']; subst. inversion N2 as [|? ? Ny N2']; subst.
      assert (E : x = y).
      { apply String.leb_antisym.
        - destruct (proj2 (Hsame y) (or_introl eq_refl)) as [-> | Hin];
            [destruct (String.leb_total y y); assumption | now apply Hx].
        - destruct (proj1 (Hsame x) (or_introl eq_refl)) as [-> | Hin];
            [destruct (String.leb_total x x); assumption | now apply Hy]. }
      subst y. f_equal. apply IH; try assumption.
      intros z. split; intros Hz.
      * destruct (proj1 (Hsame z) (or_intror Hz)) as [-> | H]; [contradiction | assumption].
      * destruct (proj2 (Hsame z) (or_intror Hz)) as [-> | H]; [contradiction | assumption].
Qed.

(** The matched keys do not depend on which array is the [from] side. *)
Lemma matched_keys_sym (pks : list string) (xs ys : list value) :
  matched_keys pks xs ys = matched_keys pks ys xs.
Proof.
  apply ordered_unique.
  - apply intersection_acc_ordered, ascending_ordered, sortBy_ascending.
  - apply intersection_acc_ordered, ascending_ordered, sortBy_ascending.
  - apply intersection_acc_NoDup.
  - apply intersection_acc_NoDup.
  - intros k. rewrite !matched_keys_In. tauto.
Qed.

Lemma pair_for_flip (pks : list string) (xs ys : list value) (k : string) :
  pair_for pks ys xs k
  = (p <~ pair_for pks xs ys k ;; Ok (MkInBoth (primaryKey p) (to p) (from p))).
Proof.
  unfold pair_for.
  destruct (first_with_key pks k xs) as [f|], (first_with_key pks k ys) as [t|];
    try reflexivity.
  rewrite andb_comm. destruct (truthy f && truthy t)%bool; reflexivity.
Qed.

Lemma rmap_pair_for_flip (pks : list string) (xs ys : list value)
    (keys : list string) (pairs : list InBoth) :
  rmap (pair_for pks xs ys) keys = Ok pairs ->
  rmap (pair_for pks ys xs) keys
  = Ok (map (fun p => MkInBoth (primaryKey p) (to p) (from p)) pairs).
Proof.
  revert pairs. induction keys as [|k keys IH]; intros pairs; simpl.
  - intros [= E]. now subst.
  - rewrite (pair_for_flip pks xs ys k).
    destruct (pair_for pks xs ys k) as [p| |]; try discriminate. simpl.
    destruct (rmap (pair_for pks xs ys) keys) as [ps| |]; try discriminate.
    simpl. intros [= E]. subst. now rewrite (IH ps eq_refl).
Qed.

(** Swapping the two arrays swaps the removed and added elements and flips
    every matched pair, the pairs keeping their order. *)
Lemma _getChanges_swap (pks : list string) (xs ys : list value) (c : Changes) :
  forallb not_nil xs = true -> forallb not_nil ys = true ->
  _getChanges xs ys pks = Ok c ->
  _getChanges ys xs pks
  = Ok (MkChanges (added c) (removed c)
          (map (fun p => MkInBoth (primaryKey p) (to p) (from p)) (inBoth c))).
Proof.
  intros Nx Ny. rewrite (_getChanges_not_nil _ _ _ Nx Ny).
  rewrite (_getChanges_not_nil _ _ _ Ny Nx). cbv zeta.
  rewrite (matched_keys_sym pks ys xs).
  destruct (rmap (pair_for pks xs ys) (matched_keys pks xs ys)) as [pairs| |] eqn:R;
    try discriminate.
  simpl. intros [= E]. subst c. rewrite (rmap_pair_for_flip _ _ _ _ _ R). reflexivity.
Qed.

(** ** Deep equality is symmetric *)

Lemma isEqual_arr (l m : list value) :
  isEqual (VArr l) (VArr m) = true <->
  Forall2 (fun x y => isEqual x y = true) l m.
Proof.
  simpl. revert m. induction l as [|x l IH]; intros [|y m]; simpl.
  - split; [constructor | reflexivity].
  - split; [discriminate | intros H; inversion H].
  - split; [discriminate | intros H; inversion H].
  - rewrite andb_true_iff, IH. split.
    + intros [A B]. now constructor.
    + intros H. inversion H; subst. tauto.
Qed.

Lemma isEqual_obj (f g : list (string * value)) :
  isEqual (VObj f) (VObj g) = true <->
  List.length f = List.length g /\
  forall k x, In (k, x) f ->
    exists y, assoc k g = Some y /\ isEqual x y = true.
Proof.
  simpl. rewrite andb_true_iff, Nat.eqb_eq.
  apply and_iff_compat_l.
  induction f as [|[k x] f IH]; simpl.
  - split; [intros _ ? ? [] | reflexivity].
  - rewrite andb_true_iff, IH. split.
    + intros [A B] k' x' [E | Hin].
      * injection E as <- <-. destruct (assoc k g) as [y|]; [|discriminate].
        now exists y.
      * now apply B.
    + intros H. split.
      * destruct (H k x (or_introl eq_refl)) as [y [-> E]]. exact E.
      * intros k' x' Hin. apply H. now right.
Qed.

Lemma keys_In {A} (k : string) (v : A) (l : list (string * A)) :
  In (k, v) l -> In k (map fst l).
Proof.
  intros H. apply in_map_iff. now exists (k, v).
Qed.

Lemma isEqual_obj_flip (f g : list (string * value)) :
  NoDup (map fst f) -> NoDup (map fst g) ->
  (forall k x y, In (k, x) f -> In (k, y) g ->
     isEqual x y = true -> isEqual y x = true) ->
  isEqual (VObj f) (VObj g) = true -> isEqual (VObj g) (VObj f) = true.
Proof.
  intros Nf Ng Hsub. rewrite !isEqual_obj. intros [Hlen H].
  split; [now symmetry|].
  assert (Hincl : incl (map fst f) (map fst g)).
  { intros k Hk. apply in_map_iff in Hk. destruct Hk as [[k' x] [<- Hin]].
    destruct (H k' x Hin) as [y [Ey _]]. simpl.
    apply assoc_In in Ey. exact (keys_In _ _ _ Ey). }
  assert (Hback : incl (map fst g) (map fst f)).
  { apply NoDup_length_incl; [assumption | | assumption].
    rewrite !length_map. lia. }
  intros k y Hin.
  pose proof (Hback k (keys_In _ _ _ Hin)) as Hk.
  apply in_map_iff in Hk. destruct Hk as [[k' x] [E Hinf]]. simpl in E. subst k'.
  exists x. split; [exact (assoc_NoDup _ _ _ Nf Hinf)|].
  destruct (H k x Hinf) as [y' [Ey' Exy]].
  rewrite (assoc_NoDup _ _ _ Ng Hin) in Ey'. injection Ey' as <-.
  exact (Hsub k x y Hinf Hin Exy).
Qed.

Lemma isEqual_obj_unflip (f g : list (string * value)) :
  NoDup (map fst f) -> NoDup (map fst g) ->
  (forall k x y, In (k, x) f -> In (k, y) g ->
     isEqual y x = true -> isEqual x y = true) ->
  isEqual (VObj g) (VObj f) = true -> isEqual (VObj f) (VObj g) = true.
Proof.
  intros Nf Ng Hsub. rewrite !isEqual_obj. intros [Hlen H].
  split; [now symmetry|].
  assert (Hincl : incl (map fst g) (map fst f)).
  { intros k Hk. apply in_map_iff in Hk. destruct Hk as [[k' y] [<- Hin]].
    destruct (H k' y Hin) as [x [Ex _]]. simpl.
    apply assoc_In in Ex. exact (keys_In _ _ _ Ex). }
  assert (Hback : incl (map fst f) (map fst g)).
  { apply NoDup_length_incl; [assumption | | assumption].
    rewrite !length_map. lia. }
  intros k x Hin.
  pose proof (Hback k (keys_In _ _ _ Hin)) as Hk.
  apply in_map_iff in Hk. destruct Hk as [[k' y] [E Hing]]. simpl in E. subst k'.
  exists y. split; [exact (assoc_NoDup _ _ _ Ng Hing)|].
  destruct (H k y Hing) as [x' [Ex' Eyx]].
  rewrite (assoc_NoDup _ _ _ Nf Hin) in Ex'. injection Ex' as <-.
  exact (Hsub k x y Hin Hing Eyx).
Qed.

Lemma isEqual_sym_iff (a : value) :
  forall b, wf_value a = true -> wf_value b = true ->
       (isEqual a b = true <-> isEqual b a = true).
Proof.
  induction a as [| | x | n | s | l IH | f IH] using value_ind;
    intros b Wa Wb; destruct b; try (simpl; tauto); try (split; discriminate).
  - simpl. destruct x, b; tauto.
  - simpl. now rewrite Z.eqb_sym.
  - simpl. now rewrite String.eqb_sym.
  - rewrite !isEqual_arr. simpl in Wa, Wb.
    revert items Wb. induction l as [|x l IHl]; intros [|y m] Wb.
    + split; constructor.
    + split; intros H; inversion H.
    + split; intros H; inversion H.
    + simpl in Wa, Wb. apply andb_true_iff in Wa, Wb.
      destruct Wa as [Wx Wl], Wb as [Wy Wm].
      inversion IH as [|? ? Px Pl]; subst.
      specialize (IHl Pl Wl m Wm).
      split; intros H; inversion H; subst; constructor;
        try (now apply (Px y Wx Wy)); tauto.
  - simpl in Wa, Wb. apply andb_true_iff in Wa, Wb.
    destruct Wa as [Nf Wf], Wb as [Ng Wg].
    apply nodup_keys_NoDup in Nf, Ng. rewrite Forall_forall in IH.
    split.
    + apply isEqual_obj_flip; try assumption.
      intros k x y Hin Hing Hxy.
      apply (IH (k, x) Hin y); try assumption.
      * exact (forallb_In _ _ _ Wf Hin).
      * exact (forallb_In _ _ _ Wg Hing).
    + apply isEqual_obj_unflip; try assumption.
      intros k x y Hin Hing Hyx.
      apply (IH (k, x) Hin y); try assumption.
      * exact (forallb_In _ _ _ Wf Hin).
      * exact (forallb_In _ _ _ Wg Hing).
Qed.

(** [isEqual] is symmetric on well-formed values. *)
Lemma isEqual_sym (a b : value) :
  wf_value a = true -> wf_value b = true -> isEqual a b = isEqual b a.
Proof.
  intros Wa Wb. apply eq_true_iff_eq. now apply isEqual_sym_iff.
Qed.

(** ** Exchanging the two sides *)

Lemma bind_ok_inv {A B} (m : M A) (k : A -> M B) (log log2 : list string) (b : B) :
  bind m k log = (Ok b, log2) ->
  exists a log1, m log = (Ok a, log1) /\ k a log1 = (Ok b, log2).
Proof.
  unfold bind. destruct (m log) as [[a|e|] log1]; try discriminate.
  intros H. now exists a, log1.
Qed.

Lemma fst_ok_run {A} (m : M A) (log : list string) (a : A) :
  fst (m log) = Ok a -> exists log', m log = (Ok a, log').
Proof.
  destruct (m log) as [r log']. simpl. intros ->. now exists log'.
Qed.

Lemma assoc_set_fresh {A} (k : string) (v : A) (cr : list (string * A)) :
  assoc k cr = None -> assoc_set k v cr = (cr ++ [(k, v)])%list.
Proof.
  induction cr as [|[k' v'] cr IH]; simpl; [reflexivity|].
  destruct (String.eqb k k'); [discriminate|].
  intros H. now rewrite IH.
Qed.

Lemma assoc_set_last {A} (k : string) (v w : A) (cr : list (string * A)) :
  assoc k cr = None ->
  assoc_set k v (cr ++ [(k, w)])%list = (cr ++ [(k, v)])%list.
Proof.
  induction cr as [|[k' v'] cr IH]; simpl.
  - now rewrite String.eqb_refl.
  - destruct (String.eqb k k'); [discriminate|].
    intros H. now rewrite IH.
Qed.

Lemma assoc_app_last {A} (k : string) (w : A) (cr : list (string * A)) :
  assoc k cr = None -> assoc k (cr ++ [(k, w)])%list = Some w.
Proof.
  induction cr as [|[k' v'] cr IH]; simpl.
  - now rewrite String.eqb_refl.
  - destruct (String.eqb k k'); [discriminate | exact IH].
Qed.

(** Pushing records under a name that [cr] does not hold yet. *)
Lemma push_item_append (cr : ChangeResult) (name : string)
    (entries : list value) (item : value) :
  assoc name cr = None ->
  push_item (append_entry cr name entries) name item
  = append_entry cr name (entries ++ [item]).
Proof.
  intros Hfresh. unfold push_item, append_entry, entry_missing.
  destruct entries as [|e entries].
  - rewrite Hfresh. rewrite (assoc_set_fresh _ _ _ Hfresh).
    rewrite (assoc_app_last _ _ _ Hfresh).
    now rewrite (assoc_set_last _ _ _ _ Hfresh).
  - rewrite (assoc_app_last _ _ _ Hfresh). simpl truthy. simpl negb.
    cbv iota. rewrite (assoc_app_last _ _ _ Hfresh).
    now rewrite (assoc_set_last _ _ _ _ Hfresh).
Qed.

Lemma snapshot_entries_spec (marker : string) (root : value)
    (td : TypeDescriptor) (items : list value) (log : list string) :
  snapshot_entries marker root td items log
  = (snaps <- mapM (fun item => snapshot root item td) items ;;
     ret (map (fun s => VObj [(marker, VObj s)]) snaps)) log.
Proof.
  unfold snapshot_entries. revert log.
  induction items as [|x items IH]; intros log; simpl; [reflexivity|].
  unfold bind, ret in *.
  destruct (snapshot root x td log) as [[s|e|] log1]; try reflexivity.
  rewrite IH.
  destruct (mapM _ items log1) as [[ss|e|] log2]; reflexivity.
Qed.

Lemma snapshot_result_run (root item : value) (td : TypeDescriptor)
    (log : list string) :
  fst (snapshot root item td log) = snapshot_result td item.
Proof.
  apply _processComplexTypeTransformations_fst.
Qed.

Lemma bind_fst_inv {A B} (m : M A) (k : A -> M B) (log : list string) (b : B) :
  fst (bind m k log) = Ok b ->
  exists a log', m log = (Ok a, log') /\ fst (k a log') = Ok b.
Proof.
  unfold bind. destruct (m log) as [[a|e|] log']; try discriminate.
  intros H. now exists a, log'.
Qed.

Lemma bind_fst_run {A B} (m : M A) (k : A -> M B) (log : list string) (a : A) :
  fst (m log) = Ok a -> exists log', fst (bind m k log) = fst (k a log').
Proof.
  unfold bind. destruct (m log) as [[a'|e|] log']; simpl; try discriminate.
  intros [= ->]. now exists log'.
Qed.

Lemma bind_fst_const {A B} (m : M A) (k : A -> M B) (log : list string)
    (a : A) (r : result B) :
  fst (m log) = Ok a -> (forall log', fst (k a log') = r) ->
  fst (bind m k log) = r.
Proof.
  unfold bind. destruct (m log) as [[a'|e|] log']; simpl; try discriminate.
  intros [= ->] H. apply H.
Qed.

Lemma rmap_length {A B} (f : A -> result B) (l : list A) (ys : list B) :
  rmap f l = Ok ys -> List.length ys = List.length l.
Proof.
  revert ys. induction l as [|x l IH]; intros ys; simpl.
  - intros [= E]. now subst.
  - destruct (f x) as [y| |]; try discriminate. simpl.
    destruct (rmap f l) as [ys'| |]; try discriminate. simpl.
    intros [= E]. subst ys. simpl. f_equal. now apply IH.
Qed.

(** The entries of unmatched elements, as a function of the elements
    alone. *)
Lemma snapshot_entries_result (marker : string) (root : value)
    (td : TypeDescriptor) (items : list value) (log : list string) :
  fst (snapshot_entries marker root td items log)
  = (snaps <~ rmap (snapshot_result td) items ;;
     Ok (map (fun s => VObj [(marker, VObj s)]) snaps)).
Proof.
  rewrite snapshot_entries_spec. revert log.
  induction items as [|x items IH]; intros log; [reflexivity|].
  simpl. rewrite <- (snapshot_result_run root x td log).
  unfold bind, ret in *.
  destruct (snapshot root x td log) as [[s|e|] log1]; try reflexivity.
  simpl. specialize (IH log1).
  destruct (mapM _ items log1) as [[ss|e|] log2]; simpl in *;
    destruct (rmap (snapshot_result td) items) as [ss'| |]; simpl in *;
    try discriminate; try reflexivity; try (injection IH as ->; reflexivity).
Qed.

Lemma mirrored_keys (sortByItems : list value -> list value)
    (d : TypeDescriptor) (cr1 cr2 : ChangeResult) :
  mirrored sortByItems d cr1 cr2 -> Object_keys cr1 = Object_keys cr2.
Proof.
  induction 1 as [|d name v1 v2 cr1 cr2 _ _ IH]; simpl; [reflexivity|].
  now rewrite IH.
Qed.

Lemma mirrored_nil_iff (sortByItems : list value -> list value)
    (d : TypeDescriptor) (cr1 cr2 : ChangeResult) :
  mirrored sortByItems d cr1 cr2 -> (cr1 = [] <-> cr2 = []).
Proof.
  destruct 1; split; congruence.
Qed.

Lemma mirrored_app (sortByItems : list value -> list value)
    (d : TypeDescriptor) (cr1 cr2 : ChangeResult) (name : string) (v1 v2 : value) :
  mirrored sortByItems d cr1 cr2 ->
  mirrored_value sortByItems d name v1 v2 ->
  mirrored sortByItems d (cr1 ++ [(name, v1)])%list (cr2 ++ [(name, v2)])%list.
Proof.
  intros H Hv. induction H as [|d n w1 w2 cr1 cr2 Hw _ IH]; simpl.
  - constructor; [assumption | constructor].
  - constructor; [assumption | now apply IH].
Qed.

Lemma assoc_keys_eq {A B} (k : string) (l1 : list (string * A))
    (l2 : list (string * B)) :
  Object_keys l1 = Object_keys l2 -> assoc k l1 = None -> assoc k l2 = None.
Proof.
  intros E H. apply assoc_None_keys. rewrite <- E. now apply assoc_None_keys.
Qed.

Lemma assoc_set_keys {A} (k : string) (v w : A) (l1 l2 : list (string * A)) :
  Object_keys l1 = Object_keys l2 ->
  Object_keys (assoc_set k v l1) = Object_keys (assoc_set k w l2).
Proof.
  unfold Object_keys. revert l2.
  induction l1 as [|[k1 v1] l1 IH]; intros [|[k2 v2] l2]; simpl;
    try discriminate; [reflexivity|].
  intros [= -> E]. destruct (String.eqb k k2); simpl; [now rewrite E|].
  now rewrite (IH l2 E).
Qed.

Lemma primaryKey_fields_keys (a b : value) (pks : list string) :
  isNil a = false -> isNil b = false ->
  forall acc1 acc2,
    Object_keys acc1 = Object_keys acc2 ->
    exists k1 k2,
      primaryKey_fields a pks acc1 = Ok k1 /\
      primaryKey_fields b pks acc2 = Ok k2 /\
      Object_keys k1 = Object_keys k2.
Proof.
  intros Na Nb. induction pks as [|pk pks IH]; intros acc1 acc2 E; simpl.
  - now exists acc1, acc2.
  - rewrite (prop_get_nonnil _ _ Na), (prop_get_nonnil _ _ Nb). simpl.
    apply IH. now apply assoc_set_keys.
Qed.


Lemma _getChanges_pairs_In (pks : list string) (xs ys : list value) (c : Changes) :
  forallb not_nil xs = true -> forallb not_nil ys = true ->
  _getChanges xs ys pks = Ok c ->
  Forall (fun p => In (from p) xs /\ In (to p) ys) (inBoth c).
Proof.
  intros Nx Ny. rewrite (_getChanges_not_nil _ _ _ Nx Ny). cbv zeta.
  destruct (rmap (pair_for pks xs ys) (matched_keys pks xs ys)) as [pairs| |] eqn:R;
    try discriminate.
  simpl. intros [= E]. subst c. simpl.
  destruct (rmap_pair_for _ _ _ _ _ R) as [_ HF].
  rewrite Forall_forall in *. intros p Hp.
  destruct (HF p Hp) as [Ff [Ft _]].
  split; [exact (proj1 (first_with_key_Some _ _ _ _ Ff))
         | exact (proj1 (first_with_key_Some _ _ _ _ Ft))].
Qed.

Section MirrorWalk.
Variable sortByItems : list value -> list value.
Variable self :
  ChangeResult -> value -> value -> value -> value -> TypeDescriptor ->
  M ChangeResult.
Variables fromRoot toRoot fromRoot' toRoot' : value.
Variable descriptor : TypeDescriptor.

(** What the induction on the depth provides for the elements of a matched
    pair. *)
Hypothesis self_mirror :
  forall td f t,
    (td_depth td < td_depth descriptor)%nat ->
    well_bound td = true ->
    wf_value f = true -> wf_value t = true ->
    compatible td f = true -> compatible td t = true ->
    forall log1 ch1 log1',
      self [] fromRoot toRoot f t td log1 = (Ok ch1, log1') ->
      forall log2, exists ch2 log2',
        self [] fromRoot' toRoot' t f td log2 = (Ok ch2, log2') /\
        mirrored sortByItems td ch1 ch2.

Lemma matched_pairs_mirror (name : string) (pks : list string)
    (td : TypeDescriptor) (cr1 cr2 : ChangeResult) :
  (td_depth td < td_depth descriptor)%nat ->
  well_bound td = true ->
  assoc name cr1 = None -> assoc name cr2 = None ->
  forall pairs,
    Forall (fun p => wf_value (from p) = true /\ wf_value (to p) = true /\
                     compatible td (from p) = true /\
                     compatible td (to p) = true) pairs ->
    forall e1 log1 out1 log1',
      matched_pairs self fromRoot toRoot name pks td pairs
        (append_entry cr1 name e1) log1 = (Ok out1, log1') ->
      exists recs1,
        out1 = append_entry cr1 name (e1 ++ recs1) /\
        forall e2 log2, exists recs2 log2',
          matched_pairs self fromRoot' toRoot' name pks td
            (map (fun p => MkInBoth (primaryKey p) (to p) (from p)) pairs)
            (append_entry cr2 name e2) log2
          = (Ok (append_entry cr2 name (e2 ++ recs2)), log2') /\
          Forall2 (mirrored_record sortByItems td) recs1 recs2.
Proof.
  intros Dtd WBtd F1 F2. induction 1 as [|p pairs Hp _ IH];
    intros e1 log1 out1 log1' Hrun.
  - simpl in *. injection Hrun as <- _. exists [].
    rewrite app_nil_r. split; [reflexivity|].
    intros e2 log2. exists [], log2. rewrite app_nil_r. split; [reflexivity|].
    constructor.
  - destruct Hp as (Wf & Wt & Cf & Ct).
    simpl in Hrun. apply bind_ok_inv in Hrun.
    destruct Hrun as [ch1 [l1 [Hself Hrest]]].
    destruct (primaryKey_fields_keys (from p) (to p) pks
                (is_record_not_nil _ (compatible_record _ _ Cf))
                (is_record_not_nil _ (compatible_record _ _ Ct))
                [] [] eq_refl) as [k1 [k2 [K1 [K2 EK]]]].
    destruct ch1 as [|c1 ch1].
    + simpl in Hrest.
      destruct (IH e1 l1 out1 log1' Hrest) as [recs1 [Eo Hall]].
      exists recs1. split; [exact Eo|].
      intros e2 log2.
      destruct (self_mirror td (from p) (to p) Dtd WBtd Wf Wt Cf Ct
                  log1 [] l1 Hself log2) as [ch2 [l2 [Hself2 Hm]]].
      assert (E2 : ch2 = []) by (now apply (mirrored_nil_iff _ _ _ _ Hm)).
      subst ch2. simpl. rewrite (bind_run_ok _ _ _ _ _ Hself2). simpl.
      apply Hall.
    + change (Nat.ltb 0 (size (c1 :: ch1))) with true in Hrest.
      cbv iota in Hrest.
      apply bind_ok_inv in Hrest. destruct Hrest as [final1 [l1' [Hf1 Hrest]]].
      unfold lift in Hf1. injection Hf1 as Hf1 <-.
      unfold itemChangeResultFinal in Hf1. rewrite K1 in Hf1.
      unfold rbind in Hf1. injection Hf1 as <-.
      fold (merge_record k1 (c1 :: ch1)) in Hrest.
      rewrite (push_item_append _ _ _ _ F1) in Hrest.
      destruct (IH _ _ _ _ Hrest) as [recs1 [Eo Hall]].
      exists (VObj (merge_record k1 (c1 :: ch1)) :: recs1).
      split; [now rewrite <- app_assoc in Eo|].
      intros e2 log2.
      destruct (self_mirror td (from p) (to p) Dtd WBtd Wf Wt Cf Ct
                  log1 (c1 :: ch1) l1 Hself log2) as [ch2 [l2 [Hself2 Hm]]].
      assert (N2 : ch2 <> []).
      { intros E. apply (mirrored_nil_iff _ _ _ _ Hm) in E. discriminate. }
      destruct ch2 as [|c2 ch2]; [congruence|].
      simpl. rewrite (bind_run_ok _ _ _ _ _ Hself2).
      change (Nat.ltb 0 (size (c2 :: ch2))) with true. cbv iota.
      unfold itemChangeResultFinal at 1. cbn [from]. rewrite K2.
      unfold rbind at 1. walk_simpl.
      fold (merge_record k2 (c2 :: ch2)).
      rewrite (push_item_append _ _ _ _ F2).
      destruct (Hall (e2 ++ [VObj (merge_record k2 (c2 :: ch2))])%list l2)
        as [recs2 [log2' [Hrun2 HF]]].
      exists (VObj (merge_record k2 (c2 :: ch2)) :: recs2), log2'.
      rewrite <- app_assoc in Hrun2. split; [exact Hrun2|].
      constructor; [|assumption].
      apply (mirrored_pair sortByItems td k1 k2 (c1 :: ch1) (c2 :: ch2));
        [assumption | discriminate | assumption].
Qed.

Lemma emit_unmatched_mirror (name : string) (td : TypeDescriptor)
    (cr1 cr2 : ChangeResult) (removedItems addedItems : list value)
    (log1 : list string) (out1 : ChangeResult) :
  assoc name cr1 = None -> assoc name cr2 = None ->
  fst (emit_unmatched fromRoot toRoot cr1 name td removedItems addedItems log1)
  = Ok out1 ->
  exists rs ads,
    out1 = append_entry cr1 name (map removed_entry rs ++ map added_entry ads) /\
    forall log2,
      fst (emit_unmatched fromRoot' toRoot' cr2 name td addedItems removedItems log2)
      = Ok (append_entry cr2 name (map removed_entry ads ++ map added_entry rs)).
Proof.
  intros F1 F2 Hrun.
  assert (M1 : entry_missing cr1 name = true) by (unfold entry_missing; now rewrite F1).
  assert (M2 : entry_missing cr2 name = true) by (unfold entry_missing; now rewrite F2).
  destruct (match removedItems, addedItems with
            | [], [] => true
            | _, _ => false
            end) eqn:Empty.
  { destruct removedItems, addedItems; try discriminate.
    simpl in Hrun. injection Hrun as <-. exists [], []. split; reflexivity. }
  assert (E1 : emit_unmatched fromRoot toRoot cr1 name td removedItems addedItems
               = (removedEntries <-
                    snapshot_entries removed_marker fromRoot td removedItems ;;
                  addedEntries <-
                    snapshot_entries added_marker toRoot td addedItems ;;
                  ret (assoc_set name (VArr (removedEntries ++ addedEntries)) cr1))).
  { unfold emit_unmatched. rewrite M1.
    destruct removedItems, addedItems; try discriminate; reflexivity. }
  assert (E2 : emit_unmatched fromRoot' toRoot' cr2 name td addedItems removedItems
               = (removedEntries <-
                    snapshot_entries removed_marker fromRoot' td addedItems ;;
                  addedEntries <-
                    snapshot_entries added_marker toRoot' td removedItems ;;
                  ret (assoc_set name (VArr (removedEntries ++ addedEntries)) cr2))).
  { unfold emit_unmatched. rewrite M2.
    destruct removedItems, addedItems; try discriminate; reflexivity. }
  rewrite E1 in Hrun. clear E1.
  apply bind_fst_inv in Hrun. destruct Hrun as [re [la [Hr Hrun]]].
  apply bind_fst_inv in Hrun. destruct Hrun as [ae [lb [Ha Hrun]]].
  simpl in Hrun. injection Hrun as <-.
  pose proof (f_equal fst Hr) as Hr'. pose proof (f_equal fst Ha) as Ha'.
  simpl in Hr', Ha'. rewrite snapshot_entries_result in Hr', Ha'.
  destruct (rmap (snapshot_result td) removedItems) as [rs| |] eqn:Rr;
    try discriminate.
  destruct (rmap (snapshot_result td) addedItems) as [ads| |] eqn:Ra;
    try discriminate.
  simpl in Hr', Ha'. injection Hr' as <-. injection Ha' as <-.
  fold removed_entry added_entry.
  assert (Len : (List.length rs + List.length ads <> 0)%nat).
  { rewrite (rmap_length _ _ _ Rr), (rmap_length _ _ _ Ra).
    destruct removedItems, addedItems; simpl; try discriminate; lia. }
  exists rs, ads. split.
  - rewrite (assoc_set_fresh _ _ _ F1). unfold append_entry.
    destruct (map removed_entry rs ++ map added_entry ads)%list eqn:E;
      [|reflexivity].
    apply (f_equal (@List.length value)) in E.
    rewrite length_app, !length_map in E. simpl in E. lia.
  - intros log2. rewrite E2.
    apply bind_fst_const with (a := map removed_entry ads).
    { rewrite snapshot_entries_result, Ra. reflexivity. }
    intros l2. apply bind_fst_const with (a := map added_entry rs).
    { rewrite snapshot_entries_result, Rr. reflexivity. }
    intros l2'. simpl. rewrite (assoc_set_fresh _ _ _ F2). unfold append_entry.
    destruct (map removed_entry ads ++ map added_entry rs)%list eqn:E;
      [|reflexivity].
    apply (f_equal (@List.length value)) in E.
    rewrite length_app, !length_map in E. simpl in E. lia.
Qed.

Lemma complex_arrays_mirror (name : string) (pks : list string)
    (td : TypeDescriptor) (cr1 cr2 : ChangeResult) (xs ys : list value)
    (log1 : list string) (out1 : ChangeResult) :
  pd_type (property_of descriptor name) = TComplex ->
  pd_descriptor (property_of descriptor name) = Some td ->
  (td_depth td < td_depth descriptor)%nat ->
  well_bound td = true ->
  assoc name cr1 = None -> assoc name cr2 = None ->
  forallb wf_value xs = true -> forallb wf_value ys = true ->
  forallb (compatible td) xs = true -> forallb (compatible td) ys = true ->
  fst (complex_arrays self fromRoot toRoot cr1 name pks td xs ys log1) = Ok out1 ->
  exists e1,
    out1 = append_entry cr1 name e1 /\
    forall log2, exists e2,
      fst (complex_arrays self fromRoot' toRoot' cr2 name pks td ys xs log2)
      = Ok (append_entry cr2 name e2) /\
      List.length e1 = List.length e2 /\
      mirrored_value sortByItems descriptor name (VArr e1) (VArr e2).
Proof.
  intros Hty Htd Dtd WBtd F1 F2 Wx Wy Cx Cy Hrun.
  pose proof (records_not_nil _ (compatible_items_records _ _ Cx)) as Nx.
  pose proof (records_not_nil _ (compatible_items_records _ _ Cy)) as Ny.
  unfold complex_arrays in Hrun.
  apply bind_fst_inv in Hrun. destruct Hrun as [c [la [Hg Hrun]]].
  unfold lift in Hg. injection Hg as Hg <-.
  apply bind_fst_inv in Hrun. destruct Hrun as [crA [lb [He Hrun]]].
  destruct (emit_unmatched_mirror name td cr1 cr2 (removed c) (added c) log1 crA
              F1 F2 (f_equal fst He)) as [rs [ads [EcrA He2]]].
  subst crA.
  apply fst_ok_run in Hrun. destruct Hrun as [lc Hrun].
  assert (Good : Forall (fun p => wf_value (from p) = true /\ wf_value (to p) = true /\
                                  compatible td (from p) = true /\
                                  compatible td (to p) = true) (inBoth c)).
  { pose proof (_getChanges_pairs_In _ _ _ _ Nx Ny Hg) as HIn.
    rewrite Forall_forall in *. intros p Hp. destruct (HIn p Hp) as [If It].
    repeat split;
      [ exact (forallb_In _ _ _ Wx If) | exact (forallb_In _ _ _ Wy It)
      | exact (forallb_In _ _ _ Cx If) | exact (forallb_In _ _ _ Cy It) ]. }
  destruct (matched_pairs_mirror name pks td cr1 cr2 Dtd WBtd F1 F2 (inBoth c) Good
              _ _ _ _ Hrun) as [recs1 [Eout1 Hall]].
  exists ((map removed_entry rs ++ map added_entry ads) ++ recs1)%list.
  split; [exact Eout1|].
  intros log2.
  unfold complex_arrays.
  rewrite (_getChanges_swap _ _ _ _ Nx Ny Hg). walk_simpl.
  cbn [removed added inBoth].
  destruct (fst_ok_run _ log2 _ (He2 log2)) as [l2 He2'].
  rewrite (bind_run_ok _ _ _ _ _ He2').
  destruct (Hall (map removed_entry ads ++ map added_entry rs)%list l2)
    as [recs2 [l2' [Hrun2 HF]]].
  exists ((map removed_entry ads ++ map added_entry rs) ++ recs2)%list.
  split; [now rewrite Hrun2|]. split.
  - rewrite !length_app, !length_map. rewrite (Forall2_length HF). lia.
  - rewrite <- !app_assoc. now apply mirrored_complex with (td := td).
Qed.

Lemma set_markers_nil (removedItems addedItems : list value) :
  set_markers sortByItems removedItems addedItems = [] <->
  set_markers sortByItems addedItems removedItems = [].
Proof.
  unfold set_markers. destruct removedItems, addedItems; simpl; split;
    congruence.
Qed.

Lemma process_property_mirror (key : string) (cr1 cr2 : ChangeResult)
    (x y : value) (log1 : list string) (step1 : ChangeResult + ChangeResult) :
  well_bound descriptor = true ->
  In key (Object_keys (td_properties descriptor)) ->
  assoc key cr1 = None -> assoc key cr2 = None ->
  wf_value x = true -> wf_value y = true ->
  compatible descriptor x = true -> compatible descriptor y = true ->
  fst (process_property sortByItems self fromRoot toRoot descriptor x y key cr1 log1)
  = Ok step1 ->
  forall log2, exists step2,
    fst (process_property sortByItems self fromRoot' toRoot' descriptor y x key
           cr2 log2) = Ok step2 /\
    ((step1 = inl cr1 /\ step2 = inl cr2)
     \/ (step1 = inr cr1 /\ step2 = inr cr2)
     \/ exists v1 v2,
          step1 = inr (cr1 ++ [(key, v1)])%list /\
          step2 = inr (cr2 ++ [(key, v2)])%list /\
          mirrored_value sortByItems descriptor key v1 v2).
Proof.
  intros WB Hkey F1 F2 Wx Wy Cx Cy Hrun log2.
  destruct (keys_assoc _ _ Hkey) as [pd Hpd].
  assert (Hprop : property_of descriptor key = pd)
    by (unfold property_of; now rewrite Hpd).
  pose proof (assoc_In _ _ _ Hpd) as Hin.
  destruct (well_bound_property _ _ _ WB Hin) as [Hname Hcomplex].
  pose proof (is_record_not_nil _ (compatible_record _ _ Cx)) as Nx.
  pose proof (is_record_not_nil _ (compatible_record _ _ Cy)) as Ny.
  pose proof (wf_value_field x key Wx) as Wfx.
  pose proof (wf_value_field y key Wy) as Wfy.
  unfold process_property in *. rewrite Hprop in *. rewrite Hname in *.
  rewrite (prop_get_nonnil _ _ Nx), (prop_get_nonnil _ _ Ny) in *.
  revert Hrun. walk_simpl. intros Hrun.
  destruct (pd_type pd) eqn:Hty.
  4: {
    destruct (Hcomplex eq_refl) as [td [Htd WBtd]]. rewrite Htd in *.
    destruct (_toArray (td_primaryKey td)) as [pks|].
    2: { simpl in Hrun. injection Hrun as <-. exists (inl cr2). split; [reflexivity|].
         now left. }
    pose proof (compatible_property _ _ _ _ _ Cx Hin Hty Htd) as Sx.
    pose proof (compatible_property _ _ _ _ _ Cy Hin Hty Htd) as Sy.
    assert (Dtd : (td_depth td < td_depth descriptor)%nat)
      by exact (nested_depth _ _ _ _ Hin Htd).
    destruct (field x key) as [| | | | |xs|] eqn:Fx; try discriminate;
      destruct (field y key) as [| | | | |ys|] eqn:Fy; try discriminate;
      try (simpl in Hrun; injection Hrun as <-; exists (inr cr2);
           split; [reflexivity | right; now left]).
    apply bind_fst_inv in Hrun. destruct Hrun as [out1 [la [Hc Hret]]].
    simpl in Hret. injection Hret as <-.
    assert (Htyk : pd_type (property_of descriptor key) = TComplex)
      by now rewrite Hprop.
    assert (Htdk : pd_descriptor (property_of descriptor key) = Some td)
      by now rewrite Hprop.
    destruct (complex_arrays_mirror key pks td cr1 cr2 xs ys log1 out1
                Htyk Htdk Dtd WBtd F1 F2 Wfx Wfy Sx Sy (f_equal fst Hc))
      as [e1 [Eo Hall]].
    destruct (Hall log2) as [e2 [Hrun2 [Hlen Hmv]]].
    exists (inr (append_entry cr2 key e2)). split.
    - apply bind_fst_const with (a := append_entry cr2 key e2);
        [exact Hrun2 | reflexivity].
    - subst out1. destruct e1 as [|a1 e1], e2 as [|a2 e2]; try discriminate.
      + right. left. split; reflexivity.
      + right. right. eexists. eexists. repeat split. exact Hmv. }
  all: rewrite ?(prop_get_nonnil _ _ Nx), ?(prop_get_nonnil _ _ Ny) in *;
    revert Hrun; walk_simpl; intros Hrun;
    rewrite ?(prop_get_nonnil _ _ Nx), ?(prop_get_nonnil _ _ Ny) in *;
    revert Hrun; walk_simpl; intros Hrun;
    assert (Hnc : pd_type (property_of descriptor key) <> TComplex)
      by (rewrite Hprop, Hty; discriminate);
    rewrite (isEqual_sym (field y key) (field x key) Wfy Wfx);
    pose proof (primitive_arrays_only_in sortByItems cr1 key) as P1;
    pose proof (primitive_arrays_only_in sortByItems cr2 key) as P2;
    destruct (field x key) as [| | | | |xs|] eqn:Fx;
    destruct (field y key) as [| | | | |ys|] eqn:Fy;
    try (match type of Hrun with
         | context [isEqual ?a ?b] =>
             destruct (isEqual a b);
             simpl in Hrun; injection Hrun as <-;
             eexists; (split; [reflexivity|]);
             [ right; left; split; reflexivity
             | right; right; rewrite !assoc_set_fresh by assumption;
               eexists; eexists; repeat split; now constructor ]
         end).
  all: simpl in Hrun; injection Hrun as <-;
    eexists; (split; [reflexivity|]);
    rewrite P1, P2;
    pose proof (set_markers_nil (only_in xs ys) (only_in ys xs)) as SN;
    destruct (set_markers sortByItems (only_in xs ys) (only_in ys xs)) eqn:S1;
    destruct (set_markers sortByItems (only_in ys xs) (only_in xs ys)) eqn:S2;
    try (exfalso; destruct SN as [SN1 SN2];
         first [ specialize (SN1 eq_refl); discriminate
               | specialize (SN2 eq_refl); discriminate ]);
    [ right; left; split; reflexivity
    | right; right; rewrite !assoc_set_fresh by assumption;
      eexists; eexists; repeat split;
      rewrite <- S1, <- S2; now constructor ].
Qed.

Lemma assoc_app_fresh {A} (k key : string) (v : A) (cr : list (string * A)) :
  k <> key -> assoc k cr = None -> assoc k (cr ++ [(key, v)])%list = None.
Proof.
  intros Hne. induction cr as [|[k' v'] cr IH]; simpl.
  - destruct (String.eqb_spec k key); [contradiction | reflexivity].
  - destruct (String.eqb k k'); [discriminate | exact IH].
Qed.

Lemma process_keys_mirror (x y : value) :
  well_bound descriptor = true ->
  wf_value x = true -> wf_value y = true ->
  compatible descriptor x = true -> compatible descriptor y = true ->
  forall keys,
    NoDup keys ->
    (forall k, In k keys -> In k (Object_keys (td_properties descriptor))) ->
    forall cr1 cr2 log1 out1,
      (forall k, In k keys -> assoc k cr1 = None) ->
      mirrored sortByItems descriptor cr1 cr2 ->
      fst (process_keys sortByItems self fromRoot toRoot descriptor x y keys cr1 log1)
      = Ok out1 ->
      forall log2, exists out2,
        fst (process_keys sortByItems self fromRoot' toRoot' descriptor y x keys
               cr2 log2) = Ok out2 /\
        mirrored sortByItems descriptor out1 out2.
Proof.
  intros WB Wx Wy Cx Cy.
  induction keys as [|key rest IH]; intros ND Hkeys cr1 cr2 log1 out1 Hfresh Hm Hrun log2.
  - simpl in *. injection Hrun as <-. now exists cr2.
  - inversion ND as [|? ? Hnotin ND']; subst.
    assert (F1 : assoc key cr1 = None) by (apply Hfresh; now left).
    assert (F2 : assoc key cr2 = None)
      by exact (assoc_keys_eq _ _ _ (mirrored_keys _ _ _ _ Hm) F1).
    simpl in Hrun. apply bind_fst_inv in Hrun.
    destruct Hrun as [step1 [la [Hstep Hrest]]].
    destruct (process_property_mirror key cr1 cr2 x y log1 step1 WB
                (Hkeys key (or_introl eq_refl)) F1 F2 Wx Wy Cx Cy
                (f_equal fst Hstep) log2) as [step2 [Hstep2 Hcases]].
    simpl.
    destruct (bind_fst_run _
                (fun step =>
                   match step with
                   | inl changeResult => ret changeResult
                   | inr changeResult =>
                       process_keys sortByItems self fromRoot' toRoot' descriptor
                         y x rest changeResult
                   end) log2 _ Hstep2) as [l2 ->].
    destruct Hcases as [[-> ->] | [[-> ->] | [v1 [v2 [-> [-> Hmv]]]]]].
    + simpl in Hrest. injection Hrest as <-. now exists cr2.
    + apply (IH ND' (fun k Hk => Hkeys k (or_intror Hk)) cr1 cr2 la out1);
        try assumption.
      intros k Hk. apply Hfresh. now right.
    + apply (IH ND' (fun k Hk => Hkeys k (or_intror Hk))
               (cr1 ++ [(key, v1)])%list (cr2 ++ [(key, v2)])%list la out1);
        try assumption.
      * intros k Hk. apply assoc_app_fresh.
        -- intros ->. contradiction.
        -- apply Hfresh. now right.
      * now apply mirrored_app.
Qed.
End MirrorWalk.

(** Walking [to] against [from] mirrors walking [from] against [to]. *)
Lemma _processChanges_mirror (sortByItems : list value -> list value) (n : nat) :
  forall descriptor x y fromRoot toRoot fromRoot' toRoot',
    (td_depth descriptor < n)%nat ->
    well_bound descriptor = true ->
    wf_value x = true -> wf_value y = true ->
    compatible descriptor x = true -> compatible descriptor y = true ->
    forall log1 out1,
      fst (_processChanges sortByItems n [] fromRoot toRoot x y descriptor log1)
      = Ok out1 ->
      forall log2, exists out2,
        fst (_processChanges sortByItems n [] fromRoot' toRoot' y x descriptor log2)
        = Ok out2 /\
        mirrored sortByItems descriptor out1 out2.
Proof.
  induction n as [|n IH];
    intros descriptor x y fromRoot toRoot fromRoot' toRoot' Hn WB Wx Wy Cx Cy
           log1 out1 Hrun log2; [lia|].
  simpl in *.
  apply (process_keys_mirror sortByItems (_processChanges sortByItems n)
           fromRoot toRoot fromRoot' toRoot' descriptor) with
    (x := x) (y := y) (cr1 := @nil (string * value)) (log1 := log1);
    try assumption.
  - intros td f t Dtd WBtd Wf Wt Cf Ct l1 ch1 l1' Hself l2.
    destruct (IH td f t fromRoot toRoot fromRoot' toRoot' ltac:(lia) WBtd Wf Wt
                Cf Ct l1 ch1 (f_equal fst Hself) l2) as [ch2 [H2 Hm]].
    apply fst_ok_run in H2. destruct H2 as [l2' H2]. now exists ch2, l2'.
  - eapply Permutation_NoDup; [apply sortBy_perm | now apply well_bound_keys].
  - intros k Hk. now apply sortBy_In.
  - reflexivity.
  - constructor.
Qed.




(** ** [diff] never runs out of fuel *)

Lemma rbind_fuel {A B} (r : result A) (k : A -> result B) :
  r <> OutOfFuel -> (forall a, k a <> OutOfFuel) -> rbind r k <> OutOfFuel.
Proof.
  destruct r; simpl; intros H K; [apply K | discriminate | congruence].
Qed.

Lemma rmap_fuel {A B} (f : A -> result B) (l : list A) :
  (forall x, f x <> OutOfFuel) -> rmap f l <> OutOfFuel.
Proof.
  intros H. induction l as [|x l IH]; simpl; [discriminate|].
  apply rbind_fuel; [apply H|]. intros y.
  apply rbind_fuel; [exact IH | discriminate].
Qed.

Lemma rfilter_fuel {A} (p : A -> result bool) (l : list A) :
  (forall x, p x <> OutOfFuel) -> rfilter p l <> OutOfFuel.
Proof.
  intros H. induction l as [|x l IH]; simpl; [discriminate|].
  apply rbind_fuel; [apply H|]. intros b.
  apply rbind_fuel; [exact IH | discriminate].
Qed.

Lemma rfind_fuel {A} (p : A -> result bool) (l : list A) :
  (forall x, p x <> OutOfFuel) -> rfind p l <> OutOfFuel.
Proof.
  intros H. induction l as [|x l IH]; simpl; [discriminate|].
  apply rbind_fuel; [apply H|]. intros [|]; [discriminate | exact IH].
Qed.

Lemma prop_get_fuel (v : value) (k : string) : prop_get v k <> OutOfFuel.
Proof.
  unfold prop_get. destruct (isNil v); discriminate.
Qed.

Lemma _getPrimaryKeyValue_fuel (item : value) (pks : list string) :
  _getPrimaryKeyValue item pks <> OutOfFuel.
Proof.
  unfold _getPrimaryKeyValue. generalize EmptyString.
  induction (sortBy pks) as [|pk keys IH]; intros acc; simpl; [discriminate|].
  apply rbind_fuel; [apply prop_get_fuel|]. intros v.
  apply rbind_fuel; [unfold toString; destruct (isNil _); discriminate|].
  intros s. apply IH.
Qed.

Lemma _getChanges_fuel (xs ys : list value) (pks : list string) :
  _getChanges xs ys pks <> OutOfFuel.
Proof.
  unfold _getChanges, _getPrimaryKeyValues.
  assert (K : forall item, _getPrimaryKeyValue item pks <> OutOfFuel)
    by (intros; apply _getPrimaryKeyValue_fuel).
  apply rbind_fuel;
    [apply rbind_fuel; [now apply rmap_fuel | discriminate]|]. intros fk.
  apply rbind_fuel;
    [apply rbind_fuel; [now apply rmap_fuel | discriminate]|]. intros tk.
  apply rbind_fuel.
  { apply rfilter_fuel. intros x. apply rbind_fuel; [apply K | discriminate]. }
  intros r. apply rbind_fuel.
  { apply rfilter_fuel. intros x. apply rbind_fuel; [apply K | discriminate]. }
  intros a. apply rbind_fuel; [|discriminate].
  apply rmap_fuel. intros k.
  apply rbind_fuel.
  { apply rfind_fuel. intros x. apply rbind_fuel; [apply K | discriminate]. }
  intros f. apply rbind_fuel.
  { apply rfind_fuel. intros x. apply rbind_fuel; [apply K | discriminate]. }
  intros t. destruct f, t; try discriminate.
  destruct (truthy v && truthy v0)%bool; discriminate.
Qed.

Lemma itemChangeResultFinal_fuel (pks : list string) (p : InBoth)
    (ch : ChangeResult) :
  itemChangeResultFinal pks p ch <> OutOfFuel.
Proof.
  unfold itemChangeResultFinal. apply rbind_fuel; [|discriminate].
  generalize (@nil (string * value)).
  induction pks as [|pk pks IH]; intros acc; simpl; [discriminate|].
  apply rbind_fuel; [apply prop_get_fuel|]. intros v. apply IH.
Qed.

Lemma fueled_ret {A} (a : A) : fueled (ret a).
Proof. intros log. discriminate. Qed.

Lemma fueled_lift {A} (r : result A) : r <> OutOfFuel -> fueled (lift r).
Proof. intros H log. exact H. Qed.

Lemma fueled_bind {A B} (m : M A) (k : A -> M B) :
  fueled m -> (forall a, fueled (k a)) -> fueled (bind m k).
Proof.
  intros Hm Hk log. unfold bind. specialize (Hm log).
  destruct (m log) as [[a|e|] log']; simpl in *;
    [apply Hk | discriminate | congruence].
Qed.

Lemma fueled_mapM {A B} (f : A -> M B) (l : list A) :
  (forall x, fueled (f x)) -> fueled (mapM f l).
Proof.
  intros H. induction l as [|x l IH]; simpl; [apply fueled_ret|].
  apply fueled_bind; [apply H|]. intros y.
  apply fueled_bind; [exact IH|]. intros ys. apply fueled_ret.
Qed.

Create HintDb fuel.
#[local] Hint Resolve fueled_ret fueled_lift prop_get_fuel : fuel.

Lemma transform_keys_fueled
    (self : list (string * value) -> value -> value -> TypeDescriptor ->
            M (list (string * value)))
    (root property : value) (descriptor : TypeDescriptor) :
  (forall td, (td_depth td < td_depth descriptor)%nat ->
     forall r item, fueled (self r root item td)) ->
  forall keys result,
    fueled (transform_keys self root property descriptor keys result).
Proof.
  intros Hself. induction keys as [|key rest IH]; intros result; simpl;
    [apply fueled_ret|].
  destruct (bound_name (property_of descriptor key)) as [name|];
    [|intros log; discriminate].
  apply fueled_bind; [auto with fuel|]. intros v.
  destruct (pd_type (property_of descriptor key));
    try (apply fueled_bind; [auto with fuel | intros; apply IH]).
  destruct (pd_descriptor (property_of descriptor key)) as [td|] eqn:Htd;
    [|intros log; discriminate].
  destruct v;
    try (destruct (negb _); [intros log; discriminate | apply IH]).
  apply fueled_bind; [|intros; apply IH].
  apply fueled_mapM. intros x. apply Hself.
  now apply property_of_depth with (key := key).
Qed.

Lemma _processComplexTypeTransformations_fueled (n : nat) :
  forall descriptor result root property,
    (td_depth descriptor < n)%nat ->
    fueled (_processComplexTypeTransformations n result root property descriptor).
Proof.
  induction n as [|n IH]; intros descriptor result root property Hn; [lia|].
  simpl. apply transform_keys_fueled. intros td Htd r item. apply IH. lia.
Qed.

Lemma snapshot_entries_fueled (marker : string) (root : value)
    (td : TypeDescriptor) (items : list value) :
  fueled (snapshot_entries marker root td items).
Proof.
  unfold snapshot_entries. apply fueled_mapM. intros x.
  apply fueled_bind; [|intros; apply fueled_ret].
  apply _processComplexTypeTransformations_fueled. lia.
Qed.

Section FueledWalk.
Variable sortByItems : list value -> list value.
Variable self :
  ChangeResult -> value -> value -> value -> value -> TypeDescriptor ->
  M ChangeResult.
Variables fromRoot toRoot : value.
Variable descriptor : TypeDescriptor.
Hypothesis self_fueled :
  forall td, (td_depth td < td_depth descriptor)%nat ->
  forall f t, fueled (self [] fromRoot toRoot f t td).

Lemma process_property_fueled (x y : value) (key : string) (cr : ChangeResult) :
  fueled (process_property sortByItems self fromRoot toRoot descriptor x y key cr).
Proof.
  unfold process_property.
  apply fueled_bind; [auto with fuel|]. intros fv.
  apply fueled_bind; [auto with fuel|]. intros tv.
  destruct (bound_name (property_of descriptor key)) as [name|];
    [|intros log; discriminate].
  destruct (pd_type (property_of descriptor key)).
  1-3: (apply fueled_bind; [auto with fuel|]; intros fv';
        apply fueled_bind; [auto with fuel|]; intros tv';
        destruct fv', tv'; try apply fueled_ret;
        destruct (negb _); apply fueled_ret).
  destruct (pd_descriptor (property_of descriptor key)) as [td|] eqn:Htd;
    [|intros log; discriminate].
  destruct (_toArray (td_primaryKey td)) as [pks|]; [|intros log; discriminate].
  assert (Hc : forall xs ys,
            fueled (c <- complex_arrays self fromRoot toRoot cr name pks td xs ys ;;
                    ret (inr c) : M (ChangeResult + ChangeResult))).
  { intros xs ys. apply fueled_bind; [|intros; apply fueled_ret].
    unfold complex_arrays.
    apply fueled_bind; [apply fueled_lift, _getChanges_fuel|]. intros c.
    apply fueled_bind.
    - unfold emit_unmatched.
      destruct (removed c), (added c); try apply fueled_ret;
        (destruct (entry_missing cr name); [|apply fueled_ret];
         apply fueled_bind; [apply snapshot_entries_fueled|]; intros re;
         apply fueled_bind; [apply snapshot_entries_fueled|]; intros ae;
         apply fueled_ret).
    - intros cr'. revert cr'.
      induction (inBoth c) as [|p pairs IH]; intros cr'; simpl;
        [apply fueled_ret|].
      apply fueled_bind.
      + apply self_fueled. now apply property_of_depth with (key := key).
      + intros ch. destruct (Nat.ltb 0 (size ch)); [|apply IH].
        apply fueled_bind; [apply fueled_lift, itemChangeResultFinal_fuel|].
        intros final. apply IH. }
  destruct fv, tv; try apply Hc;
    (destruct (_ || _)%bool; [intros log; discriminate | apply fueled_ret]).
Qed.

Lemma process_keys_fueled (x y : value) (keys : list string) :
  forall cr,
    fueled (process_keys sortByItems self fromRoot toRoot descriptor x y keys cr).
Proof.
  induction keys as [|key rest IH]; intros cr; simpl; [apply fueled_ret|].
  apply fueled_bind; [apply process_property_fueled|].
  intros [c | c]; [apply fueled_ret | apply IH].
Qed.
End FueledWalk.

Lemma _processChanges_fueled (sortByItems : list value -> list value) (n : nat) :
  forall descriptor cr fromRoot toRoot x y,
    (td_depth descriptor < n)%nat ->
    fueled (_processChanges sortByItems n cr fromRoot toRoot x y descriptor).
Proof.
  induction n as [|n IH]; intros descriptor cr fromRoot toRoot x y Hn; [lia|].
  simpl. apply process_keys_fueled. intros td Htd f t. apply IH. lia.
Qed.

(** [diff] hands the walk enough fuel: it returns or throws, on every
    input. *)
Lemma diff_never_out_of_fuel (sortByItems : list value -> list value)
    (from to : value) (descriptor : TypeDescriptor) (log : list string) :
  fst (diff sortByItems from to descriptor log) <> OutOfFuel.
Proof.
  unfold diff. apply _processChanges_fueled. lia.
Qed.

(* ================================================================= *)
(** * Further properties of the service *)

(** ** The array reconciler *)

Lemma ordered_perm_unique (l1 l2 : list string) :
  ordered l1 -> ordered l2 -> Permutation l1 l2 -> l1 = l2.
Proof.
  intros O1. revert l2.
  induction O1 as [|x l1 Hx O1 IH]; intros l2 O2 P.
  - apply Permutation_nil in P. now subst.
  - destruct O2 as [|y l2 Hy O2].
    + apply Permutation_sym, Permutation_nil in P. discriminate.
    + assert (E : x = y).
      { pose proof (Permutation_in _ P (or_introl eq_refl)) as Hxin.
        pose proof (Permutation_in _ (Permutation_sym P) (or_introl eq_refl))
          as Hyin.
        destruct Hxin as [E | Hxin]; [now symmetry|].
        destruct Hyin as [E | Hyin]; [assumption|].
        apply String.leb_antisym; [now apply Hx | now apply Hy]. }
      subst y. f_equal. apply IH; [assumption|].
      exact (Permutation_cons_inv P).
Qed.

(** Sorting forgets the order in which the strings were given. *)
Lemma sortBy_permutation (l1 l2 : list string) :
  Permutation l1 l2 -> sortBy l1 = sortBy l2.
Proof.
  intros P. apply ordered_perm_unique.
  - apply ascending_ordered, sortBy_ascending.
  - apply ascending_ordered, sortBy_ascending.
  - apply Permutation_trans with (l' := l1);
      [apply Permutation_sym, sortBy_perm|].
    apply Permutation_trans with (l' := l2); [assumption | apply sortBy_perm].
Qed.

Lemma sortBy_nonempty (l : list string) : l <> [] -> sortBy l <> [].
Proof.
  intros H E. apply H.
  apply Permutation_nil. rewrite <- E. apply Permutation_sym, sortBy_perm.
Qed.

(** [_getPrimaryKeyValue] fails only by reading a property of [null] or
    [undefined], which it does as soon as there is a primary key to read. *)
Lemma _getPrimaryKeyValue_nil (item : value) (primaryKeys : list string) :
  isNil item = true -> primaryKeys <> [] ->
  _getPrimaryKeyValue item primaryKeys = Throw TypeError.
Proof.
  intros Hnil Hne. unfold _getPrimaryKeyValue.
  pose proof (sortBy_nonempty _ Hne) as Hs.
  destruct (sortBy primaryKeys) as [|k ks]; [contradiction|].
  simpl. unfold prop_get. now rewrite Hnil.
Qed.

Lemma _getPrimaryKeyValue_no_key (item : value) :
  _getPrimaryKeyValue item [] = Ok (canonical_key item []).
Proof. reflexivity. Qed.

Lemma _getPrimaryKeyValue_cases (item : value) (primaryKeys : list string) :
  _getPrimaryKeyValue item primaryKeys = Ok (canonical_key item primaryKeys)
  \/ (_getPrimaryKeyValue item primaryKeys = Throw TypeError /\
      isNil item = true /\ primaryKeys <> []).
Proof.
  destruct primaryKeys as [|k ks].
  - left. apply _getPrimaryKeyValue_no_key.
  - destruct (isNil item) eqn:Hnil.
    + right. split; [|split; [reflexivity | discriminate]].
      apply _getPrimaryKeyValue_nil; [assumption | discriminate].
    + left. now apply _getPrimaryKeyValue_canonical.
Qed.

(** When every key computation succeeds, [_getChanges] is the composition of
    [matched_keys], [unmatched_items] and [pair_for]. *)
Lemma _getChanges_keyed (fromArray toArray : list value) (primaryKeys : list string) :
  (forall x, In x (fromArray ++ toArray)%list ->
     _getPrimaryKeyValue x primaryKeys = Ok (canonical_key x primaryKeys)) ->
  _getChanges fromArray toArray primaryKeys
  = (let matched := matched_keys primaryKeys fromArray toArray in
     pairs <~ rmap (pair_for primaryKeys fromArray toArray) matched ;;
     Ok (MkChanges (unmatched_items primaryKeys matched fromArray)
           (unmatched_items primaryKeys matched toArray) pairs)).
Proof.
  intros K.
  assert (Kf : forall x, In x fromArray ->
               _getPrimaryKeyValue x primaryKeys = Ok (canonical_key x primaryKeys)).
  { intros x Hx. apply K, in_or_app. now left. }
  assert (Kt : forall x, In x toArray ->
               _getPrimaryKeyValue x primaryKeys = Ok (canonical_key x primaryKeys)).
  { intros x Hx. apply K, in_or_app. now right. }
  unfold _getChanges, _getPrimaryKeyValues.
  rewrite (rmap_ok _ (fun item => canonical_key item primaryKeys) fromArray Kf).
  rewrite (rmap_ok _ (fun item => canonical_key item primaryKeys) toArray Kt).
  simpl. fold (matched_keys primaryKeys fromArray toArray).
  set (matched := matched_keys primaryKeys fromArray toArray).
  rewrite (rfilter_ok _
             (fun item => negb (includes String.eqb matched
                                  (canonical_key item primaryKeys))) fromArray)
    by (intros x Hx; now rewrite (Kf x Hx)).
  rewrite (rfilter_ok _
             (fun item => negb (includes String.eqb matched
                                  (canonical_key item primaryKeys))) toArray)
    by (intros x Hx; now rewrite (Kt x Hx)).
  simpl. fold (unmatched_items primaryKeys matched fromArray).
  fold (unmatched_items primaryKeys matched toArray).
  erewrite rmap_ext; [reflexivity|].
  intros k _. unfold pair_for, first_with_key.
  rewrite (rfind_ok _
             (fun item => String.eqb (canonical_key item primaryKeys) k) fromArray)
    by (intros x Hx; now rewrite (Kf x Hx)).
  rewrite (rfind_ok _
             (fun item => String.eqb (canonical_key item primaryKeys) k) toArray)
    by (intros x Hx; now rewrite (Kt x Hx)).
  reflexivity.
Qed.

Lemma matched_keys_ordered (pks : list string) (xs ys : list value) :
  ordered (matched_keys pks xs ys).
Proof.
  apply intersection_acc_ordered, ascending_ordered, sortBy_ascending.
Qed.

Lemma matched_keys_NoDup (pks : list string) (xs ys : list value) :
  NoDup (matched_keys pks xs ys).
Proof. apply intersection_acc_NoDup. Qed.

Lemma NoDup_singleton {A} (a : A) (l : list A) :
  NoDup l -> (forall k, In k l <-> k = a) -> l = [a].
Proof.
  intros ND H. destruct l as [|x l].
  - destruct (proj2 (H a) eq_refl).
  - assert (x = a) by (apply H; now left). subst x.
    destruct l as [|y l]; [reflexivity|].
    assert (y = a) by (apply H; right; now left). subst y.
    inversion ND as [|? ? Hn _]; subst. exfalso. apply Hn. now left.
Qed.

Lemma pair_for_not_type_error (pks : list string) (xs ys : list value)
    (keys : list string) :
  rmap (pair_for pks xs ys) keys <> Throw TypeError.
Proof.
  induction keys as [|k keys IH]; simpl; [discriminate|].
  unfold pair_for at 1.
  destruct (first_with_key pks k xs) as [f|]; [|discriminate].
  destruct (first_with_key pks k ys) as [t|]; [|discriminate].
  destruct (truthy f && truthy t)%bool; [|discriminate]. simpl.
  destruct (rmap (pair_for pks xs ys) keys) as [ps|e|]; simpl; try discriminate.
  intros [= ->]. now apply IH.
Qed.

Lemma rmap_throw {A B} (f : A -> result B) (e : exn) (l : list A) :
  (forall x, In x l -> (exists y, f x = Ok y) \/ f x = Throw e) ->
  (exists x, In x l /\ f x = Throw e) ->
  rmap f l = Throw e.
Proof.
  induction l as [|x l IH]; intros Hall [z [Hz Ez]]; [destruct Hz|].
  simpl. destruct (Hall x (or_introl eq_refl)) as [[y Ey] | Ex].
  - rewrite Ey. simpl. rewrite IH; [reflexivity | |].
    + intros w Hw. apply Hall. now right.
    + destruct Hz as [-> | Hz]; [congruence|]. now exists z.
  - now rewrite Ex.
Qed.

Lemma forallb_false_exists {A} (p : A -> bool) (l : list A) :
  forallb p l = false -> exists x, In x l /\ p x = false.
Proof.
  induction l as [|x l IH]; simpl; [discriminate|].
  destruct (p x) eqn:E; simpl.
  - intros H. destruct (IH H) as [y [Hy Ey]]. exists y. split; [now right | assumption].
  - intros _. exists x. split; [now left | assumption].
Qed.

Lemma key_values_outcome (pks : list string) (l : list value) :
  (exists ks, rmap (fun x => _getPrimaryKeyValue x pks) l = Ok ks)
  \/ rmap (fun x => _getPrimaryKeyValue x pks) l = Throw TypeError.
Proof.
  induction l as [|x l IH]; simpl; [left; now eexists|].
  destruct (_getPrimaryKeyValue_cases x pks) as [E | [E _]]; rewrite E; simpl;
    [|now right].
  destruct IH as [[ks ->] | ->]; simpl; [left; now eexists | now right].
Qed.

(** X1.  [_getChanges] raises a [TypeError] exactly when a primary key is
    declared and one of the two arrays holds [null] or [undefined]: the
    canonical key of such an element cannot be read. *)
Theorem reconcile_type_error (xs ys : list value) (pks : list string) :
  _getChanges xs ys pks = Throw TypeError <->
  pks <> [] /\ exists item, In item (xs ++ ys)%list /\ isNil item = true.
Proof.
  split.
  - intros H.
    destruct (forallb (fun x => match pks with [] => true | _ => not_nil x end)
                (xs ++ ys)%list) eqn:Hall.
    + exfalso. rewrite _getChanges_keyed in H.
      * cbv zeta in H.
        pose proof (pair_for_not_type_error pks xs ys (matched_keys pks xs ys)) as N.
        destruct (rmap (pair_for pks xs ys) (matched_keys pks xs ys)) as [ps|e|];
          simpl in H; try discriminate. congruence.
      * intros x Hx. pose proof (forallb_In _ _ _ Hall Hx) as Px.
        destruct pks as [|k ks]; [apply _getPrimaryKeyValue_no_key|].
        now apply _getPrimaryKeyValue_canonical, not_nil_isNil.
    + apply forallb_false_exists in Hall. destruct Hall as [x [Hx Px]].
      destruct pks as [|k ks]; [discriminate|].
      split; [discriminate|]. exists x. split; [assumption|].
      unfold not_nil in Px. now apply negb_false_iff in Px.
  - intros [Hne [item [Hin Hnil]]].
    assert (T : forall l, In item l ->
                rmap (fun x => _getPrimaryKeyValue x pks) l = Throw TypeError).
    { intros l Hl. apply rmap_throw.
      - intros x _. destruct (_getPrimaryKeyValue_cases x pks) as [E | [E _]];
          [left; eauto | now right].
      - exists item. split; [assumption|].
        now apply _getPrimaryKeyValue_nil. }
    unfold _getChanges, _getPrimaryKeyValues.
    apply in_app_or in Hin. destruct Hin as [Hin | Hin].
    + now rewrite (T xs Hin).
    + rewrite (T ys Hin).
      destruct (key_values_outcome pks xs) as [[ks ->] | ->]; reflexivity.
Qed.

(** X2.  A descriptor may declare [primaryKey: []]: [_toArray] keeps the
    empty array, so the guard for a missing primary key does not fire.
    Every element then has the empty canonical key; whatever the two
    non-empty arrays hold, nothing is reported as removed or added and the
    single matched pair is made of the two first elements (which must be
    truthy). *)
Theorem empty_primaryKey_one_identity (x y : value) (xs ys : list value) :
  truthy x = true -> truthy y = true ->
  _toArray (Some (PkMany [])) = Some [] /\
  _getChanges (x :: xs) (y :: ys) []
  = Ok (MkChanges [] [] [MkInBoth EmptyString x y]).
Proof.
  intros Tx Ty. split; [reflexivity|].
  rewrite _getChanges_keyed by (intros; apply _getPrimaryKeyValue_no_key).
  cbv zeta.
  assert (E : matched_keys [] (x :: xs) (y :: ys) = [EmptyString]).
  { apply NoDup_singleton; [apply matched_keys_NoDup|].
    intros k. rewrite matched_keys_In. split.
    - intros [[f [_ <-]] _]. reflexivity.
    - intros ->. split; [exists x | exists y]; split; try reflexivity; now left. }
  rewrite E. simpl rmap. unfold pair_for, first_with_key. simpl List.find.
  cbv iota beta. rewrite Tx, Ty. simpl.
  f_equal. f_equal; apply filter_nil; intros z _; reflexivity.
Qed.

Lemma empty_primaryKey_one_identity_witness :
  _toArray (Some (PkMany [])) = Some [] /\
  _getChanges [VObj [("id", VStr "a")]; VNull] [VObj [("id", VStr "b")]] []
  = Ok (MkChanges [] []
          [MkInBoth EmptyString (VObj [("id", VStr "a")]) (VObj [("id", VStr "b")])]).
Proof.
  apply (empty_primaryKey_one_identity
           (VObj [("id", VStr "a")]) (VObj [("id", VStr "b")]) [VNull] []);
    reflexivity.
Defined.

(** X3.  The reconciler does not depend on the order in which a descriptor
    lists its primary keys: the names are sorted before the canonical key
    is built. *)
Theorem reconcile_primaryKey_order (pks pks' : list string) (xs ys : list value) :
  Permutation pks pks' ->
  _getChanges xs ys pks = _getChanges xs ys pks'.
Proof.
  intros P. unfold _getChanges, _getPrimaryKeyValues, _getPrimaryKeyValue.
  now rewrite (sortBy_permutation _ _ P).
Qed.

Lemma reconcile_primaryKey_order_witness :
  _getChanges [VObj [("a", VNum 1); ("b", VNum 2)]] [VObj [("a", VNum 1); ("b", VNum 3)]]
    ["a"; "b"]
  = _getChanges [VObj [("a", VNum 1); ("b", VNum 2)]] [VObj [("a", VNum 1); ("b", VNum 3)]]
      ["b"; "a"].
Proof.
  apply (reconcile_primaryKey_order ["a"; "b"] ["b"; "a"]).
  apply perm_swap.
Defined.

Lemma has_counterpart_matched (pks : list string) (xs ys : list value) (x : value) :
  In x xs ->
  includes String.eqb (matched_keys pks xs ys) (canonical_key x pks)
  = has_counterpart pks ys x.
Proof.
  intros Hx. unfold has_counterpart.
  destruct (existsb _ ys) eqn:E.
  - apply includes_In, matched_keys_In. apply existsb_exists in E.
    destruct E as [y [Hy Ey]]. apply String.eqb_eq in Ey.
    split; [now exists x | now exists y].
  - apply includes_not_In. rewrite matched_keys_In. intros [_ [y [Hy Ey]]].
    assert (T : existsb (fun other => String.eqb (canonical_key other pks)
                                        (canonical_key x pks)) ys = true).
    { apply existsb_exists. exists y. split; [assumption|]. now apply String.eqb_eq. }
    congruence.
Qed.

Lemma unmatched_items_counterpart (pks : list string) (xs ys : list value) :
  unmatched_items pks (matched_keys pks xs ys) xs
  = filter (fun x => negb (has_counterpart pks ys x)) xs.
Proof.
  unfold unmatched_items. apply filter_ext_in. intros x Hx.
  now rewrite has_counterpart_matched.
Qed.

(** X4.  On arrays without [null] or [undefined], the removed elements are
    the elements of the [from] array that have no counterpart (no element
    with the same canonical key) in the [to] array, and the added elements
    the elements of the [to] array without a counterpart in the [from]
    array; both keep the order of their array. *)
Theorem reconcile_unmatched (pks : list string) (xs ys : list value) (c : Changes) :
  forallb not_nil xs = true -> forallb not_nil ys = true ->
  _getChanges xs ys pks = Ok c ->
  removed c = filter (fun x => negb (has_counterpart pks ys x)) xs /\
  added c = filter (fun y => negb (has_counterpart pks xs y)) ys.
Proof.
  intros Nx Ny. rewrite (_getChanges_not_nil _ _ _ Nx Ny). cbv zeta.
  destruct (rmap (pair_for pks xs ys) (matched_keys pks xs ys)) as [pairs| |];
    try discriminate.
  simpl. intros [= E]. subst c. simpl. split.
  - apply unmatched_items_counterpart.
  - rewrite (matched_keys_sym pks xs ys). apply unmatched_items_counterpart.
Qed.

Lemma reconcile_unmatched_witness :
  removed (MkChanges [VObj [("id", VStr "a")]] [VObj [("id", VStr "b")]] [])
  = filter (fun x => negb (has_counterpart ["id"] [VObj [("id", VStr "b")]] x))
      [VObj [("id", VStr "a")]] /\
  added (MkChanges [VObj [("id", VStr "a")]] [VObj [("id", VStr "b")]] [])
  = filter (fun y => negb (has_counterpart ["id"] [VObj [("id", VStr "a")]] y))
      [VObj [("id", VStr "b")]].
Proof.
  apply (reconcile_unmatched ["id"] [VObj [("id", VStr "a")]]
           [VObj [("id", VStr "b")]]); reflexivity.
Defined.

(** X5.  The matched pairs come in ascending order of canonical key, one
    pair per key that occurs on both sides, whatever the order and the
    number of the elements that carry it; the pair of a key is made of the
    first element with that key in each array, so that further elements
    with the same key are neither compared nor reported. *)
Theorem reconcile_pairs (pks : list string) (xs ys : list value) (c : Changes) :
  forallb not_nil xs = true -> forallb not_nil ys = true ->
  _getChanges xs ys pks = Ok c ->
  ordered (map primaryKey (inBoth c)) /\
  NoDup (map primaryKey (inBoth c)) /\
  (forall k, In k (map primaryKey (inBoth c)) <->
             (exists x, In x xs /\ canonical_key x pks = k) /\
             (exists y, In y ys /\ canonical_key y pks = k)) /\
  Forall (fun p => first_with_key pks (primaryKey p) xs = Some (from p) /\
                   first_with_key pks (primaryKey p) ys = Some (to p))
    (inBoth c).
Proof.
  intros Nx Ny. rewrite (_getChanges_not_nil _ _ _ Nx Ny). cbv zeta.
  destruct (rmap (pair_for pks xs ys) (matched_keys pks xs ys)) as [pairs| |] eqn:R;
    try discriminate.
  simpl. intros [= E]. subst c. simpl.
  destruct (rmap_pair_for _ _ _ _ _ R) as [Ek HF]. rewrite Ek.
  split; [apply matched_keys_ordered|].
  split; [apply matched_keys_NoDup|].
  split; [intros k; apply matched_keys_In|].
  rewrite Forall_forall in *. intros p Hp.
  destruct (HF p Hp) as [Ff [Ft _]]. now split.
Qed.

Lemma reconcile_pairs_witness :
  ordered (map primaryKey (inBoth ReconcileExample.changes)) /\
  NoDup (map primaryKey (inBoth ReconcileExample.changes)) /\
  (forall k, In k (map primaryKey (inBoth ReconcileExample.changes)) <->
     (exists x, In x [ReconcileExample.b; ReconcileExample.a1; ReconcileExample.a2] /\
                canonical_key x ["id"] = k) /\
     (exists y, In y [ReconcileExample.a2; ReconcileExample.b; ReconcileExample.a1] /\
                canonical_key y ["id"] = k)) /\
  Forall (fun p =>
            first_with_key ["id"] (primaryKey p)
              [ReconcileExample.b; ReconcileExample.a1; ReconcileExample.a2]
            = Some (from p) /\
            first_with_key ["id"] (primaryKey p)
              [ReconcileExample.a2; ReconcileExample.b; ReconcileExample.a1]
            = Some (to p))
    (inBoth ReconcileExample.changes).
Proof.
  apply (reconcile_pairs ["id"]
           [ReconcileExample.b; ReconcileExample.a1; ReconcileExample.a2]
           [ReconcileExample.a2; ReconcileExample.b; ReconcileExample.a1]
           ReconcileExample.changes); reflexivity.
Defined.

Lemma intersection_acc_empty {A} (eqb : A -> A -> bool) (seen a : list A) :
  intersection_acc eqb seen a [] = [].
Proof.
  revert seen. induction a as [|x a IH]; intros seen; simpl; [reflexivity|].
  apply IH.
Qed.

Lemma filter_all {A} (p : A -> bool) (l : list A) :
  (forall x, In x l -> p x = true) -> filter p l = l.
Proof.
  induction l as [|x l IH]; intros H; simpl; [reflexivity|].
  rewrite (H x (or_introl eq_refl)). f_equal. apply IH.
  intros y Hy. apply H. now right.
Qed.

(** Against an empty array every element is unmatched. *)
Lemma _getChanges_empty_to (pks : list string) (xs : list value) :
  forallb not_nil xs = true ->
  _getChanges xs [] pks = Ok (MkChanges xs [] []).
Proof.
  intros Nx. rewrite (_getChanges_not_nil xs [] pks Nx eq_refl). cbv zeta.
  assert (E : matched_keys pks xs [] = []).
  { unfold matched_keys, intersection. apply intersection_acc_empty. }
  rewrite E. simpl. f_equal. f_equal.
  apply filter_all. intros; reflexivity.
Qed.

Lemma _getChanges_empty_from (pks : list string) (ys : list value) :
  forallb not_nil ys = true ->
  _getChanges [] ys pks = Ok (MkChanges [] ys []).
Proof.
  intros Ny. rewrite (_getChanges_not_nil [] ys pks eq_refl Ny). cbv zeta.
  assert (E : matched_keys pks [] ys = []) by reflexivity.
  rewrite E. simpl. f_equal. f_equal.
  apply filter_all. intros; reflexivity.
Qed.

(** X6.  A complex array compared with an empty one: every element is
    reported, in array order, as a removed snapshot (when the [to] array is
    the empty one) or as an added snapshot (when the [from] array is), and
    no pair is walked; two empty arrays leave the result untouched. *)
Theorem complex_array_against_empty
    (self : ChangeResult -> value -> value -> value -> value -> TypeDescriptor ->
            M ChangeResult)
    (fromRoot toRoot : value) (cr : ChangeResult) (name : string)
    (pks : list string) (td : TypeDescriptor) (x : value) (xs : list value)
    (log : list string) :
  forallb not_nil (x :: xs) = true ->
  entry_missing cr name = true ->
  complex_arrays self fromRoot toRoot cr name pks td (x :: xs) [] log
  = (entries <- snapshot_entries removed_marker fromRoot td (x :: xs) ;;
     ret (assoc_set name (VArr entries) cr)) log /\
  complex_arrays self fromRoot toRoot cr name pks td [] (x :: xs) log
  = (entries <- snapshot_entries added_marker toRoot td (x :: xs) ;;
     ret (assoc_set name (VArr entries) cr)) log /\
  complex_arrays self fromRoot toRoot cr name pks td [] [] log = (Ok cr, log).
Proof.
  intros Nx Hmissing. unfold complex_arrays. split; [|split].
  - rewrite (_getChanges_empty_to pks _ Nx). walk_simpl.
    simpl removed. simpl added. simpl inBoth. unfold emit_unmatched.
    rewrite Hmissing. unfold bind, ret.
    destruct (snapshot_entries removed_marker fromRoot td (x :: xs) log)
      as [[entries|e|] log1]; try reflexivity.
    cbn [snapshot_entries mapM]. unfold ret. cbn [matched_pairs].
    unfold ret. now rewrite app_nil_r.
  - rewrite (_getChanges_empty_from pks _ Nx). walk_simpl.
    simpl removed. simpl added. simpl inBoth. unfold emit_unmatched.
    rewrite Hmissing.
    change (snapshot_entries removed_marker fromRoot td [])
      with (@ret (list value) []).
    walk_simpl. unfold bind, ret.
    destruct (snapshot_entries added_marker toRoot td (x :: xs) log)
      as [[entries|e|] log1]; reflexivity.
  - reflexivity.
Qed.

Lemma complex_array_against_empty_witness :
  complex_arrays (fun _ _ _ _ _ _ => ret []) VUndefined VUndefined [] "cars" ["id"]
    CarTypeDescriptorRegistry.automobile
    [ObjectDiffExample.truck] [] []
  = (entries <- snapshot_entries removed_marker VUndefined
                  CarTypeDescriptorRegistry.automobile [ObjectDiffExample.truck] ;;
     ret (assoc_set "cars" (VArr entries) [])) [] /\
  complex_arrays (fun _ _ _ _ _ _ => ret []) VUndefined VUndefined [] "cars" ["id"]
    CarTypeDescriptorRegistry.automobile
    [] [ObjectDiffExample.truck] []
  = (entries <- snapshot_entries added_marker VUndefined
                  CarTypeDescriptorRegistry.automobile [ObjectDiffExample.truck] ;;
     ret (assoc_set "cars" (VArr entries) [])) [] /\
  complex_arrays (fun _ _ _ _ _ _ => ret []) VUndefined VUndefined [] "cars" ["id"]
    CarTypeDescriptorRegistry.automobile [] [] []
  = (Ok [], []).
Proof.
  apply (complex_array_against_empty (fun _ _ _ _ _ _ => ret []) VUndefined
           VUndefined [] "cars" ["id"] CarTypeDescriptorRegistry.automobile
           ObjectDiffExample.truck [] []); reflexivity.
Defined.

Lemma rmap_pair_for_flipped (pks : list string) (xs ys : list value)
    (keys : list string) :
  rmap (pair_for pks ys xs) keys
  = (pairs <~ rmap (pair_for pks xs ys) keys ;; Ok (map flip_pair pairs)).
Proof.
  induction keys as [|k keys IH]; simpl; [reflexivity|].
  rewrite (pair_for_flip pks xs ys k).
  destruct (pair_for pks xs ys k) as [p|e|]; simpl; try reflexivity.
  rewrite IH.
  destruct (rmap (pair_for pks xs ys) keys) as [ps|e|]; reflexivity.
Qed.

(** X7.  Reconciling in the opposite direction gives the same outcome read
    from the other side: the removed and the added elements are exchanged
    and every matched pair is flipped, the pairs keeping their order; and
    one direction throws exactly when the other does, with the same
    error. *)
Theorem reconcile_opposite_direction (pks : list string) (xs ys : list value) :
  forallb not_nil xs = true -> forallb not_nil ys = true ->
  _getChanges ys xs pks
  = (c <~ _getChanges xs ys pks ;; Ok (flip_changes c)).
Proof.
  intros Nx Ny. rewrite (_getChanges_not_nil _ _ _ Nx Ny).
  rewrite (_getChanges_not_nil _ _ _ Ny Nx). cbv zeta.
  rewrite (matched_keys_sym pks ys xs). rewrite rmap_pair_for_flipped.
  destruct (rmap (pair_for pks xs ys) (matched_keys pks xs ys)) as [pairs|e|];
    reflexivity.
Qed.

Lemma reconcile_opposite_direction_witness :
  _getChanges [ReconcileExample.a2; ReconcileExample.b] [ReconcileExample.a1] ["id"]
  = (c <~ _getChanges [ReconcileExample.a1] [ReconcileExample.a2; ReconcileExample.b]
            ["id"] ;;
     Ok (flip_changes c)).
Proof.
  apply (reconcile_opposite_direction ["id"] [ReconcileExample.a1]
           [ReconcileExample.a2; ReconcileExample.b]); reflexivity.
Defined.

Lemma append_cancel_l (a s t : string) : a ++ s = a ++ t -> s = t.
Proof.
  induction a as [|c a IH]; simpl; [tauto|].
  intros [= E]. now apply IH.
Qed.

(** Two texts without a semicolon, each followed by a semicolon and more
    text: the texts and what follows are determined. *)
Lemma split_at_semicolon (s t u v : string) :
  no_semicolon s = true -> no_semicolon t = true ->
  s ++ ";" ++ u = t ++ ";" ++ v -> s = t /\ u = v.
Proof.
  revert t. induction s as [|c s IH]; intros [|d t]; simpl.
  - intros _ _ [= E]. now split.
  - intros _ H [= E _]. subst d. discriminate.
  - intros H _ [= E _]. subst c. discriminate.
  - intros Hs Ht [= E1 E2]. subst d.
    apply andb_true_iff in Hs, Ht.
    destruct (IH t (proj2 Hs) (proj2 Ht) E2) as [-> ->]. now split.
Qed.

Lemma key_parts_injective (x y : value) (keys : list string) :
  (forall k, In k keys ->
     no_semicolon (key_text x k) = true /\ no_semicolon (key_text y k) = true) ->
  fold_right String.append EmptyString (map (key_part x) keys)
  = fold_right String.append EmptyString (map (key_part y) keys) ->
  forall k, In k keys -> key_text x k = key_text y k.
Proof.
  induction keys as [|k0 keys IH]; intros Hsemi E k Hk; [destruct Hk|].
  simpl in E. unfold key_part at 1 3 in E. fold (key_text x k0) in E.
  fold (key_text y k0) in E. rewrite !append_assoc in E.
  apply append_cancel_l in E. apply (append_cancel_l ":") in E.
  destruct (Hsemi k0 (or_introl eq_refl)) as [Sx Sy].
  destruct (split_at_semicolon _ _ _ _ Sx Sy E) as [E1 E2].
  destruct Hk as [<- | Hk]; [assumption|].
  apply IH; try assumption. intros k' Hk'. apply Hsemi. now right.
Qed.

(** X8.  For two records whose primary-key values hold only ASCII strings
    and integers that print in plain decimal, and none of whose
    primary-key values prints with a semicolon: [_getPrimaryKeyValue] returns a key for each, and
    the two keys are equal exactly when, for every primary key, the two
    values have the same lower-cased text (a falsy value counting as the
    empty text).  The comparison is on texts: the number 1 and the string
    "1" are one identity. *)
Theorem same_identity_iff_same_key_texts (pks : list string) (x y : value) :
  is_record x = true -> is_record y = true ->
  (forall k, In k pks ->
     plain_value (field x k) = true /\ plain_value (field y k) = true) ->
  (forall k, In k pks ->
     no_semicolon (key_text x k) = true /\ no_semicolon (key_text y k) = true) ->
  exists kx ky,
    _getPrimaryKeyValue x pks = Ok kx /\
    _getPrimaryKeyValue y pks = Ok ky /\
    (kx = ky <-> forall k, In k pks -> key_text x k = key_text y k).
Proof.
  intros Rx Ry _ Hsemi.
  exists (canonical_key x pks), (canonical_key y pks).
  split; [apply _getPrimaryKeyValue_canonical; now apply is_record_not_nil|].
  split; [apply _getPrimaryKeyValue_canonical; now apply is_record_not_nil|].
  split.
  - intros E k Hk. unfold canonical_key in E.
    apply (key_parts_injective x y (sortBy pks)); try assumption.
    + intros k' Hk'. apply Hsemi. now apply sortBy_In.
    + now apply sortBy_In.
  - intros H. apply canonical_key_ext. intros k Hk. unfold key_part.
    fold (key_text x k). fold (key_text y k). now rewrite (H k Hk).
Qed.

Lemma same_identity_iff_same_key_texts_witness :
  exists kx ky,
    _getPrimaryKeyValue (VObj [("id", VNum 1); ("lot", VStr "A")]) ["lot"; "id"]
    = Ok kx /\
    _getPrimaryKeyValue (VObj [("lot", VStr "a"); ("id", VStr "1")]) ["lot"; "id"]
    = Ok ky /\
    (kx = ky <->
     forall k, In k ["lot"; "id"] ->
       key_text (VObj [("id", VNum 1); ("lot", VStr "A")]) k
       = key_text (VObj [("lot", VStr "a"); ("id", VStr "1")]) k).
Proof.
  apply (same_identity_iff_same_key_texts ["lot"; "id"]
           (VObj [("id", VNum 1); ("lot", VStr "A")])
           (VObj [("lot", VStr "a"); ("id", VStr "1")]) eq_refl eq_refl).
  - intros k [<- | [<- | []]]; split; reflexivity.
  - intros k [<- | [<- | []]]; split; reflexivity.
Defined.

(** ** The walk: parameters it never reads *)

Lemma mapM_pointwise {A B} (f g : A -> M B) (l : list A) :
  (forall x log, f x log = g x log) ->
  forall log, mapM f l log = mapM g l log.
Proof.
  intros H. apply mapM_ext. intros x log _. apply H.
Qed.

Lemma transform_keys_roots
    (self1 self2 : list (string * value) -> value -> value -> TypeDescriptor ->
                   M (list (string * value)))
    (descriptor : TypeDescriptor) (root1 root2 property : value) :
  (forall td r item log, self1 r root1 item td log = self2 r root2 item td log) ->
  forall keys result log,
    transform_keys self1 root1 property descriptor keys result log
    = transform_keys self2 root2 property descriptor keys result log.
Proof.
  intros Hself. induction keys as [|key rest IH]; intros result log; simpl;
    [reflexivity|].
  destruct (bound_name (property_of descriptor key)) as [name|]; [|reflexivity].
  apply bind_ext; [reflexivity|]. intros v log1.
  destruct (pd_type (property_of descriptor key)); try reflexivity;
    try (apply bind_ext; [reflexivity|]; intros; apply IH).
  destruct (pd_descriptor (property_of descriptor key)) as [td|]; [|reflexivity].
  destruct v; try (destruct (negb _); [reflexivity | apply IH]).
  apply bind_ext.
  - apply mapM_pointwise. intros x log2. apply Hself.
  - intros rendered log2. apply IH.
Qed.

Lemma _processComplexTypeTransformations_roots (n : nat) :
  forall descriptor result root1 root2 property log,
    _processComplexTypeTransformations n result root1 property descriptor log
    = _processComplexTypeTransformations n result root2 property descriptor log.
Proof.
  induction n as [|n IH]; intros; simpl; [reflexivity|].
  apply transform_keys_roots. intros. apply IH.
Qed.

Lemma snapshot_entries_roots (marker : string) (root1 root2 : value)
    (td : TypeDescriptor) (items : list value) (log : list string) :
  snapshot_entries marker root1 td items log
  = snapshot_entries marker root2 td items log.
Proof.
  unfold snapshot_entries. apply mapM_pointwise. intros x log1.
  apply bind_ext; [|reflexivity].
  apply _processComplexTypeTransformations_roots.
Qed.

Section RootsWalk.
Variable sortByItems : list value -> list value.
Variables self1 self2 :
  ChangeResult -> value -> value -> value -> value -> TypeDescriptor ->
  M ChangeResult.
Variables fromRoot1 toRoot1 fromRoot2 toRoot2 : value.
Hypothesis Hself :
  forall cr f t td log,
    self1 cr fromRoot1 toRoot1 f t td log = self2 cr fromRoot2 toRoot2 f t td log.

Lemma matched_pairs_roots (name : string) (pks : list string)
    (td : TypeDescriptor) (pairs : list InBoth) :
  forall cr log,
    matched_pairs self1 fromRoot1 toRoot1 name pks td pairs cr log
    = matched_pairs self2 fromRoot2 toRoot2 name pks td pairs cr log.
Proof.
  induction pairs as [|p pairs IH]; intros cr log; simpl; [reflexivity|].
  apply bind_ext; [apply Hself|]. intros icr log1.
  destruct (Nat.ltb 0 (size icr)); [|apply IH].
  apply bind_ext; [reflexivity|]. intros final log2. apply IH.
Qed.

Lemma emit_unmatched_roots (cr : ChangeResult) (name : string)
    (td : TypeDescriptor) (removedItems addedItems : list value)
    (log : list string) :
  emit_unmatched fromRoot1 toRoot1 cr name td removedItems addedItems log
  = emit_unmatched fromRoot2 toRoot2 cr name td removedItems addedItems log.
Proof.
  unfold emit_unmatched.
  assert (E : (if entry_missing cr name
               then
                 removedEntries <-
                   snapshot_entries removed_marker fromRoot1 td removedItems ;;
                 addedEntries <-
                   snapshot_entries added_marker toRoot1 td addedItems ;;
                 ret (assoc_set name (VArr (removedEntries ++ addedEntries)) cr)
               else ret cr) log
              = (if entry_missing cr name
                 then
                   removedEntries <-
                     snapshot_entries removed_marker fromRoot2 td removedItems ;;
                   addedEntries <-
                     snapshot_entries added_marker toRoot2 td addedItems ;;
                   ret (assoc_set name (VArr (removedEntries ++ addedEntries)) cr)
                 else ret cr) log).
  { destruct (entry_missing cr name); [|reflexivity].
    apply bind_ext; [apply snapshot_entries_roots|]. intros rs log1.
    apply bind_ext; [apply snapshot_entries_roots | reflexivity]. }
  destruct removedItems, addedItems; try reflexivity; exact E.
Qed.

Lemma complex_arrays_roots (cr : ChangeResult) (name : string)
    (pks : list string) (td : TypeDescriptor) (xs ys : list value)
    (log : list string) :
  complex_arrays self1 fromRoot1 toRoot1 cr name pks td xs ys log
  = complex_arrays self2 fromRoot2 toRoot2 cr name pks td xs ys log.
Proof.
  unfold complex_arrays. apply bind_ext; [reflexivity|]. intros c log1.
  apply bind_ext; [apply emit_unmatched_roots|]. intros cr1 log2.
  apply matched_pairs_roots.
Qed.

Lemma process_property_roots (descriptor : TypeDescriptor) (x y : value)
    (key : string) (cr : ChangeResult) (log : list string) :
  process_property sortByItems self1 fromRoot1 toRoot1 descriptor x y key cr log
  = process_property sortByItems self2 fromRoot2 toRoot2 descriptor x y key cr log.
Proof.
  unfold process_property.
  apply bind_ext; [reflexivity|]. intros fv log1.
  apply bind_ext; [reflexivity|]. intros tv log2.
  destruct (bound_name (property_of descriptor key)) as [name|]; [|reflexivity].
  destruct (pd_type (property_of descriptor key)); try reflexivity.
  destruct (pd_descriptor (property_of descriptor key)) as [td|]; [|reflexivity].
  destruct (_toArray (td_primaryKey td)) as [pks|]; [|reflexivity].
  destruct fv, tv; try reflexivity.
  apply bind_ext; [apply complex_arrays_roots | reflexivity].
Qed.

Lemma process_keys_roots (descriptor : TypeDescriptor) (x y : value)
    (keys : list string) :
  forall cr log,
    process_keys sortByItems self1 fromRoot1 toRoot1 descriptor x y keys cr log
    = process_keys sortByItems self2 fromRoot2 toRoot2 descriptor x y keys cr log.
Proof.
  induction keys as [|key rest IH]; intros cr log; simpl; [reflexivity|].
  apply bind_ext; [apply process_property_roots|]. intros [cr1 | cr1] log1;
    [reflexivity | apply IH].
Qed.
End RootsWalk.

(** X9.  The root objects handed down the recursion are never read: the
    walk and the snapshot projector return the same outcome and log the
    same messages whatever [fromRoot], [toRoot] and [root] are. *)
Theorem roots_never_read (sortByItems : list value -> list value) (n : nat) :
  forall (descriptor : TypeDescriptor) (cr : ChangeResult)
         (fromRoot toRoot fromRoot' toRoot' x y : value) (log : list string),
    _processChanges sortByItems n cr fromRoot toRoot x y descriptor log
    = _processChanges sortByItems n cr fromRoot' toRoot' x y descriptor log /\
    _processComplexTypeTransformations n cr fromRoot x descriptor log
    = _processComplexTypeTransformations n cr fromRoot' x descriptor log.
Proof.
  induction n as [|n IH]; intros; split; try reflexivity.
  - simpl. apply process_keys_roots. intros. apply IH.
  - apply _processComplexTypeTransformations_roots.
Qed.

(** ** The logger *)

Lemma silent_ret {A} (a : A) : silent (ret a).
Proof. intros log. reflexivity. Qed.

Lemma silent_lift {A} (r : result A) : silent (lift r).
Proof. intros log. reflexivity. Qed.

Lemma silent_bind {A B} (m : M A) (k : A -> M B) :
  silent m -> (forall a, silent (k a)) -> silent (bind m k).
Proof.
  intros Hm Hk log. unfold bind. specialize (Hm log).
  destruct (m log) as [[a|e|] log1]; simpl in *; subst; try reflexivity.
  apply Hk.
Qed.

Lemma silent_mapM {A B} (f : A -> M B) (l : list A) :
  (forall x, silent (f x)) -> silent (mapM f l).
Proof.
  intros H. induction l as [|x l IH]; simpl; [apply silent_ret|].
  apply silent_bind; [apply H|]. intros y.
  apply silent_bind; [apply IH|]. intros ys. apply silent_ret.
Qed.

Lemma property_of_bound (d : TypeDescriptor) (key : string) :
  well_bound d = true -> In key (Object_keys (td_properties d)) ->
  In (key, property_of d key) (td_properties d) /\
  bound_name (property_of d key) = Some key /\
  (pd_type (property_of d key) = TComplex ->
   exists td, pd_descriptor (property_of d key) = Some td /\ well_bound td = true).
Proof.
  intros WB Hk. destruct (keys_assoc _ _ Hk) as [pd Hpd].
  assert (Hprop : property_of d key = pd) by (unfold property_of; now rewrite Hpd).
  rewrite Hprop. pose proof (assoc_In _ _ _ Hpd) as Hin.
  split; [assumption|]. exact (well_bound_property _ _ _ WB Hin).
Qed.

Lemma keyed_property (d td : TypeDescriptor) (key : string) (pd : PropertyDescriptor) :
  keyed d = true -> In (key, pd) (td_properties d) ->
  pd_type pd = TComplex -> pd_descriptor pd = Some td ->
  (exists pks, _toArray (td_primaryKey td) = Some pks) /\ keyed td = true.
Proof.
  destruct d as [n ps pk]. simpl. intros H Hin Hty Hd.
  pose proof (forallb_In _ _ _ H Hin) as P. simpl in P.
  destruct pd as [ty nested nm]. simpl in Hty, Hd. subst ty nested.
  apply andb_true_iff in P. destruct P as [P1 P2]. split; [|assumption].
  destruct (_toArray (td_primaryKey td)) as [pks|]; [now exists pks | discriminate].
Qed.

Section SilentProjector.
Variable self :
  list (string * value) -> value -> value -> TypeDescriptor ->
  M (list (string * value)).
Variable descriptor : TypeDescriptor.
Hypothesis WB : well_bound descriptor = true.
Hypothesis self_silent :
  forall td r root item, well_bound td = true -> silent (self r root item td).

Lemma transform_keys_silent (root property : value) (keys : list string) :
  (forall k, In k keys -> In k (Object_keys (td_properties descriptor))) ->
  forall result, silent (transform_keys self root property descriptor keys result).
Proof.
  induction keys as [|key rest IH]; intros Hkeys result; [apply silent_ret|].
  assert (Hrest : forall k, In k rest ->
                    In k (Object_keys (td_properties descriptor)))
    by (intros k Hk; apply Hkeys; now right).
  destruct (property_of_bound _ _ WB (Hkeys key (or_introl eq_refl)))
    as [_ [Hname Hcomplex]].
  cbn [transform_keys]. rewrite Hname.
  apply silent_bind; [apply silent_lift|]. intros v.
  destruct (pd_type (property_of descriptor key)) eqn:Hty;
    try (apply silent_bind; [apply silent_lift|]; intros w; now apply IH).
  destruct (Hcomplex eq_refl) as [td [Htd WBtd]]. rewrite Htd.
  destruct v; try (destruct (negb _); [apply silent_lift | now apply IH]).
  apply silent_bind.
  - apply silent_mapM. intros x. now apply self_silent.
  - intros rendered. now apply IH.
Qed.
End SilentProjector.

Lemma _processComplexTypeTransformations_silent (n : nat) :
  forall descriptor result root property,
    well_bound descriptor = true ->
    silent (_processComplexTypeTransformations n result root property descriptor).
Proof.
  induction n as [|n IH]; intros descriptor result root property WB; simpl;
    [apply silent_lift|].
  apply (transform_keys_silent (_processComplexTypeTransformations n) descriptor WB).
  - intros td r root' item WBtd. now apply IH.
  - intros k Hk. now apply sortBy_In.
Qed.

Lemma snapshot_entries_silent (marker : string) (root : value)
    (td : TypeDescriptor) (items : list value) :
  well_bound td = true -> silent (snapshot_entries marker root td items).
Proof.
  intros WB. unfold snapshot_entries. apply silent_mapM. intros x.
  apply silent_bind; [|intros s; apply silent_ret].
  now apply _processComplexTypeTransformations_silent.
Qed.

Section SilentWalk.
Variable sortByItems : list value -> list value.
Variable self :
  ChangeResult -> value -> value -> value -> value -> TypeDescriptor ->
  M ChangeResult.
Variables fromRoot toRoot : value.
Variable descriptor : TypeDescriptor.
Hypothesis WB : well_bound descriptor = true.
Hypothesis KD : keyed descriptor = true.
Hypothesis self_silent :
  forall td cr f t,
    well_bound td = true -> keyed td = true ->
    silent (self cr fromRoot toRoot f t td).

Lemma matched_pairs_silent (name : string) (pks : list string)
    (td : TypeDescriptor) (pairs : list InBoth) :
  well_bound td = true -> keyed td = true ->
  forall cr, silent (matched_pairs self fromRoot toRoot name pks td pairs cr).
Proof.
  intros WBtd KDtd. induction pairs as [|p pairs IH]; intros cr; simpl;
    [apply silent_ret|].
  apply silent_bind; [now apply self_silent|]. intros icr.
  destruct (Nat.ltb 0 (size icr)); [|apply IH].
  apply silent_bind; [apply silent_lift|]. intros final. apply IH.
Qed.

Lemma emit_unmatched_silent (cr : ChangeResult) (name : string)
    (td : TypeDescriptor) (removedItems addedItems : list value) :
  well_bound td = true ->
  silent (emit_unmatched fromRoot toRoot cr name td removedItems addedItems).
Proof.
  intros WBtd. unfold emit_unmatched.
  assert (S : silent
                (if entry_missing cr name
                 then
                   removedEntries <-
                     snapshot_entries removed_marker fromRoot td removedItems ;;
                   addedEntries <-
                     snapshot_entries added_marker toRoot td addedItems ;;
                   ret (assoc_set name (VArr (removedEntries ++ addedEntries)) cr)
                 else ret cr)).
  { destruct (entry_missing cr name); [|apply silent_ret].
    apply silent_bind; [now apply snapshot_entries_silent|]. intros rs.
    apply silent_bind; [now apply snapshot_entries_silent|]. intros xs.
    apply silent_ret. }
  destruct removedItems, addedItems; try exact S. apply silent_ret.
Qed.

Lemma process_property_silent (x y : value) (key : string) (cr : ChangeResult) :
  In key (Object_keys (td_properties descriptor)) ->
  silent (process_property sortByItems self fromRoot toRoot descriptor x y key cr).
Proof.
  intros Hk.
  destruct (property_of_bound _ _ WB Hk) as [Hin [Hname Hcomplex]].
  unfold process_property.
  apply silent_bind; [apply silent_lift|]. intros fv.
  apply silent_bind; [apply silent_lift|]. intros tv.
  rewrite Hname.
  destruct (pd_type (property_of descriptor key)) eqn:Hty.
  1-3: (apply silent_bind; [apply silent_lift|]; intros fv';
        apply silent_bind; [apply silent_lift|]; intros tv';
        destruct fv', tv'; try apply silent_ret;
        destruct (negb _); apply silent_ret).
  destruct (Hcomplex eq_refl) as [td [Htd WBtd]]. rewrite Htd.
  destruct (keyed_property _ _ _ _ KD Hin Hty Htd) as [[pks Hpks] KDtd].
  rewrite Hpks.
  assert (S : silent
                (changeResult <-
                   complex_arrays self fromRoot toRoot cr key pks td
                     match fv with VArr l => l | _ => [] end
                     match tv with VArr l => l | _ => [] end ;;
                 ret (@inr ChangeResult ChangeResult changeResult))).
  { apply silent_bind; [|intros c; apply silent_ret].
    unfold complex_arrays.
    apply silent_bind; [apply silent_lift|]. intros c.
    apply silent_bind; [now apply emit_unmatched_silent|]. intros cr1.
    now apply matched_pairs_silent. }
  destruct fv, tv; try exact S;
    try (destruct (_ || _)%bool; [apply silent_lift | apply silent_ret]).
Qed.

Lemma process_keys_silent (x y : value) (keys : list string) :
  (forall k, In k keys -> In k (Object_keys (td_properties descriptor))) ->
  forall cr,
    silent (process_keys sortByItems self fromRoot toRoot descriptor x y keys cr).
Proof.
  induction keys as [|key rest IH]; intros Hkeys cr; simpl; [apply silent_ret|].
  apply silent_bind.
  - apply process_property_silent. apply Hkeys. now left.
  - intros [cr1 | cr1]; [apply silent_ret|].
    apply IH. intros k Hk. apply Hkeys. now right.
Qed.
End SilentWalk.

Lemma _processChanges_silent (sortByItems : list value -> list value) (n : nat) :
  forall descriptor cr fromRoot toRoot x y,
    well_bound descriptor = true -> keyed descriptor = true ->
    silent (_processChanges sortByItems n cr fromRoot toRoot x y descriptor).
Proof.
  induction n as [|n IH]; intros descriptor cr fromRoot toRoot x y WB KD; simpl;
    [apply silent_lift|].
  apply (process_keys_silent sortByItems (_processChanges sortByItems n)
           fromRoot toRoot descriptor WB KD).
  - intros td cr' f t WBtd KDtd. now apply IH.
  - intros k Hk. now apply sortBy_In.
Qed.

(** X10.  With a descriptor built by [TypeDescriptors.create] at every
    level, whose complex properties all refer to a nested descriptor with a
    primary key, [diff] never calls the logger: whether it returns or
    throws, and whatever the two values are, the log is left as it was. *)
Theorem configured_diff_never_logs (sortByItems : list value -> list value)
    (from to : value) (descriptor : TypeDescriptor) (log : list string) :
  well_bound descriptor = true -> keyed descriptor = true ->
  snd (diff sortByItems from to descriptor log) = log.
Proof.
  intros WB KD. unfold diff. now apply _processChanges_silent.
Qed.

Lemma configured_diff_never_logs_witness :
  snd (diff sortBy_primitives ObjectDiffExample.from (VNum 3)
         CarTypeDescriptorRegistry.automobileCollection ["earlier message"])
  = ["earlier message"].
Proof.
  apply (configured_diff_never_logs sortBy_primitives ObjectDiffExample.from
           (VNum 3) CarTypeDescriptorRegistry.automobileCollection
           ["earlier message"]); reflexivity.
Defined.

(** X11.  A descriptor whose property descriptors carry no name (it was not
    passed through [TypeDescriptors.create]) disables [diff]: on any two
    values other than [null] and [undefined], the first property visited
    makes it log that a property name is needed and return, so the result
    is the empty record and exactly one message is logged, whatever the
    values hold. *)
Theorem unbound_descriptor_disables_diff (sortByItems : list value -> list value)
    (from to : value) (descriptor : TypeDescriptor) (log : list string) :
  td_properties descriptor <> [] ->
  (forall key pd, In (key, pd) (td_properties descriptor) -> pd_name pd = None) ->
  isNil from = false -> isNil to = false ->
  diff sortByItems from to descriptor log
  = (Ok [], (log ++ [msg_need_name descriptor])%list).
Proof.
  intros Hne Hunbound Nf Nt. unfold diff. simpl _processChanges.
  assert (Hk : Object_keys (td_properties descriptor) <> []).
  { unfold Object_keys. destruct (td_properties descriptor); [contradiction|].
    discriminate. }
  pose proof (sortBy_nonempty _ Hk) as Hs.
  destruct (sortBy (Object_keys (td_properties descriptor))) as [|key rest] eqn:E;
    [contradiction|].
  assert (Hin : In key (Object_keys (td_properties descriptor))).
  { apply sortBy_In. rewrite E. now left. }
  destruct (keys_assoc _ _ Hin) as [pd Hpd].
  assert (Hname : bound_name (property_of descriptor key) = None).
  { unfold property_of, bound_name. rewrite Hpd.
    now rewrite (Hunbound key pd (assoc_In _ _ _ Hpd)). }
  cbn [process_keys]. unfold process_property.
  rewrite (prop_get_nonnil _ _ Nf), (prop_get_nonnil _ _ Nt). walk_simpl.
  rewrite Hname. reflexivity.
Qed.

Lemma unbound_descriptor_disables_diff_witness :
  diff sortBy_primitives (VObj [("cost", VNum 100)]) (VObj [("cost", VNum 200)])
    (MkTypeDescriptor "Car" [("cost", PropertyDescriptors.number)] None) []
  = (Ok [], ([] ++ [msg_need_name
                      (MkTypeDescriptor "Car" [("cost", PropertyDescriptors.number)]
                         None)])%list).
Proof.
  apply (unbound_descriptor_disables_diff sortBy_primitives
           (VObj [("cost", VNum 100)]) (VObj [("cost", VNum 200)])
           (MkTypeDescriptor "Car" [("cost", PropertyDescriptors.number)] None) []).
  - discriminate.
  - intros key pd [[= <- <-] | []]. reflexivity.
  - reflexivity.
  - reflexivity.
Defined.

(** X12.  [diff] reads the first described property of both values before
    anything else: when the descriptor has a property and one of the two
    values is [null] or [undefined], it raises a [TypeError] and logs
    nothing. *)
Theorem diff_of_nil_throws (sortByItems : list value -> list value)
    (from to : value) (descriptor : TypeDescriptor) (log : list string) :
  td_properties descriptor <> [] ->
  (isNil from || isNil to)%bool = true ->
  diff sortByItems from to descriptor log = (Throw TypeError, log).
Proof.
  intros Hne Hnil. unfold diff. simpl _processChanges.
  assert (Hk : Object_keys (td_properties descriptor) <> []).
  { unfold Object_keys. destruct (td_properties descriptor); [contradiction|].
    discriminate. }
  pose proof (sortBy_nonempty _ Hk) as Hs.
  destruct (sortBy (Object_keys (td_properties descriptor))) as [|key rest];
    [contradiction|].
  cbn [process_keys]. unfold process_property, prop_get.
  destruct (isNil from); [reflexivity|].
  simpl in Hnil. rewrite Hnil. reflexivity.
Qed.

Lemma diff_of_nil_throws_witness :
  diff sortBy_primitives ObjectDiffExample.from VUndefined
    CarTypeDescriptorRegistry.automobileCollection []
  = (Throw TypeError, []).
Proof.
  apply (diff_of_nil_throws sortBy_primitives ObjectDiffExample.from VUndefined
           CarTypeDescriptorRegistry.automobileCollection []).
  - discriminate.
  - reflexivity.
Defined.

(** ** What the walk writes *)

Lemma existsb_eqb_In (k : string) (l : list string) :
  existsb (String.eqb k) l = true <-> In k l.
Proof.
  rewrite existsb_exists. split.
  - intros [y [Hy E]]. apply String.eqb_eq in E. now subst.
  - intros H. exists k. split; [assumption | apply String.eqb_refl].
Qed.

Lemma add_key_In (k : string) (l : list string) : In k l -> add_key k l = l.
Proof.
  intros H. unfold add_key. apply existsb_eqb_In in H. now rewrite H.
Qed.

Lemma add_key_fresh (k : string) (l : list string) :
  ~ In k l -> add_key k l = (l ++ [k])%list.
Proof.
  intros H. unfold add_key.
  destruct (existsb (String.eqb k) l) eqn:E; [|reflexivity].
  apply existsb_eqb_In in E. contradiction.
Qed.

Lemma add_key_idem (k : string) (l : list string) :
  add_key k (add_key k l) = add_key k l.
Proof.
  apply add_key_In. unfold add_key.
  destruct (existsb (String.eqb k) l) eqn:E.
  - now apply existsb_eqb_In.
  - apply in_or_app. right. now left.
Qed.

Lemma assoc_set_Object_keys {A} (k : string) (v : A) (cr : list (string * A)) :
  Object_keys (assoc_set k v cr) = add_key k (Object_keys cr).
Proof.
  unfold Object_keys, add_key.
  induction cr as [|[k' v'] cr IH]; simpl; [reflexivity|].
  destruct (String.eqb k k'); simpl; [reflexivity|].
  rewrite IH. destruct (existsb (String.eqb k) (map fst cr)); reflexivity.
Qed.

Lemma touches_refl (name : string) (cr : ChangeResult) : touches name cr cr.
Proof. split; [reflexivity | now left]. Qed.

Lemma touches_trans (name : string) (cr1 cr2 cr3 : ChangeResult) :
  touches name cr1 cr2 -> touches name cr2 cr3 -> touches name cr1 cr3.
Proof.
  intros [A1 K1] [A2 K2]. split.
  - intros k Hk. now rewrite (A2 k Hk), (A1 k Hk).
  - destruct K1 as [K1 | K1], K2 as [K2 | K2]; rewrite K2, K1;
      rewrite ?add_key_idem; tauto.
Qed.

Lemma touches_assoc_set (name : string) (v : value) (cr : ChangeResult) :
  touches name cr (assoc_set name v cr).
Proof.
  split.
  - intros k Hk. rewrite assoc_set_lookup.
    destruct (String.eqb_spec k name); [contradiction | reflexivity].
  - right. apply assoc_set_Object_keys.
Qed.

Lemma touches_push_item (name : string) (item : value) (cr : ChangeResult) :
  touches name cr (push_item cr name item).
Proof.
  unfold push_item.
  assert (T1 : touches name cr
                 (if entry_missing cr name
                  then assoc_set name (VArr []) cr else cr)).
  { destruct (entry_missing cr name);
      [apply touches_assoc_set | apply touches_refl]. }
  set (cr1 := if entry_missing cr name then assoc_set name (VArr []) cr else cr)
    in *.
  apply (touches_trans name cr cr1); [assumption|].
  destruct (assoc name cr1) as [[| | | | |l|]|];
    try apply touches_refl. apply touches_assoc_set.
Qed.

Section FrameWalk.
Variable sortByItems : list value -> list value.
Variable self :
  ChangeResult -> value -> value -> value -> value -> TypeDescriptor ->
  M ChangeResult.
Variables fromRoot toRoot : value.

Lemma matched_pairs_touches (name : string) (pks : list string)
    (td : TypeDescriptor) (pairs : list InBoth) :
  forall cr cr' log log',
    matched_pairs self fromRoot toRoot name pks td pairs cr log = (Ok cr', log') ->
    touches name cr cr'.
Proof.
  induction pairs as [|p pairs IH]; intros cr cr' log log'; simpl.
  - intros [= <- _]. apply touches_refl.
  - intros H. apply bind_ok_inv in H. destruct H as [icr [log1 [_ H]]].
    destruct (Nat.ltb 0 (size icr)); [|now apply IH in H].
    apply bind_ok_inv in H. destruct H as [final [log2 [_ H]]].
    apply IH in H.
    apply (touches_trans name cr (push_item cr name (VObj final)));
      [apply touches_push_item | assumption].
Qed.

Lemma emit_unmatched_touches (cr cr' : ChangeResult) (name : string)
    (td : TypeDescriptor) (removedItems addedItems : list value)
    (log log' : list string) :
  emit_unmatched fromRoot toRoot cr name td removedItems addedItems log
  = (Ok cr', log') ->
  touches name cr cr'.
Proof.
  unfold emit_unmatched.
  assert (S : (if entry_missing cr name
               then
                 removedEntries <-
                   snapshot_entries removed_marker fromRoot td removedItems ;;
                 addedEntries <-
                   snapshot_entries added_marker toRoot td addedItems ;;
                 ret (assoc_set name (VArr (removedEntries ++ addedEntries)) cr)
               else ret cr) log = (Ok cr', log') -> touches name cr cr').
  { destruct (entry_missing cr name).
    - intros H. apply bind_ok_inv in H. destruct H as [rs [log1 [_ H]]].
      apply bind_ok_inv in H. destruct H as [xs [log2 [_ H]]].
      injection H as <- _. apply touches_assoc_set.
    - intros [= <- _]. apply touches_refl. }
  destruct removedItems, addedItems; try exact S.
  intros [= <- _]. apply touches_refl.
Qed.

Lemma complex_arrays_touches (cr cr' : ChangeResult) (name : string)
    (pks : list string) (td : TypeDescriptor) (xs ys : list value)
    (log log' : list string) :
  complex_arrays self fromRoot toRoot cr name pks td xs ys log = (Ok cr', log') ->
  touches name cr cr'.
Proof.
  unfold complex_arrays. intros H.
  apply bind_ok_inv in H. destruct H as [c [log1 [_ H]]].
  apply bind_ok_inv in H. destruct H as [cr1 [log2 [H1 H2]]].
  apply emit_unmatched_touches in H1. apply matched_pairs_touches in H2.
  exact (touches_trans _ _ _ _ H1 H2).
Qed.

Variable descriptor : TypeDescriptor.
Hypothesis WB : well_bound descriptor = true.

(** One iteration of the loop either leaves the method, the result being
    what it was, or goes on with a result in which only the entry of the
    property at hand may have changed; for a primitive property that entry
    is determined by the two values. *)
Lemma process_property_frame (x y : value) (key : string) (cr : ChangeResult)
    (step : ChangeResult + ChangeResult) (log log' : list string) :
  In key (Object_keys (td_properties descriptor)) ->
  process_property sortByItems self fromRoot toRoot descriptor x y key cr log
  = (Ok step, log') ->
  isNil x = false /\ isNil y = false /\
  ((step = inl cr /\ keyed descriptor = false) \/
   exists cr',
     step = inr cr' /\ touches key cr cr' /\
     (pd_type (property_of descriptor key) <> TComplex ->
      assoc key cr'
      = match primitive_entry sortByItems (field x key) (field y key) with
        | Some v => Some v
        | None => assoc key cr
        end)).
Proof.
  intros Hk.
  destruct (property_of_bound _ _ WB Hk) as [Hin [Hname Hcomplex]].
  unfold process_property, prop_get.
  destruct (isNil x); [discriminate|]. destruct (isNil y); [discriminate|].
  walk_simpl. rewrite Hname. intros H.
  split; [reflexivity|]. split; [reflexivity|]. revert H.
  destruct (pd_type (property_of descriptor key)) eqn:Hty.
  1-3: (cbv iota; walk_simpl; intros H; right;
        assert (P : (Ok step, log')
                    = (Ok (inr match primitive_entry sortByItems (field x key)
                                       (field y key) with
                               | Some v => assoc_set key v cr
                               | None => cr
                               end), log));
        [ rewrite <- H; unfold primitive_entry;
          destruct (field x key), (field y key);
          try (destruct (isEqual _ _); reflexivity);
          rewrite primitive_arrays_only_in;
          destruct (set_markers sortByItems _ _); reflexivity
        | injection P as -> _;
          eexists; split; [reflexivity|]; split;
          [ destruct (primitive_entry sortByItems (field x key) (field y key));
            [apply touches_assoc_set | apply touches_refl]
          | intros _;
            destruct (primitive_entry sortByItems (field x key) (field y key));
            [now rewrite assoc_set_lookup, String.eqb_refl | reflexivity] ] ]).
  destruct (Hcomplex eq_refl) as [td [Htd WBtd]]. rewrite Htd.
  destruct (_toArray (td_primaryKey td)) as [pks|] eqn:Hpks; cbv iota; intros H.
  - right.
    assert (P : exists cr', step = inr cr' /\ touches key cr cr').
    { destruct (field x key) as [| | | | |xs|], (field y key) as [| | | | |ys|];
        simpl in H;
        try discriminate;
        try (injection H as <- _; eexists; split;
             [reflexivity | apply touches_refl]).
      apply bind_ok_inv in H. destruct H as [c [log1 [H1 H2]]].
      injection H2 as <- _. exists c. split; [reflexivity|].
      exact (complex_arrays_touches _ _ _ _ _ _ _ _ _ H1). }
    destruct P as [cr' [E T]]. exists cr'. split; [assumption|].
    split; [assumption|]. intros N. now contradiction N.
  - left. injection H as <- _. split; [reflexivity|].
    destruct (keyed descriptor) eqn:KD; [|reflexivity].
    destruct (keyed_property _ _ _ _ KD Hin Hty Htd) as [[pks Hp] _]. congruence.
Qed.

Lemma subseq_nil_l (l : list string) : subseq [] l.
Proof. induction l; constructor; assumption. Qed.

(** The loop over the sorted keys. *)
Lemma process_keys_frame (x y : value) (keys : list string) :
  NoDup keys ->
  (forall k, In k keys -> In k (Object_keys (td_properties descriptor))) ->
  forall cr cr' log log',
    process_keys sortByItems self fromRoot toRoot descriptor x y keys cr log
    = (Ok cr', log') ->
    (forall k, ~ In k keys -> assoc k cr' = assoc k cr) /\
    ((forall k, In k keys -> ~ In k (Object_keys cr)) ->
     exists sub, Object_keys cr' = (Object_keys cr ++ sub)%list /\ subseq sub keys) /\
    (keyed descriptor = true ->
     forall k, In k keys -> pd_type (property_of descriptor k) <> TComplex ->
       isNil x = false /\ isNil y = false /\
       assoc k cr'
       = match primitive_entry sortByItems (field x k) (field y k) with
         | Some v => Some v
         | None => assoc k cr
         end).
Proof.
  induction keys as [|key rest IH]; intros ND Hkeys cr cr' log log'.
  - simpl. intros [= <- _]. split; [reflexivity|]. split.
    + intros _. exists []. split; [now rewrite app_nil_r | constructor].
    + intros _ k [].
  - inversion ND as [|? ? Hnotin ND']; subst.
    assert (Hrest : forall k, In k rest ->
                      In k (Object_keys (td_properties descriptor)))
      by (intros k Hk; apply Hkeys; now right).
    cbn [process_keys]. intros H.
    apply bind_ok_inv in H. destruct H as [step [log1 [H1 H2]]].
    destruct (process_property_frame _ _ _ _ _ _ _ (Hkeys key (or_introl eq_refl)) H1)
      as [Nx [Ny [[-> KDf] | [cr1 [-> [[A1 K1] P1]]]]]].
    + injection H2 as <- _. split; [reflexivity|]. split.
      * intros _. exists []. split; [now rewrite app_nil_r | apply subseq_nil_l].
      * intros KD. congruence.
    + destruct (IH ND' Hrest _ _ _ _ H2) as [A2 [K2 P2]]. split; [|split].
      * intros k Hk. rewrite A2 by (intros Hin; apply Hk; now right).
        apply A1. intros ->. apply Hk. now left.
      * intros Hfresh.
        assert (Hkey : ~ In key (Object_keys cr)) by (apply Hfresh; now left).
        rewrite (add_key_fresh _ _ Hkey) in K1.
        destruct K2 as [sub [E S]].
        { intros k Hk Hin. destruct K1 as [K1 | K1]; rewrite K1 in Hin.
          - apply (Hfresh k); [now right | assumption].
          - apply in_app_or in Hin. destruct Hin as [Hin | [<- | []]].
            + apply (Hfresh k); [now right | assumption].
            + contradiction. }
        destruct K1 as [K1 | K1]; rewrite K1 in E.
        -- exists sub. split; [assumption | now constructor].
        -- exists (key :: sub). split; [now rewrite <- app_assoc in E|].
           now constructor.
      * intros KD k Hk Hty. split; [assumption|]. split; [assumption|].
        destruct Hk as [<- | Hk].
        -- rewrite (A2 key Hnotin). now apply P1.
        -- destruct (P2 KD k Hk Hty) as [_ [_ E]]. rewrite E.
           rewrite A1; [reflexivity|]. intros ->. contradiction.
Qed.
End FrameWalk.

Lemma sorted_keys_NoDup (d : TypeDescriptor) :
  well_bound d = true -> NoDup (sortBy (Object_keys (td_properties d))).
Proof.
  intros WB. eapply Permutation_NoDup; [apply sortBy_perm|].
  now apply well_bound_keys.
Qed.

(** X13.  With a fully configured descriptor, whenever [diff] returns, the
    entry of every primitive property is a function of the property's two
    values alone: for two arrays, the removed and added markers of the
    items without an equal text on the other side, when there are any;
    otherwise a marker holding the two values, unless lodash [isEqual]
    finds them deeply equal, in which case the property has no entry.  No
    sibling interferes. *)
Theorem primitive_property_entry (sortByItems : list value -> list value)
    (from to : value) (descriptor : TypeDescriptor) (log : list string)
    (cr : ChangeResult) (name : string) :
  well_bound descriptor = true -> keyed descriptor = true ->
  fst (diff sortByItems from to descriptor log) = Ok cr ->
  In name (Object_keys (td_properties descriptor)) ->
  pd_type (property_of descriptor name) <> TComplex ->
  assoc name cr
  = primitive_entry sortByItems (field from name) (field to name).
Proof.
  intros WB KD Hrun Hname Hty.
  apply fst_ok_run in Hrun. destruct Hrun as [log' Hrun].
  unfold diff in Hrun. simpl _processChanges in Hrun.
  destruct (process_keys_frame sortByItems _ from to descriptor WB from to
              (sortBy (Object_keys (td_properties descriptor)))
              (sorted_keys_NoDup _ WB)
              (fun k Hk => proj1 (sortBy_In _ _) Hk)
              _ _ _ _ Hrun) as [_ [_ P]].
  destruct (P KD name (proj2 (sortBy_In _ _) Hname) Hty) as [_ [_ E]].
  rewrite E. now destruct (primitive_entry sortByItems _ _).
Qed.

Lemma primitive_property_entry_witness :
  assoc "cost" [("cost", VObj [(removed_marker, VNum 100); (added_marker, VNum 200)])]
  = primitive_entry sortBy_primitives
      (field (VObj [("cost", VNum 100); ("tags", VArr [VStr "a"])]) "cost")
      (field (VObj [("cost", VNum 200); ("tags", VArr [VStr "a"])]) "cost").
Proof.
  apply (primitive_property_entry sortBy_primitives
           (VObj [("cost", VNum 100); ("tags", VArr [VStr "a"])])
           (VObj [("cost", VNum 200); ("tags", VArr [VStr "a"])])
           CarTypeDescriptorRegistry.automobileFeature []
           [("cost", VObj [(removed_marker, VNum 100); (added_marker, VNum 200)])]
           "cost").
  - reflexivity.
  - reflexivity.
  - reflexivity.
  - simpl. tauto.
  - discriminate.
Defined.

Lemma subseq_In (s l : list string) (k : string) :
  subseq s l -> In k s -> In k l.
Proof.
  induction 1 as [|x s l _ IH|x s l _ IH]; simpl; [tauto| |]; intros H.
  - right. now apply IH.
  - destruct H as [H | H]; [now left | right; now apply IH].
Qed.

(** A record none of whose keys is an array index lists its keys in
    insertion order. *)
Lemma own_keys_insertion_order {A} (fs : list (string * A)) :
  (forall k, In k (Object_keys fs) -> array_index k = None) ->
  own_keys fs = Object_keys fs.
Proof.
  unfold own_keys, Object_keys. generalize (map fst fs). clear fs.
  intros keys H.
  assert (E1 : fold_right (fun k acc => match array_index k with
                                        | Some n => insert_index n k acc
                                        | None => acc
                                        end) [] keys = []).
  { induction keys as [|k keys IH]; simpl; [reflexivity|].
    rewrite (H k (or_introl eq_refl)). apply IH.
    intros k' Hk'. apply H. now right. }
  rewrite E1. simpl. clear E1.
  induction keys as [|k keys IH]; simpl; [reflexivity|].
  rewrite (H k (or_introl eq_refl)). f_equal. apply IH.
  intros k' Hk'. apply H. now right.
Qed.

Lemma diff_keys_subseq (sortByItems : list value -> list value)
    (from to : value) (descriptor : TypeDescriptor) (log : list string)
    (cr : ChangeResult) :
  well_bound descriptor = true ->
  fst (diff sortByItems from to descriptor log) = Ok cr ->
  subseq (Object_keys cr) (sortBy (Object_keys (td_properties descriptor))).
Proof.
  intros WB Hrun.
  apply fst_ok_run in Hrun. destruct Hrun as [log' Hrun].
  unfold diff in Hrun. simpl _processChanges in Hrun.
  destruct (process_keys_frame sortByItems _ from to descriptor WB from to
              (sortBy (Object_keys (td_properties descriptor)))
              (sorted_keys_NoDup _ WB)
              (fun k Hk => proj1 (sortBy_In _ _) Hk)
              _ _ _ _ Hrun) as [_ [K _]].
  destruct K as [sub [E S]]; [intros k _ []|].
  simpl in E. now rewrite E.
Qed.

(** X14.  Whenever [diff] returns, with a descriptor built by
    [TypeDescriptors.create] none of whose property names is an array
    index, the keys of the result, in the order JavaScript lists them, are
    some of the descriptor's property names, each at most once, in
    ascending order: the result lists the changed properties
    alphabetically, whatever the order of the properties in the descriptor
    or in the two values. *)
Theorem diff_keys_sorted (sortByItems : list value -> list value)
    (from to : value) (descriptor : TypeDescriptor) (log : list string)
    (cr : ChangeResult) :
  well_bound descriptor = true ->
  (forall k, In k (Object_keys (td_properties descriptor)) ->
             array_index k = None) ->
  fst (diff sortByItems from to descriptor log) = Ok cr ->
  subseq (own_keys cr) (sortBy (Object_keys (td_properties descriptor))).
Proof.
  intros WB Hnames Hrun.
  pose proof (diff_keys_subseq _ _ _ _ _ _ WB Hrun) as S.
  rewrite own_keys_insertion_order; [exact S|].
  intros k Hk. apply Hnames. apply sortBy_In.
  exact (subseq_In _ _ _ S Hk).
Qed.

Lemma diff_keys_sorted_witness :
  subseq (own_keys ExpectedExample.changes)
    (sortBy (Object_keys
               (td_properties CarTypeDescriptorRegistry.automobileCollection))).
Proof.
  apply (diff_keys_sorted sortBy_primitives ObjectDiffExample.from
           ObjectDiffExample.to CarTypeDescriptorRegistry.automobileCollection []
           ExpectedExample.changes); try reflexivity.
  intros k [<- | [<- | []]]; reflexivity.
Defined.

(** ** What the projector writes *)

Section FrameProjector.
Variable self :
  list (string * value) -> value -> value -> TypeDescriptor ->
  M (list (string * value)).
Variable descriptor : TypeDescriptor.
Hypothesis WB : well_bound descriptor = true.

(** One iteration of the projector's loop, when the loop returns a record:
    the loop goes on from a record in which only the entry of the property
    at hand may have been written. *)
Lemma transform_keys_step (root property : value) (key : string)
    (rest : list string) (result s : list (string * value))
    (log log' : list string) :
  In key (Object_keys (td_properties descriptor)) ->
  transform_keys self root property descriptor (key :: rest) result log
  = (Ok s, log') ->
  exists result1 log1,
    transform_keys self root property descriptor rest result1 log1 = (Ok s, log') /\
    touches key result result1.
Proof.
  intros Hk.
  destruct (property_of_bound _ _ WB Hk) as [_ [Hname Hcomplex]].
  cbn [transform_keys]. rewrite Hname. intros H.
  apply bind_ok_inv in H. destruct H as [v [log1 [_ H]]].
  destruct (pd_type (property_of descriptor key)) eqn:Hty.
  1-3: (apply bind_ok_inv in H; destruct H as [w [log2 [_ H]]];
        eexists; exists log2; split; [exact H|];
        destruct (negb (isNil w));
        [apply touches_assoc_set | apply touches_refl]).
  destruct (Hcomplex eq_refl) as [td [Htd _]]. rewrite Htd in H.
  destruct v as [| | | | |items|]; simpl in H; try discriminate;
    try (eexists; exists log1; split; [exact H | apply touches_refl]).
  apply bind_ok_inv in H. destruct H as [rendered [log2 [_ H]]].
  eexists. exists log2. split; [exact H|].
  destruct rendered; [apply touches_refl | apply touches_assoc_set].
Qed.

Lemma transform_keys_subseq (root property : value) (keys : list string) :
  NoDup keys ->
  (forall k, In k keys -> In k (Object_keys (td_properties descriptor))) ->
  forall result s log log',
    transform_keys self root property descriptor keys result log = (Ok s, log') ->
    (forall k, In k keys -> ~ In k (Object_keys result)) ->
    exists sub, Object_keys s = (Object_keys result ++ sub)%list /\ subseq sub keys.
Proof.
  induction keys as [|key rest IH]; intros ND Hkeys result s log log' H Hfresh.
  - simpl in H. injection H as <- _. exists []. split;
      [now rewrite app_nil_r | constructor].
  - inversion ND as [|? ? Hnotin ND']; subst.
    destruct (transform_keys_step _ _ _ _ _ _ _ _ (Hkeys key (or_introl eq_refl)) H)
      as [result1 [log1 [H1 [_ K1]]]].
    assert (Hkey : ~ In key (Object_keys result)) by (apply Hfresh; now left).
    rewrite (add_key_fresh _ _ Hkey) in K1.
    destruct (IH ND' (fun k Hk => Hkeys k (or_intror Hk)) _ _ _ _ H1)
      as [sub [E S]].
    { intros k Hk Hin. destruct K1 as [K1 | K1]; rewrite K1 in Hin.
      - apply (Hfresh k); [now right | assumption].
      - apply in_app_or in Hin. destruct Hin as [Hin | [<- | []]].
        + apply (Hfresh k); [now right | assumption].
        + contradiction. }
    destruct K1 as [K1 | K1]; rewrite K1 in E.
    + exists sub. split; [assumption | now constructor].
    + exists (key :: sub). split; [now rewrite <- app_assoc in E|].
      now constructor.
Qed.
End FrameProjector.

(** X15.  Whenever the snapshot projector returns, with a descriptor built
    by [TypeDescriptors.create] none of whose property names is an array
    index, the keys of the snapshot, in the order JavaScript lists them,
    are some of the descriptor's property names, each at most once, in
    ascending order: a snapshot lists its properties alphabetically,
    whatever their order in the element or in the descriptor. *)
Theorem snapshot_keys_sorted (root item : value) (descriptor : TypeDescriptor)
    (log : list string) (snap : list (string * value)) :
  well_bound descriptor = true ->
  (forall k, In k (Object_keys (td_properties descriptor)) ->
             array_index k = None) ->
  fst (snapshot root item descriptor log) = Ok snap ->
  subseq (own_keys snap) (sortBy (Object_keys (td_properties descriptor))).
Proof.
  intros WB Hnames Hrun.
  apply fst_ok_run in Hrun. destruct Hrun as [log' Hrun].
  unfold snapshot in Hrun. simpl _processComplexTypeTransformations in Hrun.
  destruct (transform_keys_subseq _ descriptor WB root item
              (sortBy (Object_keys (td_properties descriptor)))
              (sorted_keys_NoDup _ WB)
              (fun k Hk => proj1 (sortBy_In _ _) Hk)
              _ _ _ _ Hrun) as [sub [E S]]; [intros k _ []|].
  simpl in E. rewrite <- E in S.
  rewrite own_keys_insertion_order; [exact S|].
  intros k Hk. apply Hnames. apply sortBy_In.
  exact (subseq_In _ _ _ S Hk).
Qed.

Lemma snapshot_keys_sorted_witness :
  subseq
    (own_keys
       [("cost", VNum 2000); ("id", VStr "feature_1");
        ("name", VStr "Power Windows"); ("optional", VBool true);
        ("tags", VArr [VStr "tag_1"])])
    (sortBy (Object_keys (td_properties CarTypeDescriptorRegistry.automobileFeature))).
Proof.
  apply (snapshot_keys_sorted VUndefined ObjectDiffExample.feature_1
           CarTypeDescriptorRegistry.automobileFeature []
           [("cost", VNum 2000); ("id", VStr "feature_1");
            ("name", VStr "Power Windows"); ("optional", VBool true);
            ("tags", VArr [VStr "tag_1"])]); try reflexivity.
  intros k [<- | [<- | [<- | [<- | [<- | []]]]]]; reflexivity.
Defined.

(** ** The record of a matched pair *)

Lemma primaryKey_fields_lookup (item : value) (pks : list string) :
  isNil item = false ->
  forall acc,
  exists keyed,
    primaryKey_fields item pks acc = Ok keyed /\
    forall k, assoc k keyed
              = if existsb (String.eqb k) pks then Some (field item k)
                else assoc k acc.
Proof.
  intros Hnil. induction pks as [|pk pks IH]; intros acc; simpl.
  - now exists acc.
  - rewrite (prop_get_nonnil _ _ Hnil). simpl.
    destruct (IH (assoc_set pk (field item pk) acc)) as [keyed [E L]].
    exists keyed. split; [assumption|]. intros k. rewrite L.
    rewrite assoc_set_lookup.
    destruct (String.eqb_spec k pk) as [-> | _]; simpl;
      destruct (existsb _ pks); reflexivity.
Qed.

Lemma merge_lookup (changes : ChangeResult) :
  NoDup (Object_keys changes) ->
  forall keyed k,
    assoc k (fold_left (fun acc kv => assoc_set (fst kv) (snd kv) acc)
               changes keyed)
    = match assoc k changes with
      | Some v => Some v
      | None => assoc k keyed
      end.
Proof.
  induction changes as [|[k0 v0] changes IH]; intros ND keyed k; simpl;
    [reflexivity|].
  inversion ND as [|? ? Hn ND']; subst.
  rewrite (IH ND'). rewrite assoc_set_lookup.
  destruct (String.eqb_spec k k0) as [-> | _]; [|reflexivity].
  assert (E : assoc k0 changes = None) by now apply assoc_None_keys.
  now rewrite E.
Qed.

(** X16.  The record emitted for a matched pair: a field is looked up first
    among the changed sub-properties, then among the primary keys, whose
    values are read from the [from] element.  So a changed sub-property
    that is also a primary key shows its change marker in place of the key
    value, and a primary key that the [from] element lacks is present with
    the value [undefined]. *)
Theorem matched_record_fields (pks : list string) (change : InBoth)
    (itemChangeResult : ChangeResult) :
  isNil (from change) = false ->
  NoDup (Object_keys itemChangeResult) ->
  exists final,
    itemChangeResultFinal pks change itemChangeResult = Ok final /\
    forall k,
      assoc k final
      = match assoc k itemChangeResult with
        | Some v => Some v
        | None => if existsb (String.eqb k) pks
                  then Some (field (from change) k) else None
        end.
Proof.
  intros Hnil ND. unfold itemChangeResultFinal.
  destruct (primaryKey_fields_lookup _ pks Hnil []) as [keyed [E L]].
  rewrite E. simpl. eexists. split; [reflexivity|].
  intros k. rewrite (merge_lookup _ ND). now rewrite L.
Qed.

Lemma matched_record_fields_witness :
  exists final,
    itemChangeResultFinal ["id"]
      (MkInBoth "id:a;" ReconcileExample.a2 ReconcileExample.a1)
      [("id", VObj [(removed_marker, VStr "A"); (added_marker, VStr "a")])]
    = Ok final /\
    forall k,
      assoc k final
      = match assoc k
                [("id", VObj [(removed_marker, VStr "A"); (added_marker, VStr "a")])]
        with
        | Some v => Some v
        | None => if existsb (String.eqb k) ["id"]
                  then Some (field
                               (from (MkInBoth "id:a;" ReconcileExample.a2
                                        ReconcileExample.a1)) k)
                  else None
        end.
Proof.
  apply (matched_record_fields ["id"]
           (MkInBoth "id:a;" ReconcileExample.a2 ReconcileExample.a1)
           [("id", VObj [(removed_marker, VStr "A"); (added_marker, VStr "a")])]).
  - reflexivity.
  - repeat constructor. simpl. tauto.
Defined.

(** ** [TypeDescriptors.create] *)

Lemma create_keys (config : TypeDescriptor) :
  Object_keys (td_properties (TypeDescriptors.create config))
  = Object_keys (td_properties config).
Proof.
  unfold TypeDescriptors.create, Object_keys. simpl. rewrite map_map.
  apply map_ext. intros [k pd]. reflexivity.
Qed.

Lemma rename_rename (pd : PropertyDescriptor) (k1 k2 : string) :
  InPlace.rename (InPlace.rename pd k1) k2 = InPlace.rename pd k2.
Proof. reflexivity. Qed.

Lemma set_name_length (heap : InPlace.Heap) (ref : nat) (key : string) :
  List.length (InPlace.set_name heap ref key) = List.length heap.
Proof.
  revert ref. induction heap as [|pd heap IH]; intros [|ref]; simpl;
    try reflexivity. now rewrite IH.
Qed.

Lemma set_name_deref (heap : InPlace.Heap) (ref r : nat) (key : string) :
  (ref < List.length heap)%nat ->
  InPlace.deref (InPlace.set_name heap ref key) r
  = if Nat.eqb ref r then InPlace.rename (InPlace.deref heap r) key
    else InPlace.deref heap r.
Proof.
  unfold InPlace.deref. revert ref r.
  induction heap as [|pd heap IH]; intros ref r Hlt; simpl in Hlt; [lia|].
  destruct ref as [|ref], r as [|r]; simpl; try reflexivity.
  apply IH. lia.
Qed.

Lemma last_key_acc (ref : nat) (properties : list (string * nat))
    (acc : option string) :
  fold_left (fun acc kp => if Nat.eqb (snd kp) ref then Some (fst kp) else acc)
    properties acc
  = match InPlace.last_key ref properties with
    | Some k => Some k
    | None => acc
    end.
Proof.
  unfold InPlace.last_key. revert acc.
  induction properties as [|[k r] properties IH]; intros acc; simpl;
    [reflexivity|].
  rewrite IH. rewrite (IH (if Nat.eqb r ref then Some k else None)).
  destruct (fold_left _ properties None); [reflexivity|].
  destruct (Nat.eqb r ref); reflexivity.
Qed.

(** After [create], an object carries the last key that refers to it, and
    is otherwise what it was. *)
Lemma create_deref (properties : list (string * nat)) :
  forall (heap : InPlace.Heap) (r : nat),
    (forall key ref, In (key, ref) properties -> (ref < List.length heap)%nat) ->
    InPlace.deref (InPlace.create properties heap) r
    = match InPlace.last_key r properties with
      | Some k => InPlace.rename (InPlace.deref heap r) k
      | None => InPlace.deref heap r
      end.
Proof.
  induction properties as [|[k0 r0] properties IH]; intros heap r Hvalid;
    [reflexivity|].
  change (InPlace.create ((k0, r0) :: properties) heap)
    with (InPlace.create properties (InPlace.set_name heap r0 k0)).
  rewrite IH.
  - unfold InPlace.last_key at 2. simpl fold_left. rewrite last_key_acc.
    rewrite set_name_deref by (apply (Hvalid k0); now left).
    destruct (InPlace.last_key r properties) as [k|];
      destruct (Nat.eqb r0 r); reflexivity.
  - intros key ref Hin. rewrite set_name_length. apply (Hvalid key). now right.
Qed.

Lemma last_key_fold_Some (ref : nat) (l : string) (ps : list (string * nat)) :
  forall acc,
    fold_left (fun acc kp => if Nat.eqb (snd kp) ref then Some (fst kp) else acc)
      ps acc = Some l ->
    acc = Some l \/ In (l, ref) ps.
Proof.
  induction ps as [|[k r] ps IH]; intros acc; simpl; [now left|].
  intros H. apply IH in H. destruct H as [H | H]; [|right; now right].
  destruct (Nat.eqb_spec r ref) as [-> | _].
  - injection H as ->. right. now left.
  - now left.
Qed.

Lemma last_key_fold_None (ref : nat) (ps : list (string * nat)) :
  forall acc,
    fold_left (fun acc kp => if Nat.eqb (snd kp) ref then Some (fst kp) else acc)
      ps acc = None ->
    forall k, ~ In (k, ref) ps.
Proof.
  induction ps as [|[k r] ps IH]; intros acc; simpl; [tauto|].
  intros H k' [[= -> ->] | Hin].
  - rewrite Nat.eqb_refl in H. rewrite last_key_acc in H.
    destruct (InPlace.last_key ref ps); discriminate.
  - exact (IH _ H k' Hin).
Qed.

Lemma last_key_In (ref : nat) (properties : list (string * nat)) (key : string) :
  In (key, ref) properties ->
  exists last, InPlace.last_key ref properties = Some last /\
               In (last, ref) properties.
Proof.
  intros Hin. destruct (InPlace.last_key ref properties) as [l|] eqn:E.
  - exists l. split; [reflexivity|].
    destruct (last_key_fold_Some _ _ _ _ E) as [H | H];
      [discriminate | assumption].
  - exfalso. exact (last_key_fold_None _ _ _ E key Hin).
Qed.

Lemma last_key_unshared (ref : nat) (properties : list (string * nat))
    (key : string) :
  NoDup (map snd properties) -> In (key, ref) properties ->
  InPlace.last_key ref properties = Some key.
Proof.
  induction properties as [|[k r] properties IH]; intros ND Hin; [destruct Hin|].
  inversion ND as [|? ? Hn ND']; subst.
  unfold InPlace.last_key. simpl fold_left. rewrite last_key_acc.
  destruct Hin as [[= -> ->] | Hin].
  - rewrite Nat.eqb_refl.
    destruct (InPlace.last_key ref properties) as [l|] eqn:E; [|reflexivity].
    exfalso. apply Hn.
    destruct (last_key_fold_Some _ _ _ _ E) as [H | H]; [discriminate|].
    apply in_map_iff. now exists (l, ref).
  - rewrite (IH ND' Hin). reflexivity.
Qed.

Lemma create_length (properties : list (string * nat)) :
  forall heap : InPlace.Heap,
    List.length (InPlace.create properties heap) = List.length heap.
Proof.
  induction properties as [|[k r] properties IH]; intros heap; [reflexivity|].
  change (InPlace.create ((k, r) :: properties) heap)
    with (InPlace.create properties (InPlace.set_name heap r k)).
  now rewrite IH, set_name_length.
Qed.

Lemma last_key_cons (ref : nat) (k : string) (r : nat)
    (properties : list (string * nat)) :
  InPlace.last_key ref ((k, r) :: properties)
  = match InPlace.last_key ref properties with
    | Some l => Some l
    | None => if Nat.eqb r ref then Some k else None
    end.
Proof.
  unfold InPlace.last_key at 1. simpl fold_left. apply last_key_acc.
Qed.

(** When every key is the last key of the object it refers to, and the
    keys are distinct, no object is referred to twice. *)
Lemma last_key_own_unshared (properties : list (string * nat)) :
  NoDup (map fst properties) ->
  (forall key ref, In (key, ref) properties ->
     InPlace.last_key ref properties = Some key) ->
  NoDup (map snd properties).
Proof.
  induction properties as [|[k0 r0] properties IH]; intros ND H; simpl;
    [constructor|].
  inversion ND as [|? ? Hk ND']; subst. constructor.
  - intros Hin. apply in_map_iff in Hin. destruct Hin as [[k' r'] [E Hin]].
    simpl in E. subst r'.
    destruct (last_key_In _ _ _ Hin) as [l [El Hl]].
    pose proof (H k0 r0 (or_introl eq_refl)) as E0.
    rewrite last_key_cons, El in E0. injection E0 as ->.
    apply Hk. apply in_map_iff. now exists (k0, r0).
  - apply IH; [assumption|]. intros key ref Hin.
    destruct (last_key_In _ _ _ Hin) as [l [El Hl]].
    pose proof (H key ref (or_intror Hin)) as E.
    rewrite last_key_cons, El in E. now rewrite El.
Qed.

(** X17.  [TypeDescriptors.create], as the assignment to the property
    descriptor objects that it is: after it, every property descriptor of
    the map is named after its own key exactly when no object is referred
    to by two keys.  Running it a second time changes nothing, and it
    keeps the keys of the map and the objects of the heap in place. *)
Theorem create_binds_own_keys (properties : list (string * nat))
    (heap : InPlace.Heap) :
  NoDup (map fst properties) ->
  (forall key ref, In (key, ref) properties -> (ref < List.length heap)%nat) ->
  (bound_to_keys (InPlace.read (InPlace.create properties heap) properties) = true
   <-> NoDup (map snd properties))
  /\ InPlace.create properties (InPlace.create properties heap)
     = InPlace.create properties heap
  /\ Object_keys (InPlace.read (InPlace.create properties heap) properties)
     = map fst properties
  /\ List.length (InPlace.create properties heap) = List.length heap.
Proof.
  intros NDk Hvalid.
  assert (Hname : forall key ref, In (key, ref) properties ->
            pd_name (InPlace.deref (InPlace.create properties heap) ref)
            = InPlace.last_key ref properties).
  { intros key ref Hin. rewrite (create_deref _ _ _ Hvalid).
    destruct (last_key_In _ _ _ Hin) as [l [El _]]. now rewrite El. }
  split; [|split; [|split]].
  - unfold bound_to_keys, InPlace.read. rewrite forallb_forall. split.
    + intros H. apply last_key_own_unshared; [assumption|].
      intros key ref Hin.
      specialize (H (key, InPlace.deref (InPlace.create properties heap) ref)).
      simpl in H. rewrite (Hname key ref Hin) in H.
      destruct (InPlace.last_key ref properties) as [l|].
      * assert (E : String.eqb l key = true).
        { apply H. apply in_map_iff. now exists (key, ref). }
        apply String.eqb_eq in E. now subst.
      * assert (E : false = true).
        { apply H. apply in_map_iff. now exists (key, ref). }
        discriminate.
    + intros NDr [key pd] Hin. apply in_map_iff in Hin.
      destruct Hin as [[k r] [E Hin]]. simpl in E. injection E as <- <-.
      simpl. rewrite (Hname k r Hin), (last_key_unshared _ _ _ NDr Hin).
      apply String.eqb_refl.
  - apply (nth_ext _ _ (MkPropertyDescriptor TString None None)
             (MkPropertyDescriptor TString None None)).
    + now rewrite !create_length.
    + intros n _.
      change (InPlace.deref
                (InPlace.create properties (InPlace.create properties heap)) n
              = InPlace.deref (InPlace.create properties heap) n).
      rewrite (create_deref properties (InPlace.create properties heap)).
      * rewrite (create_deref _ _ _ Hvalid).
        destruct (InPlace.last_key n properties); reflexivity.
      * intros key ref Hin. rewrite create_length. exact (Hvalid key ref Hin).
  - unfold InPlace.read, Object_keys. rewrite map_map. reflexivity.
  - apply create_length.
Qed.

Lemma create_binds_own_keys_witness :
  (bound_to_keys
     (InPlace.read
        (InPlace.create [("cost", 1%nat); ("msrp", 0%nat)]
           [PropertyDescriptors.number; PropertyDescriptors.number])
        [("cost", 1%nat); ("msrp", 0%nat)]) = true
   <-> NoDup (map snd [("cost", 1%nat); ("msrp", 0%nat)]))
  /\ InPlace.create [("cost", 1%nat); ("msrp", 0%nat)]
       (InPlace.create [("cost", 1%nat); ("msrp", 0%nat)]
          [PropertyDescriptors.number; PropertyDescriptors.number])
     = InPlace.create [("cost", 1%nat); ("msrp", 0%nat)]
         [PropertyDescriptors.number; PropertyDescriptors.number]
  /\ Object_keys
       (InPlace.read
          (InPlace.create [("cost", 1%nat); ("msrp", 0%nat)]
             [PropertyDescriptors.number; PropertyDescriptors.number])
          [("cost", 1%nat); ("msrp", 0%nat)])
     = map fst [("cost", 1%nat); ("msrp", 0%nat)]
  /\ List.length
       (InPlace.create [("cost", 1%nat); ("msrp", 0%nat)]
          [PropertyDescriptors.number; PropertyDescriptors.number])
     = List.length [PropertyDescriptors.number; PropertyDescriptors.number].
Proof.
  apply (create_binds_own_keys [("cost", 1%nat); ("msrp", 0%nat)]
           [PropertyDescriptors.number; PropertyDescriptors.number]).
  - repeat constructor; simpl; intuition discriminate.
  - intros key ref [[= <- <-] | [[= <- <-] | []]]; simpl; lia.
Defined.

(** X18.  [TypeDescriptors.create] assigns names to the property
    descriptor objects themselves: an object that several keys refer to
    ends up named after the last of those keys, so the properties under
    the earlier keys are bound to a name that is not their own.  Type and
    nested descriptor are left as they were. *)
Theorem create_binds_last_key (properties : list (string * nat))
    (heap : InPlace.Heap) (key : string) (ref : nat) :
  (forall key ref, In (key, ref) properties -> (ref < List.length heap)%nat) ->
  In (key, ref) properties ->
  exists last,
    InPlace.last_key ref properties = Some last /\
    In (last, ref) properties /\
    InPlace.deref (InPlace.create properties heap) ref
    = InPlace.rename (InPlace.deref heap ref) last.
Proof.
  intros Hvalid Hin. destruct (last_key_In _ _ _ Hin) as [last [E Hlast]].
  exists last. split; [assumption|]. split; [assumption|].
  rewrite (create_deref _ _ _ Hvalid). now rewrite E.
Qed.

Lemma create_binds_last_key_witness :
  exists last,
    InPlace.last_key 0 [("cost", 0%nat); ("msrp", 0%nat)] = Some last /\
    In (last, 0%nat) [("cost", 0%nat); ("msrp", 0%nat)] /\
    InPlace.deref
      (InPlace.create [("cost", 0%nat); ("msrp", 0%nat)]
         [PropertyDescriptors.number]) 0
    = InPlace.rename (InPlace.deref [PropertyDescriptors.number] 0) last.
Proof.
  apply (create_binds_last_key [("cost", 0%nat); ("msrp", 0%nat)]
           [PropertyDescriptors.number] "cost" 0).
  - intros key ref [[= <- <-] | [[= <- <-] | []]]; simpl; lia.
  - now left.
Defined.

(** X19.  When every key of the property map refers to an object of its
    own, as with the factory calls of [PropertyDescriptors], the in-place
    assignment agrees with [TypeDescriptors.create] on descriptors taken
    as values: reading the property map after the assignment gives the
    properties of the created descriptor. *)
Theorem create_in_place_unshared (name : string)
    (properties : list (string * nat)) (heap : InPlace.Heap)
    (pk : option PrimaryKey) :
  NoDup (map snd properties) ->
  (forall key ref, In (key, ref) properties -> (ref < List.length heap)%nat) ->
  InPlace.read (InPlace.create properties heap) properties
  = td_properties
      (TypeDescriptors.create
         (MkTypeDescriptor name (InPlace.read heap properties) pk)).
Proof.
  intros ND Hvalid. unfold TypeDescriptors.create, InPlace.read. simpl.
  rewrite map_map. apply map_ext_in. intros [k r] Hin. simpl. f_equal.
  rewrite (create_deref _ _ _ Hvalid).
  now rewrite (last_key_unshared _ _ _ ND Hin).
Qed.

Lemma create_in_place_unshared_witness :
  InPlace.read
    (InPlace.create [("cost", 1%nat); ("msrp", 0%nat)]
       [PropertyDescriptors.number; PropertyDescriptors.number])
    [("cost", 1%nat); ("msrp", 0%nat)]
  = td_properties
      (TypeDescriptors.create
         (MkTypeDescriptor "Car"
            (InPlace.read [PropertyDescriptors.number; PropertyDescriptors.number]
               [("cost", 1%nat); ("msrp", 0%nat)])
            None)).
Proof.
  apply (create_in_place_unshared "Car" [("cost", 1%nat); ("msrp", 0%nat)]
           [PropertyDescriptors.number; PropertyDescriptors.number] None).
  - repeat constructor; simpl; intuition discriminate.
  - intros key ref [[= <- <-] | [[= <- <-] | []]]; simpl; lia.
Defined.

(** ** Projecting a snapshot *)

Lemma assoc_app {A} (k : string) (a b : list (string * A)) :
  assoc k (a ++ b)%list
  = match assoc k a with
    | Some v => Some v
    | None => assoc k b
    end.
Proof.
  induction a as [|[k' v'] a IH]; simpl; [reflexivity|].
  destruct (String.eqb k k'); [reflexivity | exact IH].
Qed.

Lemma Object_keys_app {A} (a b : list (string * A)) :
  Object_keys (a ++ b)%list = (Object_keys a ++ Object_keys b)%list.
Proof. unfold Object_keys. apply map_app. Qed.

Lemma write_entry_fresh (key : string) (c : option value)
    (result : list (string * value)) :
  ~ In key (Object_keys result) ->
  write_entry key c result
  = (result ++ match c with Some v => [(key, v)] | None => [] end)%list.
Proof.
  intros H. destruct c as [v|]; simpl; [|now rewrite app_nil_r].
  apply assoc_set_fresh. now apply assoc_None_keys.
Qed.

Section IdemProjector.
Variable self :
  list (string * value) -> value -> value -> TypeDescriptor ->
  M (list (string * value)).
Variable descriptor : TypeDescriptor.
Variable root : value.
Hypothesis WB : well_bound descriptor = true.
Hypothesis self_idem :
  forall td item r log,
    well_bound td = true ->
    fst (self [] root item td log) = Ok r ->
    forall log2, fst (self [] root (VObj r) td log2) = Ok r.

Lemma mapM_idem (td : TypeDescriptor) (items : list value) :
  well_bound td = true ->
  forall rendered log log',
    mapM (fun item => self [] root item td) items log = (Ok rendered, log') ->
    forall log2,
      fst (mapM (fun item => self [] root item td) (map VObj rendered) log2)
      = Ok rendered.
Proof.
  intros WBtd. induction items as [|x items IH]; intros rendered log log' H log2.
  - simpl in H. injection H as <- _. reflexivity.
  - simpl in H. apply bind_ok_inv in H. destruct H as [r [log1 [Hr H]]].
    apply bind_ok_inv in H. destruct H as [rs [log3 [Hrs H]]].
    injection H as <- _. simpl.
    apply bind_fst_const with (a := r).
    + apply (self_idem td x r log WBtd). now rewrite Hr.
    + intros log4. apply bind_fst_const with (a := rs);
        [exact (IH _ _ _ Hrs log4) | reflexivity].
Qed.

(** One iteration of the loop, and the same iteration replayed on a record
    that holds for this property what the iteration wrote. *)
Lemma transform_keys_replay (property : value) (key : string)
    (rest : list string) (result s : list (string * value))
    (log log' : list string) :
  In key (Object_keys (td_properties descriptor)) ->
  transform_keys self root property descriptor (key :: rest) result log
  = (Ok s, log') ->
  exists c log1,
    transform_keys self root property descriptor rest (write_entry key c result) log1
    = (Ok s, log') /\
    forall X result2 log2,
      is_record X = true ->
      field X key = match c with Some v => v | None => VUndefined end ->
      exists log3,
        fst (transform_keys self root X descriptor (key :: rest) result2 log2)
        = fst (transform_keys self root X descriptor rest
                 (write_entry key c result2) log3).
Proof.
  intros Hk.
  destruct (property_of_bound _ _ WB Hk) as [_ [Hname Hcomplex]].
  cbn [transform_keys]. rewrite Hname. intros H.
  apply bind_ok_inv in H. destruct H as [v [log1 [Hv H]]].
  assert (Nx : isNil property = false).
  { unfold lift, prop_get in Hv. destruct (isNil property); [discriminate|].
    reflexivity. }
  assert (Ev : v = field property key).
  { unfold lift in Hv. rewrite (prop_get_nonnil _ _ Nx) in Hv. congruence. }
  destruct (pd_type (property_of descriptor key)) eqn:Hty.
  1-3: (rewrite (prop_get_nonnil _ _ Nx) in H; rewrite bind_lift_ok in H;
        exists (if isNil (field property key) then None
                else Some (field property key)), log1;
        split;
        [ destruct (isNil (field property key)); exact H
        | intros X result2 log2 RX FX; exists log2;
          rewrite (prop_get_nonnil _ _ (is_record_not_nil _ RX));
          rewrite !bind_lift_ok; rewrite FX;
          destruct (isNil (field property key)) eqn:Nv;
          [reflexivity | simpl; now rewrite Nv] ]).
  destruct (Hcomplex eq_refl) as [td [Htd WBtd]]. rewrite Htd in *.
  subst v.
  assert (Skip : forall X result2 log2,
             is_record X = true -> field X key = VUndefined ->
             exists log3,
               fst ((propertyValue <- lift (prop_get X key) ;;
                     match propertyValue with
                     | VArr items =>
                         itemResults <-
                           mapM (fun propertyValueItem =>
                                   self [] root propertyValueItem td) items ;;
                         transform_keys self root X descriptor rest
                           match itemResults with
                           | [] => result2
                           | _ :: _ =>
                               assoc_set key (VArr (map VObj itemResults)) result2
                           end
                     | _ =>
                         if negb (isNil propertyValue)
                         then throw (Error (msg_non_array key))
                         else transform_keys self root X descriptor rest result2
                     end) log2)
               = fst (transform_keys self root X descriptor rest result2 log3)).
  { intros X result2 log2 RX FX. exists log2.
    rewrite (prop_get_nonnil _ _ (is_record_not_nil _ RX)).
    rewrite bind_lift_ok. now rewrite FX. }
  destruct (field property key) as [| | | | |items|] eqn:Fv; simpl in H;
    try discriminate;
    try (exists None, log1; split; [exact H | exact Skip]).
  apply bind_ok_inv in H. destruct H as [rendered [log2 [Hr H]]].
  destruct rendered as [|r rendered].
  - exists None, log2. split; [exact H | exact Skip].
  - exists (Some (VArr (map VObj (r :: rendered)))), log2.
    split; [exact H|].
    intros X result2 log3 RX FX.
    rewrite (prop_get_nonnil _ _ (is_record_not_nil _ RX)).
    rewrite bind_lift_ok. rewrite FX.
    pose proof (mapM_idem td items WBtd _ _ _ Hr log3) as Hidem.
    destruct (bind_fst_run _
                (fun itemResults =>
                   transform_keys self root X descriptor rest
                     match itemResults with
                     | [] => result2
                     | _ :: _ => assoc_set key (VArr (map VObj itemResults)) result2
                     end) _ _ Hidem) as [log4 E].
    exists log4. exact E.
Qed.

Lemma transform_keys_idem (property : value) (keys : list string) :
  NoDup keys ->
  (forall k, In k keys -> In k (Object_keys (td_properties descriptor))) ->
  forall result s log log',
    transform_keys self root property descriptor keys result log = (Ok s, log') ->
    (forall k, In k keys -> ~ In k (Object_keys result)) ->
    exists delta,
      s = (result ++ delta)%list /\
      (forall k, In k (Object_keys delta) -> In k keys) /\
      forall pre result2 log2,
        (forall k, In k keys -> ~ In k (Object_keys pre)) ->
        (forall k, In k keys -> ~ In k (Object_keys result2)) ->
        fst (transform_keys self root (VObj (pre ++ delta)) descriptor keys
               result2 log2)
        = Ok (result2 ++ delta)%list.
Proof.
  induction keys as [|key rest IH]; intros ND Hkeys result s log log' H Hfresh.
  - simpl in H. injection H as <- _. exists []. split; [now rewrite app_nil_r|].
    split; [intros k []|]. intros pre result2 log2 _ _. simpl.
    now rewrite app_nil_r.
  - inversion ND as [|? ? Hnotin ND']; subst.
    destruct (transform_keys_replay _ _ _ _ _ _ _ (Hkeys key (or_introl eq_refl)) H)
      as [c [log1 [H1 R]]].
    assert (Hkey : ~ In key (Object_keys result)) by (apply Hfresh; now left).
    rewrite (write_entry_fresh _ c _ Hkey) in H1.
    set (entry := match c with Some v => [(key, v)] | None => [] end) in *.
    assert (Kentry : forall k, In k (Object_keys entry) -> k = key).
    { intros k. subst entry. destruct c; simpl; intuition. }
    destruct (IH ND' (fun k Hk => Hkeys k (or_intror Hk)) _ _ _ _ H1)
      as [delta' [E [Kd Replay]]].
    { intros k Hk Hin. rewrite Object_keys_app in Hin.
      apply in_app_or in Hin. destruct Hin as [Hin | Hin].
      - apply (Hfresh k); [now right | assumption].
      - apply Kentry in Hin. subst k. contradiction. }
    exists (entry ++ delta')%list. split; [now rewrite app_assoc|]. split.
    + intros k Hk. rewrite Object_keys_app in Hk. apply in_app_or in Hk.
      destruct Hk as [Hk | Hk]; [left; symmetry; now apply Kentry|].
      right. now apply Kd.
    + intros pre result2 log2 Hpre Hres2.
      assert (Hkeypre : assoc key pre = None)
        by (apply assoc_None_keys, Hpre; now left).
      assert (Hkeyd : assoc key delta' = None).
      { apply assoc_None_keys. intros Hin. apply Kd in Hin. contradiction. }
      destruct (R (VObj (pre ++ entry ++ delta')) result2 log2 eq_refl)
        as [log3 Estep].
      { simpl. rewrite assoc_app, Hkeypre. subst entry.
        destruct c as [v|]; simpl.
        - now rewrite String.eqb_refl.
        - now rewrite Hkeyd. }
      rewrite Estep.
      rewrite (write_entry_fresh _ c _ (Hres2 key (or_introl eq_refl))).
      fold entry. rewrite (app_assoc pre entry delta').
      rewrite Replay.
      * now rewrite app_assoc.
      * intros k Hk Hin. rewrite Object_keys_app in Hin.
        apply in_app_or in Hin. destruct Hin as [Hin | Hin].
        -- apply (Hpre k); [now right | assumption].
        -- apply Kentry in Hin. subst k. contradiction.
      * intros k Hk Hin. rewrite Object_keys_app in Hin.
        apply in_app_or in Hin. destruct Hin as [Hin | Hin].
        -- apply (Hres2 k); [now right | assumption].
        -- apply Kentry in Hin. subst k. contradiction.
Qed.
End IdemProjector.

Lemma _processComplexTypeTransformations_idem (n : nat) :
  forall descriptor root item s log,
    well_bound descriptor = true ->
    fst (_processComplexTypeTransformations n [] root item descriptor log) = Ok s ->
    forall log2,
      fst (_processComplexTypeTransformations n [] root (VObj s) descriptor log2)
      = Ok s.
Proof.
  induction n as [|n IH]; intros descriptor root item s log WB H log2;
    [discriminate|].
  simpl in *. apply fst_ok_run in H. destruct H as [log' H].
  destruct (transform_keys_idem (_processComplexTypeTransformations n)
              descriptor root WB
              (fun td item r log WBtd Hr => IH td root item r log WBtd Hr)
              item (sortBy (Object_keys (td_properties descriptor)))
              (sorted_keys_NoDup _ WB)
              (fun k Hk => proj1 (sortBy_In _ _) Hk)
              _ _ _ _ H) as [delta [E [_ Replay]]]; [intros k _ []|].
  simpl in E. subst delta.
  exact (Replay [] [] log2 (fun _ _ F => F) (fun _ _ F => F)).
Qed.

(** X20.  The snapshot projector is idempotent: with a descriptor built by
    [TypeDescriptors.create], projecting a snapshot gives the snapshot
    back, key for key and in the same order.  A snapshot is therefore a
    value the projector accepts, and nothing it holds is dropped or
    reordered by projecting again. *)
Theorem snapshot_idempotent (root item : value) (descriptor : TypeDescriptor)
    (log : list string) (snap : list (string * value)) :
  well_bound descriptor = true ->
  fst (snapshot root item descriptor log) = Ok snap ->
  fst (snapshot root (VObj snap) descriptor log) = Ok snap.
Proof.
  intros WB H. unfold snapshot in *.
  exact (_processComplexTypeTransformations_idem _ _ _ _ _ _ WB H log).
Qed.

Lemma snapshot_idempotent_witness :
  fst (snapshot VUndefined
         (VObj [("features", VArr [ExpectedExample.feature_1_snapshot]);
                ("id", VStr "truck_1"); ("make", VStr "toyota");
                ("model", VStr "tacoma"); ("msrp", VNum 15000);
                ("year", VNum 2022)])
         CarTypeDescriptorRegistry.automobile [])
  = Ok [("features", VArr [ExpectedExample.feature_1_snapshot]);
        ("id", VStr "truck_1"); ("make", VStr "toyota");
        ("model", VStr "tacoma"); ("msrp", VNum 15000);
        ("year", VNum 2022)].
Proof.
  apply (snapshot_idempotent VUndefined ObjectDiffExample.truck
           CarTypeDescriptorRegistry.automobile []
           [("features", VArr [ExpectedExample.feature_1_snapshot]);
            ("id", VStr "truck_1"); ("make", VStr "toyota");
            ("model", VStr "tacoma"); ("msrp", VNum 15000);
            ("year", VNum 2022)]); reflexivity.
Defined.

(** ** Inputs on which [diff] returns *)

Lemma shaped_record (d : TypeDescriptor) (x : value) :
  shaped d x = true -> is_record x = true.
Proof.
  destruct d as [n ps pk]. simpl. rewrite andb_true_iff. tauto.
Qed.

Lemma shaped_property (d td : TypeDescriptor) (x : value) (key : string)
    (pd : PropertyDescriptor) :
  shaped d x = true -> In (key, pd) (td_properties d) ->
  pd_type pd = TComplex -> pd_descriptor pd = Some td ->
  exists items, field x key = VArr items /\ forallb (shaped td) items = true.
Proof.
  destruct d as [n ps pk]. simpl. rewrite andb_true_iff. intros [_ H] Hin Hty Hd.
  pose proof (forallb_In _ _ _ H Hin) as P. simpl in P.
  destruct pd as [ty nested nm]. simpl in Hty, Hd. subst ty nested.
  destruct (field x key) as [| | | | |items|]; try discriminate.
  now exists items.
Qed.

Lemma shaped_compatible (n : nat) :
  forall d x, (td_depth d < n)%nat -> shaped d x = true -> compatible d x = true.
Proof.
  induction n as [|n IH]; intros d x Hn S; [lia|].
  pose proof (shaped_record _ _ S) as R.
  destruct d as [nm ps pk] eqn:Ed. simpl. rewrite R. simpl.
  apply forallb_forall. intros [key pd] Hin.
  destruct pd as [ty nested name]. destruct ty; try reflexivity.
  destruct nested as [d'|]; [|reflexivity].
  assert (Hin' : In (key, MkPropertyDescriptor TComplex (Some d') name)
                   (td_properties d)) by now subst d.
  rewrite <- Ed in S.
  destruct (shaped_property d d' x key _ S Hin' eq_refl eq_refl) as [items [F Sh]].
  rewrite F. apply forallb_forall. intros it Hit. apply IH.
  - pose proof (nested_depth _ _ _ _ Hin' eq_refl). subst d. lia.
  - exact (forallb_In _ _ _ Sh Hit).
Qed.

Lemma shaped_items_compatible (td : TypeDescriptor) (items : list value) :
  forallb (shaped td) items = true -> forallb (compatible td) items = true.
Proof.
  intros H. apply forallb_forall. intros x Hx.
  apply (shaped_compatible (S (td_depth td))); [lia|].
  exact (forallb_In _ _ _ H Hx).
Qed.

Lemma itemChangeResultFinal_ok (pks : list string) (p : InBoth)
    (icr : ChangeResult) :
  isNil (from p) = false ->
  exists final, itemChangeResultFinal pks p icr = Ok final.
Proof.
  intros Hnil. unfold itemChangeResultFinal.
  destruct (primaryKey_fields_lookup _ pks Hnil []) as [keyed [E _]].
  rewrite E. simpl. now eexists.
Qed.

Lemma snapshot_entries_ok (marker : string) (root : value)
    (td : TypeDescriptor) (items : list value) (log : list string) :
  well_bound td = true -> forallb (compatible td) items = true ->
  exists entries, snapshot_entries marker root td items log = (Ok entries, log).
Proof.
  intros WB C. unfold snapshot_entries.
  destruct (mapM_ok (fun item =>
                       transformedItem <- snapshot root item td ;;
                       ret (VObj [(marker, VObj transformedItem)])) items log)
    as [entries [E _]]; [|now exists entries].
  intros x Hx.
  destruct (_processComplexTypeTransformations_ok (S (td_depth td)) td x root log)
    as [snap Hs]; [lia | assumption | exact (forallb_In _ _ _ C Hx) |].
  eexists. unfold snapshot. now rewrite (bind_run_ok _ _ _ _ _ Hs).
Qed.

(** Two arrays of records always reconcile. *)
Lemma _getChanges_records (pks : list string) (xs ys : list value) :
  forallb is_record xs = true -> forallb is_record ys = true ->
  exists pairs,
    _getChanges xs ys pks
    = Ok (MkChanges (unmatched_items pks (matched_keys pks xs ys) xs)
            (unmatched_items pks (matched_keys pks xs ys) ys) pairs) /\
    Forall (fun p => In (from p) xs /\ In (to p) ys) pairs.
Proof.
  intros Rx Ry.
  rewrite (_getChanges_not_nil _ _ _ (records_not_nil _ Rx) (records_not_nil _ Ry)).
  cbv zeta.
  destruct (rmap_pair_for_ok pks xs ys (matched_keys pks xs ys) Rx Ry)
    as [pairs Hp]; [intros k Hk; now apply matched_keys_In|].
  rewrite Hp. simpl. exists pairs. split; [reflexivity|].
  destruct (rmap_pair_for _ _ _ _ _ Hp) as [_ HF].
  rewrite Forall_forall in *. intros p Hpin.
  destruct (HF p Hpin) as [Ff [Ft _]].
  split; [exact (proj1 (first_with_key_Some _ _ _ _ Ff))
         | exact (proj1 (first_with_key_Some _ _ _ _ Ft))].
Qed.

Lemma shaped_items_records (td : TypeDescriptor) (items : list value) :
  forallb (shaped td) items = true -> forallb is_record items = true.
Proof.
  intros H. apply forallb_forall. intros x Hx.
  exact (shaped_record _ _ (forallb_In _ _ _ H Hx)).
Qed.

Lemma unmatched_items_forallb (p : value -> bool) (pks matched : list string)
    (items : list value) :
  forallb p items = true ->
  forallb p (unmatched_items pks matched items) = true.
Proof.
  intros H. apply forallb_forall. intros x Hx.
  apply unmatched_items_In in Hx. exact (forallb_In _ _ _ H (proj1 Hx)).
Qed.

Section TotalWalk.
Variable sortByItems : list value -> list value.
Variable self :
  ChangeResult -> value -> value -> value -> value -> TypeDescriptor ->
  M ChangeResult.
Variables fromRoot toRoot : value.
Variable descriptor : TypeDescriptor.
Hypothesis WB : well_bound descriptor = true.
Hypothesis self_ok :
  forall td f t,
    (td_depth td < td_depth descriptor)%nat ->
    well_bound td = true -> shaped td f = true -> shaped td t = true ->
    forall log, exists icr log',
      self [] fromRoot toRoot f t td log = (Ok icr, log').

Lemma matched_pairs_ok (name : string) (pks : list string)
    (td : TypeDescriptor) (pairs : list InBoth) :
  (td_depth td < td_depth descriptor)%nat -> well_bound td = true ->
  Forall (fun p => shaped td (from p) = true /\ shaped td (to p) = true) pairs ->
  forall cr log, exists cr' log',
    matched_pairs self fromRoot toRoot name pks td pairs cr log = (Ok cr', log').
Proof.
  intros Dtd WBtd HF. induction HF as [|p pairs [Sf St] _ IH]; intros cr log; simpl.
  - now exists cr, log.
  - destruct (self_ok td (from p) (to p) Dtd WBtd Sf St log) as [icr [log1 Hs]].
    rewrite (bind_run_ok _ _ _ _ _ Hs).
    destruct (Nat.ltb 0 (size icr)); [|apply IH].
    destruct (itemChangeResultFinal_ok pks p icr
                (is_record_not_nil _ (shaped_record _ _ Sf))) as [final Hf].
    rewrite Hf. walk_simpl. apply IH.
Qed.

Lemma emit_unmatched_ok (cr : ChangeResult) (name : string)
    (td : TypeDescriptor) (removedItems addedItems : list value)
    (log : list string) :
  well_bound td = true ->
  forallb (compatible td) removedItems = true ->
  forallb (compatible td) addedItems = true ->
  exists cr',
    emit_unmatched fromRoot toRoot cr name td removedItems addedItems log
    = (Ok cr', log).
Proof.
  intros WBtd Cr Ca. unfold emit_unmatched.
  assert (S : exists cr',
             (if entry_missing cr name
              then
                removedEntries <-
                  snapshot_entries removed_marker fromRoot td removedItems ;;
                addedEntries <-
                  snapshot_entries added_marker toRoot td addedItems ;;
                ret (assoc_set name (VArr (removedEntries ++ addedEntries)) cr)
              else ret cr) log = (Ok cr', log)).
  { destruct (entry_missing cr name); [|now exists cr].
    destruct (snapshot_entries_ok removed_marker fromRoot td removedItems log
                WBtd Cr) as [rs Hr].
    destruct (snapshot_entries_ok added_marker toRoot td addedItems log
                WBtd Ca) as [xs Ha].
    rewrite (bind_run_ok _ _ _ _ _ Hr). rewrite (bind_run_ok _ _ _ _ _ Ha).
    now eexists. }
  destruct removedItems, addedItems; try exact S. now exists cr.
Qed.

Lemma complex_arrays_ok (cr : ChangeResult) (name : string)
    (pks : list string) (td : TypeDescriptor) (xs ys : list value)
    (log : list string) :
  (td_depth td < td_depth descriptor)%nat -> well_bound td = true ->
  forallb (shaped td) xs = true -> forallb (shaped td) ys = true ->
  exists cr' log',
    complex_arrays self fromRoot toRoot cr name pks td xs ys log = (Ok cr', log').
Proof.
  intros Dtd WBtd Sx Sy. unfold complex_arrays.
  destruct (_getChanges_records pks xs ys (shaped_items_records _ _ Sx)
              (shaped_items_records _ _ Sy)) as [pairs [Hc HF]].
  rewrite Hc. walk_simpl. simpl removed. simpl added. simpl inBoth.
  destruct (emit_unmatched_ok cr name td
              (unmatched_items pks (matched_keys pks xs ys) xs)
              (unmatched_items pks (matched_keys pks xs ys) ys) log WBtd)
    as [cr1 He].
  { apply unmatched_items_forallb. now apply shaped_items_compatible. }
  { apply unmatched_items_forallb. now apply shaped_items_compatible. }
  rewrite (bind_run_ok _ _ _ _ _ He).
  apply matched_pairs_ok; try assumption.
  rewrite Forall_forall in *. intros p Hp. destruct (HF p Hp) as [Hf Ht].
  split; [exact (forallb_In _ _ _ Sx Hf) | exact (forallb_In _ _ _ Sy Ht)].
Qed.

Lemma process_property_ok (x y : value) (key : string) (cr : ChangeResult)
    (log : list string) :
  shaped descriptor x = true -> shaped descriptor y = true ->
  In key (Object_keys (td_properties descriptor)) ->
  exists step log',
    process_property sortByItems self fromRoot toRoot descriptor x y key cr log
    = (Ok step, log').
Proof.
  intros Sx Sy Hk.
  destruct (property_of_bound _ _ WB Hk) as [Hin [Hname Hcomplex]].
  pose proof (is_record_not_nil _ (shaped_record _ _ Sx)) as Nx.
  pose proof (is_record_not_nil _ (shaped_record _ _ Sy)) as Ny.
  destruct (pd_type (property_of descriptor key)) eqn:Hty.
  1-3: (unfold process_property;
        rewrite (prop_get_nonnil _ _ Nx), (prop_get_nonnil _ _ Ny); walk_simpl;
        rewrite Hname, Hty;
        rewrite (prop_get_nonnil _ _ Nx), (prop_get_nonnil _ _ Ny); walk_simpl;
        destruct (field x key), (field y key);
        try (destruct (negb _)); eexists; eexists; reflexivity).
  destruct (Hcomplex eq_refl) as [td [Htd WBtd]].
  destruct (_toArray (td_primaryKey td)) as [pks|] eqn:Hpks.
  - rewrite (process_property_complex sortByItems self fromRoot toRoot descriptor
               x y key key td pks cr Nx Ny Hname Hty Htd Hpks).
    destruct (shaped_property _ _ _ _ _ Sx Hin Hty Htd) as [xs [Fx Shx]].
    destruct (shaped_property _ _ _ _ _ Sy Hin Hty Htd) as [ys [Fy Shy]].
    rewrite Fx, Fy.
    destruct (complex_arrays_ok cr key pks td xs ys log
                (nested_depth _ _ _ _ Hin Htd) WBtd Shx Shy) as [cr' [log' Hc]].
    rewrite (bind_run_ok _ _ _ _ _ Hc). now eexists; eexists.
  - unfold process_property.
    rewrite (prop_get_nonnil _ _ Nx), (prop_get_nonnil _ _ Ny). walk_simpl.
    rewrite Hname, Hty, Htd, Hpks. eexists. eexists. reflexivity.
Qed.

Lemma process_keys_ok (x y : value) (keys : list string) :
  shaped descriptor x = true -> shaped descriptor y = true ->
  (forall k, In k keys -> In k (Object_keys (td_properties descriptor))) ->
  forall cr log, exists cr' log',
    process_keys sortByItems self fromRoot toRoot descriptor x y keys cr log
    = (Ok cr', log').
Proof.
  intros Sx Sy. induction keys as [|key rest IH]; intros Hkeys cr log; simpl.
  - now exists cr, log.
  - destruct (process_property_ok x y key cr log Sx Sy (Hkeys key (or_introl eq_refl)))
      as [step [log1 Hs]].
    rewrite (bind_run_ok _ _ _ _ _ Hs).
    destruct step as [cr1 | cr1]; [now exists cr1, log1|].
    apply IH. intros k Hk. apply Hkeys. now right.
Qed.
End TotalWalk.

Lemma _processChanges_ok (sortByItems : list value -> list value) (n : nat) :
  forall descriptor cr fromRoot toRoot x y,
    (td_depth descriptor < n)%nat ->
    well_bound descriptor = true ->
    shaped descriptor x = true -> shaped descriptor y = true ->
    forall log, exists cr' log',
      _processChanges sortByItems n cr fromRoot toRoot x y descriptor log
      = (Ok cr', log').
Proof.
  induction n as [|n IH]; intros descriptor cr fromRoot toRoot x y Hn WB Sx Sy log;
    [lia|].
  simpl.
  apply (process_keys_ok sortByItems (_processChanges sortByItems n)
           fromRoot toRoot descriptor WB); try assumption.
  - intros td f t Dtd WBtd Sf St log0. apply IH; try assumption. lia.
  - intros k Hk. now apply sortBy_In.
Qed.

(** X21.  [diff] returns, and throws nothing, on every pair of values typed
    as the models are: with a descriptor built by [TypeDescriptors.create]
    at every level, if the two values are records whose complex properties
    all hold arrays of such records, at every level, then [diff] returns a
    change result. *)
Theorem diff_returns_on_shaped (sortByItems : list value -> list value)
    (from to : value) (descriptor : TypeDescriptor) (log : list string) :
  well_bound descriptor = true ->
  shaped descriptor from = true -> shaped descriptor to = true ->
  exists cr log', diff sortByItems from to descriptor log = (Ok cr, log').
Proof.
  intros WB Sf St. unfold diff. apply _processChanges_ok; try assumption. lia.
Qed.

Lemma diff_returns_on_shaped_witness :
  exists cr log',
    diff sortBy_primitives ObjectDiffExample.from ObjectDiffExample.to
      CarTypeDescriptorRegistry.automobileCollection []
    = (Ok cr, log').
Proof.
  apply (diff_returns_on_shaped sortBy_primitives ObjectDiffExample.from
           ObjectDiffExample.to CarTypeDescriptorRegistry.automobileCollection []);
    reflexivity.
Defined.

(** ** The entry of a complex property *)

Lemma mapM_length {A B} (f : A -> M B) (l : list A) :
  forall ys log log',
    mapM f l log = (Ok ys, log') -> List.length ys = List.length l.
Proof.
  induction l as [|x l IH]; intros ys log log' H; simpl in H.
  - injection H as <- _. reflexivity.
  - apply bind_ok_inv in H. destruct H as [y [log1 [_ H]]].
    apply bind_ok_inv in H. destruct H as [ys' [log2 [H1 H]]].
    injection H as <- _. simpl. f_equal. exact (IH _ _ _ H1).
Qed.

Lemma append_entry_nonempty (cr : ChangeResult) (name : string) (e : value)
    (entries : list value) :
  assoc name cr = None ->
  assoc_set name (VArr (e :: entries)) cr = append_entry cr name (e :: entries).
Proof.
  intros H. unfold append_entry. now apply assoc_set_fresh.
Qed.

Section EntryWalk.
Variable self :
  ChangeResult -> value -> value -> value -> value -> TypeDescriptor ->
  M ChangeResult.
Variables fromRoot toRoot : value.

Lemma emit_unmatched_entry (cr cr1 : ChangeResult) (name : string)
    (td : TypeDescriptor) (removedItems addedItems : list value)
    (log log2 : list string) :
  assoc name cr = None ->
  emit_unmatched fromRoot toRoot cr name td removedItems addedItems log
  = (Ok cr1, log2) ->
  exists removedEntries addedEntries log1,
    snapshot_entries removed_marker fromRoot td removedItems log
    = (Ok removedEntries, log1) /\
    snapshot_entries added_marker toRoot td addedItems log1
    = (Ok addedEntries, log2) /\
    cr1 = append_entry cr name (removedEntries ++ addedEntries).
Proof.
  intros Hfresh. unfold emit_unmatched.
  assert (Hmissing : entry_missing cr name = true)
    by (unfold entry_missing; now rewrite Hfresh).
  rewrite Hmissing.
  assert (S : (List.length removedItems + List.length addedItems > 0)%nat ->
              (removedEntries <-
                 snapshot_entries removed_marker fromRoot td removedItems ;;
               addedEntries <-
                 snapshot_entries added_marker toRoot td addedItems ;;
               ret (assoc_set name (VArr (removedEntries ++ addedEntries)) cr)) log
              = (Ok cr1, log2) ->
              exists removedEntries addedEntries log1,
                snapshot_entries removed_marker fromRoot td removedItems log
                = (Ok removedEntries, log1) /\
                snapshot_entries added_marker toRoot td addedItems log1
                = (Ok addedEntries, log2) /\
                cr1 = append_entry cr name (removedEntries ++ addedEntries)).
  { intros Hlen H. apply bind_ok_inv in H. destruct H as [rs [log1 [Hr H]]].
    apply bind_ok_inv in H. destruct H as [xs [log3 [Ha H]]].
    injection H as <- <-. exists rs, xs, log1. repeat split; try assumption.
    pose proof (mapM_length _ _ _ _ _ Hr) as Lr.
    pose proof (mapM_length _ _ _ _ _ Ha) as La.
    destruct (rs ++ xs)%list as [|e es] eqn:E.
    - apply (f_equal (@List.length value)) in E. rewrite length_app in E.
      simpl in E. lia.
    - now apply append_entry_nonempty. }
  destruct removedItems as [|r removedItems], addedItems as [|a addedItems];
    try (apply S; simpl; lia).
  intros [= <- <-]. exists [], [], log. repeat split.
Qed.

Lemma matched_pairs_entry (cr : ChangeResult) (name : string)
    (pks : list string) (td : TypeDescriptor) (pairs : list InBoth) :
  assoc name cr = None ->
  forall entries log cr' log',
    matched_pairs self fromRoot toRoot name pks td pairs
      (append_entry cr name entries) log = (Ok cr', log') ->
    exists icrs records,
      mapM (fun p => self [] fromRoot toRoot (from p) (to p) td) pairs log
      = (Ok icrs, log') /\
      rmap (pair_record pks) (combine pairs icrs) = Ok records /\
      cr' = append_entry cr name (entries ++ List.concat records).
Proof.
  intros Hfresh. induction pairs as [|p pairs IH]; intros entries log cr' log' H.
  - simpl in H. injection H as <- <-. exists [], []. simpl.
    now rewrite app_nil_r.
  - simpl in H. apply bind_ok_inv in H. destruct H as [icr [log1 [Hs H]]].
    destruct (Nat.ltb 0 (size icr)) eqn:Hsize.
    + apply bind_ok_inv in H. destruct H as [final [log2 [Hf H]]].
      unfold lift in Hf. injection Hf as Hf <-.
      rewrite (push_item_append _ _ _ _ Hfresh) in H.
      destruct (IH _ _ _ _ H) as [icrs [records [Hm [Hr E]]]].
      exists (icr :: icrs), ([VObj final] :: records). split; [|split].
      * simpl. rewrite (bind_run_ok _ _ _ _ _ Hs).
        now rewrite (bind_run_ok _ _ _ _ _ Hm).
      * simpl. unfold pair_record at 1. simpl. rewrite Hsize, Hf. simpl.
        now rewrite Hr.
      * rewrite E. simpl. now rewrite <- app_assoc.
    + destruct (IH _ _ _ _ H) as [icrs [records [Hm [Hr E]]]].
      exists (icr :: icrs), ([] :: records). split; [|split].
      * simpl. rewrite (bind_run_ok _ _ _ _ _ Hs).
        now rewrite (bind_run_ok _ _ _ _ _ Hm).
      * simpl. unfold pair_record at 1. simpl. rewrite Hsize. simpl.
        now rewrite Hr.
      * exact E.
Qed.

(** What [complex_arrays] writes under a name the result does not hold
    yet. *)
Lemma complex_arrays_entry (cr cr' : ChangeResult) (name : string)
    (pks : list string) (td : TypeDescriptor) (xs ys : list value)
    (log log' : list string) :
  assoc name cr = None ->
  complex_arrays self fromRoot toRoot cr name pks td xs ys log = (Ok cr', log') ->
  exists c removedEntries addedEntries log1 log2 icrs records,
    _getChanges xs ys pks = Ok c /\
    snapshot_entries removed_marker fromRoot td (removed c) log
    = (Ok removedEntries, log1) /\
    snapshot_entries added_marker toRoot td (added c) log1
    = (Ok addedEntries, log2) /\
    mapM (fun p => self [] fromRoot toRoot (from p) (to p) td) (inBoth c) log2
    = (Ok icrs, log') /\
    rmap (pair_record pks) (combine (inBoth c) icrs) = Ok records /\
    cr' = append_entry cr name
            (removedEntries ++ addedEntries ++ List.concat records).
Proof.
  intros Hfresh. unfold complex_arrays. intros H.
  apply bind_ok_inv in H. destruct H as [c [log0 [Hc H]]].
  unfold lift in Hc. injection Hc as Hc <-.
  apply bind_ok_inv in H. destruct H as [cr1 [log2 [He Hm]]].
  destruct (emit_unmatched_entry _ _ _ _ _ _ _ _ Hfresh He)
    as [rs [xs' [log1 [Hr [Ha E1]]]]].
  subst cr1.
  destruct (matched_pairs_entry _ _ _ _ _ Hfresh _ _ _ _ Hm)
    as [icrs [records [Hs [Hrec E2]]]].
  exists c, rs, xs', log1, log2, icrs, records.
  repeat split; try assumption. now rewrite E2, <- app_assoc.
Qed.
End EntryWalk.


(** ** The walk does not depend on fuel, roots or earlier messages *)

Section FstWalk.
Variable sortByItems : list value -> list value.
Variables self1 self2 :
  ChangeResult -> value -> value -> value -> value -> TypeDescriptor ->
  M ChangeResult.
Variables fromRoot1 toRoot1 fromRoot2 toRoot2 : value.
Variable descriptor : TypeDescriptor.
Hypothesis agree :
  forall td, (td_depth td < td_depth descriptor)%nat ->
  forall cr f t l1 l2,
    fst (self1 cr fromRoot1 toRoot1 f t td l1)
    = fst (self2 cr fromRoot2 toRoot2 f t td l2).

Lemma matched_pairs_fst (name : string) (pks : list string)
    (td : TypeDescriptor) (pairs : list InBoth) :
  (td_depth td < td_depth descriptor)%nat ->
  forall cr l1 l2,
    fst (matched_pairs self1 fromRoot1 toRoot1 name pks td pairs cr l1)
    = fst (matched_pairs self2 fromRoot2 toRoot2 name pks td pairs cr l2).
Proof.
  intros Dtd. induction pairs as [|p pairs IH]; intros cr l1 l2; simpl;
    [reflexivity|].
  apply bind_fst_congr; [now apply agree|]. intros icr l3 l4.
  destruct (Nat.ltb 0 (size icr)); [|apply IH].
  apply bind_fst_congr; [reflexivity|]. intros final l5 l6. apply IH.
Qed.

Lemma emit_unmatched_fst (cr : ChangeResult) (name : string)
    (td : TypeDescriptor) (removedItems addedItems : list value)
    (l1 l2 : list string) :
  fst (emit_unmatched fromRoot1 toRoot1 cr name td removedItems addedItems l1)
  = fst (emit_unmatched fromRoot2 toRoot2 cr name td removedItems addedItems l2).
Proof.
  unfold emit_unmatched.
  assert (E : fst ((if entry_missing cr name
                    then
                      removedEntries <-
                        snapshot_entries removed_marker fromRoot1 td removedItems ;;
                      addedEntries <-
                        snapshot_entries added_marker toRoot1 td addedItems ;;
                      ret (assoc_set name (VArr (removedEntries ++ addedEntries)) cr)
                    else ret cr) l1)
              = fst ((if entry_missing cr name
                      then
                        removedEntries <-
                          snapshot_entries removed_marker fromRoot2 td removedItems ;;
                        addedEntries <-
                          snapshot_entries added_marker toRoot2 td addedItems ;;
                        ret (assoc_set name (VArr (removedEntries ++ addedEntries)) cr)
                      else ret cr) l2)).
  { destruct (entry_missing cr name); [|reflexivity].
    apply bind_fst_congr; [now rewrite !snapshot_entries_result|].
    intros rs l3 l4.
    apply bind_fst_congr; [now rewrite !snapshot_entries_result | reflexivity]. }
  destruct removedItems, addedItems; try reflexivity; exact E.
Qed.

Lemma process_property_fst (x y : value) (key : string) (cr : ChangeResult)
    (l1 l2 : list string) :
  fst (process_property sortByItems self1 fromRoot1 toRoot1 descriptor x y key cr l1)
  = fst (process_property sortByItems self2 fromRoot2 toRoot2 descriptor x y key
           cr l2).
Proof.
  unfold process_property.
  apply bind_fst_congr; [reflexivity|]. intros fv l3 l4.
  apply bind_fst_congr; [reflexivity|]. intros tv l5 l6.
  destruct (bound_name (property_of descriptor key)) as [name|]; [|reflexivity].
  destruct (pd_type (property_of descriptor key));
    try (apply bind_fst_congr; [reflexivity|]; intros fv' la lb;
         apply bind_fst_congr; [reflexivity|]; intros tv' lc ld;
         destruct fv', tv'; try reflexivity; destruct (negb _); reflexivity).
  destruct (pd_descriptor (property_of descriptor key)) as [td|] eqn:Htd;
    [|reflexivity].
  destruct (_toArray (td_primaryKey td)) as [pks|]; [|reflexivity].
  destruct fv, tv; try reflexivity;
    try (destruct (_ || _)%bool; reflexivity).
  apply bind_fst_congr; [|reflexivity].
  unfold complex_arrays.
  apply bind_fst_congr; [reflexivity|]. intros c l7 l8.
  apply bind_fst_congr; [apply emit_unmatched_fst|]. intros cr1 l9 l10.
  apply matched_pairs_fst. now apply property_of_depth with (key := key).
Qed.

Lemma process_keys_fst (x y : value) (keys : list string) :
  forall cr l1 l2,
    fst (process_keys sortByItems self1 fromRoot1 toRoot1 descriptor x y keys cr l1)
    = fst (process_keys sortByItems self2 fromRoot2 toRoot2 descriptor x y keys
             cr l2).
Proof.
  induction keys as [|key rest IH]; intros cr l1 l2; simpl; [reflexivity|].
  apply bind_fst_congr; [apply process_property_fst|].
  intros [cr1 | cr1] l3 l4; [reflexivity | apply IH].
Qed.
End FstWalk.

(** With more fuel than the descriptor is deep, what the walk returns
    depends neither on the fuel, nor on the roots, nor on what has been
    logged before. *)
Lemma _processChanges_fst (sortByItems : list value -> list value) (n m : nat) :
  forall descriptor,
    (td_depth descriptor < n)%nat -> (td_depth descriptor < m)%nat ->
    forall cr r1 r2 r1' r2' x y l1 l2,
      fst (_processChanges sortByItems n cr r1 r2 x y descriptor l1)
      = fst (_processChanges sortByItems m cr r1' r2' x y descriptor l2).
Proof.
  revert m. induction n as [|n IH]; intros m descriptor Hn Hm; [lia|].
  destruct m as [|m]; [lia|]. intros. simpl.
  apply process_keys_fst. intros td Htd cr' f t l3 l4. apply IH; lia.
Qed.

Lemma mapM_fst_rmap {A B} (f : A -> M B) (g : A -> result B) (l : list A) :
  (forall x log, fst (f x log) = g x) ->
  forall ys log log', mapM f l log = (Ok ys, log') -> rmap g l = Ok ys.
Proof.
  intros H. induction l as [|x l IH]; intros ys log log' Hm; simpl in *.
  - now injection Hm as <- _.
  - apply bind_ok_inv in Hm. destruct Hm as [y [log1 [Hy Hm]]].
    apply bind_ok_inv in Hm. destruct Hm as [ys' [log2 [Hys Hm]]].
    injection Hm as <- _. rewrite <- (H x log), Hy. simpl.
    now rewrite (IH _ _ _ Hys).
Qed.

Lemma snapshot_entries_snapshots (marker : string) (root : value)
    (td : TypeDescriptor) (items : list value) (entries : list value)
    (log log' : list string) :
  snapshot_entries marker root td items log = (Ok entries, log') ->
  exists snaps,
    rmap (snapshot_result td) items = Ok snaps /\
    entries = map (fun s => VObj [(marker, VObj s)]) snaps.
Proof.
  intros H. pose proof (snapshot_entries_result marker root td items log) as E.
  rewrite H in E. simpl in E.
  destruct (rmap (snapshot_result td) items) as [snaps|e|]; try discriminate.
  simpl in E. injection E as ->. now exists snaps.
Qed.

Section StepsWalk.
Variable sortByItems : list value -> list value.
Variable self :
  ChangeResult -> value -> value -> value -> value -> TypeDescriptor ->
  M ChangeResult.
Variables fromRoot toRoot : value.
Variable descriptor : TypeDescriptor.
Hypothesis WB : well_bound descriptor = true.

(** In a run of the loop that returns, the entry of a visited property is
    what its own iteration made of it; a property is left unvisited only
    after a configuration error. *)
Lemma process_keys_step_of (x y : value) (keys : list string) :
  NoDup keys ->
  (forall k, In k keys -> In k (Object_keys (td_properties descriptor))) ->
  forall cr cr' log log',
    process_keys sortByItems self fromRoot toRoot descriptor x y keys cr log
    = (Ok cr', log') ->
    forall k, In k keys ->
      (keyed descriptor = false /\ assoc k cr' = assoc k cr) \/
      exists c c1 l l1,
        process_property sortByItems self fromRoot toRoot descriptor x y k c l
        = (Ok (inr c1), l1) /\
        assoc k c = assoc k cr /\ assoc k cr' = assoc k c1.
Proof.
  induction keys as [|key rest IH]; intros ND Hkeys cr cr' log log' H k Hk;
    [destruct Hk|].
  inversion ND as [|? ? Hnotin ND']; subst.
  assert (Hrest : forall k, In k rest ->
                    In k (Object_keys (td_properties descriptor)))
    by (intros k' Hk'; apply Hkeys; now right).
  cbn [process_keys] in H.
  apply bind_ok_inv in H. destruct H as [step [log1 [H1 H2]]].
  destruct (process_property_frame sortByItems self fromRoot toRoot descriptor WB
              _ _ _ _ _ _ _ (Hkeys key (or_introl eq_refl)) H1)
    as [_ [_ [[-> KDf] | [cr1 [-> [[A1 _] _]]]]]].
  - injection H2 as <- _. left. now split.
  - destruct (process_keys_frame sortByItems self fromRoot toRoot descriptor WB
                x y rest ND' Hrest _ _ _ _ H2) as [A2 _].
    destruct Hk as [<- | Hk].
    + right. exists cr, cr1, log, log1. split; [assumption|].
      split; [reflexivity | now apply A2].
    + assert (Hne : k <> key) by (intros ->; contradiction).
      destruct (IH ND' Hrest _ _ _ _ H2 k Hk)
        as [[KDf E] | [c [c1 [l [l1 [Hs [E1 E2]]]]]]].
      * left. split; [assumption|]. now rewrite E, (A1 k Hne).
      * right. exists c, c1, l, l1. split; [assumption|].
        split; [now rewrite E1, (A1 k Hne) | assumption].
Qed.
End StepsWalk.

(** X22.  With a fully configured descriptor none of whose property or
    primary-key names is a name records inherit from [Object.prototype]
    (for such a name [!changeResult[name]] is false on a fresh result, and
    nothing is written), whenever [diff] returns, the entry of a complex
    property whose two values are arrays is determined by the
    reconciliation of the two arrays: the snapshots of the removed
    elements, each under the removed marker, then the snapshots of the
    added elements, each under the added marker, then, for every matched
    pair whose own [diff] against the nested descriptor is not empty, that
    result written over the pair's primary-key fields, in the order of the
    pairs.  The property has no entry when all three are empty. *)
Theorem complex_property_entry (sortByItems : list value -> list value)
    (x y : value) (descriptor td : TypeDescriptor) (log : list string)
    (cr : ChangeResult) (name : string) (pks : list string)
    (xs ys : list value) :
  well_bound descriptor = true -> keyed descriptor = true ->
  own_names descriptor = true ->
  fst (diff sortByItems x y descriptor log) = Ok cr ->
  In name (Object_keys (td_properties descriptor)) ->
  pd_type (property_of descriptor name) = TComplex ->
  pd_descriptor (property_of descriptor name) = Some td ->
  _toArray (td_primaryKey td) = Some pks ->
  field x name = VArr xs -> field y name = VArr ys ->
  exists c removedSnapshots addedSnapshots walked records,
    _getChanges xs ys pks = Ok c /\
    rmap (snapshot_result td) (removed c) = Ok removedSnapshots /\
    rmap (snapshot_result td) (added c) = Ok addedSnapshots /\
    rmap (fun p => fst (diff sortByItems (from p) (to p) td [])) (inBoth c)
    = Ok walked /\
    rmap (pair_record pks) (combine (inBoth c) walked) = Ok records /\
    assoc name cr
    = match (map removed_entry removedSnapshots ++
             map added_entry addedSnapshots ++ List.concat records)%list with
      | [] => None
      | entries => Some (VArr entries)
      end.
Proof.
  intros WB KD _ Hrun Hname Hty Htd Hpks Fx Fy.
  apply fst_ok_run in Hrun. destruct Hrun as [log' Hrun].
  unfold diff in Hrun. simpl _processChanges in Hrun.
  destruct (process_keys_step_of sortByItems _ x y descriptor WB x y
              (sortBy (Object_keys (td_properties descriptor)))
              (sorted_keys_NoDup _ WB)
              (fun k Hk => proj1 (sortBy_In _ _) Hk)
              _ _ _ _ Hrun name (proj2 (sortBy_In _ _) Hname))
    as [[KDf _] | [c0 [c1 [l [l1 [Hstep [E0 E1]]]]]]]; [congruence|].
  simpl in E0.
  destruct (process_property_frame sortByItems _ x y descriptor WB
              _ _ _ _ _ _ _ Hname Hstep) as [Nx [Ny _]].
  destruct (property_of_bound _ _ WB Hname) as [_ [Hbound _]].
  rewrite (process_property_complex sortByItems _ x y descriptor x y name name
             td pks c0 Nx Ny Hbound Hty Htd Hpks) in Hstep.
  rewrite Fx, Fy in Hstep.
  apply bind_ok_inv in Hstep. destruct Hstep as [c2 [l2 [Hc Hret]]].
  injection Hret as <- _.
  destruct (complex_arrays_entry _ _ _ _ _ _ _ _ _ _ _ _ E0 Hc)
    as [c [rs [xs' [la [lb [icrs [records [Hg [Hr [Ha [Hm [Hrec E]]]]]]]]]]]].
  destruct (snapshot_entries_snapshots _ _ _ _ _ _ _ Hr) as [snapsR [HsR ->]].
  destruct (snapshot_entries_snapshots _ _ _ _ _ _ _ Ha) as [snapsA [HsA ->]].
  exists c, snapsR, snapsA, icrs, records.
  repeat split; try assumption.
  - apply (mapM_fst_rmap _ _ _ (fun p log0 => _processChanges_fst sortByItems
             (td_depth descriptor) (S (td_depth td)) td
             (property_of_depth _ _ _ Htd) (Nat.lt_succ_diag_r _)
             [] x y (from p) (to p) (from p) (to p) log0 []) _ _ _ Hm).
  - rewrite E1, E. unfold append_entry, removed_entry, added_entry.
    destruct (_ ++ _ ++ _)%list; [assumption|]. now apply assoc_app_last.
Qed.

Lemma primitive_entry_shape (sortByItems : list value -> list value)
    (a b v : value) :
  primitive_entry sortByItems a b = Some v -> entry_shape v.
Proof.
  unfold primitive_entry, entry_shape.
  assert (S : (if isEqual a b then None
               else Some (VObj [(removed_marker, a); (added_marker, b)])) = Some v ->
              (exists a0 b0, v = VObj [(removed_marker, a0); (added_marker, b0)]) \/
              (exists e l, v = VArr (e :: l))).
  { destruct (isEqual a b); [discriminate|]. intros [= <-]. left. now eexists; eexists. }
  destruct a; try exact S. destruct b; try exact S.
  destruct (set_markers sortByItems _ _) as [|e l]; [discriminate|].
  intros [= <-]. right. now exists e, l.
Qed.

(** X23.  Whenever [diff] returns, with a descriptor built by
    [TypeDescriptors.create], every entry of the result is either a marker
    holding the removed and the added value of a primitive property, or an
    array that is not empty: a property is listed only when something was
    found to differ, and never with an empty array. *)
Theorem diff_entries_shape (sortByItems : list value -> list value)
    (x y : value) (descriptor : TypeDescriptor) (log : list string)
    (cr : ChangeResult) (name : string) (v : value) :
  well_bound descriptor = true ->
  fst (diff sortByItems x y descriptor log) = Ok cr ->
  assoc name cr = Some v ->
  entry_shape v.
Proof.
  intros WB Hrun Hv.
  apply fst_ok_run in Hrun. destruct Hrun as [log' Hrun].
  unfold diff in Hrun. simpl _processChanges in Hrun.
  pose proof (sorted_keys_NoDup _ WB) as ND.
  assert (Hkeys : forall k, In k (sortBy (Object_keys (td_properties descriptor))) ->
                    In k (Object_keys (td_properties descriptor)))
    by (intros k Hk; now apply sortBy_In).
  destruct (in_dec string_dec name
              (sortBy (Object_keys (td_properties descriptor)))) as [Hin | Hout].
  - destruct (process_keys_step_of sortByItems _ x y descriptor WB x y _ ND Hkeys
                _ _ _ _ Hrun name Hin)
      as [[_ E] | [c0 [c1 [l [l1 [Hstep [E0 E1]]]]]]];
      [simpl in E; congruence|].
    simpl in E0. rewrite E1 in Hv.
    destruct (process_property_frame sortByItems _ x y descriptor WB
                _ _ _ _ _ _ _ (Hkeys _ Hin) Hstep)
      as [Nx [Ny [[[=] _] | [c1' [[= <-] [_ P]]]]]].
    destruct (property_of_bound _ _ WB (Hkeys _ Hin)) as [_ [Hbound Hcomplex]].
    destruct (pd_type (property_of descriptor name)) eqn:Hty.
    1-3: (rewrite P in Hv by discriminate; rewrite E0 in Hv;
          destruct (primitive_entry sortByItems (field x name) (field y name))
            as [w|] eqn:Ew; [|discriminate];
          injection Hv as <-; exact (primitive_entry_shape _ _ _ _ Ew)).
    destruct (Hcomplex eq_refl) as [td [Htd _]].
    unfold process_property in Hstep.
    rewrite (prop_get_nonnil _ _ Nx), (prop_get_nonnil _ _ Ny) in Hstep.
    rewrite !bind_lift_ok in Hstep. rewrite Hbound, Hty, Htd in Hstep.
    destruct (_toArray (td_primaryKey td)) as [pks|]; [|discriminate].
    destruct (field x name) as [| | | | |xs|], (field y name) as [| | | | |ys|];
      simpl in Hstep; try discriminate;
      try (injection Hstep as <- _; congruence).
    apply bind_ok_inv in Hstep. destruct Hstep as [c2 [l2 [Hc Hret]]].
    injection Hret as <- _.
    destruct (complex_arrays_entry _ _ _ _ _ _ _ _ _ _ _ _ E0 Hc)
      as [c [rs [xs' [la [lb [icrs [records [_ [_ [_ [_ [_ E]]]]]]]]]]]].
    rewrite E in Hv. unfold append_entry in Hv.
    destruct (rs ++ xs' ++ List.concat records)%list as [|e es];
      [congruence|].
    rewrite (assoc_app_last _ _ _ E0) in Hv. injection Hv as <-.
    right. now exists e, es.
  - destruct (process_keys_frame sortByItems _ x y descriptor WB x y _ ND Hkeys
                _ _ _ _ Hrun) as [A _].
    rewrite (A name Hout) in Hv. discriminate.
Qed.

Lemma complex_property_entry_witness :
  exists c removedSnapshots addedSnapshots walked records,
    _getChanges [ObjectDiffExample.removedCar; ObjectDiffExample.modifiedCar]
      [ObjectDiffExample.addedCar; ObjectDiffExample.modifiedCar_to] ["id"]
    = Ok c /\
    rmap (snapshot_result CarTypeDescriptorRegistry.automobile) (removed c)
    = Ok removedSnapshots /\
    rmap (snapshot_result CarTypeDescriptorRegistry.automobile) (added c)
    = Ok addedSnapshots /\
    rmap (fun p => fst (diff sortBy_primitives (from p) (to p)
                          CarTypeDescriptorRegistry.automobile [])) (inBoth c)
    = Ok walked /\
    rmap (pair_record ["id"]) (combine (inBoth c) walked) = Ok records /\
    assoc "cars" ExpectedExample.changes
    = match (map removed_entry removedSnapshots ++
             map added_entry addedSnapshots ++ List.concat records)%list with
      | [] => None
      | entries => Some (VArr entries)
      end.
Proof.
  apply (complex_property_entry sortBy_primitives ObjectDiffExample.from
           ObjectDiffExample.to CarTypeDescriptorRegistry.automobileCollection
           CarTypeDescriptorRegistry.automobile [] ExpectedExample.changes
           "cars" ["id"]
           [ObjectDiffExample.removedCar; ObjectDiffExample.modifiedCar]
           [ObjectDiffExample.addedCar; ObjectDiffExample.modifiedCar_to]);
    try reflexivity.
  simpl. tauto.
Defined.

Lemma diff_entries_shape_witness :
  entry_shape
    (VArr [VObj [(removed_marker,
                  ExpectedExample.car_snapshot "truck_1" "toyota" "tacoma")]]).
Proof.
  apply (diff_entries_shape sortBy_primitives ObjectDiffExample.from
           ObjectDiffExample.to CarTypeDescriptorRegistry.automobileCollection []
           ExpectedExample.changes "trucks"); reflexivity.
Defined.

(** ** The projector under a descriptor without names *)

(** X24.  The projector checks the name of a property descriptor before it
    reads the element: under a descriptor whose property descriptors carry
    no name, the snapshot of any value, [null] and [undefined] included,
    is the empty record, and one message is logged. *)
Theorem unbound_descriptor_empty_snapshot (root item : value)
    (descriptor : TypeDescriptor) (log : list string) :
  td_properties descriptor <> [] ->
  (forall key pd, In (key, pd) (td_properties descriptor) -> pd_name pd = None) ->
  snapshot root item descriptor log
  = (Ok [], (log ++ [msg_need_name descriptor])%list).
Proof.
  intros Hne Hunbound. unfold snapshot.
  simpl _processComplexTypeTransformations.
  assert (Hk : Object_keys (td_properties descriptor) <> []).
  { unfold Object_keys. destruct (td_properties descriptor); [contradiction|].
    discriminate. }
  pose proof (sortBy_nonempty _ Hk) as Hs.
  destruct (sortBy (Object_keys (td_properties descriptor))) as [|key rest] eqn:E;
    [contradiction|].
  assert (Hin : In key (Object_keys (td_properties descriptor))).
  { apply sortBy_In. rewrite E. now left. }
  destruct (keys_assoc _ _ Hin) as [pd Hpd].
  assert (Hname : bound_name (property_of descriptor key) = None).
  { unfold property_of, bound_name. rewrite Hpd.
    now rewrite (Hunbound key pd (assoc_In _ _ _ Hpd)). }
  cbn [transform_keys]. rewrite Hname. reflexivity.
Qed.

Lemma unbound_descriptor_empty_snapshot_witness :
  snapshot VUndefined VNull
    (MkTypeDescriptor "Car" [("cost", PropertyDescriptors.number)] None) []
  = (Ok [], ([] ++ [msg_need_name
                      (MkTypeDescriptor "Car" [("cost", PropertyDescriptors.number)]
                         None)])%list).
Proof.
  apply (unbound_descriptor_empty_snapshot VUndefined VNull
           (MkTypeDescriptor "Car" [("cost", PropertyDescriptors.number)] None) []).
  - discriminate.
  - intros key pd [[= <- <-] | []]. reflexivity.
Defined.

(** ** Properties the descriptor does not mention *)

Lemma agree_records (d : TypeDescriptor) (x x' : value) :
  agree d x x' -> is_record x = true /\ is_record x' = true.
Proof. destruct d as [n ps pk]. simpl. tauto. Qed.

Lemma agree_primaryKeys (d : TypeDescriptor) (x x' : value) (pks : list string) :
  agree d x x' -> _toArray (td_primaryKey d) = Some pks ->
  forall k, In k pks -> field x k = field x' k.
Proof.
  destruct d as [n ps pk]. simpl. intros [_ [_ [H _]]] E. now rewrite E in H.
Qed.

Lemma agree_property (d : TypeDescriptor) (x x' : value) (key : string)
    (pd : PropertyDescriptor) :
  agree d x x' -> In (key, pd) (td_properties d) ->
  match pd_type pd, pd_descriptor pd with
  | TComplex, Some d' =>
      match field x key, field x' key with
      | VArr l, VArr l' => Forall2 (agree d') l l'
      | v, v' => v = v'
      end
  | _, _ => field x key = field x' key
  end.
Proof.
  destruct d as [n ps pk]. simpl. intros [_ [_ [_ H]]].
  induction ps as [|[k [ty nested nm]] ps IH]; intros Hin; [destruct Hin|].
  destruct Hin as [E | Hin].
  - injection E as -> <-. simpl.
    destruct ty; try (destruct H as [H _]; exact H).
    destruct nested as [d'|]; destruct H as [H _]; exact H.
  - apply IH; [|assumption].
    destruct ty; try (destruct H as [_ H]; exact H).
    destruct nested as [d'|]; destruct H as [_ H]; exact H.
Qed.

Lemma agree_canonical_key (td : TypeDescriptor) (pks : list string)
    (a a' : value) :
  _toArray (td_primaryKey td) = Some pks -> agree td a a' ->
  canonical_key a pks = canonical_key a' pks.
Proof.
  intros Hpks H. apply canonical_key_ext. intros pk Hpk. unfold key_part.
  now rewrite (agree_primaryKeys _ _ _ _ H Hpks pk Hpk).
Qed.

Lemma Forall2_filter {A} (R : A -> A -> Prop) (p q : A -> bool) (l l' : list A) :
  Forall2 R l l' -> (forall a a', R a a' -> p a = q a') ->
  Forall2 R (filter p l) (filter q l').
Proof.
  intros H Hpq. induction H as [|a a' l l' Ha _ IH]; simpl; [constructor|].
  rewrite (Hpq a a' Ha). destruct (q a'); [now constructor | assumption].
Qed.

Lemma Forall2_find {A} (R : A -> A -> Prop) (p q : A -> bool) (l l' : list A) :
  Forall2 R l l' -> (forall a a', R a a' -> p a = q a') ->
  match List.find p l, List.find q l' with
  | Some a, Some a' => R a a'
  | None, None => True
  | _, _ => False
  end.
Proof.
  intros H Hpq. induction H as [|a a' l l' Ha _ IH]; simpl; [exact I|].
  rewrite (Hpq a a' Ha). destruct (q a'); assumption.
Qed.

Lemma Forall2_map_eq {A B} (R : A -> A -> Prop) (f g : A -> B) (l l' : list A) :
  Forall2 R l l' -> (forall a a', R a a' -> f a = g a') -> map f l = map g l'.
Proof.
  intros H Hfg. induction H as [|a a' l l' Ha _ IH]; simpl; [reflexivity|].
  now rewrite (Hfg a a' Ha), IH.
Qed.

Lemma Forall2_records (td : TypeDescriptor) (l l' : list value) :
  Forall2 (agree td) l l' ->
  forallb is_record l = true /\ forallb is_record l' = true.
Proof.
  induction 1 as [|a a' l l' Ha _ [IH1 IH2]]; simpl; [now split|].
  destruct (agree_records _ _ _ Ha) as [-> ->]. now split.
Qed.

Lemma rmap_rel {A B} (R : B -> B -> Prop) (f g : A -> result B) (l : list A) :
  (forall x, In x l -> result_rel R (f x) (g x)) ->
  result_rel (Forall2 R) (rmap f l) (rmap g l).
Proof.
  induction l as [|x l IH]; intros H; simpl; [constructor|].
  pose proof (H x (or_introl eq_refl)) as Hx.
  destruct (f x) as [b|e|], (g x) as [b'|e'|]; simpl in *; try contradiction;
    try assumption.
  specialize (IH (fun y Hy => H y (or_intror Hy))).
  destruct (rmap f l) as [bs|e|], (rmap g l) as [bs'|e'|]; simpl in *;
    try contradiction; try assumption.
  now constructor.
Qed.

(** Agreeing arrays reconcile alike. *)
Lemma _getChanges_agree (td : TypeDescriptor) (pks : list string)
    (xs xs' ys ys' : list value) :
  _toArray (td_primaryKey td) = Some pks ->
  Forall2 (agree td) xs xs' -> Forall2 (agree td) ys ys' ->
  result_rel (changes_agree td) (_getChanges xs ys pks) (_getChanges xs' ys' pks).
Proof.
  intros Hpks Hx Hy.
  destruct (Forall2_records _ _ _ Hx) as [Rx Rx'].
  destruct (Forall2_records _ _ _ Hy) as [Ry Ry'].
  rewrite (_getChanges_not_nil _ _ _ (records_not_nil _ Rx) (records_not_nil _ Ry)).
  rewrite (_getChanges_not_nil _ _ _ (records_not_nil _ Rx') (records_not_nil _ Ry')).
  cbv zeta.
  assert (Ek : forall a a', agree td a a' ->
                 canonical_key a pks = canonical_key a' pks)
    by (intros a a'; now apply agree_canonical_key).
  assert (Em : matched_keys pks xs ys = matched_keys pks xs' ys').
  { unfold matched_keys.
    now rewrite (Forall2_map_eq _ _ _ _ _ Hx Ek), (Forall2_map_eq _ _ _ _ _ Hy Ek). }
  rewrite <- Em. set (matched := matched_keys pks xs ys).
  assert (P : result_rel (Forall2 (pair_agree td))
                (rmap (pair_for pks xs ys) matched)
                (rmap (pair_for pks xs' ys') matched)).
  { apply rmap_rel. intros k _. unfold pair_for, first_with_key.
    pose proof (Forall2_find (agree td)
                  (fun item => String.eqb (canonical_key item pks) k)
                  (fun item => String.eqb (canonical_key item pks) k)
                  xs xs' Hx) as Fx.
    pose proof (Forall2_find (agree td)
                  (fun item => String.eqb (canonical_key item pks) k)
                  (fun item => String.eqb (canonical_key item pks) k)
                  ys ys' Hy) as Fy.
    destruct (List.find _ xs) as [f|], (List.find _ xs') as [f'|];
      try (exfalso; apply Fx; intros a a' Ha; now rewrite (Ek a a' Ha));
      try reflexivity.
    destruct (List.find _ ys) as [t|], (List.find _ ys') as [t'|];
      try (exfalso; apply Fy; intros a a' Ha; now rewrite (Ek a a' Ha));
      try reflexivity.
    assert (Af : agree td f f')
      by (apply Fx; intros a a' Ha; now rewrite (Ek a a' Ha)).
    assert (At : agree td t t')
      by (apply Fy; intros a a' Ha; now rewrite (Ek a a' Ha)).
    destruct (agree_records _ _ _ Af) as [Rf Rf'].
    destruct (agree_records _ _ _ At) as [Rt Rt'].
    rewrite !is_record_truthy by assumption. simpl.
    repeat split; assumption. }
  destruct (rmap (pair_for pks xs ys) matched) as [pairs|e|],
           (rmap (pair_for pks xs' ys') matched) as [pairs'|e'|];
    simpl in *; try contradiction; try assumption.
  unfold changes_agree. simpl. repeat split; try assumption.
  - apply Forall2_filter; [assumption|]. intros a a' Ha. now rewrite (Ek a a' Ha).
  - apply Forall2_filter; [assumption|]. intros a a' Ha. now rewrite (Ek a a' Ha).
Qed.

Lemma mapM_Forall2 {A B} (R : A -> A -> Prop) (f g : A -> M B) (l l' : list A) :
  Forall2 R l l' ->
  (forall a a' log, R a a' -> f a log = g a' log) ->
  forall log, mapM f l log = mapM g l' log.
Proof.
  intros H Hfg. induction H as [|a a' l l' Ha _ IH]; intros log; simpl;
    [reflexivity|].
  apply bind_ext; [now apply Hfg|]. intros y log1.
  apply bind_ext; [apply IH | reflexivity].
Qed.

Section AgreeProjector.
Variable self :
  list (string * value) -> value -> value -> TypeDescriptor ->
  M (list (string * value)).
Variable descriptor : TypeDescriptor.
Variables root root' : value.
Hypothesis WB : well_bound descriptor = true.
Hypothesis self_agree :
  forall td r item item' log,
    well_bound td = true -> agree td item item' ->
    self r root item td log = self r root' item' td log.

Lemma transform_keys_agree (x x' : value) (keys : list string) :
  agree descriptor x x' ->
  (forall k, In k keys -> In k (Object_keys (td_properties descriptor))) ->
  forall result log,
    transform_keys self root x descriptor keys result log
    = transform_keys self root' x' descriptor keys result log.
Proof.
  intros Hag. destruct (agree_records _ _ _ Hag) as [Rx Rx'].
  pose proof (is_record_not_nil _ Rx) as Nx.
  pose proof (is_record_not_nil _ Rx') as Nx'.
  induction keys as [|key rest IH]; intros Hkeys result log; [reflexivity|].
  assert (Hrest : forall k, In k rest ->
                    In k (Object_keys (td_properties descriptor)))
    by (intros k Hk; apply Hkeys; now right).
  destruct (property_of_bound _ _ WB (Hkeys key (or_introl eq_refl)))
    as [Hin [Hname Hcomplex]].
  pose proof (agree_property _ _ _ _ _ Hag Hin) as P.
  cbn [transform_keys]. rewrite Hname.
  rewrite (prop_get_nonnil _ _ Nx), (prop_get_nonnil _ _ Nx'). walk_simpl.
  destruct (pd_type (property_of descriptor key)) eqn:Hty.
  1-3: (rewrite P; now rewrite IH).
  destruct (Hcomplex eq_refl) as [td [Htd WBtd]]. rewrite Htd in *.
  destruct (field x key) as [| | | | |l|] eqn:Fx;
    destruct (field x' key) as [| | | | |l'|] eqn:Fx'; try discriminate;
    try (simpl; now apply IH); try (simpl; reflexivity).
  apply bind_ext.
  - apply (mapM_Forall2 (agree td)); [assumption|].
    intros a a' log1 Ha. now apply self_agree.
  - intros rendered log1. now apply IH.
Qed.
End AgreeProjector.

Lemma _processComplexTypeTransformations_agree (n : nat) :
  forall descriptor result root root' x x' log,
    well_bound descriptor = true -> agree descriptor x x' ->
    _processComplexTypeTransformations n result root x descriptor log
    = _processComplexTypeTransformations n result root' x' descriptor log.
Proof.
  induction n as [|n IH]; intros descriptor result root root' x x' log WB Hag;
    [reflexivity|].
  simpl.
  apply (transform_keys_agree (_processComplexTypeTransformations n) descriptor
           root root' WB); try assumption.
  - intros td r item item' log0 WBtd Ha. now apply IH.
  - intros k Hk. now apply sortBy_In.
Qed.

Lemma snapshot_entries_agree (marker : string) (root root' : value)
    (td : TypeDescriptor) (items items' : list value) (log : list string) :
  well_bound td = true -> Forall2 (agree td) items items' ->
  snapshot_entries marker root td items log
  = snapshot_entries marker root' td items' log.
Proof.
  intros WB H. unfold snapshot_entries.
  apply (mapM_Forall2 (agree td)); [assumption|].
  intros a a' log1 Ha. apply bind_ext; [|reflexivity].
  unfold snapshot. now apply _processComplexTypeTransformations_agree.
Qed.

Lemma primaryKey_fields_agree (a a' : value) (pks : list string) :
  isNil a = false -> isNil a' = false ->
  (forall k, In k pks -> field a k = field a' k) ->
  forall acc, primaryKey_fields a pks acc = primaryKey_fields a' pks acc.
Proof.
  intros Na Na'. induction pks as [|pk pks IH]; intros H acc; simpl;
    [reflexivity|].
  rewrite (prop_get_nonnil _ _ Na), (prop_get_nonnil _ _ Na'). simpl.
  rewrite (H pk (or_introl eq_refl)). apply IH.
  intros k Hk. apply H. now right.
Qed.

Section AgreeWalk.
Variable sortByItems : list value -> list value.
Variable self :
  ChangeResult -> value -> value -> value -> value -> TypeDescriptor ->
  M ChangeResult.
Variables fromRoot toRoot fromRoot' toRoot' : value.
Variable descriptor : TypeDescriptor.
Hypothesis WB : well_bound descriptor = true.
Hypothesis self_agree :
  forall td cr f f' t t' log,
    well_bound td = true -> agree td f f' -> agree td t t' ->
    self cr fromRoot toRoot f t td log = self cr fromRoot' toRoot' f' t' td log.

Lemma matched_pairs_agree (name : string) (pks : list string)
    (td : TypeDescriptor) (pairs pairs' : list InBoth) :
  well_bound td = true -> _toArray (td_primaryKey td) = Some pks ->
  Forall2 (pair_agree td) pairs pairs' ->
  forall cr log,
    matched_pairs self fromRoot toRoot name pks td pairs cr log
    = matched_pairs self fromRoot' toRoot' name pks td pairs' cr log.
Proof.
  intros WBtd Hpks H. induction H as [|p p' pairs pairs' [Ek [Af At]] _ IH];
    intros cr log; simpl; [reflexivity|].
  apply bind_ext; [now apply self_agree|]. intros icr log1.
  destruct (Nat.ltb 0 (size icr)); [|apply IH].
  assert (E : itemChangeResultFinal pks p icr = itemChangeResultFinal pks p' icr).
  { unfold itemChangeResultFinal.
    destruct (agree_records _ _ _ Af) as [Rf Rf'].
    now rewrite (primaryKey_fields_agree (from p) (from p') pks
                   (is_record_not_nil _ Rf) (is_record_not_nil _ Rf')
                   (agree_primaryKeys _ _ _ _ Af Hpks)). }
  rewrite E. apply bind_ext; [reflexivity|]. intros final log2. apply IH.
Qed.

Lemma emit_unmatched_agree (cr : ChangeResult) (name : string)
    (td : TypeDescriptor) (rs rs' xs xs' : list value) (log : list string) :
  well_bound td = true ->
  Forall2 (agree td) rs rs' -> Forall2 (agree td) xs xs' ->
  emit_unmatched fromRoot toRoot cr name td rs xs log
  = emit_unmatched fromRoot' toRoot' cr name td rs' xs' log.
Proof.
  intros WBtd Hr Hx. unfold emit_unmatched.
  assert (E : (if entry_missing cr name
               then
                 removedEntries <- snapshot_entries removed_marker fromRoot td rs ;;
                 addedEntries <- snapshot_entries added_marker toRoot td xs ;;
                 ret (assoc_set name (VArr (removedEntries ++ addedEntries)) cr)
               else ret cr) log
              = (if entry_missing cr name
                 then
                   removedEntries <-
                     snapshot_entries removed_marker fromRoot' td rs' ;;
                   addedEntries <- snapshot_entries added_marker toRoot' td xs' ;;
                   ret (assoc_set name (VArr (removedEntries ++ addedEntries)) cr)
                 else ret cr) log).
  { destruct (entry_missing cr name); [|reflexivity].
    apply bind_ext; [now apply snapshot_entries_agree|]. intros es log1.
    apply bind_ext; [now apply snapshot_entries_agree | reflexivity]. }
  destruct Hr, Hx; try reflexivity; exact E.
Qed.

Lemma complex_arrays_agree (cr : ChangeResult) (name : string)
    (pks : list string) (td : TypeDescriptor) (xs xs' ys ys' : list value)
    (log : list string) :
  well_bound td = true -> _toArray (td_primaryKey td) = Some pks ->
  Forall2 (agree td) xs xs' -> Forall2 (agree td) ys ys' ->
  complex_arrays self fromRoot toRoot cr name pks td xs ys log
  = complex_arrays self fromRoot' toRoot' cr name pks td xs' ys' log.
Proof.
  intros WBtd Hpks Hx Hy. unfold complex_arrays.
  pose proof (_getChanges_agree td pks xs xs' ys ys' Hpks Hx Hy) as G.
  destruct (_getChanges xs ys pks) as [c|e|], (_getChanges xs' ys' pks) as [c'|e'|];
    simpl in G; try contradiction; try (subst; reflexivity).
  destruct G as [Gr [Ga Gp]]. walk_simpl.
  apply bind_ext; [now apply emit_unmatched_agree|]. intros cr1 log1.
  now apply matched_pairs_agree.
Qed.

Lemma process_property_agree (x x' y y' : value) (key : string)
    (cr : ChangeResult) (log : list string) :
  agree descriptor x x' -> agree descriptor y y' ->
  In key (Object_keys (td_properties descriptor)) ->
  process_property sortByItems self fromRoot toRoot descriptor x y key cr log
  = process_property sortByItems self fromRoot' toRoot' descriptor x' y' key cr log.
Proof.
  intros Hx Hy Hk.
  destruct (agree_records _ _ _ Hx) as [Rx Rx'].
  destruct (agree_records _ _ _ Hy) as [Ry Ry'].
  pose proof (is_record_not_nil _ Rx) as Nx.
  pose proof (is_record_not_nil _ Rx') as Nx'.
  pose proof (is_record_not_nil _ Ry) as Ny.
  pose proof (is_record_not_nil _ Ry') as Ny'.
  destruct (property_of_bound _ _ WB Hk) as [Hin [Hname Hcomplex]].
  pose proof (agree_property _ _ _ _ _ Hx Hin) as Px.
  pose proof (agree_property _ _ _ _ _ Hy Hin) as Py.
  destruct (pd_type (property_of descriptor key)) eqn:Hty.
  1-3: (unfold process_property;
        rewrite (prop_get_nonnil _ _ Nx), (prop_get_nonnil _ _ Nx');
        rewrite (prop_get_nonnil _ _ Ny), (prop_get_nonnil _ _ Ny');
        walk_simpl; rewrite Hname, Hty;
        rewrite (prop_get_nonnil _ _ Nx), (prop_get_nonnil _ _ Nx');
        rewrite (prop_get_nonnil _ _ Ny), (prop_get_nonnil _ _ Ny');
        walk_simpl; now rewrite Px, Py).
  destruct (Hcomplex eq_refl) as [td [Htd WBtd]]. rewrite Htd in *.
  destruct (_toArray (td_primaryKey td)) as [pks|] eqn:Hpks.
  - rewrite (process_property_complex sortByItems self fromRoot toRoot descriptor
               x y key key td pks cr Nx Ny Hname Hty Htd Hpks).
    rewrite (process_property_complex sortByItems self fromRoot' toRoot' descriptor
               x' y' key key td pks cr Nx' Ny' Hname Hty Htd Hpks).
    destruct (field x key) as [| | | | |l|] eqn:Fx;
      destruct (field x' key) as [| | | | |l'|] eqn:Fx'; try discriminate;
      destruct (field y key) as [| | | | |m|] eqn:Fy;
      destruct (field y' key) as [| | | | |m'|] eqn:Fy'; try discriminate;
      try reflexivity;
      try (injection Px as ->); try (injection Py as ->); try reflexivity.
    apply bind_ext; [now apply complex_arrays_agree | reflexivity].
  - unfold process_property.
    rewrite (prop_get_nonnil _ _ Nx), (prop_get_nonnil _ _ Nx').
    rewrite (prop_get_nonnil _ _ Ny), (prop_get_nonnil _ _ Ny').
    walk_simpl. now rewrite Hname, Hty, Htd, Hpks.
Qed.

Lemma process_keys_agree (x x' y y' : value) (keys : list string) :
  agree descriptor x x' -> agree descriptor y y' ->
  (forall k, In k keys -> In k (Object_keys (td_properties descriptor))) ->
  forall cr log,
    process_keys sortByItems self fromRoot toRoot descriptor x y keys cr log
    = process_keys sortByItems self fromRoot' toRoot' descriptor x' y' keys cr log.
Proof.
  intros Hx Hy. induction keys as [|key rest IH]; intros Hkeys cr log; simpl;
    [reflexivity|].
  apply bind_ext.
  - apply process_property_agree; try assumption. apply Hkeys. now left.
  - intros [cr1 | cr1] log1; [reflexivity|].
    apply IH. intros k Hk. apply Hkeys. now right.
Qed.
End AgreeWalk.

Lemma _processChanges_agree (sortByItems : list value -> list value) (n : nat) :
  forall descriptor cr r1 r2 r1' r2' x x' y y' log,
    well_bound descriptor = true ->
    agree descriptor x x' -> agree descriptor y y' ->
    _processChanges sortByItems n cr r1 r2 x y descriptor log
    = _processChanges sortByItems n cr r1' r2' x' y' descriptor log.
Proof.
  induction n as [|n IH]; intros descriptor cr r1 r2 r1' r2' x x' y y' log WB Hx Hy;
    [reflexivity|].
  simpl.
  apply (process_keys_agree sortByItems (_processChanges sortByItems n)
           r1 r2 r1' r2' descriptor WB); try assumption.
  - intros td cr0 f f' t t' log0 WBtd Hf Ht. now apply IH.
  - intros k Hk. now apply sortBy_In.
Qed.

(** X25.  [diff] reads its two values only through the descriptor: with a
    descriptor built by [TypeDescriptors.create] at every level, two pairs
    of values that agree, at every level, on the properties and primary
    keys the descriptors mention give the same result and the same
    messages.  Whatever else the values hold, added, changed or missing,
    makes no difference. *)
Theorem diff_ignores_undeclared (sortByItems : list value -> list value)
    (x x' y y' : value) (descriptor : TypeDescriptor) (log : list string) :
  well_bound descriptor = true ->
  agree descriptor x x' -> agree descriptor y y' ->
  diff sortByItems x y descriptor log = diff sortByItems x' y' descriptor log.
Proof.
  intros WB Hx Hy. unfold diff. now apply _processChanges_agree.
Qed.

Lemma diff_ignores_undeclared_witness :
  diff sortBy_primitives ObjectDiffExample.truck ObjectDiffExample.modifiedCar
    CarTypeDescriptorRegistry.automobile []
  = diff sortBy_primitives UndeclaredExample.truck_noted
      ObjectDiffExample.modifiedCar CarTypeDescriptorRegistry.automobile [].
Proof.
  apply (diff_ignores_undeclared sortBy_primitives ObjectDiffExample.truck
           UndeclaredExample.truck_noted ObjectDiffExample.modifiedCar
           ObjectDiffExample.modifiedCar CarTypeDescriptorRegistry.automobile []).
  - reflexivity.
  - simpl. repeat split; try reflexivity; repeat constructor;
      try (intros k [<- | []]; reflexivity).
  - simpl. repeat split; try reflexivity; repeat constructor;
      try (intros k [<- | []]; reflexivity).
Defined.

(** ** A single changed property *)

(** The iteration of a primitive property. *)
Lemma process_property_primitive (sortByItems : list value -> list value)
    (self : ChangeResult -> value -> value -> value -> value -> TypeDescriptor ->
            M ChangeResult)
    (fromRoot toRoot : value) (descriptor : TypeDescriptor) (x y : value)
    (key name : string) (cr : ChangeResult) (log : list string) :
  isNil x = false -> isNil y = false ->
  bound_name (property_of descriptor key) = Some name ->
  pd_type (property_of descriptor key) <> TComplex ->
  process_property sortByItems self fromRoot toRoot descriptor x y key cr log
  = (Ok (inr (write_entry name
                (primitive_entry sortByItems (field x name) (field y name)) cr)),
     log).
Proof.
  intros Nx Ny Hname Hty. unfold process_property.
  rewrite (prop_get_nonnil _ _ Nx), (prop_get_nonnil _ _ Ny). walk_simpl.
  rewrite Hname.
  destruct (pd_type (property_of descriptor key)); try (now contradiction Hty).
  all: rewrite (prop_get_nonnil _ _ Nx), (prop_get_nonnil _ _ Ny); walk_simpl;
    unfold primitive_entry, write_entry;
    destruct (field x name), (field y name);
    try (destruct (isEqual _ _); reflexivity);
    rewrite primitive_arrays_only_in;
    destruct (set_markers sortByItems _ _); reflexivity.
Qed.

(** A property is quiet when its two values are the value it has in a
    well-formed record compatible with the descriptor. *)
Lemma quiet_same_field (sortByItems : list value -> list value) (n : nat)
    (descriptor : TypeDescriptor) (x y z : value) (key : string)
    (fromRoot toRoot : value) :
  (td_depth descriptor <= n)%nat ->
  well_bound descriptor = true ->
  wf_value z = true -> compatible descriptor z = true ->
  In key (Object_keys (td_properties descriptor)) ->
  field x key = field z key -> field y key = field z key ->
  quiet_property (_processChanges sortByItems n) fromRoot toRoot descriptor x y key.
Proof.
  intros Hn WB W C Hk Fx Fy. unfold quiet_property. cbv zeta. intros name Hname.
  destruct (property_of_bound _ _ WB Hk) as [Hin [Hbound _]].
  assert (name = key) by congruence. subst name.
  destruct (pd_type (property_of descriptor key)) eqn:Hty;
    try (left; rewrite Fx, Fy; split; [reflexivity | now apply wf_value_field]).
  intros td pks Htd Hpks. rewrite Fx, Fy.
  pose proof (compatible_property _ _ _ _ _ C Hin Hty Htd) as Shape.
  pose proof (wf_value_field z key W) as Wf.
  destruct (field z key) as [| | | | |items|] eqn:Fv; try discriminate;
    try (left; split; reflexivity).
  right.
  pose proof (compatible_items_records _ _ Shape) as Rec.
  destruct (_getChanges_same_keys pks items items Rec Rec) as [pairs [Hg Hp]];
    try (intros w Hw; now exists w).
  exists items, items, pairs. repeat split; try assumption.
  rewrite Forall_forall in *. intros p Hpin log.
  destruct (Hp p Hpin) as [Ff [Ft _]].
  assert (E : from p = to p) by congruence.
  destruct (first_with_key_Some _ _ _ _ Ff) as [Hf _].
  rewrite <- E. apply _processChanges_same.
  - pose proof (nested_depth _ _ _ _ Hin Htd). lia.
  - exact (wf_value_items _ _ Wf Hf).
  - exact (forallb_In _ _ _ Shape Hf).
Qed.

(** A run of the loop in which every property but [name] is quiet. *)
Section LocalWalk.
Variable sortByItems : list value -> list value.
Variable self :
  ChangeResult -> value -> value -> value -> value -> TypeDescriptor ->
  M ChangeResult.
Variables fromRoot toRoot : value.
Variable descriptor : TypeDescriptor.
Variables x y : value.
Variable name : string.
Variable written : ChangeResult -> ChangeResult.
Hypothesis WB : well_bound descriptor = true.
Hypothesis KD : keyed descriptor = true.
Hypothesis Nx : isNil x = false.
Hypothesis Ny : isNil y = false.
Hypothesis Hstep :
  forall cr log, exists log',
    process_property sortByItems self fromRoot toRoot descriptor x y name cr log
    = (Ok (inr (written cr)), log').
Hypothesis Hquiet :
  forall k, In k (Object_keys (td_properties descriptor)) -> k <> name ->
    quiet_property self fromRoot toRoot descriptor x y k.

Lemma process_keys_local (keys : list string) :
  NoDup keys ->
  (forall k, In k keys -> In k (Object_keys (td_properties descriptor))) ->
  forall cr log, exists log',
    process_keys sortByItems self fromRoot toRoot descriptor x y keys cr log
    = (Ok (if existsb (String.eqb name) keys then written cr else cr), log').
Proof.
  induction keys as [|key rest IH]; intros ND Hkeys cr log.
  - exists log. reflexivity.
  - inversion ND as [|? ? Hnotin ND']; subst.
    assert (Hrest : forall k, In k rest ->
                      In k (Object_keys (td_properties descriptor)))
      by (intros k Hk; apply Hkeys; now right).
    pose proof (Hkeys key (or_introl eq_refl)) as Hkey.
    cbn [process_keys existsb].
    destruct (String.eqb_spec name key) as [<- | Hne].
    + destruct (Hstep cr log) as [log1 H1].
      rewrite (bind_run_ok _ _ _ _ _ H1).
      destruct (IH ND' Hrest (written cr) log1) as [log' H].
      exists log'. rewrite H. simpl.
      destruct (existsb (String.eqb name) rest) eqn:E; [|reflexivity].
      apply existsb_eqb_In in E. contradiction.
    + destruct (process_property_quiet sortByItems self fromRoot toRoot descriptor
                  x y key cr Nx Ny
                  (Hquiet key Hkey (fun E => Hne (eq_sym E))) log)
        as [log1 [step [H1 Hs]]].
      rewrite (bind_run_ok _ _ _ _ _ H1).
      destruct (process_property_frame sortByItems self fromRoot toRoot descriptor
                  WB _ _ _ _ _ _ _ Hkey H1)
        as [_ [_ [[_ KDf] | [cr1 [E1 _]]]]]; [congruence|].
      destruct Hs as [-> | ->]; [discriminate|]. simpl.
      apply IH; assumption.
Qed.
End LocalWalk.

(** [diff] between two records that differ in the property [name] only. *)
Lemma diff_local (sortByItems : list value -> list value)
    (descriptor : TypeDescriptor) (x y z : value) (name : string)
    (written : ChangeResult -> ChangeResult) (log : list string) :
  well_bound descriptor = true -> keyed descriptor = true ->
  wf_value z = true -> compatible descriptor z = true ->
  isNil x = false -> isNil y = false ->
  In name (Object_keys (td_properties descriptor)) ->
  (forall k, k <> name -> field x k = field z k /\ field y k = field z k) ->
  (forall cr log, exists log',
     process_property sortByItems
       (_processChanges sortByItems (td_depth descriptor)) x y descriptor x y
       name cr log
     = (Ok (inr (written cr)), log')) ->
  diff sortByItems x y descriptor log = (Ok (written []), log).
Proof.
  intros WB KD W C Nx Ny Hname Hsame Hstep.
  pose proof (configured_run := _processChanges_silent sortByItems
                (S (td_depth descriptor)) descriptor [] x y x y WB KD log).
  unfold diff in *. simpl _processChanges in *.
  destruct (process_keys_local sortByItems
              (_processChanges sortByItems (td_depth descriptor))
              x y descriptor x y name written WB KD Nx Ny Hstep)
    with (keys := sortBy (Object_keys (td_properties descriptor)))
         (cr := @nil (string * value)) (log := log) as [log' H].
  - intros k Hk Hne. destruct (Hsame k Hne) as [Ex Ey].
    apply (quiet_same_field sortByItems _ descriptor x y z); try assumption. lia.
  - now apply sorted_keys_NoDup.
  - intros k Hk. now apply sortBy_In.
  - rewrite H in configured_run. simpl in configured_run. subst log'.
    rewrite H. f_equal. f_equal.
    assert (E : existsb (String.eqb name)
                  (sortBy (Object_keys (td_properties descriptor))) = true)
      by (apply existsb_eqb_In; now apply sortBy_In).
    now rewrite E.
Qed.

(** X26.  Changing one primitive property changes one entry: with a fully
    configured descriptor, a well-formed value compatible with it and the
    same value with one primitive property set to [v], [diff] returns
    exactly the entry of that property (nothing at all when the old and
    the new value give no entry) and logs nothing. *)
Theorem diff_of_one_primitive_change (sortByItems : list value -> list value)
    (descriptor : TypeDescriptor) (fs : list (string * value)) (name : string)
    (v : value) (log : list string) :
  well_bound descriptor = true -> keyed descriptor = true ->
  wf_value (VObj fs) = true -> compatible descriptor (VObj fs) = true ->
  In name (Object_keys (td_properties descriptor)) ->
  pd_type (property_of descriptor name) <> TComplex ->
  diff sortByItems (VObj fs) (VObj (assoc_set name v fs)) descriptor log
  = (Ok match primitive_entry sortByItems (field (VObj fs) name) v with
        | Some e => [(name, e)]
        | None => []
        end, log).
Proof.
  intros WB KD W C Hname Hty.
  destruct (property_of_bound _ _ WB Hname) as [_ [Hbound _]].
  rewrite (diff_local sortByItems descriptor (VObj fs)
             (VObj (assoc_set name v fs)) (VObj fs) name
             (write_entry name
                (primitive_entry sortByItems (field (VObj fs) name) v))
             log WB KD W C eq_refl eq_refl Hname).
  - now destruct (primitive_entry sortByItems (field (VObj fs) name) v).
  - intros k Hne. split; [reflexivity | now apply field_assoc_set_other].
  - intros cr log0. exists log0.
    rewrite (process_property_primitive sortByItems
               (_processChanges sortByItems (td_depth descriptor))
               (VObj fs) (VObj (assoc_set name v fs)) descriptor
               (VObj fs) (VObj (assoc_set name v fs)) name name
               cr log0 eq_refl eq_refl Hbound Hty).
    now rewrite field_assoc_set_same.
Qed.

Lemma diff_of_one_primitive_change_witness :
  diff sortBy_primitives
    (VObj [("id", VStr "truck_1"); ("make", VStr "toyota");
           ("model", VStr "tacoma"); ("year", VNum 2022); ("msrp", VNum 15000);
           ("features", VArr [ObjectDiffExample.feature_1])])
    (VObj (assoc_set "msrp" (VNum 16000)
             [("id", VStr "truck_1"); ("make", VStr "toyota");
              ("model", VStr "tacoma"); ("year", VNum 2022); ("msrp", VNum 15000);
              ("features", VArr [ObjectDiffExample.feature_1])]))
    CarTypeDescriptorRegistry.automobile []
  = (Ok match primitive_entry sortBy_primitives
                (field (VObj [("id", VStr "truck_1"); ("make", VStr "toyota");
                              ("model", VStr "tacoma"); ("year", VNum 2022);
                              ("msrp", VNum 15000);
                              ("features", VArr [ObjectDiffExample.feature_1])])
                   "msrp")
                (VNum 16000) with
        | Some e => [("msrp", e)]
        | None => []
        end, []).
Proof.
  apply (diff_of_one_primitive_change sortBy_primitives
           CarTypeDescriptorRegistry.automobile
           [("id", VStr "truck_1"); ("make", VStr "toyota");
            ("model", VStr "tacoma"); ("year", VNum 2022); ("msrp", VNum 15000);
            ("features", VArr [ObjectDiffExample.feature_1])]
           "msrp" (VNum 16000) []); try reflexivity.
  - simpl. tauto.
  - discriminate.
Defined.

(** ** A single added or removed element *)

Lemma first_with_key_app (pks : list string) (k : string) (xs ys : list value)
    (f : value) :
  first_with_key pks k xs = Some f ->
  first_with_key pks k (xs ++ ys)%list = Some f.
Proof.
  unfold first_with_key. induction xs as [|x xs IH]; simpl; [discriminate|].
  destruct (String.eqb (canonical_key x pks) k); [tauto | exact IH].
Qed.

(** An array against itself with one element of a new identity appended:
    the new element is the only unmatched one, and every other element is
    paired with itself. *)
Lemma _getChanges_appended (pks : list string) (xs : list value) (a : value) :
  forallb is_record xs = true -> is_record a = true ->
  ~ In (canonical_key a pks) (map (fun x => canonical_key x pks) xs) ->
  exists pairs,
    _getChanges xs (xs ++ [a])%list pks = Ok (MkChanges [] [a] pairs) /\
    Forall (fun p => from p = to p /\ In (from p) xs) pairs.
Proof.
  intros Rx Ra Hnew.
  assert (Ry : forallb is_record (xs ++ [a])%list = true).
  { rewrite forallb_app, Rx. simpl. now rewrite Ra. }
  rewrite (_getChanges_not_nil _ _ _ (records_not_nil _ Rx) (records_not_nil _ Ry)).
  cbv zeta.
  destruct (rmap_pair_for_ok pks xs (xs ++ [a])%list
              (matched_keys pks xs (xs ++ [a])%list) Rx Ry) as [pairs Hp];
    [intros k Hk; now apply matched_keys_In|].
  rewrite Hp. simpl. exists pairs. split.
  - f_equal. f_equal.
    + apply filter_nil. intros x Hx. apply negb_false_iff, includes_In.
      apply matched_keys_In. split; exists x; split; try reflexivity;
        try assumption. apply in_or_app. now left.
    + unfold unmatched_items. rewrite filter_app. simpl.
      rewrite filter_nil.
      * assert (E : includes String.eqb (matched_keys pks xs (xs ++ [a])%list)
                      (canonical_key a pks) = false).
        { apply includes_not_In. rewrite matched_keys_In.
          intros [[x [Hx Ex]] _]. apply Hnew. rewrite <- Ex.
          apply in_map_iff. now exists x. }
        now rewrite E.
      * intros x Hx. apply negb_false_iff, includes_In.
        apply matched_keys_In. split; exists x; split; try reflexivity;
          try assumption. apply in_or_app. now left.
  - destruct (rmap_pair_for _ _ _ _ _ Hp) as [_ HF].
    rewrite Forall_forall in *. intros p Hpin.
    destruct (HF p Hpin) as [Ff [Ft _]].
    rewrite (first_with_key_app _ _ _ [a] _ Ff) in Ft.
    split; [congruence|].
    exact (proj1 (first_with_key_Some _ _ _ _ Ff)).
Qed.

Lemma snapshot_run (root item : value) (td : TypeDescriptor)
    (snap : list (string * value)) (log : list string) :
  snapshot_result td item = Ok snap ->
  exists log', snapshot root item td log = (Ok snap, log').
Proof.
  intros H. apply fst_ok_run. now rewrite snapshot_result_run.
Qed.

(** X27.  Appending one element of a new identity to a complex array
    changes one entry: with a fully configured descriptor none of whose
    property or primary-key names is a name records inherit from
    [Object.prototype], and a well-formed value compatible with it, [diff] from the value to the
    value with the element appended returns exactly one entry, the
    property's array holding the element's snapshot under the added
    marker; in the opposite direction it returns the same snapshot under
    the removed marker.  Nothing is logged. *)
Theorem diff_of_one_added_element (sortByItems : list value -> list value)
    (descriptor td : TypeDescriptor) (fs : list (string * value))
    (name : string) (pks : list string) (xs : list value) (a : value)
    (snap : list (string * value)) (log : list string) :
  well_bound descriptor = true -> keyed descriptor = true ->
  own_names descriptor = true ->
  wf_value (VObj fs) = true -> compatible descriptor (VObj fs) = true ->
  In name (Object_keys (td_properties descriptor)) ->
  pd_type (property_of descriptor name) = TComplex ->
  pd_descriptor (property_of descriptor name) = Some td ->
  _toArray (td_primaryKey td) = Some pks ->
  field (VObj fs) name = VArr xs ->
  is_record a = true ->
  ~ In (canonical_key a pks) (map (fun x => canonical_key x pks) xs) ->
  snapshot_result td a = Ok snap ->
  diff sortByItems (VObj fs) (VObj (assoc_set name (VArr (xs ++ [a])) fs))
    descriptor log
  = (Ok [(name, VArr [added_entry snap])], log) /\
  diff sortByItems (VObj (assoc_set name (VArr (xs ++ [a])) fs)) (VObj fs)
    descriptor log
  = (Ok [(name, VArr [removed_entry snap])], log).
Proof.
  intros WB KD _ W C Hname Hty Htd Hpks Fx Ra Hnew Hsnap.
  destruct (property_of_bound _ _ WB Hname) as [Hin [Hbound _]].
  pose proof (compatible_property _ _ _ _ _ C Hin Hty Htd) as Shape.
  rewrite Fx in Shape.
  pose proof (compatible_items_records _ _ Shape) as Rec.
  pose proof (wf_value_field (VObj fs) name W) as Wf. rewrite Fx in Wf.
  destruct (_getChanges_appended pks xs a Rec Ra Hnew) as [pairs [Hg Hp]].
  assert (Ry : forallb is_record (xs ++ [a])%list = true).
  { rewrite forallb_app, Rec. simpl. now rewrite Ra. }
  pose proof (_getChanges_swap pks xs (xs ++ [a])%list _
                (records_not_nil _ Rec) (records_not_nil _ Ry) Hg) as Hg'.
  simpl in Hg'.
  assert (Dtd : (td_depth td < td_depth descriptor)%nat)
    by exact (nested_depth _ _ _ _ Hin Htd).
  assert (Q : forall r1 r2,
            Forall (quiet_pair (_processChanges sortByItems (td_depth descriptor))
                      r1 r2 td) pairs).
  { intros r1 r2. rewrite Forall_forall in *. intros p Hpin log0.
    destruct (Hp p Hpin) as [E Hf]. rewrite <- E. apply _processChanges_same.
    - lia.
    - exact (wf_value_items _ _ Wf Hf).
    - exact (forallb_In _ _ _ Shape Hf). }
  assert (Q' : forall r1 r2,
            Forall (quiet_pair (_processChanges sortByItems (td_depth descriptor))
                      r1 r2 td)
              (map (fun p => MkInBoth (primaryKey p) (to p) (from p)) pairs)).
  { intros r1 r2. rewrite Forall_forall in *. intros q Hq.
    apply in_map_iff in Hq. destruct Hq as [p [<- Hpin]].
    destruct (Hp p Hpin) as [E Hf]. unfold quiet_pair. simpl. rewrite <- E.
    pose proof (Q r1 r2) as Qp. rewrite Forall_forall in Qp.
    pose proof (Qp p Hpin) as G. unfold quiet_pair in G. rewrite <- E in G.
    exact G. }
  assert (Hm : forall r1 r2 c0 l, exists l',
             matched_pairs (_processChanges sortByItems (td_depth descriptor))
               r1 r2 name pks td pairs c0 l = (Ok c0, l'))
    by (intros; apply matched_pairs_quiet; apply Q).
  assert (Hm' : forall r1 r2 c0 l, exists l',
             matched_pairs (_processChanges sortByItems (td_depth descriptor))
               r1 r2 name pks td
               (map (fun p => MkInBoth (primaryKey p) (to p) (from p)) pairs)
               c0 l = (Ok c0, l'))
    by (intros; apply matched_pairs_quiet; apply Q').
  split.
  - rewrite (diff_local sortByItems descriptor (VObj fs)
               (VObj (assoc_set name (VArr (xs ++ [a])) fs)) (VObj fs) name
               (fun cr => if entry_missing cr name
                          then assoc_set name (VArr [added_entry snap]) cr
                          else cr)
               log WB KD W C eq_refl eq_refl Hname).
    + reflexivity.
    + intros k Hne. split; [reflexivity | now apply field_assoc_set_other].
    + intros cr log0.
      rewrite (process_property_complex sortByItems _ _ _ descriptor
                 (VObj fs) (VObj (assoc_set name (VArr (xs ++ [a])) fs))
                 name name td pks cr eq_refl eq_refl Hbound Hty Htd Hpks).
      rewrite Fx, field_assoc_set_same.
      unfold complex_arrays. rewrite Hg. walk_simpl.
      cbn [removed added inBoth]. unfold emit_unmatched.
      destruct (snapshot_run (VObj (assoc_set name (VArr (xs ++ [a])) fs))
                  a td snap log0 Hsnap) as [log1 Hs].
      destruct (entry_missing cr name);
        unfold snapshot_entries, mapM, bind, ret; rewrite ?Hs;
        match goal with
        | |- context [matched_pairs ?s ?r1 ?r2 ?n ?p ?t ?ps ?c ?l] =>
            destruct (Hm r1 r2 c l) as [log2 Hm2]; rewrite Hm2
        end; now exists log2.
  - rewrite (diff_local sortByItems descriptor
               (VObj (assoc_set name (VArr (xs ++ [a])) fs)) (VObj fs) (VObj fs)
               name
               (fun cr => if entry_missing cr name
                          then assoc_set name (VArr [removed_entry snap]) cr
                          else cr)
               log WB KD W C eq_refl eq_refl Hname).
    + reflexivity.
    + intros k Hne. split; [now apply field_assoc_set_other | reflexivity].
    + intros cr log0.
      rewrite (process_property_complex sortByItems _ _ _ descriptor
                 (VObj (assoc_set name (VArr (xs ++ [a])) fs)) (VObj fs)
                 name name td pks cr eq_refl eq_refl Hbound Hty Htd Hpks).
      rewrite Fx, field_assoc_set_same.
      unfold complex_arrays. rewrite Hg'. walk_simpl.
      cbn [removed added inBoth]. unfold emit_unmatched.
      destruct (snapshot_run (VObj (assoc_set name (VArr (xs ++ [a])) fs))
                  a td snap log0 Hsnap) as [log1 Hs].
      destruct (entry_missing cr name);
        unfold snapshot_entries, mapM, bind, ret; rewrite ?Hs;
        match goal with
        | |- context [matched_pairs ?s ?r1 ?r2 ?n ?p ?t ?ps ?c ?l] =>
            destruct (Hm' r1 r2 c l) as [log2 Hm2]; rewrite Hm2
        end; now exists log2.
Qed.

Lemma diff_of_one_added_element_witness :
  diff sortBy_primitives
    (VObj [("cars", VArr []); ("trucks", VArr [ObjectDiffExample.truck])])
    (VObj (assoc_set "trucks"
             (VArr ([ObjectDiffExample.truck] ++ [ObjectDiffExample.addedCar]))
             [("cars", VArr []); ("trucks", VArr [ObjectDiffExample.truck])]))
    CarTypeDescriptorRegistry.automobileCollection []
  = (Ok [("trucks", VArr [added_entry SwapExample.added_snapshot])], []) /\
  diff sortBy_primitives
    (VObj (assoc_set "trucks"
             (VArr ([ObjectDiffExample.truck] ++ [ObjectDiffExample.addedCar]))
             [("cars", VArr []); ("trucks", VArr [ObjectDiffExample.truck])]))
    (VObj [("cars", VArr []); ("trucks", VArr [ObjectDiffExample.truck])])
    CarTypeDescriptorRegistry.automobileCollection []
  = (Ok [("trucks", VArr [removed_entry SwapExample.added_snapshot])], []).
Proof.
  apply (diff_of_one_added_element sortBy_primitives
           CarTypeDescriptorRegistry.automobileCollection
           CarTypeDescriptorRegistry.automobile
           [("cars", VArr []); ("trucks", VArr [ObjectDiffExample.truck])]
           "trucks" ["id"] [ObjectDiffExample.truck] ObjectDiffExample.addedCar
           SwapExample.added_snapshot []); try reflexivity.
  - simpl. tauto.
  - simpl. intros [H | []]. discriminate.
Defined.

(** ** The order of the properties in a descriptor *)

Lemma assoc_permutation {A} (k : string) (l l' : list (string * A)) :
  NoDup (map fst l) -> Permutation l l' -> assoc k l = assoc k l'.
Proof.
  intros ND P.
  assert (ND' : NoDup (map fst l'))
    by exact (Permutation_NoDup (Permutation_map fst P) ND).
  destruct (assoc k l) as [v|] eqn:E.
  - symmetry. apply assoc_NoDup; [assumption|].
    exact (Permutation_in _ P (assoc_In _ _ _ E)).
  - destruct (assoc k l') as [v'|] eqn:E'; [|reflexivity].
    rewrite <- E. apply assoc_NoDup; [assumption|].
    exact (Permutation_in _ (Permutation_sym P) (assoc_In _ _ _ E')).
Qed.

Lemma fold_max_permutation (l l' : list nat) :
  Permutation l l' -> fold_right Nat.max O l = fold_right Nat.max O l'.
Proof.
  induction 1 as [| x l l' _ IH | x y l | l l' l'' _ IH1 _ IH2]; simpl;
    [reflexivity | now rewrite IH | lia | congruence].
Qed.

Lemma td_depth_permutation (name : string)
    (ps ps' : list (string * PropertyDescriptor)) (pk : option PrimaryKey) :
  Permutation ps ps' ->
  td_depth (MkTypeDescriptor name ps pk) = td_depth (MkTypeDescriptor name ps' pk).
Proof.
  intros P. simpl. apply fold_max_permutation. now apply Permutation_map.
Qed.

Section SameProperties.
Variable sortByItems : list value -> list value.
Variable self :
  ChangeResult -> value -> value -> value -> value -> TypeDescriptor ->
  M ChangeResult.
Variables fromRoot toRoot : value.
Variables d d' : TypeDescriptor.
Hypothesis Hname : td_name d = td_name d'.
Hypothesis Hprops : forall key, property_of d key = property_of d' key.

Lemma process_property_same_properties (x y : value) (key : string)
    (cr : ChangeResult) :
  process_property sortByItems self fromRoot toRoot d x y key cr
  = process_property sortByItems self fromRoot toRoot d' x y key cr.
Proof.
  unfold process_property, msg_need_name, msg_need_descriptor,
    msg_need_primaryKey.
  now rewrite Hprops, Hname.
Qed.

Lemma process_keys_same_properties (x y : value) (keys : list string) :
  forall cr log,
    process_keys sortByItems self fromRoot toRoot d x y keys cr log
    = process_keys sortByItems self fromRoot toRoot d' x y keys cr log.
Proof.
  induction keys as [|key rest IH]; intros cr log; simpl; [reflexivity|].
  apply bind_ext; [now rewrite process_property_same_properties|].
  intros [cr1 | cr1] log1; [reflexivity | apply IH].
Qed.
End SameProperties.

(** X28.  The order in which a descriptor lists its properties does not
    matter: two descriptors with the same name, the same primary key and
    the same properties under distinct keys, listed in any two orders,
    give the same result and the same messages.  The properties are
    visited in the sorted order of their keys. *)
Theorem diff_property_order (sortByItems : list value -> list value)
    (name : string) (ps ps' : list (string * PropertyDescriptor))
    (pk : option PrimaryKey) (from to : value) (log : list string) :
  NoDup (Object_keys ps) -> Permutation ps ps' ->
  diff sortByItems from to (MkTypeDescriptor name ps pk) log
  = diff sortByItems from to (MkTypeDescriptor name ps' pk) log.
Proof.
  intros ND P. unfold diff.
  rewrite <- (td_depth_permutation name ps ps' pk P).
  simpl _processChanges. cbn [td_properties].
  rewrite <- (sortBy_permutation (Object_keys ps) (Object_keys ps'))
    by (unfold Object_keys; now apply Permutation_map).
  apply process_keys_same_properties; [reflexivity|].
  intros key. unfold property_of. cbn [td_properties].
  now rewrite (assoc_permutation key ps ps' ND P).
Qed.

Lemma diff_property_order_witness :
  diff sortBy_primitives (VObj [("cost", VNum 1); ("msrp", VNum 2)])
    (VObj [("cost", VNum 3); ("msrp", VNum 4)])
    (MkTypeDescriptor "Car"
       [("cost", MkPropertyDescriptor TNumber None (Some "cost"));
        ("msrp", MkPropertyDescriptor TNumber None (Some "msrp"))] None) []
  = diff sortBy_primitives (VObj [("cost", VNum 1); ("msrp", VNum 2)])
      (VObj [("cost", VNum 3); ("msrp", VNum 4)])
      (MkTypeDescriptor "Car"
         [("msrp", MkPropertyDescriptor TNumber None (Some "msrp"));
          ("cost", MkPropertyDescriptor TNumber None (Some "cost"))] None) [].
Proof.
  apply (diff_property_order sortBy_primitives "Car"
           [("cost", MkPropertyDescriptor TNumber None (Some "cost"));
            ("msrp", MkPropertyDescriptor TNumber None (Some "msrp"))]
           [("msrp", MkPropertyDescriptor TNumber None (Some "msrp"));
            ("cost", MkPropertyDescriptor TNumber None (Some "cost"))]
           None).
  - repeat constructor; simpl; intuition discriminate.
  - apply perm_swap.
Defined.

(** ** The values the projector accepts *)

Lemma projectable_property (d td : TypeDescriptor) (x : value) (key : string)
    (pd : PropertyDescriptor) :
  projectable d x = true -> In (key, pd) (td_properties d) ->
  isNil x = false /\
  (pd_type pd = TComplex -> pd_descriptor pd = Some td ->
   match field x key with
   | VArr items => forallb (projectable td) items = true
   | v => isNil v = true
   end).
Proof.
  destruct d as [n ps pk]. simpl. rewrite andb_true_iff. intros [N H] Hin.
  split.
  - destruct ps; [destruct Hin|]. rewrite orb_false_r in N.
    now apply negb_true_iff in N.
  - intros Hty Hd. pose proof (forallb_In _ _ _ H Hin) as P. simpl in P.
    destruct pd as [ty nested nm]. simpl in Hty, Hd. subst ty nested.
    destruct (field x key); assumption.
Qed.

Lemma mapM_returns {A B} (f : A -> M B) (l : list A) :
  (forall x, In x l -> forall log, exists y log', f x log = (Ok y, log')) ->
  forall log, exists ys log', mapM f l log = (Ok ys, log').
Proof.
  induction l as [|x l IH]; intros H log; simpl.
  - now exists [], log.
  - destruct (H x (or_introl eq_refl) log) as [y [log1 Hy]].
    destruct (IH (fun z Hz => H z (or_intror Hz)) log1) as [ys [log2 Hys]].
    exists (y :: ys), log2.
    rewrite (bind_run_ok _ _ _ _ _ Hy). now rewrite (bind_run_ok _ _ _ _ _ Hys).
Qed.

Lemma mapM_returned {A B} (f : A -> M B) (l : list A) :
  forall ys log log',
    mapM f l log = (Ok ys, log') ->
    forall x, In x l -> exists y la lb, f x la = (Ok y, lb).
Proof.
  induction l as [|x l IH]; intros ys log log' H z Hz; [destruct Hz|].
  simpl in H. apply bind_ok_inv in H. destruct H as [y [log1 [Hy H]]].
  apply bind_ok_inv in H. destruct H as [ys' [log2 [Hys _]]].
  destruct Hz as [<- | Hz]; [now exists y, log, log1|].
  exact (IH _ _ _ Hys z Hz).
Qed.

Section DomainProjector.
Variable self :
  list (string * value) -> value -> value -> TypeDescriptor ->
  M (list (string * value)).
Variable descriptor : TypeDescriptor.
Variables root x : value.
Hypothesis WB : well_bound descriptor = true.
Hypothesis self_domain :
  forall td item,
    (td_depth td < td_depth descriptor)%nat -> well_bound td = true ->
    ((exists s la lb, self [] root item td la = (Ok s, lb)) <->
     projectable td item = true).
Hypothesis self_any_log :
  forall td item s la lb,
    (td_depth td < td_depth descriptor)%nat -> well_bound td = true ->
    self [] root item td la = (Ok s, lb) ->
    forall log, exists s' log', self [] root item td log = (Ok s', log').

Lemma transform_keys_returns (keys : list string) :
  projectable descriptor x = true ->
  (forall k, In k keys -> In k (Object_keys (td_properties descriptor))) ->
  forall result log, exists s log',
    transform_keys self root x descriptor keys result log = (Ok s, log').
Proof.
  intros P. induction keys as [|key rest IH]; intros Hkeys result log.
  - now exists result, log.
  - assert (Hrest : forall k, In k rest ->
                      In k (Object_keys (td_properties descriptor)))
      by (intros k Hk; apply Hkeys; now right).
    destruct (property_of_bound _ _ WB (Hkeys key (or_introl eq_refl)))
      as [Hin [Hname Hcomplex]].
    cbn [transform_keys]. rewrite Hname.
    destruct (pd_type (property_of descriptor key)) eqn:Hty.
    1-3: (destruct (projectable_property descriptor descriptor _ _ _ P Hin) as [Nx _];
          rewrite (prop_get_nonnil _ _ Nx); walk_simpl; now apply IH).
    destruct (Hcomplex eq_refl) as [td [Htd WBtd]]. rewrite Htd.
    destruct (projectable_property descriptor td _ _ _ P Hin) as [Nx Shape].
    specialize (Shape Hty Htd).
    rewrite (prop_get_nonnil _ _ Nx). walk_simpl.
    pose proof (nested_depth _ _ _ _ Hin Htd) as Dtd.
    destruct (field x key) as [| | | | |items|]; try discriminate;
      try (simpl; now apply IH).
    destruct (mapM_returns (fun item => self [] root item td) items) with (log := log)
      as [rendered [log1 Hr]].
    { intros item Hitem log0.
      destruct (proj2 (self_domain td item Dtd WBtd)
                  (forallb_In _ _ _ Shape Hitem)) as [s [la [lb Hs]]].
      exact (self_any_log _ _ _ _ _ Dtd WBtd Hs log0). }
    rewrite (bind_run_ok _ _ _ _ _ Hr). now apply IH.
Qed.

Lemma transform_keys_returned (keys : list string) :
  (forall k, In k keys -> In k (Object_keys (td_properties descriptor))) ->
  forall result s log log',
    transform_keys self root x descriptor keys result log = (Ok s, log') ->
    forall key, In key keys ->
      isNil x = false /\
      forall td,
        pd_type (property_of descriptor key) = TComplex ->
        pd_descriptor (property_of descriptor key) = Some td ->
        match field x key with
        | VArr items => forallb (projectable td) items = true
        | v => isNil v = true
        end.
Proof.
  induction keys as [|key0 rest IH]; intros Hkeys result s log log' H key Hkey;
    [destruct Hkey|].
  assert (Hrest : forall k, In k rest ->
                    In k (Object_keys (td_properties descriptor)))
    by (intros k Hk; apply Hkeys; now right).
  destruct (property_of_bound _ _ WB (Hkeys key0 (or_introl eq_refl)))
    as [Hin [Hname Hcomplex]].
  cbn [transform_keys] in H. rewrite Hname in H.
  apply bind_ok_inv in H. destruct H as [v [log1 [Hv H]]].
  assert (Nx : isNil x = false).
  { unfold lift, prop_get in Hv. destruct (isNil x); [discriminate | reflexivity]. }
  assert (Ev : v = field x key0).
  { unfold lift in Hv. rewrite (prop_get_nonnil _ _ Nx) in Hv. congruence. }
  subst v.
  destruct (pd_type (property_of descriptor key0)) eqn:Hty.
  1-3: (apply bind_ok_inv in H; destruct H as [w [log2 [_ H]]];
        destruct Hkey as [<- | Hkey];
        [ split; [assumption|]; intros td Hc; congruence
        | exact (IH Hrest _ _ _ _ H key Hkey) ]).
  destruct (Hcomplex eq_refl) as [td0 [Htd0 WBtd0]]. rewrite Htd0 in H.
  pose proof (nested_depth _ _ _ _ Hin Htd0) as Dtd.
  destruct (field x key0) as [| | | | |items|] eqn:Fv; simpl in H;
    try discriminate.
  1-2: (destruct Hkey as [<- | Hkey];
        [ split; [assumption|]; intros td _ _; now rewrite Fv
        | exact (IH Hrest _ _ _ _ H key Hkey) ]).
  apply bind_ok_inv in H. destruct H as [rendered [log2 [Hr H]]].
  destruct Hkey as [<- | Hkey]; [|exact (IH Hrest _ _ _ _ H key Hkey)].
  split; [assumption|]. intros td _ Htd. rewrite Fv.
  assert (td = td0) by congruence. subst td.
  apply forallb_forall. intros item Hitem.
  destruct (mapM_returned _ _ _ _ _ Hr item Hitem) as [s0 [la [lb Hs]]].
  apply (proj1 (self_domain td0 item Dtd WBtd0)). now exists s0, la, lb.
Qed.
End DomainProjector.

Lemma _processComplexTypeTransformations_any_log (n : nat)
    (descriptor : TypeDescriptor) (root item : value)
    (s : list (string * value)) (la lb : list string) :
  _processComplexTypeTransformations n [] root item descriptor la = (Ok s, lb) ->
  forall log, exists s' log',
    _processComplexTypeTransformations n [] root item descriptor log = (Ok s', log').
Proof.
  intros H log. exists s. apply fst_ok_run.
  rewrite (_processComplexTypeTransformations_fst n descriptor [] root root item
             log la).
  now rewrite H.
Qed.

Lemma _processComplexTypeTransformations_domain (n : nat) :
  forall descriptor root item,
    (td_depth descriptor < n)%nat -> well_bound descriptor = true ->
    ((exists s la lb,
        _processComplexTypeTransformations n [] root item descriptor la
        = (Ok s, lb)) <->
     projectable descriptor item = true).
Proof.
  induction n as [|n IH]; intros descriptor root item Hn WB; [lia|].
  assert (Hkeys : forall k, In k (sortBy (Object_keys (td_properties descriptor))) ->
                    In k (Object_keys (td_properties descriptor)))
    by (intros k Hk; now apply sortBy_In).
  assert (Hdom : forall td it,
            (td_depth td < td_depth descriptor)%nat -> well_bound td = true ->
            ((exists s la lb,
                _processComplexTypeTransformations n [] root it td la = (Ok s, lb)) <->
             projectable td it = true))
    by (intros td it Dtd WBtd; apply IH; [lia | assumption]).
  split.
  - intros [s [la [lb H]]]. simpl in H.
    pose proof (transform_keys_returned (_processComplexTypeTransformations n)
                  descriptor root item WB Hdom _ Hkeys _ _ _ _ H) as R.
    destruct descriptor as [nm ps pk] eqn:Ed. simpl.
    apply andb_true_iff. split.
    + destruct ps as [|[k0 pd0] ps']; [now rewrite orb_true_r|].
      rewrite orb_false_r. apply negb_true_iff.
      apply (R k0). apply sortBy_In. simpl. now left.
    + apply forallb_forall. intros [key pd] Hin.
      destruct pd as [ty nested name]. destruct ty; try reflexivity.
      destruct nested as [d'|]; [|reflexivity].
      assert (Hk : In key (Object_keys ps)).
      { unfold Object_keys. apply in_map_iff.
        now exists (key, MkPropertyDescriptor TComplex (Some d') name). }
      assert (Hprop : property_of (MkTypeDescriptor nm ps pk) key
                      = MkPropertyDescriptor TComplex (Some d') name).
      { unfold property_of. cbn [td_properties].
        rewrite (assoc_NoDup key (MkPropertyDescriptor TComplex (Some d') name) ps);
          [reflexivity | | assumption].
        rewrite <- Ed in WB. pose proof (well_bound_keys _ WB) as ND.
        subst descriptor. exact ND. }
      destruct (R key (proj2 (sortBy_In _ _) Hk)) as [_ Rk].
      specialize (Rk d'). rewrite Hprop in Rk. specialize (Rk eq_refl eq_refl).
      destruct (field item key); assumption.
  - intros P. simpl.
    destruct (transform_keys_returns (_processComplexTypeTransformations n)
                descriptor root item WB Hdom) with
      (keys := sortBy (Object_keys (td_properties descriptor)))
      (result := @nil (string * value)) (log := @nil string) as [s [log' H]];
      try assumption.
    + intros td it s0 la lb Dtd WBtd Hs log0.
      exact (_processComplexTypeTransformations_any_log _ _ _ _ _ _ _ Hs log0).
    + now exists s, [], log'.
Qed.

(** X29.  The values the snapshot projector accepts: with a descriptor
    built by [TypeDescriptors.create] at every level, the projector returns
    a snapshot for the values that are not [null] or [undefined] (unless
    the descriptor has no property) and whose complex properties each hold
    [null], [undefined] or an array of values it accepts for the nested
    descriptor; on every other value it throws. *)
Theorem snapshot_returns_or_throws (root item : value)
    (descriptor : TypeDescriptor) (log : list string) :
  well_bound descriptor = true ->
  if projectable descriptor item
  then exists snap, fst (snapshot root item descriptor log) = Ok snap
  else exists e, fst (snapshot root item descriptor log) = Throw e.
Proof.
  intros WB. unfold snapshot.
  pose proof (_processComplexTypeTransformations_domain (S (td_depth descriptor))
                descriptor root item (Nat.lt_succ_diag_r _) WB) as D.
  destruct (projectable descriptor item) eqn:P.
  - destruct (proj2 D eq_refl) as [s [la [lb H]]].
    destruct (_processComplexTypeTransformations_any_log _ _ _ _ _ _ _ H log)
      as [s' [log' H']].
    exists s'. now rewrite H'.
  - pose proof (_processComplexTypeTransformations_fueled (S (td_depth descriptor))
                  descriptor [] root item (Nat.lt_succ_diag_r _) log) as F.
    destruct (_processComplexTypeTransformations (S (td_depth descriptor)) []
                root item descriptor log) as [[s|e|] log'] eqn:H.
    + assert (T : false = true); [|discriminate].
      apply (proj1 D). now exists s, log, log'.
    + now exists e.
    + now contradiction F.
Qed.

Lemma snapshot_returns_or_throws_witness :
  if projectable CarTypeDescriptorRegistry.automobile
       (VObj [("id", VStr "car_1"); ("features", VStr "none")])
  then exists snap,
         fst (snapshot VUndefined
                (VObj [("id", VStr "car_1"); ("features", VStr "none")])
                CarTypeDescriptorRegistry.automobile []) = Ok snap
  else exists e,
         fst (snapshot VUndefined
                (VObj [("id", VStr "car_1"); ("features", VStr "none")])
                CarTypeDescriptorRegistry.automobile []) = Throw e.
Proof.
  apply (snapshot_returns_or_throws VUndefined
           (VObj [("id", VStr "car_1"); ("features", VStr "none")])
           CarTypeDescriptorRegistry.automobile []).
  reflexivity.
Defined.
